(** * Robin: XML/HTML parser and XPath 1.0 engine -- a shallow embedding

    The development follows the TypeScript sources:
    - [nodes.ts]   the document tree (node classes);
    - [tokens.ts]  markup tokens;
    - [lexer.ts]   the markup lexer ([Lexer], [XmlLexer], [HtmlLexer]);
    - [parser.ts]  [NamespaceScopeTable], [XmlParser], [HtmlParser];
    - [xpath.ts]   the query AST, [XDataEval], [PathState] and [XPath].

    JavaScript objects live in a store (a list of node records addressed by
    their position), so that object identity, the [parent] back links and the
    [index] fields are modelled as the code has them.  Methods that mutate
    the parser are functions in a state-and-error monad; loops and recursive
    descent take fuel. *)

From Stdlib Require Import ZArith QArith Qround Qabs String Ascii List Bool Lia
  Sorting.Sorted.
From stdpp Require Import base option list strings.

Set Default Proof Using "Type".
Local Open Scope string_scope.
Local Open Scope list_scope.
Local Open Scope Z_scope.

(** ** JavaScript strings and numbers *)

Module Js.

(** Characters stripped by [String.prototype.trim] and matched by [\s],
    among the code units below 256: U+0009 to U+000D, the space and the
    no-break space U+00A0. *)
Definition isWhitespace (c : ascii) : bool :=
  match nat_of_ascii c with
  | 9%nat | 10%nat | 11%nat | 12%nat | 13%nat | 32%nat | 160%nat => true
  | _ => false
  end.

Fixpoint trimStart (s : string) : string :=
  match s with
  | String c r => if isWhitespace c then trimStart r else s
  | EmptyString => s
  end.

Definition trimEnd (s : string) : string :=
  String.rev (trimStart (String.rev s)).

Definition trim (s : string) : string := trimEnd (trimStart s).

Definition toLowerCaseChar (c : ascii) : ascii :=
  let n := nat_of_ascii c in
  if (65 <=? n)%nat && (n <=? 90)%nat then ascii_of_nat (n + 32) else c.

Fixpoint toLowerCase (s : string) : string :=
  match s with
  | String c r => String (toLowerCaseChar c) (toLowerCase r)
  | EmptyString => EmptyString
  end.

Definition startsWith (s p : string) : bool := String.prefix p s.

(** [s.slice(from)] and [s.slice(from, to)] for non-negative bounds. *)
Definition sliceFrom (s : string) (from : nat) : string :=
  String.substring from (String.length s - from) s.

Definition slice (s : string) (from to : nat) : string :=
  String.substring from (to - from) s.

(** [s.slice(from, -k)] *)
Definition sliceNeg (s : string) (from k : nat) : string :=
  slice s from (String.length s - k).

Fixpoint includes (s sub : string) : bool :=
  String.prefix sub s ||
  match s with
  | String _ r => includes r sub
  | EmptyString => false
  end.

(** [s.indexOf(sub)]; [None] stands for [-1]. *)
Fixpoint indexOf (s sub : string) : option nat :=
  if String.prefix sub s then Some 0%nat
  else match s with
       | String _ r => S <$> indexOf r sub
       | EmptyString => None
       end.

(** Truthiness of a string: non-empty. *)
Definition truthy (s : string) : bool :=
  match s with EmptyString => false | _ => true end.

(** The JavaScript [number] type.  Finite values are kept as exact
    rationals: every finite double is a rational, and [Math.round],
    comparisons and the integer arithmetic used on indices and positions
    are exact on them.  The rounding of double arithmetic on large
    magnitudes and the sign of zero are not represented. *)
Inductive number :=
| NaN
| Infinity (negative : bool)
| Finite (q : Q).

Definition ofZ (z : Z) : number := Finite (inject_Z z).
Definition ofNat (n : nat) : number := ofZ (Z.of_nat n).

Definition isNaN (x : number) : bool :=
  match x with NaN => true | _ => false end.

(** [x === y] on numbers. *)
Definition eqb (x y : number) : bool :=
  match x, y with
  | Finite p, Finite q => Qeq_bool p q
  | Infinity a, Infinity b => Bool.eqb a b
  | _, _ => false
  end.

(** [x < y] *)
Definition ltb (x y : number) : bool :=
  match x, y with
  | NaN, _ | _, NaN => false
  | Finite p, Finite q => negb (Qle_bool q p)
  | Infinity true, Infinity true => false
  | Infinity true, _ => true
  | Infinity false, _ => false
  | Finite _, Infinity b => negb b
  end.

(** [x <= y] *)
Definition leb (x y : number) : bool :=
  match x, y with
  | NaN, _ | _, NaN => false
  | _, _ => ltb x y || eqb x y
  end.

(** [x >= 0] *)
Definition geb0 (x : number) : bool := leb (ofZ 0) x.

Definition neg (x : number) : number :=
  match x with
  | NaN => NaN
  | Infinity b => Infinity (negb b)
  | Finite q => Finite (- q)%Q
  end.

(** [x + y] without the rounding: the exact sum of two finite values.  The
    addition of doubles gives the double nearest to it, which is the exact
    sum whenever that is a double, as it is for integers that stay within
    2^53. *)
Definition add (x y : number) : number :=
  match x, y with
  | NaN, _ | _, NaN => NaN
  | Infinity a, Infinity b => if Bool.eqb a b then Infinity a else NaN
  | Infinity a, _ | _, Infinity a => Infinity a
  | Finite p, Finite q => Finite (Qred (p + q)%Q)
  end.

(** [x - y], the exact difference in the same way. *)
Definition sub (x y : number) : number := add x (neg y).

Definition sign_neg (q : Q) : bool := negb (Qle_bool 0%Q q).

Definition mul (x y : number) : number :=
  match x, y with
  | NaN, _ | _, NaN => NaN
  | Infinity a, Infinity b => Infinity (xorb a b)
  | Infinity a, Finite q | Finite q, Infinity a =>
      if Qeq_bool q 0%Q then NaN else Infinity (xorb a (sign_neg q))
  | Finite p, Finite q => Finite (Qred (p * q)%Q)
  end.

Definition div (x y : number) : number :=
  match x, y with
  | NaN, _ | _, NaN => NaN
  | Infinity _, Infinity _ => NaN
  | Infinity a, Finite q => Infinity (xorb a (sign_neg q))
  | Finite _, Infinity _ => Finite 0%Q
  | Finite p, Finite q =>
      if Qeq_bool q 0%Q
      then (if Qeq_bool p 0%Q then NaN else Infinity (sign_neg p))
      else Finite (Qred (p / q)%Q)
  end.

(** [x % y]: the remainder has the sign of the dividend. *)
Definition rem (x y : number) : number :=
  match x, y with
  | NaN, _ | _, NaN => NaN
  | Infinity _, _ => NaN
  | Finite p, Infinity _ => Finite p
  | Finite p, Finite q =>
      if Qeq_bool q 0%Q then NaN
      else
        let n := (Qabs p / Qabs q)%Q in
        let r := (Qabs p - inject_Z (Qfloor n) * Qabs q)%Q in
        Finite (Qred (if sign_neg p then (- r)%Q else r))
  end.

(** [Math.round]: the closest integer, ties towards positive infinity. *)
Definition round (x : number) : number :=
  match x with
  | Finite q => Finite (inject_Z (Qfloor (q + (1 # 2))%Q))
  | _ => x
  end.

Definition floor (x : number) : number :=
  match x with
  | Finite q => Finite (inject_Z (Qfloor q))
  | _ => x
  end.

Definition ceil (x : number) : number :=
  match x with
  | Finite q => Finite (inject_Z (Qceiling q))
  | _ => x
  end.

(** Truthiness of a number: neither zero nor NaN. *)
Definition truthyNumber (x : number) : bool :=
  match x with
  | NaN => false
  | Infinity _ => true
  | Finite q => negb (Qeq_bool q 0%Q)
  end.

(** The integer an [Array.prototype.slice]/[String.prototype.slice] bound
    denotes (ToIntegerOrInfinity): NaN is 0, fractions truncate. *)
Inductive bound := BNegInf | BInt (z : Z) | BPosInf.

Definition toIntegerOrInfinity (x : number) : bound :=
  match x with
  | NaN => BInt 0
  | Infinity true => BNegInf
  | Infinity false => BPosInf
  | Finite q => BInt (Z.quot (Qnum q) (Zpos (Qden q)))
  end.

(** The position in a string of length [len] that a slice bound denotes. *)
Definition clampBound (b : bound) (len : nat) : nat :=
  match b with
  | BNegInf => 0%nat
  | BPosInf => len
  | BInt z =>
      if z <? 0 then Z.to_nat (Z.max (Z.of_nat len + z) 0)
      else Nat.min (Z.to_nat z) len
  end.

(** [s.slice(start, end)] with arbitrary numeric bounds. *)
Definition sliceNum (s : string) (from to : number) : string :=
  let len := String.length s in
  let a := clampBound (toIntegerOrInfinity from) len in
  let b := clampBound (toIntegerOrInfinity to) len in
  String.substring a (b - a) s.

(** [s.slice(start)] *)
Definition sliceNumFrom (s : string) (from : number) : string :=
  let len := String.length s in
  let a := clampBound (toIntegerOrInfinity from) len in
  String.substring a (len - a) s.

End Js.

(** ** Results of fallible, possibly non-terminating code *)

(** What the code throws.  [error(token, msg)] of the parsers and of the
    evaluator prints its diagnostic and throws; the message is kept as the
    identity of the error. *)
Inductive Error :=
| LexError (msg : string)        (* the lexer handed out an error/unknown token *)
| ParseError (msg : string)      (* XmlParser.error / HtmlParser.error *)
| EvalError (msg : string)       (* XPath.error *)
| Unreachable (msg : string)     (* utils.unreachable *)
| AssertionError (msg : string)  (* assert(...) *)
| TypeError (msg : string).      (* a JavaScript TypeError *)

Inductive Result (A : Type) :=
| Ok (a : A)
| Err (e : Error)
| OutOfFuel.
Arguments Ok {A} a.
Arguments Err {A} e.
Arguments OutOfFuel {A}.

Definition isOk {A} (r : Result A) : bool :=
  match r with Ok _ => true | _ => false end.

Definition isErr {A} (r : Result A) : bool :=
  match r with Err _ => true | _ => false end.

(** *** State and errors

    A method of a stateful object is a function from the state of the object
    to a result and the new state, to a thrown error, or to no result at all
    when the fuel of a loop is used up. *)

Definition StateM (S A : Type) : Type := S → Result (A * S).

Global Instance StateM_ret {S} : MRet (StateM S) := λ A a st, Ok (a, st).
Global Instance StateM_bind {S} : MBind (StateM S) := λ A B f m st,
  match m st with
  | Ok (a, st') => f a st'
  | Err e => Err e
  | OutOfFuel => OutOfFuel
  end.

Definition throw {S A} (e : Error) : StateM S A := λ _, Err e.
Definition outOfFuel {S A} : StateM S A := λ _, OutOfFuel.
Definition gets {S A} (f : S → A) : StateM S A := λ st, Ok (f st, st).
Definition modify {S} (f : S → S) : StateM S unit := λ st, Ok (tt, f st).
Definition when_ {S} (b : bool) (m : StateM S unit) : StateM S unit :=
  if b then m else mret tt.

(** [while (cond) body] *)
Fixpoint while_ {S} (fuel : nat) (cond : StateM S bool) (body : StateM S unit)
    : StateM S unit :=
  match fuel with
  | O => outOfFuel
  | S fuel' =>
      b ← cond;
      if b : bool then body;; while_ fuel' cond body else mret tt
  end.

(** [do body while (cond)] *)
Definition doWhile {S} (fuel : nat) (body : StateM S unit) (cond : StateM S bool)
    : StateM S unit :=
  body;; while_ fuel cond body.

(** ** nodes.ts: the document tree *)

Inductive RNodeType :=
| Text | Comment | Attribute | Element | ProcessingInstruction
| Namespace | Root | DTD | XmlDecl.

Global Instance RNodeType_eq_dec : EqDecision RNodeType.
Proof. solve_decision. Defined.

(** A node object is identified by its address in the store. *)
Abbreviation NodeId := nat (only parsing).

Module RName.
Record t := mk { qname : string; lname : string; pname : string }.
End RName.

(** The [index] field: a number once [setParent] has run, [NaN] where the
    class initialises it so, [undefined] where it is declared with [!] and
    never assigned. *)
Inductive JsIndex :=
| IdxUndefined
| IdxNaN
| Idx (i : Z).

(** [Map<string, V>]: insertion-ordered, one entry per key. *)
Module JsMap.
Definition t (V : Type) := list (string * V).

Fixpoint get {V} (m : t V) (k : string) : option V :=
  match m with
  | [] => None
  | (k', v) :: r => if String.eqb k' k then Some v else get r k
  end.

Definition has {V} (m : t V) (k : string) : bool :=
  match get m k with Some _ => true | None => false end.

Fixpoint set {V} (m : t V) (k : string) (v : V) : t V :=
  match m with
  | [] => [(k, v)]
  | (k', v') :: r =>
      if String.eqb k' k then (k', v) :: r else (k', v') :: set r k v
  end.

Definition size {V} (m : t V) : nat := List.length m.
Definition values {V} (m : t V) : list V := map snd m.
End JsMap.

Module ElementNode.
Record t := mk {
    name : RName.t;
    hasChild : bool;
    hasParent : bool;
    hasText : bool;
    hasComment : bool;
    hasAttribute : bool;
    isSelfEnclosing : bool;
    isVoid : bool;
    isNamespaced : bool;
    children : list NodeId;
    namespace : option NodeId;
    attributes : JsMap.t NodeId;
    namespaces : list NodeId;
    mode : string
  }.

Definition new (name : RName.t) : t :=
  mk name false false false false false false false false [] None [] [] "XML".

Definition set_hasChild (b : bool) (e : t) : t :=
    let '(mk n _ hp ht hc ha se v ns ch nsp at_ nss md) := e in
    mk n b hp ht hc ha se v ns ch nsp at_ nss md.
Definition set_hasParent (b : bool) (e : t) : t :=
    let '(mk n hch _ ht hc ha se v ns ch nsp at_ nss md) := e in
    mk n hch b ht hc ha se v ns ch nsp at_ nss md.
Definition set_hasText (b : bool) (e : t) : t :=
    let '(mk n hch hp _ hc ha se v ns ch nsp at_ nss md) := e in
    mk n hch hp b hc ha se v ns ch nsp at_ nss md.
Definition set_hasComment (b : bool) (e : t) : t :=
    let '(mk n hch hp ht _ ha se v ns ch nsp at_ nss md) := e in
    mk n hch hp ht b ha se v ns ch nsp at_ nss md.
Definition set_hasAttribute (b : bool) (e : t) : t :=
    let '(mk n hch hp ht hc _ se v ns ch nsp at_ nss md) := e in
    mk n hch hp ht hc b se v ns ch nsp at_ nss md.
Definition set_isSelfEnclosing (b : bool) (e : t) : t :=
    let '(mk n hch hp ht hc ha _ v ns ch nsp at_ nss md) := e in
    mk n hch hp ht hc ha b v ns ch nsp at_ nss md.
Definition set_isVoid (b : bool) (e : t) : t :=
    let '(mk n hch hp ht hc ha se _ ns ch nsp at_ nss md) := e in
    mk n hch hp ht hc ha se b ns ch nsp at_ nss md.
Definition set_isNamespaced (b : bool) (e : t) : t :=
    let '(mk n hch hp ht hc ha se v _ ch nsp at_ nss md) := e in
    mk n hch hp ht hc ha se v b ch nsp at_ nss md.
Definition set_children (c : list NodeId) (e : t) : t :=
    let '(mk n hch hp ht hc ha se v ns _ nsp at_ nss md) := e in
    mk n hch hp ht hc ha se v ns c nsp at_ nss md.
Definition set_namespace (x : option NodeId) (e : t) : t :=
    let '(mk n hch hp ht hc ha se v ns ch _ at_ nss md) := e in
    mk n hch hp ht hc ha se v ns ch x at_ nss md.
Definition set_attributes (x : JsMap.t NodeId) (e : t) : t :=
    let '(mk n hch hp ht hc ha se v ns ch nsp _ nss md) := e in
    mk n hch hp ht hc ha se v ns ch nsp x nss md.
Definition set_namespaces (x : list NodeId) (e : t) : t :=
    let '(mk n hch hp ht hc ha se v ns ch nsp at_ _ md) := e in
    mk n hch hp ht hc ha se v ns ch nsp at_ x md.
Definition set_mode (x : string) (e : t) : t :=
    let '(mk n hch hp ht hc ha se v ns ch nsp at_ nss _) := e in
    mk n hch hp ht hc ha se v ns ch nsp at_ nss x.
End ElementNode.

Module TextNode.
Record t := mk { value : string; hasEntity : bool; isCData : bool }.
Definition new (value : string) : t := mk value false false.
End TextNode.

Module AttributeNode.
Record t := mk { name : RName.t; value : string; namespace : option NodeId }.
Definition new (name : RName.t) (value : string) : t := mk name value None.
Definition set_namespace (x : option NodeId) (a : t) : t :=
    mk (name a) (value a) x.
End AttributeNode.

Module NamespaceNode.
Record t := mk { prefix : string; uri : string; isDefault : bool; isGlobal : bool }.
Definition new (prefix uri : string) : t := mk prefix uri false false.
End NamespaceNode.

Module CommentNode.
Record t := mk { value : string }.
End CommentNode.

Module PINode.
Record t := mk { target : string; value : string }.
End PINode.

Module RootNode.
Record t := mk {
    name : string;
    xmlDecl : option (NodeId * nat);   (* { node, pos } *)
    dtdDecl : option (NodeId * nat);
    rootElement : option NodeId;
    hasChild : bool;
    isWellFormed : bool;
    children : list NodeId;
    namespaces : list NodeId
  }.
Definition new (name : string) : t := mk name None None None false false [] [].

Definition set_xmlDecl (x : option (NodeId * nat)) (r : t) : t :=
    mk (name r) x (dtdDecl r) (rootElement r) (hasChild r) (isWellFormed r)
       (children r) (namespaces r).
Definition set_dtdDecl (x : option (NodeId * nat)) (r : t) : t :=
    mk (name r) (xmlDecl r) x (rootElement r) (hasChild r) (isWellFormed r)
       (children r) (namespaces r).
Definition set_rootElement (x : option NodeId) (r : t) : t :=
    mk (name r) (xmlDecl r) (dtdDecl r) x (hasChild r) (isWellFormed r)
       (children r) (namespaces r).
Definition set_hasChild (x : bool) (r : t) : t :=
    mk (name r) (xmlDecl r) (dtdDecl r) (rootElement r) x (isWellFormed r)
       (children r) (namespaces r).
Definition set_isWellFormed (x : bool) (r : t) : t :=
    mk (name r) (xmlDecl r) (dtdDecl r) (rootElement r) (hasChild r) x
       (children r) (namespaces r).
Definition set_children (x : list NodeId) (r : t) : t :=
    mk (name r) (xmlDecl r) (dtdDecl r) (rootElement r) (hasChild r)
       (isWellFormed r) x (namespaces r).
Definition set_namespaces (x : list NodeId) (r : t) : t :=
    mk (name r) (xmlDecl r) (dtdDecl r) (rootElement r) (hasChild r)
       (isWellFormed r) (children r) x.
End RootNode.

Module DTDNode.
Record t := mk { value : string }.
End DTDNode.

Module XMLDeclNode.
Record t := mk { attributes : JsMap.t NodeId }.
Definition new : t := mk [].
End XMLDeclNode.

(** [RNodeT]: the tagged union of the nine node classes. *)
Inductive RNodeT :=
| ElementB (e : ElementNode.t)
| TextB (t : TextNode.t)
| AttributeB (a : AttributeNode.t)
| NamespaceB (n : NamespaceNode.t)
| RootB (r : RootNode.t)
| CommentB (c : CommentNode.t)
| PIB (p : PINode.t)
| DTDB (d : DTDNode.t)
| XMLDeclB (x : XMLDeclNode.t).

(** The fields every node class has ([parent], [index], the private [pos])
    and the class-specific ones. *)
Record RNode := mkNode {
  parent : option NodeId;
  index : JsIndex;
  pos : Z;
  obj : RNodeT
}.

Definition _type (n : RNode) : RNodeType :=
  match obj n with
  | ElementB _ => Element
  | TextB _ => Text
  | AttributeB _ => Attribute
  | NamespaceB _ => Namespace
  | RootB _ => Root
  | CommentB _ => Comment
  | PIB _ => ProcessingInstruction
  | DTDB _ => DTD
  | XMLDeclB _ => XmlDecl
  end.

(** Field initialisers of the classes: [pos = -1] everywhere; [index] is
    [NaN] for attribute, namespace, root, DTD and declaration nodes and is
    left unassigned for element, text, comment and PI nodes. *)
Definition newElementNode (name : RName.t) : RNode :=
  mkNode None IdxUndefined (-1) (ElementB (ElementNode.new name)).
Definition newTextNode (value : string) : RNode :=
  mkNode None IdxUndefined (-1) (TextB (TextNode.new value)).
Definition newAttributeNode (name : RName.t) (value : string) : RNode :=
  mkNode None IdxNaN (-1) (AttributeB (AttributeNode.new name value)).
Definition newNamespaceNode (prefix uri : string) : RNode :=
  mkNode None IdxNaN (-1) (NamespaceB (NamespaceNode.new prefix uri)).
Definition newCommentNode (value : string) : RNode :=
  mkNode None IdxUndefined (-1) (CommentB (CommentNode.mk value)).
Definition newPINode (target value : string) : RNode :=
  mkNode None IdxUndefined (-1) (PIB (PINode.mk target value)).
Definition newRootNode (name : string) : RNode :=
  mkNode None IdxNaN (-1) (RootB (RootNode.new name)).
Definition newDTDNode (value : string) : RNode :=
  mkNode None IdxNaN (-1) (DTDB (DTDNode.mk value)).
Definition newXMLDeclNode : RNode :=
  mkNode None IdxNaN (-1) (XMLDeclB XMLDeclNode.new).

Definition set_parent (p : option NodeId) (n : RNode) : RNode :=
  mkNode p (index n) (pos n) (obj n).
Definition set_index (i : JsIndex) (n : RNode) : RNode :=
  mkNode (parent n) i (pos n) (obj n).
(** [node.setPosition(position)] *)
Definition setPosition (position : Z) (n : RNode) : RNode :=
  mkNode (parent n) (index n) position (obj n).
Definition set_obj (o : RNodeT) (n : RNode) : RNode :=
  mkNode (parent n) (index n) (pos n) o.

(** Updates of the class-specific part; a node of another class is left
    as it is (the TypeScript types exclude the case). *)
Definition updElement (f : ElementNode.t → ElementNode.t) (n : RNode) : RNode :=
  match obj n with ElementB e => set_obj (ElementB (f e)) n | _ => n end.
Definition updRoot (f : RootNode.t → RootNode.t) (n : RNode) : RNode :=
  match obj n with RootB r => set_obj (RootB (f r)) n | _ => n end.
Definition updAttribute (f : AttributeNode.t → AttributeNode.t) (n : RNode) : RNode :=
  match obj n with AttributeB a => set_obj (AttributeB (f a)) n | _ => n end.
Definition updXMLDecl (f : XMLDeclNode.t → XMLDeclNode.t) (n : RNode) : RNode :=
  match obj n with XMLDeclB a => set_obj (XMLDeclB (f a)) n | _ => n end.
Definition updNamespace (f : NamespaceNode.t → NamespaceNode.t) (n : RNode) : RNode :=
  match obj n with NamespaceB a => set_obj (NamespaceB (f a)) n | _ => n end.
Definition updText (f : TextNode.t → TextNode.t) (n : RNode) : RNode :=
  match obj n with TextB a => set_obj (TextB (f a)) n | _ => n end.

(** [isRoot], [isElement], ... of nodes.ts *)
Definition isRoot (n : RNode) : bool := bool_decide (_type n = Root).
Definition isElement (n : RNode) : bool := bool_decide (_type n = Element).
Definition isAttribute (n : RNode) : bool := bool_decide (_type n = Attribute).
Definition isNamespace (n : RNode) : bool := bool_decide (_type n = Namespace).
Definition isText (n : RNode) : bool := bool_decide (_type n = Text).
Definition isComment (n : RNode) : bool := bool_decide (_type n = Comment).
Definition isPI (n : RNode) : bool := bool_decide (_type n = ProcessingInstruction).
Definition isParent (n : RNode) : bool := isRoot n || isElement n.

(** [node.children] of a parent node (element or root). *)
Definition children (n : RNode) : list NodeId :=
  match obj n with
  | ElementB e => ElementNode.children e
  | RootB r => RootNode.children r
  | _ => []
  end.

Definition set_children (c : list NodeId) (n : RNode) : RNode :=
  match obj n with
  | ElementB e => set_obj (ElementB (ElementNode.set_children c e)) n
  | RootB r => set_obj (RootB (RootNode.set_children c r)) n
  | _ => n
  end.

(** [node.namespaces] of an element or of the root. *)
Definition namespaces (n : RNode) : list NodeId :=
  match obj n with
  | ElementB e => ElementNode.namespaces e
  | RootB r => RootNode.namespaces r
  | _ => []
  end.

(** [node.name] of an element or attribute. *)
Definition nodeName (n : RNode) : option RName.t :=
  match obj n with
  | ElementB e => Some (ElementNode.name e)
  | AttributeB a => Some (AttributeNode.name a)
  | _ => None
  end.

(** [node.namespace] of an element or attribute. *)
Definition boundNamespace (n : RNode) : option NodeId :=
  match obj n with
  | ElementB e => ElementNode.namespace e
  | AttributeB a => AttributeNode.namespace a
  | _ => None
  end.

(** *** The store of node objects *)

Abbreviation Store := (list RNode) (only parsing).

(** [new C(...)]: the fresh object gets the next address. *)
Definition alloc (n : RNode) (s : Store) : NodeId * Store :=
  (List.length s, s ++ [n]).

(** A field update of the object at [id]. *)
Definition update (id : NodeId) (f : RNode → RNode) (s : Store) : Store :=
  alter f id s.

Definition node (s : Store) (id : NodeId) : option RNode := s !! id.

(** ** tokens.ts *)

Inductive TokenType :=
| TokenGThan | TokenLThan | TokenQMark | TokenEqual | TokenText
| TokenFSlash | TokenColon
| TokenString | TokenName | TokenNumber | TokenComment | TokenDoctype
| TokenCdata
| TokenEof | TokenError | TokenUnknown.

Global Instance TokenType_eq_dec : EqDecision TokenType.
Proof. solve_decision. Defined.

Module Token.
Record t := mk {
    value : string;
    type : TokenType;
    line : nat;
    col : nat;
    msg : option string
  }.
Definition set_value (v : string) (tk : t) : t :=
    mk v (type tk) (line tk) (col tk) (msg tk).
Definition set_type (ty : TokenType) (tk : t) : t :=
    mk (value tk) ty (line tk) (col tk) (msg tk).
End Token.

(** ** constants.ts *)

Module constants.
(** Modelled from the spec: constants.ts is not among the sources.  The
    reserved prefixes and URIs are those of the specification's section
    6.3, the void element names those of its section 4.2, and the
    predefined entities the five of XML. *)
Definition XmlPrefix : string := "xml".
Definition XmlnsPrefix : string := "xmlns".
Definition XmlnsName : string := "xmlns".
Definition XmlUri : string := "http://www.w3.org/XML/1998/namespace".
Definition XmlnsUri : string := "http://www.w3.org/2000/xmlns/".
Definition XhtmlUri : string := "http://www.w3.org/1999/xhtml".
Definition ReservedXmlPrefixes : list string := [XmlPrefix; XmlnsPrefix].
Definition ReservedXmlUris : list string := [XmlUri; XmlnsUri].
Definition HtmlVoidElementNames : list string :=
  ["area"; "base"; "br"; "col"; "embed"; "hr"; "img"; "input"; "link";
   "meta"; "source"; "track"; "wbr"].
Definition XmlPredefinedEntities : list string :=
  ["&lt;"; "&gt;"; "&amp;"; "&quot;"; "&apos;"].
End constants.

(** ** lexer.ts: the interface the parsers use *)

Class Lexer (L : Type) := {
  getToken : StateM L Token.t;
  createSyntheticToken : string → TokenType → StateM L Token.t;
  getCurrentIndex : L → nat;
  getPILexeme : nat → L → string
}.

(** A call of a lexer method from a parser that holds the lexer in one of its
    fields. *)
Definition liftLexer {L P A} (get : P → L) (set : L → P → P) (m : StateM L A)
    : StateM P A := λ st,
  match m (get st) with
  | Ok (a, lx) => Ok (a, set lx st)
  | Err e => Err e
  | OutOfFuel => OutOfFuel
  end.

(** ** parser.ts *)

Record ParserConfig := mkConfig {
  documentName : string;
  allowMissingNamespaces : bool;
  showWarnings : bool;
  allowDefaultNamespaceBindings : bool;
  ensureUniqueNamespacedAttributes : bool
}.

(** The defaults the [XmlParser] constructor spreads the user's values over. *)
Definition defaultConfig : ParserConfig :=
  mkConfig "Document" false true true true.

(** [Scope<string, NamespaceNode>] of utils.ts *)
#[warnings="-register-all"]
Inductive Scope :=
| mkScope (symbols : JsMap.t NodeId) (enclosingScope : option Scope).

Definition symbols (sc : Scope) : JsMap.t NodeId :=
  match sc with mkScope s _ => s end.
Definition enclosingScope (sc : Scope) : option Scope :=
  match sc with mkScope _ e => e end.

Module NamespaceScopeTable.
Record t := mk { table : Scope; disabled : bool }.

Definition new : t := mk (mkScope [] None) false.

Definition disable (t0 : t) : t := mk (table t0) true.

Definition insert (key : string) (nd : NodeId) (t0 : t) : bool * t :=
  if JsMap.has (symbols (table t0)) key then (false, t0)
  else (true, mk (mkScope (JsMap.set (symbols (table t0)) key nd)
                          (enclosingScope (table t0)))
                 (disabled t0)).

Fixpoint lookupFrom (current : Scope) (key : string) : option NodeId :=
  match current with
  | mkScope syms enclosing =>
      match JsMap.get syms key with
      | Some val => Some val
      | None =>
          match enclosing with
          | Some sc => lookupFrom sc key
          | None => None
          end
      end
  end.

Definition lookup (key : string) (t0 : t) : option NodeId :=
  lookupFrom (table t0) key.

Definition newScope (t0 : t) : t :=
  if disabled t0 then t0
  else mk (mkScope [] (Some (table t0))) (disabled t0).

Definition backtrackScope (t0 : t) : t :=
    if disabled t0 then t0
    else match enclosingScope (table t0) with
         | None => t0
         | Some sc => mk sc (disabled t0)
         end.
End NamespaceScopeTable.

(** The two parser classes: [HtmlParser] extends [XmlParser] and overrides
    [resolveNamespaces], [createRoot], [handleContent], [parseNamespace],
    [parseAttribute] and [parseProlog]. *)
Inductive ParserClass := XmlParserC | HtmlParserC.

Module XmlParser.
(** The fields of a parser object; [heap] is the store holding the node
    objects the parser creates.  [previousToken] and [currentToken] are
    declared with [!]: they are read only after [advance] assigned them. *)
Record t (L : Type) := mk {
  lexer : L;
  previousToken : Token.t;
  currentToken : Token.t;
  stack : list NodeId;          (* top of the stack first *)
  rootNode : NodeId;
  pos : Z;
  config : ParserConfig;
  isRootElementClosed : bool;
  currentScope : NamespaceScopeTable.t;
  warnings : nat;
  uniqueNames : list string;    (* the keys of a Map<string, null> *)
  namespacedAttributes : list NodeId;
  heap : Store
}.
Arguments mk {L}.
Arguments lexer {L}. Arguments previousToken {L}. Arguments currentToken {L}.
Arguments stack {L}. Arguments rootNode {L}. Arguments pos {L}.
Arguments config {L}. Arguments isRootElementClosed {L}.
Arguments currentScope {L}. Arguments warnings {L}.
Arguments uniqueNames {L}. Arguments namespacedAttributes {L}.
Arguments heap {L}.

Definition undefinedToken : Token.t := Token.mk "" TokenUnknown 0 0 None.

(** [new XmlParser(lexer, config)] *)
Definition new {L} (lx : L) (cfg : ParserConfig) : t L :=
  mk lx undefinedToken undefinedToken [] 0%nat 0 cfg false
     NamespaceScopeTable.new 0%nat [] [] [].

  Section setters.
    Context {L : Type}.
    Implicit Type p : t L.
Definition set_lexer (x : L) p :=
      mk x (previousToken p) (currentToken p) (stack p) (rootNode p) (pos p)
         (config p) (isRootElementClosed p) (currentScope p) (warnings p)
         (uniqueNames p) (namespacedAttributes p) (heap p).
Definition set_previousToken (x : Token.t) p :=
      mk (lexer p) x (currentToken p) (stack p) (rootNode p) (pos p)
         (config p) (isRootElementClosed p) (currentScope p) (warnings p)
         (uniqueNames p) (namespacedAttributes p) (heap p).
Definition set_currentToken (x : Token.t) p :=
      mk (lexer p) (previousToken p) x (stack p) (rootNode p) (pos p)
         (config p) (isRootElementClosed p) (currentScope p) (warnings p)
         (uniqueNames p) (namespacedAttributes p) (heap p).
Definition set_stack (x : list NodeId) p :=
      mk (lexer p) (previousToken p) (currentToken p) x (rootNode p) (pos p)
         (config p) (isRootElementClosed p) (currentScope p) (warnings p)
         (uniqueNames p) (namespacedAttributes p) (heap p).
Definition set_rootNode (x : NodeId) p :=
      mk (lexer p) (previousToken p) (currentToken p) (stack p) x (pos p)
         (config p) (isRootElementClosed p) (currentScope p) (warnings p)
         (uniqueNames p) (namespacedAttributes p) (heap p).
Definition set_pos (x : Z) p :=
      mk (lexer p) (previousToken p) (currentToken p) (stack p) (rootNode p) x
         (config p) (isRootElementClosed p) (currentScope p) (warnings p)
         (uniqueNames p) (namespacedAttributes p) (heap p).
Definition set_isRootElementClosed (x : bool) p :=
      mk (lexer p) (previousToken p) (currentToken p) (stack p) (rootNode p)
         (pos p) (config p) x (currentScope p) (warnings p)
         (uniqueNames p) (namespacedAttributes p) (heap p).
Definition set_currentScope (x : NamespaceScopeTable.t) p :=
      mk (lexer p) (previousToken p) (currentToken p) (stack p) (rootNode p)
         (pos p) (config p) (isRootElementClosed p) x (warnings p)
         (uniqueNames p) (namespacedAttributes p) (heap p).
Definition set_warnings (x : nat) p :=
      mk (lexer p) (previousToken p) (currentToken p) (stack p) (rootNode p)
         (pos p) (config p) (isRootElementClosed p) (currentScope p) x
         (uniqueNames p) (namespacedAttributes p) (heap p).
Definition set_uniqueNames (x : list string) p :=
      mk (lexer p) (previousToken p) (currentToken p) (stack p) (rootNode p)
         (pos p) (config p) (isRootElementClosed p) (currentScope p)
         (warnings p) x (namespacedAttributes p) (heap p).
Definition set_namespacedAttributes (x : list NodeId) p :=
      mk (lexer p) (previousToken p) (currentToken p) (stack p) (rootNode p)
         (pos p) (config p) (isRootElementClosed p) (currentScope p)
         (warnings p) (uniqueNames p) x (heap p).
Definition set_heap (x : Store) p :=
      mk (lexer p) (previousToken p) (currentToken p) (stack p) (rootNode p)
         (pos p) (config p) (isRootElementClosed p) (currentScope p)
         (warnings p) (uniqueNames p) (namespacedAttributes p) x.
  End setters.
End XmlParser.

Section parser_methods.
  Context {L : Type} `{Lexer L}.
  Import XmlParser.

  Local Abbreviation M := (StateM (XmlParser.t L)).

  (** [cls] is the class of the receiver: calls of overridden methods
      dispatch on it. *)
  Variable cls : ParserClass.

  (** **** Access to the node objects *)

Definition newNode (n : RNode) : M NodeId := λ st,
  let '(id, h) := alloc n (heap st) in Ok (id, set_heap h st).

Definition readNode (id : NodeId) : M RNode := λ st,
  match heap st !! id with
  | Some n => Ok (n, st)
  | None => Err (TypeError "Cannot read properties of undefined")
  end.

Definition updNode (id : NodeId) (f : RNode → RNode) : M unit :=
  modify (λ st, set_heap (update id f (heap st)) st).

(** [this.pos++] *)
Definition nextPos : M Z :=
  p ← gets pos; modify (set_pos (p + 1));; mret p.

  (** **** XmlParser *)

Definition push (nd : NodeId) : M unit :=
  modify (λ st, set_stack (nd :: stack st) st).

Definition pop : M unit :=
  modify (λ st, set_stack (tail (stack st)) st).

(** [warn(token, msg)]: counts the warning; the text goes to the console
    when [showWarnings] is on. *)
Definition warn (token : Token.t) (msg : string) : M unit :=
  modify (λ st, set_warnings (S (warnings st)) st).

(** [error(token, msg)]: prints the diagnostic and throws.  Called with a
    token alone it reports the lexer's error token. *)
Definition error {A} (token : Token.t) (msg : option string) : M A :=
  match msg with
  | Some m => throw (ParseError m)
  | None => throw (LexError (default "[Error]" (Token.msg token)))
  end.

Definition unreachable {A} (msg : string) : M A := throw (Unreachable msg).

Definition advance : M unit :=
  cur ← gets currentToken;
  modify (set_previousToken cur);;
  token ← liftLexer lexer set_lexer getToken;
  (match Token.type token with
   | TokenError => error token None    (* failOnError is true at every call *)
   | TokenUnknown => error token None
   | _ => mret tt
   end);;
  modify (set_currentToken token).

Definition check (tokenType : TokenType) : M bool :=
  cur ← gets currentToken;
  mret (bool_decide (Token.type cur = tokenType)).

Definition consume (tokenType : TokenType) : M unit :=
  b ← check tokenType;
  if b : bool then advance
  else cur ← gets currentToken;
       error cur (Some "Expected token of type").

Definition match_ (tokenType : TokenType) : M bool :=
  b ← check tokenType;
  if b : bool then advance;; mret true else mret false.

Definition XmlParser_createRoot : M unit :=
  cfg ← gets config;
  root ← newNode (newRootNode (documentName cfg));
  modify (set_rootNode root);;
  push root;;
  (* the global namespaces of the reserved prefixes *)
  mapM (λ '(prefix, uri),
    ns ← newNode (updNamespace
                    (λ n, NamespaceNode.mk (NamespaceNode.prefix n)
                            (NamespaceNode.uri n) (NamespaceNode.isDefault n) true)
                    (newNamespaceNode prefix uri));
    modify (λ st, set_currentScope
                    (snd (NamespaceScopeTable.insert prefix ns (currentScope st))) st);;
    updNode root (updRoot (λ r, RootNode.set_namespaces (RootNode.namespaces r ++ [ns]) r)))
    (zip constants.ReservedXmlPrefixes constants.ReservedXmlUris);;
  mret tt.

Definition getParent : M NodeId := λ st,
  match stack st with
  | top :: _ => Ok (top, st)
  | [] => Err (TypeError "Cannot read properties of undefined")
  end.

(** [node.index = parent.children.push(node) - 1; node.parent = parent] *)
Definition setParent (nd : NodeId) : M unit :=
  parent ← getParent;
  p ← readNode parent;
  let len := List.length (children p) in
  updNode parent (set_children (children p ++ [nd]));;
  updNode nd (set_index (Idx (Z.of_nat (S len) - 1)));;
  updNode nd (set_parent (Some parent)).

(** The expanded name [resolveNamespaces] computes for an attribute. *)
Definition expandedNameOf (uri lname : string) : string :=
  Js.trim uri +:+ ":" +:+ lname.

(** The loop over [this.namespacedAttributes]; the result tells whether
    the loop ran to its end ([false]: the method returned from inside). *)
Fixpoint resolveAttributes (attrs : list NodeId) (token : Token.t) : M bool :=
  match attrs with
  | [] => mret true
  | attr :: rest =>
      a ← readNode attr;
      let name := default (RName.mk "" "" "") (nodeName a) in
      let prefix := RName.pname name in
      scope ← gets currentScope;
      cfg ← gets config;
      match NamespaceScopeTable.lookup prefix scope with
      | None =>
          if allowMissingNamespaces cfg then mret false
          else error token (Some "Could not resolve namespace for attribute")
      | Some ns =>
          updNode attr (updAttribute (AttributeNode.set_namespace (Some ns)));;
          (if ensureUniqueNamespacedAttributes cfg then
             n ← readNode ns;
             let uri := match obj n with
                        | NamespaceB x => NamespaceNode.uri x
                        | _ => ""
                        end in
             let expandedName := expandedNameOf uri (RName.lname name) in
             names ← gets uniqueNames;
             (* uniqueNames.set(expandedName, null).size === size *)
             if bool_decide (expandedName ∈ names)
             then error token (Some "Duplicate attributes found in element declaration")
             else modify (set_uniqueNames (names ++ [expandedName]))
           else mret tt);;
          resolveAttributes rest token
      end
  end.

Definition XmlParser_resolveNamespaces (elem : NodeId) (token : Token.t) : M unit :=
  e ← readNode elem;
  let name := default (RName.mk "" "" "") (nodeName e) in
  let prefix := RName.pname name in
  scope ← gets currentScope;
  cfg ← gets config;
  (* first, resolve element's namespace *)
  continue ←
    (if Js.truthy prefix then
       match NamespaceScopeTable.lookup prefix scope with
       | None =>
           if allowMissingNamespaces cfg then mret false
           else error token (Some "Could not resolve namespace for element")
       | Some ns =>
           updNode elem (updElement (λ x,
             ElementNode.set_isNamespaced true (ElementNode.set_namespace (Some ns) x)));;
           mret true
       end
     else if allowDefaultNamespaceBindings cfg then
       match NamespaceScopeTable.lookup constants.XmlnsPrefix scope with
       | Some ns =>
           n ← readNode ns;
           (match obj n with
            | NamespaceB x =>
                when_ (NamespaceNode.isDefault x)
                  (updNode elem (updElement (λ x,
                     ElementNode.set_isNamespaced true
                       (ElementNode.set_namespace (Some ns) x))))
            | _ => mret tt
            end);;
           mret true
       | None => mret true
       end
     else mret true);
  if continue : bool then
    (* next, resolve attributes' namespaces *)
    attrs ← gets namespacedAttributes;
    finished ← resolveAttributes attrs token;
    when_ finished
      (modify (set_namespacedAttributes []);;
       modify (set_uniqueNames []))
  else mret tt.

Definition HtmlParser_resolveNamespaces (elem : NodeId) (token : Token.t) : M unit :=
  mret tt.

Definition resolveNamespaces (elem : NodeId) (token : Token.t) : M unit :=
  match cls with
  | XmlParserC => XmlParser_resolveNamespaces elem token
  | HtmlParserC => HtmlParser_resolveNamespaces elem token
  end.

(** [parseName(isElementName?)] *)
Definition parseName (isElementName : bool) : M RName.t :=
  prefixToken ← gets currentToken;
  b ← match_ TokenName;
  if b : bool then
    prev ← gets previousToken;
    let first := Token.value prev in
    c ← match_ TokenColon;
    name ← (if c : bool then
              consume TokenName;;
              prev' ← gets previousToken;
              let lname := Token.value prev' in
              mret (RName.mk (first +:+ ":" +:+ lname) lname first)
            else mret (RName.mk first first ""));
    prev ← gets previousToken;
    let pname := RName.pname name in
    let lname := RName.lname name in
    when_ (Js.truthy pname
           && negb (String.eqb pname constants.XmlnsName)
           && (String.length constants.XmlPrefix <? String.length pname)%nat
           && Js.startsWith (Js.toLowerCase pname) constants.XmlPrefix)
      (warn prev "prefix should not contain xml");;
    when_ (Js.truthy pname
           && (String.length constants.XmlPrefix <? String.length lname)%nat
           && Js.startsWith (Js.toLowerCase lname) constants.XmlPrefix)
      (warn prev "local name should not contain xml");;
    (* Constraint 1.(d) Element names MUST NOT have the prefix xmlns. *)
    (if isElementName && String.eqb pname constants.XmlnsPrefix
     then error prefixToken (Some "Element names must not have the prefix 'xmlns'")
     else mret tt);;
    mret name
  else unreachable "Expected attribute name".

(** [XmlParser.parseNamespace(parent)] *)
Definition XmlParser_parseNamespace (parent : NodeId) : M NodeId :=
  startToken ← gets currentToken;
  name ← parseName false;
  consume TokenEqual;;
  consume TokenString;;
  prev ← gets previousToken;
  let uri := Js.trim (Token.value prev) in
  let lname := RName.lname name in
  let hasXmlPrefix := String.eqb lname constants.XmlPrefix in
  let hasXmlnsPrefix :=
    String.eqb lname constants.XmlnsPrefix
    && negb (String.eqb lname (RName.qname name)) in
  (* Constraints 1a. 'xml' prefix *)
  (if hasXmlPrefix then
     when_ (negb (String.eqb uri constants.XmlUri))
       (error prev (Some "The xml prefix must not be bound to any other namespace name (uri)"))
   else if negb (Js.truthy (RName.pname name)) then
     when_ (String.eqb uri constants.XmlUri)
       (error prev (Some "The xml namespace name (uri) must not be declared as a default namespace"))
   else
     when_ (String.eqb uri constants.XmlUri)
       (error prev (Some "Prefixes other than 'xml' must not be bound to this namespace name (uri)")));;
  (* Constraints 1b-c. 'xmlns' prefix *)
  (if hasXmlnsPrefix then
     error startToken (Some "The prefix 'xmlns' must not be declared (as a namespace prefix)")
   else if negb (Js.truthy (RName.pname name)) then
     when_ (String.eqb uri constants.XmlnsUri)
       (error prev (Some "The xmlns namespace name (uri) must not be declared as a default namespace"))
   else
     when_ (String.eqb uri constants.XmlnsUri)
       (error prev (Some "Prefixes other than 'xmlns' must not be bound to this namespace name (uri)")));;
  (* Constraints 3. *)
  when_ (Js.truthy lname && negb (Js.truthy uri))
    (error prev (Some "Attribute value cannot be empty for a namespace with a prefix"));;
  let isDefault := String.eqb lname constants.XmlnsName in
  nd ← newNode (set_parent (Some parent)
                  (mkNode None IdxNaN (-1)
                     (NamespaceB (NamespaceNode.mk (if isDefault then "" else lname)
                                    uri isDefault false))));
  p ← nextPos;
  updNode nd (setPosition p);;
  let prefix := if isDefault then "" else lname in
  scope ← gets currentScope;
  let '(inserted, scope') := NamespaceScopeTable.insert prefix nd scope in
  modify (set_currentScope scope');;
  (if inserted : bool then mret tt
   else error startToken (Some "Duplicate namespace declaration found in element"));;
  (* insert the namespace into the current scope, if it has no prefix, use 'xmlns' *)
  modify (λ st, set_currentScope
                  (snd (NamespaceScopeTable.insert
                          (if Js.truthy prefix then prefix else constants.XmlnsName)
                          nd (currentScope st))) st);;
  mret nd.

(** [HtmlParser.parseNamespace(parent)] *)
Definition HtmlParser_parseNamespace (parent : NodeId) : M NodeId :=
  startToken ← gets currentToken;
  _ ← parseName false;
  consume TokenEqual;;
  consume TokenString;;
  prev ← gets previousToken;
  let uri := Js.trim (Token.value prev) in
  when_ (negb (String.eqb uri constants.XhtmlUri))
    (error startToken (Some "The namespace name (uri) must only be used in a default namespace declaration"));;
  nd ← newNode (set_parent (Some parent)
                  (mkNode None IdxNaN (-1)
                     (NamespaceB (NamespaceNode.mk "" uri true false))));
  p ← nextPos;
  updNode nd (setPosition p);;
  mret nd.

Definition parseNamespace (parent : NodeId) : M NodeId :=
  match cls with
  | XmlParserC => XmlParser_parseNamespace parent
  | HtmlParserC => HtmlParser_parseNamespace parent
  end.

(** [XmlParser.parseAttribute(parent)] *)
Definition XmlParser_parseAttribute (parent : NodeId) : M NodeId :=
  cur ← gets currentToken;
  if String.eqb (Token.value cur) constants.XmlnsPrefix then
    p ← readNode parent;
    (if isElement p then mret tt
     else error cur (Some "Xml declaration cannot contain namespaces"));;
    parseNamespace parent
  else
    name ← parseName false;
    consume TokenEqual;;
    consume TokenString;;
    prev ← gets previousToken;
    nd ← newNode (set_parent (Some parent) (newAttributeNode name (Token.value prev)));
    p ← nextPos;
    updNode nd (setPosition p);;
    when_ (Js.truthy (RName.pname name))
      (modify (λ st, set_namespacedAttributes (namespacedAttributes st ++ [nd]) st));;
    mret nd.

(** [HtmlParser.parseAttribute(parent)] *)
Definition HtmlParser_parseAttribute (parent : NodeId) : M NodeId :=
  cur ← gets currentToken;
  if String.eqb (Token.value cur) constants.XmlnsPrefix then
    parseNamespace parent
  else
    name ← parseName false;
    hasEq ← check TokenEqual;
    value ← (if hasEq : bool then
               consume TokenEqual;;
               isStr ← check TokenString;
               (if isStr : bool then consume TokenString else advance);;
               prev ← gets previousToken;
               mret (Token.value prev)
             else mret "");
    nd ← newNode (set_parent (Some parent) (newAttributeNode name value));
    p ← nextPos;
    updNode nd (setPosition p);;
    mret nd.

Definition parseAttribute (parent : NodeId) : M NodeId :=
  match cls with
  | XmlParserC => XmlParser_parseAttribute parent
  | HtmlParserC => HtmlParser_parseAttribute parent
  end.

(** [parsePI(ignoreQmark?)] *)
Definition parsePI (fuel : nat) (ignoreQmark : bool) : M unit :=
  when_ (negb ignoreQmark) advance;;
  lx ← gets lexer;
  let index := getCurrentIndex lx in
  b ← match_ TokenName;
  target ← (if b : bool then prev ← gets previousToken; mret (Token.value prev)
            else cur ← gets currentToken;
                 error cur (Some "Expected processing instruction target"));
  while_ fuel (b ← check TokenQMark; mret (negb b))
    (advance;;
     eof ← check TokenEof;
     if eof : bool then
       cur ← gets currentToken;
       error cur (Some "Unexpected end of processing instruction")
     else mret tt);;
  lx ← gets lexer;
  let value := getPILexeme index lx in
  consume TokenQMark;;
  consume TokenGThan;;
  nd ← newNode (newPINode target value);
  p ← nextPos;
  updNode nd (setPosition p);;
  setParent nd.

(** [parseText(expectsWhitespaceOnly?)] *)
Definition parseText (expectsWhitespaceOnly : bool) : M unit :=
  cur ← gets currentToken;
  isCdata ← check TokenCdata;
  let value := if isCdata : bool then Js.sliceNeg (Token.value cur) 9 3
               else Token.value cur in
  advance;;
  prev ← gets previousToken;
  when_ (expectsWhitespaceOnly && Js.truthy (Js.trim value))
    (warn prev "Text at this part should be whitespace only.");;
  nd ← newNode (mkNode None IdxUndefined (-1)
                  (TextB (TextNode.mk value
                            (existsb (Js.includes value) constants.XmlPredefinedEntities)
                            isCdata)));
  p ← nextPos;
  updNode nd (setPosition p);;
  setParent nd;;
  n ← readNode nd;
  match parent n with
  | Some par => updNode par (updElement (ElementNode.set_hasText true))
  | None => mret tt
  end.

(** [parseComment()] *)
Definition parseComment : M unit :=
  cur ← gets currentToken;
  nd ← newNode (newCommentNode (Js.sliceNeg (Token.value cur) 4 3));
  p ← nextPos;
  updNode nd (setPosition p);;
  setParent nd;;
  advance;;
  n ← readNode nd;
  match parent n with
  | Some par => updNode par (updElement (ElementNode.set_hasComment true))
  | None => mret tt
  end.

(** [parseDoctype()] *)
Definition parseDoctype : M unit :=
  cur ← gets currentToken;
  advance;;
  root ← gets rootNode;
  nd ← newNode (set_parent (Some root) (newDTDNode (Token.value cur)));
  p ← nextPos;
  updNode nd (setPosition p);;
  r ← readNode root;
  let dpos := match obj r with
              | RootB x =>
                  match RootNode.xmlDecl x with
                  | Some (_, dp) => S dp
                  | None => List.length (RootNode.children x)
                  end
              | _ => 0%nat
              end in
  updNode root (updRoot (RootNode.set_dtdDecl (Some (nd, dpos))));;
  (* skip trailing newlines *)
  isText ← check TokenText;
  cur ← gets currentToken;
  when_ (isText && String.eqb (Token.value cur) (String (ascii_of_nat 10) ""))
    advance.
End parser_methods.

Section parser_descent.
  Context {L : Type} `{Lexer L}.
  Import XmlParser.

  Local Abbreviation M := (StateM (XmlParser.t L)).

  Variable cls : ParserClass.

(** [parseXmlDecl()] *)
Definition parseXmlDecl (fuel : nat) : M unit :=
  lt ← check TokenLThan;
  if negb lt then mret tt else
  (* possibly PI | xml decl | element *)
  advance;;
  qm ← check TokenQMark;
  if negb qm then mret tt else
  advance;;
  nm ← check TokenName;
  if negb nm then mret tt else
  token ← gets currentToken;
  if negb (String.eqb (Js.toLowerCase (Token.value token)) constants.XmlPrefix)
  then parsePI fuel true
  else
    advance;;
    (* <?xml attr='value'?> *)
    nd ← newNode newXMLDeclNode;
    p ← nextPos;
    updNode nd (setPosition p);;
    let attribute : M unit :=
      attr ← parseAttribute cls nd;
      a ← readNode attr;
      let qname := RName.qname (default (RName.mk "" "" "") (nodeName a)) in
      updNode nd (updXMLDecl (λ x,
        XMLDeclNode.mk (JsMap.set (XMLDeclNode.attributes x) qname attr))) in
    qm ← check TokenQMark;
    when_ (negb qm)
      (doWhile fuel attribute (b ← check TokenQMark; mret (negb b)));;
    consume TokenQMark;;
    consume TokenGThan;;
    root ← gets rootNode;
    updNode nd (set_parent (Some root));;
    r ← readNode root;
    updNode root (updRoot (RootNode.set_xmlDecl (Some (nd, List.length (children r)))));;
    (* skip trailing newlines *)
    isText ← check TokenText;
    cur ← gets currentToken;
    when_ (isText && String.eqb (Token.value cur) (String (ascii_of_nat 10) ""))
      advance.

Definition isVoidElement (name : RName.t) : bool :=
  bool_decide (RName.qname name ∈ constants.HtmlVoidElementNames).

  Section open_recursion.
    (** [parseElement] at the recursion depth below the current one. *)
    Variable parseElement : M unit.

(** [misc(whitespaceText = true)] *)
Definition misc (fuel : nat) (whitespaceText : bool) : M unit :=
  (* Misc ::= Comment | PI |  S *)
  lt ← check TokenLThan;
  when_ lt advance;;
  cur ← gets currentToken;
  match Token.type cur with
  | TokenName => parseElement
  | TokenQMark => parsePI fuel false
  | TokenComment => parseComment
  | TokenText | TokenCdata => parseText whitespaceText
  | TokenFSlash => mret tt
  | _ => unreachable "Token found at an unexpected position"
  end.

(** The [do { misc(false) } while (...)] of both [handleContent]s. *)
Definition content (fuel : nat) : M unit :=
  doWhile fuel (misc fuel false)
    (fs ← check TokenFSlash; eof ← check TokenEof; mret (negb fs && negb eof)).

(** The closing tag: [parseName], the comparison with the opening name,
    ['>'] and [pop]. *)
Definition closingTag (name : RName.t) : M unit :=
  endName ← parseName false;
  prev ← gets previousToken;
  (if String.eqb (RName.qname endName) (RName.qname name) then mret tt
   else error prev (Some "Closing tag mismatch."));;
  consume TokenGThan;;
  pop.

(** [XmlParser.handleContent(node, name)] *)
Definition XmlParser_handleContent (fuel : nat) (nd : NodeId) (name : RName.t) : M unit :=
  fs ← check TokenFSlash;
  if fs : bool then
    advance;;
    consume TokenGThan;;
    updNode nd (updElement (ElementNode.set_isSelfEnclosing true))
  else
    (* >....</end> *)
    push nd;;
    consume TokenGThan;;
    content fuel;;
    (* closing tag *)
    consume TokenFSlash;;
    closingTag name.

(** The [do ... while] that scans the body of a [script] element; the
    result is [skipFSlash]. *)
Fixpoint scriptBody (fuel : nat) (nd : NodeId) : M bool :=
  match fuel with
  | O => outOfFuel
  | S fuel' =>
      token ← liftLexer lexer set_lexer (createSyntheticToken "</" TokenFSlash);
      found ←
        (if bool_decide (Token.type token = TokenFSlash) then
           advance;;
           nm ← check TokenName;
           cur ← gets currentToken;
           if nm && String.eqb (Token.value cur) "script" then
             (* create synthetic text node *)
             when_ (Js.truthy (Js.trim (Token.value token)))
               (child ← newNode (set_parent (Some nd) (newTextNode (Token.value token)));
                e ← readNode nd;
                updNode nd (set_children (children e ++ [child])));;
             mret true
           else mret false
         else mret false);
      if found : bool then mret true
      else
        eof ← check TokenEof;
        if negb eof && negb (bool_decide (Token.type token = TokenError))
        then scriptBody fuel' nd
        else mret false
  end.

(** [HtmlParser.handleContent(node, name)] *)
Definition HtmlParser_handleContent (fuel : nat) (nd : NodeId) (name : RName.t) : M unit :=
  updNode nd (updElement (ElementNode.set_mode "HTML"));;
  fs ← check TokenFSlash;
  if fs : bool then
    advance;;
    updNode nd (updElement (λ e,
      ElementNode.set_isSelfEnclosing (negb (isVoidElement name))
        (ElementNode.set_isVoid (isVoidElement name) e)));;
    consume TokenGThan
  else if negb (isVoidElement name) then
    push nd;;
    let isScriptTag := String.eqb (RName.qname name) "script" in
    skipFSlash ←
      (if negb isScriptTag then
         (* >....</end> *)
         consume TokenGThan;;
         content fuel;;
         mret false
       else scriptBody fuel nd);
    (if skipFSlash : bool then mret tt else consume TokenFSlash);;
    closingTag name
  else
    updNode nd (updElement (ElementNode.set_isVoid true));;
    consume TokenGThan.

Definition handleContent (fuel : nat) (nd : NodeId) (name : RName.t) : M unit :=
  match cls with
  | XmlParserC => XmlParser_handleContent fuel nd name
  | HtmlParserC => HtmlParser_handleContent fuel nd name
  end.

(** One turn of the attribute loop of [parseElement]. *)
Definition elementAttribute (nd : NodeId) : M unit :=
  attr ← parseAttribute cls nd;
  a ← readNode attr;
  if isAttribute a then
    let qname := RName.qname (default (RName.mk "" "" "") (nodeName a)) in
    updNode nd (updElement (λ e,
      ElementNode.set_attributes (JsMap.set (ElementNode.attributes e) qname attr) e))
  else
    updNode nd (updElement (λ e,
      ElementNode.set_namespaces (ElementNode.namespaces e ++ [attr]) e)).

(** The first part of [parseElement()], up to the end of the loop over
    the attributes: the new element, the token it starts at and its
    name. *)
Definition elementStart (fuel : nat) : M (NodeId * Token.t * RName.t) :=
  (* for each element, create a new namespace scope *)
  modify (λ st, set_currentScope (NamespaceScopeTable.newScope (currentScope st)) st);;
  startToken ← gets currentToken;
  name ← parseName true;
  nd ← newNode (newElementNode name);
  root ← gets rootNode;
  r ← readNode root;
  (match obj r with
   | RootB x =>
       when_ (negb (bool_decide (is_Some (RootNode.rootElement x))))
         (updNode root (updRoot (RootNode.set_rootElement (Some nd))))
   | _ => mret tt
   end);;
  setParent nd;;
  p ← nextPos;
  updNode nd (setPosition p);;
  while_ fuel (check TokenName) (elementAttribute nd);;
  mret (nd, startToken, name).

(** The body of [parseElement()] *)
Definition parseElementBody (fuel : nat) : M unit :=
  '(nd, startToken, name) ← elementStart fuel;
  root ← gets rootNode;
  (* resolve namespaces *)
  resolveNamespaces cls nd startToken;;
  (* handle content *)
  handleContent fuel nd name;;
  e ← readNode nd;
  updNode nd (updElement (λ x,
    let x := if (0 <? JsMap.size (ElementNode.attributes x))%nat
             then ElementNode.set_hasAttribute true x else x in
    let x := ElementNode.set_hasChild
               (negb (ElementNode.isSelfEnclosing x)
                && (0 <? List.length (ElementNode.children x))%nat) x in
    let x := ElementNode.set_hasParent (bool_decide (is_Some (parent e))) x in
    ElementNode.set_hasAttribute (0 <? JsMap.size (ElementNode.attributes x))%nat x));;
  r ← readNode root;
  closed ← gets isRootElementClosed;
  (if match obj r with
      | RootB x => bool_decide (RootNode.rootElement x = Some nd)
      | _ => false
      end
   then modify (set_isRootElementClosed true)
   else if closed : bool
        then error startToken (Some "Multiple root elements are prohibited")
        else mret tt);;
  (* backtrack current scope *)
  modify (λ st, set_currentScope (NamespaceScopeTable.backtrackScope (currentScope st)) st).
End open_recursion.

(** [parseElement()]: recursive through [handleContent] and [misc]. *)
Fixpoint parseElement (fuel : nat) : M unit :=
  match fuel with
  | O => outOfFuel
  | S fuel' => parseElementBody (parseElement fuel') fuel'
  end.

(** [miscS()] *)
Definition miscS (fuel : nat) : M unit :=
  while_ fuel
    (cur ← gets currentToken;
     mret (bool_decide (Token.type cur ∈ [TokenLThan; TokenComment; TokenText; TokenCdata])))
    (misc (parseElement fuel) fuel true).

(** [XmlParser.parseProlog()] *)
Definition XmlParser_parseProlog (fuel : nat) : M unit :=
  (* prolog: XMLDecl?, Misc, then an optional doctypedecl and Misc *)
  parseXmlDecl fuel;;
  miscS fuel;;
  dt ← check TokenDoctype;
  when_ dt (parseDoctype;; miscS fuel).

(** [HtmlParser.parseProlog()] *)
Definition HtmlParser_parseProlog (fuel : nat) : M unit :=
  miscS fuel;;
  dt ← check TokenDoctype;
  when_ dt (parseDoctype;; miscS fuel).

Definition parseProlog (fuel : nat) : M unit :=
  match cls with
  | XmlParserC => XmlParser_parseProlog fuel
  | HtmlParserC => HtmlParser_parseProlog fuel
  end.

(** [HtmlParser.createRoot()] *)
Definition HtmlParser_createRoot : M unit :=
  cfg ← gets config;
  root ← newNode (newRootNode (documentName cfg));
  modify (set_rootNode root);;
  push root.

Definition createRoot : M unit :=
  match cls with
  | XmlParserC => XmlParser_createRoot
  | HtmlParserC => HtmlParser_createRoot
  end.

(** [parseDocument()] *)
Definition parseDocument (fuel : nat) : M unit :=
  (* document: prolog, element, Misc *)
  advance;;
  parseProlog fuel;;
  lt ← match_ TokenLThan;
  nm ← (if lt : bool then mret true else check TokenName);
  when_ nm (parseElement fuel);;
  miscS fuel;;
  consume TokenEof;;
  root ← gets rootNode;
  w ← gets warnings;
  updNode root (updRoot (λ r,
    RootNode.set_isWellFormed (bool_decide (w = 0%nat))
      (RootNode.set_hasChild (0 <? List.length (RootNode.children r))%nat r))).

(** [parse()]: the root node, in the final state of the parser. *)
Definition parse (fuel : nat) : M NodeId :=
  createRoot;;
  parseDocument fuel;;
  gets rootNode.
End parser_descent.

(** [new XmlParser(lexer, config).parse()] and
    [new HtmlParser(lexer, config).parse()]: the [HtmlParser] constructor
    disables the namespace scope. *)
Definition newParser {L} (cls : ParserClass) (lx : L) (cfg : ParserConfig) : XmlParser.t L :=
  match cls with
  | XmlParserC => XmlParser.new lx cfg
  | HtmlParserC =>
      XmlParser.set_currentScope
        (NamespaceScopeTable.disable NamespaceScopeTable.new) (XmlParser.new lx cfg)
  end.

Definition runParse {L} `{Lexer L} (cls : ParserClass) (fuel : nat)
    (lx : L) (cfg : ParserConfig) : Result (NodeId * XmlParser.t L) :=
  parse cls fuel (newParser cls lx cfg).

(** ** lexer.ts: [Lexer], [XmlLexer], [HtmlLexer] *)

Inductive LexerClass := XmlLexerC | HtmlLexerC.

Record LexerConfig := mkLexerConfig {
  preserveSpace : bool;
  preserveCdata : bool;
  preserveComment : bool;
  preserveDtdStructure : bool
}.

Definition defaultLexerConfig : LexerConfig := mkLexerConfig true true true false.

Module Lex.
Record t := mk {
    source : string;
    line : nat;
    column : nat;
    startIndex : nat;
    currentIndex : nat;
    atError : bool;
    errors : list Token.t;
    vFlag : string;
    config : LexerConfig
  }.

Definition new (source : string) (cfg : LexerConfig) : t :=
  mk source 1 1 0 0 false [] "" cfg.

Definition set_line x l := mk (source l) x (column l) (startIndex l)
    (currentIndex l) (atError l) (errors l) (vFlag l) (config l).
Definition set_column x l := mk (source l) (line l) x (startIndex l)
    (currentIndex l) (atError l) (errors l) (vFlag l) (config l).
Definition set_startIndex x l := mk (source l) (line l) (column l) x
    (currentIndex l) (atError l) (errors l) (vFlag l) (config l).
Definition set_currentIndex x l := mk (source l) (line l) (column l)
    (startIndex l) x (atError l) (errors l) (vFlag l) (config l).
Definition set_atError x l := mk (source l) (line l) (column l)
    (startIndex l) (currentIndex l) x (errors l) (vFlag l) (config l).
Definition set_errors x l := mk (source l) (line l) (column l)
    (startIndex l) (currentIndex l) (atError l) x (vFlag l) (config l).
Definition set_vFlag x l := mk (source l) (line l) (column l)
    (startIndex l) (currentIndex l) (atError l) (errors l) x (config l).
End Lex.

Section lexer.
  Import Lex.
  Local Open Scope nat_scope.
  Local Abbreviation LM := (StateM Lex.t).

  Variable cls : LexerClass.

Definition isChar (o : option ascii) (c : ascii) : bool :=
  match o with Some x => Ascii.eqb x c | None => false end.

(** [newToken(type, errorMsg?, end?)] *)
Definition newToken (type : TokenType) (errorMsg : option string)
    (end_ : option nat) : LM Token.t :=
  let create : LM Token.t :=
    l ← gets id;
    let tok := Token.mk (Js.slice (source l) (startIndex l)
                           (default (currentIndex l) end_))
                        type (line l) (column l) errorMsg in
    when_ (atError l) (modify (set_errors (errors l ++ [tok])));;
    mret tok in
  if bool_decide (type = TokenError) then
    modify (set_atError true);;
    errs ← gets errors;
    match last errs with
    | Some tok => mret tok
    | None => create
    end
  else create.

Definition errorToken (errorMsg : option string) : LM Token.t :=
  newToken TokenError errorMsg None.

(** [move()]: the character moved over, [None] past the end. *)
Definition move : LM (option ascii) :=
  l ← gets id;
  let c := String.get (currentIndex l) (source l) in
  (if isChar c (ascii_of_nat 10)
   then modify (λ l, set_column 1 (set_line (S (line l)) l))
   else modify (λ l, set_column (S (column l)) l));;
  modify (set_currentIndex (S (currentIndex l)));;
  mret c.

Fixpoint moveN (n : nat) : LM unit :=
  match n with
  | O => mret tt
  | S n' => move;; moveN n'
  end.

Definition atEnd : LM bool :=
  gets (λ l, String.length (source l) <=? currentIndex l).

Definition peek (n : nat) : LM (option ascii) :=
  gets (λ l, String.get (currentIndex l + n) (source l)).

Definition peekIs (c : ascii) : LM bool := o ← peek 0; mret (isChar o c).

Definition expect (sub : string) : LM bool :=
  e ← atEnd;
  if e : bool then mret false
  else gets (λ l, String.eqb
                    (Js.slice (source l) (currentIndex l)
                       (currentIndex l + String.length sub)) sub).

Definition isDigit (ch : option ascii) : bool :=
  match ch with
  | Some c => (48 <=? nat_of_ascii c) && (nat_of_ascii c <=? 57)
  | None => false
  end.

Definition isAlpha (ch : option ascii) : bool :=
  match ch with
  | Some c =>
      let n := nat_of_ascii c in
      ((65 <=? n) && (n <=? 90)) || ((97 <=? n) && (n <=? 122)) || (n =? 95)
  | None => false
  end.

Definition isCommentStart : LM bool := expect "!--".
Definition isCommentEnd : LM bool := expect "-->".
Definition isCdataStart : LM bool := expect "![CDATA[".

Definition isDtdStart : LM bool :=
  gets (λ l, String.eqb
               (Js.toLowerCase (Js.slice (source l) (currentIndex l) (currentIndex l + 8)))
               "!doctype").

Definition isTextStart (current : option ascii) : LM bool :=
  v ← gets vFlag;
  mret (negb (isChar current "<") && negb (isChar current ">") && String.eqb v ">").

Definition isNameStart (ch : option ascii) : bool :=
  isChar ch ":" || isAlpha ch.

(** The abstract [isNameChar] and its two implementations. *)
Definition isNameChar (ch : option ascii) : bool :=
  match cls with
  | XmlLexerC => isChar ch "." || isChar ch "-" || isAlpha ch || isDigit ch
  | HtmlLexerC =>
      isChar ch "." || isChar ch "-" || isChar ch ":" || isAlpha ch || isDigit ch
  end.

Definition isSpaceChar (ch : option ascii) : bool :=
  match ch with Some c => Js.isWhitespace c | None => false end.

Definition skipWhitespace (fuel : nat) : LM unit :=
  l ← gets id;
  if String.eqb (vFlag l) ">" && preserveSpace (config l) then mret tt
  else while_ fuel
         (c ← peek 0;
          mret (isChar c " " || isChar c (ascii_of_nat 13)
                || isChar c (ascii_of_nat 10) || isChar c (ascii_of_nat 9)))
         (move;; mret tt).

Definition lexIdentifier (fuel : nat) : LM Token.t :=
  while_ fuel (c ← peek 0; mret (isNameChar c)) (move;; mret tt);;
  newToken TokenName None None.

Definition lexNumber (fuel : nat) : LM Token.t :=
  while_ fuel (c ← peek 0; mret (isDigit c))
    (move;; dot ← peekIs "."; when_ dot (move;; mret tt));;
  newToken TokenNumber None None.

(** The loop shared by [lexComment] and [lexCdata]: the token once the
    closing delimiter is found, [None] at the end of the source. *)
Fixpoint scanUntil (fuel : nat) (first : ascii) (closing : string)
    (type : TokenType) : LM (option Token.t) :=
  match fuel with
  | O => outOfFuel
  | S fuel' =>
      e ← atEnd;
      if e : bool then mret None
      else
        c ← peekIs first;
        x ← expect closing;
        if c && x then
          moveN 3;; tok ← newToken type None None; mret (Some tok)
        else move;; scanUntil fuel' first closing type
  end.

Definition lexComment (fuel : nat) : LM Token.t :=
  moveN 3;;
  r ← scanUntil fuel "-" "-->" TokenComment;
  match r with
  | Some tok => mret tok
  | None => errorToken (Some "Comment not properly closed")
  end.

Definition lexCdata (fuel : nat) : LM Token.t :=
  moveN 8;;
  r ← scanUntil fuel "]" "]]>" TokenCdata;
  match r with
  | Some tok => mret tok
  | None => errorToken (Some "CDATA sect not properly closed")
  end.

(** [scanString(start?)]: moves past the closing quote. *)
Definition scanString (fuel : nat) (start : option ascii) : LM unit :=
  start ← (match start with Some c => mret (Some c) | None => move end);
  while_ fuel
    (e ← atEnd;
     if e : bool then mret false
     else c ← move; mret (negb (bool_decide (start = c))))
    (mret tt).

Definition lexString (fuel : nat) (start : option ascii) : LM Token.t :=
  scanString fuel start;;
  e ← atEnd;
  if e : bool then errorToken (Some "String not properly closed")
  else newToken TokenString None None.

  (** DTD lexing utilities *)

Definition space (fuel : nat) : LM unit :=
  while_ fuel
    (e ← atEnd; c ← peek 0; mret (negb e && isSpaceChar c))
    (move;; mret tt).

Definition skip (fuel : nat) (char : ascii) (errMsg : string) : LM (option Token.t) :=
  space fuel;;
  c ← peekIs char;
  if c : bool then move;; mret None
  else tok ← errorToken (Some errMsg); mret (Some tok).

Definition isQuote (c : option ascii) : bool := isChar c (ascii_of_nat 34) || isChar c "'".

Definition externalId (fuel : nat) (isPublic : bool) : LM unit :=
  moveN 6;;
  space fuel;;
  c ← peek 0;
  if isQuote c then
    lexString fuel None;;
    when_ isPublic
      (space fuel;;
       c ← peek 0;
       if isQuote c then lexString fuel None;; mret tt
       else errorToken (Some "Expected string literal");; mret tt)
  else errorToken (Some "Expected string literal");; mret tt.

Definition peReference (fuel : nat) : LM unit :=
  move;;
  start ← peek 0;
  if isNameStart start then
    lexIdentifier fuel;;
    skip fuel ";" "Invalid PEReference in DTD";; mret tt
  else errorToken (Some "Expected identifier");; mret tt.

Definition pi (fuel : nat) : LM unit :=
  moveN 2;;
  while_ fuel (e ← atEnd; q ← peekIs "?"; mret (negb e && negb q)) (move;; mret tt);;
  c0 ← peek 0;
  c1 ← peek 1;
  if negb (isChar c0 "?") || negb (isChar c1 ">")
  then errorToken (Some "Invalid processing instruction");; mret tt
  else moveN 2.

Definition mixed (fuel : nat) : LM unit :=
  move;;
  while_ fuel (c ← peekIs ")"; e ← atEnd; mret (negb c && negb e))
    (space fuel;;
     bar ← peekIs "|";
     when_ bar (move;; mret tt);;
     space fuel;;
     lexIdentifier fuel;; mret tt);;
  e ← atEnd;
  if e : bool then mret tt
  else
    skip fuel ")" "Expected ')'";;
    star ← peekIs "*";
    when_ star (move;; mret tt).

(** [switch (this.peek()) { case "?": case "*": case "+": this.move() }] *)
Definition occurrence : LM unit :=
  c ← peek 0;
  when_ (isChar c "?" || isChar c "*" || isChar c "+") (move;; mret tt).

  Section cp_recursion.
    Variable cp : LM unit.

Definition seq_ (fuel : nat) : LM unit :=
  open ← peekIs "(";
  when_ open (move;; space fuel;; cp);;
  while_ fuel (peekIs ",") (move;; space fuel;; cp);;
  skip fuel ")" "Expected ')'";; mret tt.

Definition choice_ (fuel : nat) : LM unit :=
      open ← peekIs "(";
      when_ open (move;; space fuel);;
      cp;;
      space fuel;;
      comma ← peekIs ",";
      stop ← (if comma : bool then
                seq_ fuel;;
                space fuel;;
                bar ← peekIs "|";
                mret (negb bar)
              else mret false);
      if stop : bool then mret tt
      else
        while_ fuel (peekIs "|") (move;; space fuel;; cp);;
        skip fuel ")" "Expected ')'";; mret tt.
  End cp_recursion.

Fixpoint cp (fuel : nat) : LM unit :=
  match fuel with
  | O => outOfFuel
  | S fuel' =>
      lexIdentifier fuel';;
      open ← peekIs "(";
      when_ open (choice_ (cp fuel') fuel');;
      occurrence
  end.

Definition choice (fuel : nat) : LM unit := choice_ (cp fuel) fuel.

Definition children_ (fuel : nat) : LM unit :=
  choice fuel;; occurrence.

Definition contentSpec (fuel : nat) : LM unit :=
  move;;
  space fuel;;
  hash ← peekIs "#";
  if hash : bool then mixed fuel else children_ fuel.

Definition elementDecl (fuel : nat) : LM unit :=
  x ← expect "ELEMENT";
  if x : bool then
    moveN 7;;
    space fuel;;
    lexIdentifier fuel;;
    space fuel;;
    c ← peek 0;
    if isChar c "E" then moveN 5;; skip fuel ">" "Expected '>' in element decl";; mret tt
    else if isChar c "A" then moveN 3;; skip fuel ">" "Expected '>' in element decl";; mret tt
    else if isChar c "(" then
      contentSpec fuel;; skip fuel ">" "Expected '>' in element decl";; mret tt
    else errorToken (Some "Invalid DTD content specification");; mret tt
  else errorToken (Some "Unknown DTD markup declaration");; mret tt.

Definition defaultDecl (fuel : nat) : LM unit :=
  space fuel;;
  char ← peek 0;
  if negb (isChar char "#") && negb (isChar char "'") && negb (isChar char (ascii_of_nat 34))
  then errorToken (Some "Expected DTD default declaration");; mret tt
  else
    hash ← peekIs "#";
    continue ←
      (if hash : bool then
         move;;
         c ← peek 0;
         if isChar c "R" then moveN 8;; space fuel;; mret true
         else if isChar c "I" then moveN 7;; space fuel;; mret true
         else if isChar c "F" then moveN 5;; space fuel;; space fuel;; mret true
         else errorToken (Some "Unknown DTD default declaration");; mret false
       else mret true);
    if continue : bool then
      c ← peek 0;
      when_ (isQuote c) (lexString fuel None;; space fuel)
    else mret tt.

Definition enumeration (fuel : nat) : LM unit :=
  move;;
  space fuel;;
  lexIdentifier fuel;;
  while_ fuel (c ← peekIs ")"; e ← atEnd; mret (negb c && negb e))
    (space fuel;;
     bar ← peekIs "|";
     when_ bar (move;; mret tt);;
     space fuel;;
     lexIdentifier fuel;; mret tt);;
  skip fuel ")" "Expected ')'";; mret tt.

Definition attType (fuel : nat) : LM unit :=
  c0 ← peek 0;
  c1 ← peek 1;
  if isChar c0 "C" then moveN 5
  else if isChar c0 "N" && isChar c1 "O" then
    x ← expect "NOTATION";
    if x : bool then
      moveN 8;;
      space fuel;;
      open ← peekIs "(";
      if open : bool then enumeration fuel
      else errorToken (Some "Expected '('");; mret tt
    else errorToken (Some "Expected 'NOTATION'");; mret tt
  else if isChar c0 "(" then enumeration fuel
  else if isChar c0 "I" then
    moveN 2;;
    r ← peekIs "R";
    when_ r (moveN 3;; s ← peekIs "S"; when_ s (move;; mret tt))
  else if isChar c0 "E" then
    moveN 5;;
    y ← peekIs "Y";
    if y : bool then move;; mret tt else moveN 3
  else if isChar c0 "N" then
    moveN 7;;
    s ← peekIs "S";
    when_ s (move;; mret tt)
  else mret tt.

Definition attlistDecl (fuel : nat) : LM unit :=
  x ← expect "ATTLIST";
  if x : bool then
    moveN 7;;
    space fuel;;
    lexIdentifier fuel;;
    doWhile fuel
      (space fuel;;
       lexIdentifier fuel;;
       space fuel;;
       attType fuel;;
       defaultDecl fuel)
      (c ← peekIs ">"; e ← atEnd; err ← gets atError;
       mret (negb c && negb e && negb err));;
    skip fuel ">" "Expected '>'";; mret tt
  else errorToken (Some "Unknown DTD markup declaration");; mret tt.

Definition entityDecl (fuel : nat) : LM unit :=
  x ← expect "ENTITY";
  if x : bool then
    moveN 6;;
    space fuel;;
    pc ← peekIs "%";
    when_ pc (move;; space fuel);;
    lexIdentifier fuel;;
    space fuel;;
    sys ← expect "SYSTEM";
    pub ← expect "PUBLIC";
    c ← peek 0;
    if sys : bool then externalId fuel false;; skip fuel ">" "Expected '>'";; mret tt
    else if pub : bool then
      externalId fuel true;;
      space fuel;;
      n ← peekIs "N";
      when_ n (moveN 4;; space fuel;; lexIdentifier fuel;; mret tt);;
      skip fuel ">" "Expected '>'";; mret tt
    else if isQuote c then
      lexString fuel None;; space fuel;; skip fuel ">" "Expected '>'";; mret tt
    else errorToken (Some "Expected EntityDef");; mret tt
  else errorToken (Some "Unknown DTD markup declaration");; mret tt.

Definition notationDecl (fuel : nat) : LM unit :=
  x ← expect "NOTATION";
  if x : bool then
    moveN 8;;
    space fuel;;
    lexIdentifier fuel;;
    space fuel;;
    sys ← expect "SYSTEM";
    pub ← expect "PUBLIC";
    if sys : bool then externalId fuel false;; skip fuel ">" "Expected '>'";; mret tt
    else if pub : bool then
      externalId fuel false;;
      space fuel;;
      c ← peek 0;
      when_ (isQuote c) (lexString fuel None;; space fuel);;
      skip fuel ">" "Expected '>'";; mret tt
    else errorToken (Some "Expected ExternalID or PublicID");; mret tt
  else errorToken (Some "Unknown DTD markup declaration");; mret tt.

Definition markupDecl (fuel : nat) : LM unit :=
  c1 ← peek 1;
  c2 ← peek 2;
  c3 ← peek 3;
  if isChar c1 "?" then pi fuel
  else if isChar c1 "!" && isChar c2 "-" && isChar c3 "-" then
    move;; lexComment fuel;; mret tt
  else
    moveN 2;;
    nextChar ← peek 1;
    if isChar nextChar "L" then elementDecl fuel
    else if isChar nextChar "T" then attlistDecl fuel
    else if isChar nextChar "N" then entityDecl fuel
    else if isChar nextChar "O" then notationDecl fuel
    else errorToken (Some "Unknown markup declaration");; mret tt.

(** The loop of [intSubset]; it returns from inside when the lexer is at
    an error. *)
Fixpoint intSubsetLoop (fuel : nat) : LM unit :=
  match fuel with
  | O => outOfFuel
  | S fuel' =>
      e ← atEnd;
      c ← peek 0;
      if negb e && (isChar c "%" || isChar c "<") then
        (if isChar c "%" then peReference fuel' else markupDecl fuel');;
        space fuel';;
        err ← gets atError;
        if err : bool then mret tt else intSubsetLoop fuel'
      else mret tt
  end.

Definition intSubset (fuel : nat) : LM unit :=
  space fuel;; intSubsetLoop fuel.

Definition lexDtd (fuel : nat) : LM Token.t :=
  moveN 8;;
  space fuel;;
  c ← peek 0;
  if isNameStart c then
    modify (λ l, set_startIndex (currentIndex l) l);;
    dtdNameToken ← lexIdentifier fuel;
    space fuel;;
    sys ← expect "SYSTEM";
    pub ← expect "PUBLIC";
    (if sys : bool then externalId fuel false
     else when_ pub (externalId fuel true));;
    err ← gets atError;
    if err : bool then errorToken None
    else
      open ← peekIs "[";
      failed ←
        (if open : bool then
           move;;
           intSubset fuel;;
           err ← gets atError;
           if err : bool then tok ← errorToken None; mret (Some tok)
           else skip fuel "]" "Expected ']' at intSubset end"
         else mret None);
      match failed with
      | Some tok => mret tok
      | None =>
          space fuel;;
          errTok ← skip fuel ">" "Expected '>' at end of DTD";
          match errTok with
          | Some tok => mret tok
          | None =>
              l ← gets id;
              if negb (preserveDtdStructure (config l))
              then mret (Token.set_type TokenDoctype dtdNameToken)
              else newToken TokenDoctype (Some "") (Some (currentIndex l - 1))
          end
      end
  else errorToken None.

(** [Lexer.lexText] and its override in [HtmlLexer]. *)
Definition lexText (fuel : nat) : LM Token.t :=
  match cls with
  | XmlLexerC =>
      while_ fuel (e ← atEnd; lt ← peekIs "<"; mret (negb e && negb lt)) (move;; mret tt);;
      newToken TokenText None None
  | HtmlLexerC =>
      while_ fuel
        (e ← atEnd;
         if e : bool then mret false
         else
           lt ← peekIs "<";
           if lt : bool then
             next ← peek 1;
             c ← expect "<!--";
             d ← expect "<![CDATA[";
             mret (negb (isChar next "/" || isChar next "?" || isAlpha next || c || d))
           else mret true)
        (move;; mret tt);;
      newToken TokenText None None
  end.

  Section getToken_recursion.
    Variable getToken_ : LM Token.t.

Definition lexMarkupStart (fuel : nat) (char : ascii) : LM Token.t :=
  isComment ← isCommentStart;
  isCdata ← isCdataStart;
  isDtd ← isDtdStart;
  if isComment : bool then
    token ← lexComment fuel;
    l ← gets id;
    if atError l || preserveComment (config l) then mret token else getToken_
  else if isCdata : bool then
    token ← lexCdata fuel;
    l ← gets id;
    if atError l || preserveCdata (config l) then mret token else getToken_
  else if isDtd : bool then lexDtd fuel
  else
    modify (set_vFlag (String char ""));;
    newToken TokenLThan None None.

Definition getTokenBody (fuel : nat) : LM Token.t :=
      skipWhitespace fuel;;
      err ← gets atError;
      if err : bool then newToken TokenError None None else
      modify (λ l, set_startIndex (currentIndex l) l);;
      e ← atEnd;
      if e : bool then newToken TokenEof None None else
      char ← move;
      textStart ← isTextStart char;
      if textStart : bool then lexText fuel
      else if isAlpha char then lexIdentifier fuel
      else if isDigit char then lexNumber fuel
      else if isChar char "<" then lexMarkupStart fuel "<"
      else if isChar char ":" then newToken TokenColon None None
      else if isChar char ">" then
        (* handle false positives *)
        v ← gets vFlag;
        if String.eqb v ">" then lexText fuel
        else modify (set_vFlag ">");; newToken TokenGThan None None
      else if isQuote char then
        start ← gets currentIndex;
        scanString fuel char;;
        current ← gets currentIndex;
        e ← atEnd;
        if e : bool then errorToken (Some "String not properly closed")
        else
          modify (set_startIndex start);;
          modify (set_currentIndex (current - 1));;
          token ← newToken TokenString None None;
          modify (set_currentIndex current);;
          mret token
      else if isChar char "=" then newToken TokenEqual None None
      else if isChar char "/" then newToken TokenFSlash None None
      else if isChar char "?" then newToken TokenQMark None None
      else newToken TokenUnknown (Some "Unknown token") None.
  End getToken_recursion.

(** [getToken()] *)
Fixpoint lexer_getToken (fuel : nat) : LM Token.t :=
  match fuel with
  | O => outOfFuel
  | S fuel' => getTokenBody (lexer_getToken fuel') fuel'
  end.

(** [createSyntheticToken(str, type)] *)
Definition lexer_createSyntheticToken (fuel : nat) (str : string)
    (type : TokenType) : LM Token.t :=
  let len := String.length str in
  while_ fuel
    (e ← atEnd;
     l ← gets id;
     mret (negb e && negb (String.eqb (Js.slice (source l) (currentIndex l)
                                          (currentIndex l + len)) str)))
    (move;; mret tt);;
  e ← atEnd;
  if e : bool then errorToken (Some "Could not create token")
  else
    moveN len;;
    modify (set_vFlag "");;
    l ← gets id;
    token ← newToken type None (Some (currentIndex l - len));
    let v := Token.value token in
    if Js.startsWith (Js.trim v) ">"
    then mret (Token.set_value
                 (Js.sliceFrom v (S (default 0 (Js.indexOf v ">")))) token)
    else mret token.

Definition lexer_getCurrentIndex (l : Lex.t) : nat := currentIndex l.

(** [getPILexeme(index)] *)
Definition lexer_getPILexeme (index : nat) (l : Lex.t) : string :=
  Js.slice (source l) index (currentIndex l - 1).
End lexer.

(** The fuel of the loops of a lexer: no loop of the lexer runs more turns
    than this without moving over a character of the source. *)
Definition lexerFuel (l : Lex.t) : nat := (S (S (String.length (Lex.source l))))%nat.

Definition lexerInstance (cls : LexerClass) : Lexer Lex.t := {|
  getToken := λ l, lexer_getToken cls (lexerFuel l) l;
  createSyntheticToken := λ str type l,
    lexer_createSyntheticToken (lexerFuel l) str type l;
  getCurrentIndex := lexer_getCurrentIndex;
  getPILexeme := lexer_getPILexeme
|}.

(** [new XmlLexer(source)] with [new XmlParser(lexer, config).parse()], and
    the same for HTML. *)
Definition parseXml (fuel : nat) (source : string) (cfg : ParserConfig)
    : Result (NodeId * XmlParser.t Lex.t) :=
  @runParse _ (lexerInstance XmlLexerC) XmlParserC fuel
    (Lex.new source defaultLexerConfig) cfg.

Definition parseHtml (fuel : nat) (source : string) (cfg : ParserConfig)
    : Result (NodeId * XmlParser.t Lex.t) :=
  @runParse _ (lexerInstance HtmlLexerC) HtmlParserC fuel
    (Lex.new source defaultLexerConfig) cfg.

(** ** xpath.ts: the query AST *)

Inductive OpType :=
| OpPlus | OpMinus | OpMul | OpDiv | OpMod
| OpEq | OpNeq | OpLt | OpLeq | OpGt | OpGeq
| OpAnd | OpOr | OpPipe.

Module KindTestType.
Inductive t := Comment | Text | Node | Pi.
End KindTestType.

Module NameTestType.
Inductive t := Name | Wildcard | WildcardLocal | PrefixWildcard | PrefixLocal.
End NameTestType.

Module Axis.
Inductive t :=
  | Ancestor | AncestorOrSelf | Attribute | Child | Descendant
  | DescendantOrSelf | Following | FollowingSibling | Namespace | Parent
  | Preceding | PrecedingSibling | Self.
End Axis.

Inductive DocumentOrder := Forward | Reverse.

Module PathSpec.
Inductive t := Nil | Single | Double.
End PathSpec.

Module StepSpec.
Inductive t := Nil | Self | Parent.
End StepSpec.

(** [NodeTest = NameTest | KindTest], told apart by the [type] field. *)
Inductive NodeTest :=
| NameTest (testType : NameTestType.t) (name : option RName.t)
| KindTest (testType : KindTestType.t) (target : option string).

Record NodeTestNode := mkNodeTestNode { test : NodeTest; testAxis : Axis.t }.

(** [XNodeT]; the fields of a [StepNode] are [path], [step], [axis],
    [nodeTest], [predicates] and [pos]. *)
#[warnings="-register-all"]
Inductive XNodeT :=
| NumberNode (value : Js.number)
| StringNode (value : string)
| CallNode (name : string) (args : list XNodeT)
| UnaryOpNode (nd : XNodeT) (op : OpType)
| BinaryOpNode (leftNode rightNode : XNodeT) (op : OpType)
| NodeTestN (n : NodeTestNode)
| StepNode (path : PathSpec.t) (step : StepSpec.t) (axis : option Axis.t)
    (nodeTest : option NodeTestNode) (predicates : list XNodeT) (pos : Z)
| PredicateNode (expr : XNodeT) (order : DocumentOrder) (leftExpr : option XNodeT)
| PathNode (steps : list XNodeT).

(** [new StepNode(path)] *)
Definition newStepNode (path : PathSpec.t) : XNodeT :=
  StepNode path StepSpec.Nil None None [] (-1).

(** [XParser.getOrder(axis)] *)
Definition getOrder (axis : Axis.t) : DocumentOrder :=
  match axis with
  | Axis.Parent | Axis.Ancestor | Axis.AncestorOrSelf
  | Axis.Preceding | Axis.PrecedingSibling => Reverse
  | _ => Forward
  end.

(** [XParser.transformStepNode(node)]: turns [//xyz] into
    [/descendant-or-self::node()/xyz]. *)
Definition transformStepNode (nd : XNodeT) : list XNodeT :=
  match nd with
  | StepNode PathSpec.Double step axis nodeTest predicates pos =>
      let n := StepNode PathSpec.Single StepSpec.Nil (Some Axis.DescendantOrSelf)
                 (Some (mkNodeTestNode (KindTest KindTestType.Node None)
                          Axis.DescendantOrSelf))
                 [] (-1) in
      [n; StepNode PathSpec.Single step axis nodeTest predicates pos]
  | _ => [nd]
  end.

(** What [XParser.axisStep(pathSpec)] builds for [child::name] followed by
    the given predicate expressions (the default axis is [child], its order
    forward). *)
Definition axisStep (pathSpec : PathSpec.t) (axis : Axis.t) (test : NodeTest)
    (predicates : list XNodeT) : XNodeT :=
  StepNode pathSpec StepSpec.Nil (Some axis) (Some (mkNodeTestNode test axis))
    (map (λ e, PredicateNode e (getOrder axis) None) predicates) (-1).

(** What [XParser.relativePathExpr] returns for a single step that no ['/']
    follows: a [PathNode] of the transformed step. *)
Definition singleStepPath (step : XNodeT) : XNodeT :=
  PathNode (transformStepNode step).


(** ** xpath.ts: data and context *)

(** [Set<RNodeT>]: the members in insertion order, each once. *)
Abbreviation XNodeSet := (list NodeId) (only parsing).

Definition setAdd (x : NodeId) (s : XNodeSet) : XNodeSet :=
  if bool_decide (x ∈ s) then s else s ++ [x].

(** [new Set(array)] and adding the members of an iterable one by one. *)
Definition setAddAll (s : XNodeSet) (l : list NodeId) : XNodeSet :=
  fold_left (λ acc x, setAdd x acc) l s.

Definition setOfList (l : list NodeId) : XNodeSet := setAddAll [] l.

Inductive XDataType := XNumber | XString | XBoolean | XNodeset.

Global Instance XDataType_eq_dec : EqDecision XDataType.
Proof. solve_decision. Defined.

(** [XDataCType], and [null] for the placeholder of [visitStepNode]. *)
Inductive XValue :=
| VNumber (n : Js.number)
| VString (s : string)
| VBoolean (b : bool)
| VNodeset (ns : XNodeSet)
| VNull.

Record XData := mkData {
  cType : XDataType;
  value : XValue;
  nodesetArray : option (list XNodeSet)
}.

Definition dNumber (n : Js.number) : XData := mkData XNumber (VNumber n) None.
Definition dString (s : string) : XData := mkData XString (VString s) None.
Definition dBoolean (b : bool) : XData := mkData XBoolean (VBoolean b) None.
Definition dNodeset (ns : XNodeSet) : XData := mkData XNodeset (VNodeset ns) None.

Record XContext := mkContext { ctxPos : nat; ctxSize : nat; ctxNode : NodeId }.

(** The functions of the JavaScript runtime and of the renderer that the
    evaluator calls: [Number.prototype.toString], the conversion [+str] of a
    string to a number, and [Render.transposeEntities]. *)
Class Builtins := {
  numberToString : Js.number → string;
  stringToNumber : string → Js.number;
  transposeEntities : string → string
}.

(** The error monad of the code that reads the tree. *)
Global Instance Result_ret : MRet Result := λ A a, Ok a.
Global Instance Result_bind : MBind Result := λ A B f m,
  match m with
  | Ok a => f a
  | Err e => Err e
  | OutOfFuel => OutOfFuel
  end.

(** [for (const x of l) acc = f(acc, x)] in the error monad. *)
Fixpoint foldM {A B} (f : B → A → Result B) (l : list A) (acc : B) : Result B :=
  match l with
  | [] => Ok acc
  | x :: r => acc' ← f acc x; foldM f r acc'
  end.

(** [a.position() - b.position()] orders an array under
    [Array.prototype.sort], which is stable. *)
Section sorting.
  Context {A : Type} (key : A → Z).

Fixpoint insertForward (x : A) (l : list A) : list A :=
  match l with
  | [] => [x]
  | y :: r => if key x <=? key y then x :: l else y :: insertForward x r
  end.

Fixpoint insertReverse (x : A) (l : list A) : list A :=
  match l with
  | [] => [x]
  | y :: r => if key y <=? key x then x :: l else y :: insertReverse x r
  end.

Definition sortBy (order : DocumentOrder) (l : list A) : list A :=
    match order with
    | Forward => foldr insertForward [] l
    | Reverse => foldr insertReverse [] l
    end.
End sorting.

(** ** xpath.ts: reading the tree *)

Section tree.
  Context `{Builtins}.

  (** The store holding the document. *)
  Variable h : Store.

Definition getNode (id : NodeId) : Result RNode :=
  match h !! id with
  | Some n => Ok n
  | None => Err (TypeError "Cannot read properties of undefined")
  end.

(** [node.position()] *)
Definition position (id : NodeId) : Z :=
  match h !! id with Some n => pos n | None => -1 end.

(** [sortNodeset]: sorts in document order and builds a set. *)
Definition sortNodeset (nodeList : list NodeId) : XNodeSet :=
  setOfList (sortBy position Forward nodeList).

(** [numberValue()] of the classes whose number value is that of their
    [value]. *)
Definition valueToNumber (value : string) : Js.number :=
  if (0 <? String.length (Js.trim value))%nat then stringToNumber value else Js.NaN.

(** [TextNode.numberValue()] and the like, for a child that is a text. *)
Definition textNumberValue (n : RNode) : Js.number :=
  match obj n with
  | TextB t => valueToNumber (TextNode.value t)
  | _ => Js.NaN
  end.

(** [ElementNode.stringValue(transformNamedEntities, checkType)] on the
    children [kids] of the element: the loop stops at the first text whose
    number value is NaN when [checkType] is set. *)
Fixpoint elementStringValue (fuel : nat) (kids : list NodeId)
    (transformNamedEntities checkType : bool) : Result string :=
  match fuel with
  | O => OutOfFuel
  | S fuel' =>
      (fix loop (kids : list NodeId) : Result string :=
         match kids with
         | [] => Ok ""
         | child :: rest =>
             c ← getNode child;
             match obj c with
             | TextB t =>
                 if checkType && Js.isNaN (textNumberValue c) then Ok ""
                 else
                   r ← loop rest;
                   Ok ((if transformNamedEntities
                        then transposeEntities (TextNode.value t)
                        else TextNode.value t) +:+ r)
             | ElementB e =>
                 v ← elementStringValue fuel' (ElementNode.children e)
                       transformNamedEntities checkType;
                 r ← loop rest;
                 Ok (v +:+ r)
             | _ => loop rest
             end
         end) kids
  end.

(** [node.stringValue()] *)
Definition stringValue (fuel : nat) (id : NodeId) : Result string :=
  n ← getNode id;
  match obj n with
  | ElementB e => elementStringValue fuel (ElementNode.children e) true false
  | RootB r => elementStringValue fuel (RootNode.children r) true false
  | TextB t => Ok (transposeEntities (TextNode.value t))
  | AttributeB a => Ok (AttributeNode.value a)
  | NamespaceB x => Ok (NamespaceNode.uri x)
  | CommentB c => Ok (CommentNode.value c)
  | PIB p => Ok (PINode.value p)
  | DTDB d => Ok (DTDNode.value d)
  | XMLDeclB _ => Ok ""
  end.

(** [node.numberValue()] *)
Definition numberValue (fuel : nat) (id : NodeId) : Result Js.number :=
  n ← getNode id;
  match obj n with
  | ElementB e =>
      str ← elementStringValue fuel (ElementNode.children e) false true;
      Ok (valueToNumber str)
  | TextB t => Ok (valueToNumber (TextNode.value t))
  | AttributeB a => Ok (valueToNumber (AttributeNode.value a))
  | CommentB c => Ok (valueToNumber (CommentNode.value c))
  | PIB p => Ok (valueToNumber (PINode.value p))
  | NamespaceB _ | RootB _ | DTDB _ | XMLDeclB _ => Ok Js.NaN
  end.

  (** *** XDataEval *)

Definition XDataEval_toString (fuel : nat) (data : XData) : Result string :=
  match cType data, value data with
  | XString, VString s => Ok s
  | XBoolean, VBoolean b => Ok (if b then "true" else "false")
  | XNumber, VNumber n => Ok (numberToString n)
  | XNodeset, VNodeset nodes =>
      match nodes with
      | first :: _ => stringValue fuel first
      | [] => Ok ""
      end
  | _, _ => Err (TypeError "XDataEval::toString")
  end.

Definition XDataEval_toBoolean (data : XData) : Result bool :=
  match cType data, value data with
  | XBoolean, VBoolean b => Ok b
  | XNodeset, VNodeset nodes => Ok (0 <? List.length nodes)%nat
  | XNumber, VNumber n => Ok (Js.truthyNumber n)
  | XString, VString s => Ok (0 <? String.length s)%nat
  | _, _ => Err (TypeError "XDataEval::toBoolean")
  end.

Definition XDataEval_toNumber (fuel : nat) (data : XData) : Result Js.number :=
  match cType data, value data with
  | XNumber, VNumber n => Ok n
  | XBoolean, VBoolean b => Ok (if b then Js.ofZ 1 else Js.ofZ 0)
  | XNodeset, VNodeset nodes =>
      match nodes with
      | first :: _ => numberValue fuel first
      | [] => Ok Js.NaN
      end
  | XString, VString str =>
      Ok (if (0 <? String.length str)%nat then stringToNumber str else Js.NaN)
  | _, _ => Err (TypeError "XDataEval::toNumeric")
  end.

Definition XDataEval_isNodeset (data : XData) : bool :=
  bool_decide (cType data = XNodeset).
Definition XDataEval_isBoolean (data : XData) : bool :=
  bool_decide (cType data = XBoolean).
Definition XDataEval_isString (data : XData) : bool :=
  bool_decide (cType data = XString).
Definition XDataEval_isNumber (data : XData) : bool :=
  bool_decide (cType data = XNumber).

  (** *** PathState: traversals *)

(** A node test as the traversals take it. *)
Definition FilterFn := RNode → Result bool.

(** [if (test(child)) result.add(child)] *)
Definition addIfPassing (test : FilterFn) (result : XNodeSet) (child : NodeId)
    : Result XNodeSet :=
  c ← getNode child;
  b ← test c;
  Ok (if b : bool then setAdd child result else result).

(** Tests the nodes of [ids] in order and adds those that pass. *)
Definition addPassing (test : FilterFn) (ids : list NodeId) (result : XNodeSet)
    : Result XNodeSet :=
  foldM (addIfPassing test) ids result.

(** [traverseAllLinear(node, test, result)] *)
Definition traverseAllLinear (nd : RNode) (test : FilterFn) (result : XNodeSet)
    : Result XNodeSet :=
  if isParent nd then addPassing test (children nd) result else Ok result.

(** [findAncestors(node, test, nodeset)]: [parent] is the parent the loop
    starts from. *)
Fixpoint findAncestorsFrom (fuel : nat) (par : option NodeId)
    (test : FilterFn) (nodeset : XNodeSet) : Result XNodeSet :=
  match par with
  | None => Ok nodeset
  | Some p =>
      match fuel with
      | O => OutOfFuel
      | S fuel' =>
          n ← getNode p;
          b ← test n;
          findAncestorsFrom fuel' (parent n) test
            (if b : bool then setAdd p nodeset else nodeset)
      end
  end.

Definition findAncestors (fuel : nat) (nd : RNode) (test : FilterFn)
    (nodeset : XNodeSet) : Result XNodeSet :=
  findAncestorsFrom fuel (parent nd) test nodeset.

(** [findDescendants(node, test, nodeset)] *)
Fixpoint findDescendants (fuel : nat) (nd : RNode) (test : FilterFn)
    (nodeset : XNodeSet) : Result XNodeSet :=
  match fuel with
  | O => OutOfFuel
  | S fuel' =>
      if negb (isParent nd) then Ok nodeset
      else
        foldM (λ nodeset child,
                 nodeset ← addIfPassing test nodeset child;
                 c ← getNode child;
                 if isParent c then findDescendants fuel' c test nodeset
                 else Ok nodeset)
              (children nd) nodeset
  end.

(** [index + d] on the [index] field of a node; [None] is NaN. *)
Definition indexPlus (i : JsIndex) (d : Z) : option Z :=
  match i with Idx z => Some (z + d) | _ => None end.

(** The body of the loops of [findFollowing] and [findPreceding]: the
    child, then its descendants. *)
Definition addWithDescendants (fuel : nat) (kids : list NodeId) (test : FilterFn)
    (nodeset : XNodeSet) : Result XNodeSet :=
  foldM (λ nodeset child,
           nodeset ← addIfPassing test nodeset child;
           c ← getNode child;
           findDescendants fuel c test nodeset)
        kids nodeset.

(** The children at the indices [index, index+1, ...]; none when [index]
    is NaN; a negative index reads [undefined]. *)
Definition childrenFrom (kids : list NodeId) (index : option Z)
    : Result (list NodeId) :=
  match index with
  | Some i =>
      if i <? 0 then Err (TypeError "Cannot read properties of undefined")
      else Ok (drop (Z.to_nat i) kids)
  | None => Ok []
  end.

(** The children at the indices [index, index-1, ..., 0]; none when
    [index] is NaN, negative or past the end. *)
Definition childrenDownFrom (kids : list NodeId) (index : option Z) : list NodeId :=
  match index with
  | Some i =>
      if (i <? 0) || (Z.of_nat (List.length kids) <=? i) then []
      else rev (take (S (Z.to_nat i)) kids)
  | None => []
  end.

(** The [do ... while (!isRoot(parent))] of [findFollowing]. *)
Fixpoint followingLoop (fuel : nat) (par : NodeId) (idx : option Z)
    (test : FilterFn) (nodeset : XNodeSet) : Result XNodeSet :=
  match fuel with
  | O => OutOfFuel
  | S fuel' =>
      p ← getNode par;
      kids ← childrenFrom (children p) idx;
      nodeset ← addWithDescendants fuel' kids test nodeset;
      (* climb up-down, next child after parent *)
      let idx' := indexPlus (index p) 1 in
      match parent p with
      | None => Ok nodeset
      | Some parent' =>
          p' ← getNode parent';
          if negb (isRoot p') then followingLoop fuel' parent' idx' test nodeset
          else Ok nodeset
      end
  end.

(** [findFollowing(node, test, nodeset)] *)
Definition findFollowing (fuel : nat) (nd : RNode) (test : FilterFn)
    (nodeset : XNodeSet) : Result XNodeSet :=
  let index :=
    if isAttribute nd || isNamespace nd then Some 0
    else indexPlus (index nd) 1 in
  match parent nd with
  | None => Ok nodeset
  | Some parent => followingLoop fuel parent index test nodeset
  end.

(** [index < 0]; false on NaN. *)
Definition isNegative (index : option Z) : bool :=
  match index with Some i => i <? 0 | None => false end.

(** The [do ... while (!isRoot(parent))] of [findPreceding]. *)
Fixpoint precedingLoop (fuel : nat) (par : NodeId) (idx : option Z)
    (test : FilterFn) (nodeset : XNodeSet) : Result XNodeSet :=
  match fuel with
  | O => OutOfFuel
  | S fuel' =>
      p ← getNode par;
      nodeset ← addWithDescendants fuel' (childrenDownFrom (children p) idx)
                  test nodeset;
      let idx' := indexPlus (index p) (-1) in
      match parent p with
      | None => Ok nodeset
      | Some parent' =>
          if isNegative idx' then Ok nodeset
          else
            p' ← getNode parent';
            if negb (isRoot p') then precedingLoop fuel' parent' idx' test nodeset
            else Ok nodeset
      end
  end.

(** [findPreceding(node, test, nodeset)] *)
Definition findPreceding (fuel : nat) (nd : RNode) (test : FilterFn)
    (nodeset : XNodeSet) : Result XNodeSet :=
  start ←
    (if isAttribute nd || isNamespace nd then
       (* parent should be the parent of the element housing the attribute *)
       match parent nd with
       | None => Err (TypeError "Cannot read properties of undefined")
       | Some owner =>
           o ← getNode owner;
           Ok (parent o, indexPlus (index o) (-1))
       end
     else Ok (parent nd, indexPlus (index nd) (-1)));
  match start with
  | (None, _) => Ok nodeset
  | (Some parent, index) =>
      if isNegative index then Ok nodeset
      else precedingLoop fuel parent index test nodeset
  end.

(** [findFollowingSibling(node, test, nodeset)] *)
Definition findFollowingSibling (nd : RNode) (test : FilterFn)
    (nodeset : XNodeSet) : Result XNodeSet :=
  if isAttribute nd || isNamespace nd || isRoot nd then Ok nodeset
  else
    match parent nd with
    | None => Err (TypeError "Cannot read properties of undefined")
    | Some parent =>
        p ← getNode parent;
        sib ← childrenFrom (children p) (indexPlus (index nd) 1);
        addPassing test sib nodeset
    end.

(** The children at [index, index-1, ..., 0] as
    [for (index = node.index - 1; index >= 0; index--)] reads them; an
    index past the end reads [undefined]. *)
Definition siblingsDownFrom (kids : list NodeId) (index : option Z)
    : Result (list NodeId) :=
  match index with
  | Some i =>
      if i <? 0 then Ok []
      else if Z.of_nat (List.length kids) <=? i
           then Err (TypeError "Cannot read properties of undefined")
           else Ok (rev (take (S (Z.to_nat i)) kids))
  | None => Ok []
  end.

(** [findPrecedingSibling(node, test, nodeset)] *)
Definition findPrecedingSibling (nd : RNode) (test : FilterFn)
    (nodeset : XNodeSet) : Result XNodeSet :=
  if isAttribute nd || isNamespace nd || isRoot nd then Ok nodeset
  else
    match parent nd with
    | None => Err (TypeError "Cannot read properties of undefined")
    | Some parent =>
        p ← getNode parent;
        sib ← siblingsDownFrom (children p) (indexPlus (index nd) (-1));
        addPassing test sib nodeset
    end.
End tree.

(** ** xpath.ts: PathState *)

Section path_state.
  Context `{Builtins}.
  Variable h : Store.

  Local Abbreviation getNode := (getNode h).

Definition undefinedError {A} : Result A :=
  Err (TypeError "Cannot read properties of undefined").

(** The namespace declared on [curr] whose prefix is [pname]: the inner
    [for] loop of [compareName]. *)
Fixpoint declaredNamespace (nss : list NodeId) (pname : string)
    : Result (option NodeId) :=
  match nss with
  | [] => Ok None
  | n :: rest =>
      x ← getNode n;
      match obj x with
      | NamespaceB ns =>
          if String.eqb (NamespaceNode.prefix ns) pname then Ok (Some n)
          else declaredNamespace rest pname
      | _ => declaredNamespace rest pname
      end
  end.

(** The [do ... while (curr)] of [compareName]: it walks up to the root
    and keeps the last declaration it meets. *)
Fixpoint findTestNS (fuel : nat) (curr : RNode) (pname : string)
    (testNS : option NodeId) : Result (option NodeId) :=
  match fuel with
  | O => OutOfFuel
  | S fuel' =>
      if negb (isParent curr) then undefinedError else
      found ← declaredNamespace (namespaces curr) pname;
      let testNS := match found with Some n => Some n | None => testNS end in
      match parent curr with
      | None => Ok testNS
      | Some p => c ← getNode p; findTestNS fuel' c pname testNS
      end
  end.

Definition namespaceUri (id : NodeId) : Result string :=
  x ← getNode id;
  match obj x with
  | NamespaceB ns => Ok (NamespaceNode.uri ns)
  | _ => undefinedError
  end.

(** [compareName(node, test)] *)
Definition compareName (fuel : nat) (nd : RNode) (testType : NameTestType.t)
    (testName : RName.t) : Result bool :=
  match boundNamespace nd with
  | None => Ok false
  | Some ownNS =>
      own ← getNode ownNS;
      let isDefault := match obj own with
                       | NamespaceB ns => NamespaceNode.isDefault ns
                       | _ => false
                       end in
      if isDefault then Ok false else
      curr ← (if isAttribute nd
              then match parent nd with
                   | Some p => getNode p
                   | None => undefinedError
                   end
              else Ok nd);
      testNS ← findTestNS fuel curr (RName.pname testName) None;
      match testNS with
      | None => Ok false
      | Some testNS =>
          tu ← namespaceUri testNS;
          ou ← namespaceUri ownNS;
          match testType with
          | NameTestType.PrefixLocal =>
              Ok (String.eqb tu ou
                  && String.eqb
                       (RName.lname (default (RName.mk "" "" "") (nodeName nd)))
                       (RName.lname testName))
          | NameTestType.PrefixWildcard =>
              Ok (bool_decide (testNS = ownNS) || String.eqb tu ou)
          | _ => Ok false
          end
      end
  end.

(** [isNameTestPassed(node, nt)] *)
Definition isNameTestPassed (fuel : nat) (nd : RNode) (nt : NodeTest) : Result bool :=
  match nt with
  | NameTest NameTestType.Wildcard _ => Ok true
  | NameTest NameTestType.Name (Some name) =>
      match nodeName nd with
      | Some n => Ok (String.eqb (RName.qname n) (RName.qname name))
      | None => undefinedError
      end
  | NameTest NameTestType.PrefixLocal (Some name) =>
      compareName fuel nd NameTestType.PrefixLocal name
  | NameTest NameTestType.PrefixWildcard (Some name) =>
      compareName fuel nd NameTestType.PrefixWildcard name
  | NameTest NameTestType.WildcardLocal _ =>
      Err (Unreachable "PathState::isNameTestPassed")
  | NameTest _ None => undefinedError
  | KindTest _ _ => Err (Unreachable "PathState::isNameTestPassed")
  end.

(** [isKindTestPassed(node, kt)] *)
Definition isKindTestPassed (nd : RNode) (kt : NodeTest) : Result bool :=
  match kt with
  | KindTest KindTestType.Text _ => Ok (isText nd)
  | KindTest KindTestType.Comment _ => Ok (isComment nd)
  | KindTest KindTestType.Node _ => Ok true
  | KindTest KindTestType.Pi target =>
      match target, obj nd with
      | Some t, PIB p =>
          if Js.truthy t then Ok (String.eqb t (PINode.target p)) else Ok true
      | Some t, _ => Ok false
      | None, _ => Ok (isPI nd)
      end
  | NameTest _ _ => Err (Unreachable "PathState::isKindTestPassed")
  end.

(** [(n) => nodes.isElement(n) && this.isNameTestPassed(n, test)] *)
Definition elementNameTest (fuel : nat) (nt : NodeTest) : FilterFn :=
  λ n, if isElement n then isNameTestPassed fuel n nt else Ok false.

(** [(n) => this.isKindTestPassed(n, test)] *)
Definition kindTest (kt : NodeTest) : FilterFn :=
  λ n, isKindTestPassed n kt.

(** [findAttribute(node, test, nodeset)] *)
Definition findAttribute (fuel : nat) (nd : RNode) (nt : NodeTest)
    (nodeset : XNodeSet) : Result XNodeSet :=
  match obj nd with
  | ElementB e =>
      if negb (ElementNode.hasAttribute e) then Ok nodeset
      else
        foldM (λ nodeset attr,
                 match nt with
                 | KindTest KindTestType.Node _ => Ok (setAdd attr nodeset)
                 | KindTest _ _ => Ok nodeset
                 | NameTest _ _ =>
                     a ← getNode attr;
                     b ← isNameTestPassed fuel a nt;
                     Ok (if b : bool then setAdd attr nodeset else nodeset)
                 end)
              (JsMap.values (ElementNode.attributes e)) nodeset
  | _ => Ok nodeset
  end.

(** [addNodeset(nodeset)]: only non-empty sets enter the array. *)
Definition addNodeset (nodeset : XNodeSet) (nodesetArray : list XNodeSet)
    : list XNodeSet :=
  match nodeset with
  | [] => nodesetArray
  | _ => nodesetArray ++ [nodeset]
  end.

  (** The fields of the path state: the node set of the previous step, the
      context node and the root. *)
  Variable nodeset : XNodeSet.
  Variable node : NodeId.
  Variable root : NodeId.
  Variable fuel : nat.

(** [for (const item of this.nodeset) { ...; this.addNodeset(...) }] *)
Definition forEachItem (f : NodeId → RNode → Result XNodeSet)
    : Result (list XNodeSet) :=
  foldM (λ arr item, n ← getNode item; ns ← f item n; Ok (addNodeset ns arr))
        nodeset [].

(** The same loop when the body adds a set only under a condition. *)
Definition forEachItemIf (f : NodeId → RNode → Result (option XNodeSet))
    : Result (list XNodeSet) :=
  foldM (λ arr item,
           n ← getNode item;
           r ← f item n;
           Ok (match r with Some ns => addNodeset ns arr | None => arr end))
        nodeset [].

Definition single (ns : XNodeSet) : list XNodeSet := addNodeset ns [].

  (** path-spec 0 (none) *)

Definition s0Self : Result (list XNodeSet) := Ok [[node]].

Definition s0Parent : Result (list XNodeSet) :=
  n ← getNode node;
  match parent n with
  | Some p => Ok [[p]]
  | None => Ok []
  end.

Definition s0Child (test : FilterFn) : Result (list XNodeSet) :=
  n ← getNode node;
  if isParent n then ns ← traverseAllLinear h n test []; Ok (single ns)
  else Ok [].
Definition s0ChildNameTest (nt : NodeTest) := s0Child (elementNameTest fuel nt).
Definition s0ChildKindTest (kt : NodeTest) := s0Child (kindTest kt).

Definition s0SelfTest (test : FilterFn) : Result (list XNodeSet) :=
  n ← getNode node;
  b ← test n;
  Ok (if b : bool then [[node]] else []).
Definition s0SelfNameTest (nt : NodeTest) := s0SelfTest (elementNameTest fuel nt).
Definition s0SelfKindTest (kt : NodeTest) := s0SelfTest (kindTest kt).

Definition s0Ancestor (test : FilterFn) : Result (list XNodeSet) :=
  n ← getNode node;
  ns ← findAncestors h fuel n test [];
  Ok (single ns).
Definition s0AncestorNameTest (nt : NodeTest) := s0Ancestor (elementNameTest fuel nt).
Definition s0AncestorKindTest (kt : NodeTest) := s0Ancestor (kindTest kt).

Definition s0AncestorOrSelf (test : FilterFn) : Result (list XNodeSet) :=
  n ← getNode node;
  b ← test n;
  ns ← findAncestors h fuel n test (if b : bool then [node] else []);
  Ok (single ns).
Definition s0AncestorOrSelfNameTest (nt : NodeTest) :=
  s0AncestorOrSelf (elementNameTest fuel nt).
Definition s0AncestorOrSelfKindTest (kt : NodeTest) :=
  s0AncestorOrSelf (kindTest kt).

Definition s0AttributeTest (nt : NodeTest) : Result (list XNodeSet) :=
  n ← getNode node;
  if isElement n then ns ← findAttribute fuel n nt []; Ok (single ns)
  else Ok [].
Definition s0AttributeNameTest := s0AttributeTest.
Definition s0AttributeKindTest := s0AttributeTest.

Definition s0Descendant (test : FilterFn) : Result (list XNodeSet) :=
  n ← getNode node;
  ns ← findDescendants h fuel n test [];
  Ok (single ns).
Definition s0DescendantNameTest (nt : NodeTest) := s0Descendant (elementNameTest fuel nt).
Definition s0DescendantKindTest (kt : NodeTest) := s0Descendant (kindTest kt).

Definition s0DescendantOrSelf (test : FilterFn) : Result (list XNodeSet) :=
  n ← getNode node;
  b ← test n;
  ns ← findDescendants h fuel n test (if b : bool then [node] else []);
  Ok (single ns).
Definition s0DescendantOrSelfNameTest (nt : NodeTest) :=
  s0DescendantOrSelf (elementNameTest fuel nt).
Definition s0DescendantOrSelfKindTest (kt : NodeTest) :=
  s0DescendantOrSelf (kindTest kt).

Definition s0Following (test : FilterFn) : Result (list XNodeSet) :=
  n ← getNode node;
  ns ← findFollowing h fuel n test [];
  Ok (single ns).
Definition s0FollowingNameTest (nt : NodeTest) := s0Following (elementNameTest fuel nt).
Definition s0FollowingKindTest (kt : NodeTest) := s0Following (kindTest kt).

Definition s0FollowingSibling (test : FilterFn) : Result (list XNodeSet) :=
  n ← getNode node;
  ns ← findFollowingSibling h n test [];
  Ok (single ns).
Definition s0FollowingSiblingNameTest (nt : NodeTest) :=
  s0FollowingSibling (elementNameTest fuel nt).
Definition s0FollowingSiblingKindTest (kt : NodeTest) :=
  s0FollowingSibling (kindTest kt).

(** The parent of [item] when it passes the name test of [parent::]: the
    root never does. *)
Definition parentNameTest (n : RNode) (nt : NodeTest) : Result (option XNodeSet) :=
  match parent n with
  | None => Ok None
  | Some p =>
      pn ← getNode p;
      if isRoot pn then Ok None
      else b ← isNameTestPassed fuel pn nt;
           Ok (if b : bool then Some [p] else None)
  end.

Definition parentKindTest (n : RNode) (kt : NodeTest) : Result (option XNodeSet) :=
  match parent n with
  | None => Ok None
  | Some p =>
      pn ← getNode p;
      b ← isKindTestPassed pn kt;
      Ok (if b : bool then Some [p] else None)
  end.

Definition s0ParentNameTest (nt : NodeTest) : Result (list XNodeSet) :=
  n ← getNode node;
  r ← parentNameTest n nt;
  Ok (match r with Some ns => single ns | None => [] end).

Definition s0ParentKindTest (kt : NodeTest) : Result (list XNodeSet) :=
  n ← getNode node;
  r ← parentKindTest n kt;
  Ok (match r with Some ns => single ns | None => [] end).

Definition s0Preceding (test : FilterFn) : Result (list XNodeSet) :=
  n ← getNode node;
  ns ← findPreceding h fuel n test [];
  Ok (single ns).
Definition s0PrecedingNameTest (nt : NodeTest) := s0Preceding (elementNameTest fuel nt).
Definition s0PrecedingKindTest (kt : NodeTest) := s0Preceding (kindTest kt).

Definition s0PrecedingSibling (test : FilterFn) : Result (list XNodeSet) :=
  n ← getNode node;
  ns ← findPrecedingSibling h n test [];
  Ok (single ns).
Definition s0PrecedingSiblingNameTest (nt : NodeTest) :=
  s0PrecedingSibling (elementNameTest fuel nt).
Definition s0PrecedingSiblingKindTest (kt : NodeTest) :=
  s0PrecedingSibling (kindTest kt).

  (** path-spec 1 ('/') *)

Definition isEmpty (ns : XNodeSet) : bool :=
  match ns with [] => true | _ => false end.

Definition s1Self : Result (list XNodeSet) :=
  if isEmpty nodeset then Ok [[root]] else Ok (single nodeset).

Definition s1Parent : Result (list XNodeSet) :=
  forEachItemIf (λ _ n, Ok (match parent n with Some p => Some [p] | None => None end)).

(** [this.root.rootElement!] *)
Definition rootElement : Result (option NodeId) :=
  r ← getNode root;
  match obj r with
  | RootB x => Ok (RootNode.rootElement x)
  | _ => Ok None
  end.

(** At the first step the root element is tested.  Without a root
    element the code tests [null]: every test that reads the node fails
    with a TypeError; the wildcard and [node()] pass and the code adds
    [null] to the set, which the model, whose sets hold node objects only,
    reports as a TypeError as well. *)
Definition s1ChildNameTest (nt : NodeTest) : Result (list XNodeSet) :=
  if isEmpty nodeset then
    re ← rootElement;
    match re with
    | None => undefinedError
    | Some rootElem =>
        e ← getNode rootElem;
        b ← isNameTestPassed fuel e nt;
        Ok (if b : bool then [[rootElem]] else [])
    end
  else
    forEachItemIf (λ _ item,
      if isParent item
      then ns ← traverseAllLinear h item (elementNameTest fuel nt) []; Ok (Some ns)
      else Ok None).

Definition s1ChildKindTest (kt : NodeTest) : Result (list XNodeSet) :=
  if isEmpty nodeset then
    re ← rootElement;
    match re with
    | None => undefinedError
    | Some rootElem =>
        e ← getNode rootElem;
        b ← isKindTestPassed e kt;
        Ok (if b : bool then [[rootElem]] else [])
    end
  else
    forEachItemIf (λ _ item,
      if isParent item
      then ns ← traverseAllLinear h item (kindTest kt) []; Ok (Some ns)
      else Ok None).

Definition s1SelfNameTest (nt : NodeTest) : Result (list XNodeSet) :=
  forEachItemIf (λ id n,
    b ← elementNameTest fuel nt n; Ok (if b : bool then Some [id] else None)).

Definition s1SelfKindTest (kt : NodeTest) : Result (list XNodeSet) :=
  if isEmpty nodeset then
    match kt with
    | KindTest KindTestType.Node _ => Ok [[root]]
    | _ => Ok []
    end
  else
    forEachItemIf (λ id n,
      b ← isKindTestPassed n kt; Ok (if b : bool then Some [id] else None)).

Definition s1Ancestor (test : FilterFn) : Result (list XNodeSet) :=
  forEachItem (λ _ item, findAncestors h fuel item test []).
Definition s1AncestorNameTest (nt : NodeTest) := s1Ancestor (elementNameTest fuel nt).
Definition s1AncestorKindTest (kt : NodeTest) := s1Ancestor (kindTest kt).

Definition s1AncestorOrSelf (test : FilterFn) : Result (list XNodeSet) :=
  forEachItem (λ id item,
    b ← test item;
    findAncestors h fuel item test (if b : bool then [id] else [])).

Definition s1AncestorOrSelfNameTest (nt : NodeTest) :=
  s1AncestorOrSelf (elementNameTest fuel nt).

Definition s1AncestorOrSelfKindTest (kt : NodeTest) : Result (list XNodeSet) :=
  if isEmpty nodeset then
    match kt with
    | KindTest KindTestType.Node _ => Ok [[root]]
    | _ => Ok []
    end
  else s1AncestorOrSelf (kindTest kt).

Definition s1AttributeTest (nt : NodeTest) : Result (list XNodeSet) :=
  forEachItemIf (λ _ item,
    if isElement item then ns ← findAttribute fuel item nt []; Ok (Some ns)
    else Ok None).
Definition s1AttributeNameTest := s1AttributeTest.
Definition s1AttributeKindTest := s1AttributeTest.

Definition s1Descendant (test : FilterFn) : Result (list XNodeSet) :=
  if isEmpty nodeset then
    r ← getNode root;
    ns ← findDescendants h fuel r test [];
    Ok (single ns)
  else forEachItem (λ _ item, findDescendants h fuel item test []).
Definition s1DescendantNameTest (nt : NodeTest) := s1Descendant (elementNameTest fuel nt).
Definition s1DescendantKindTest (kt : NodeTest) := s1Descendant (kindTest kt).

Definition s1DescendantOrSelfNameTest (nt : NodeTest) : Result (list XNodeSet) :=
  if isEmpty nodeset then
    (* at the first step this.node is a RootNode, not an element *)
    r ← getNode root;
    ns ← findDescendants h fuel r (elementNameTest fuel nt) [];
    Ok (single ns)
  else
    forEachItem (λ id item,
      b ← elementNameTest fuel nt item;
      findDescendants h fuel item (elementNameTest fuel nt)
        (if b : bool then [id] else [])).

Definition s1DescendantOrSelfKindTest (kt : NodeTest) : Result (list XNodeSet) :=
  if isEmpty nodeset then
    r ← getNode root;
    b ← isKindTestPassed r kt;
    ns ← findDescendants h fuel r (kindTest kt) (if b : bool then [root] else []);
    Ok (single ns)
  else
    forEachItem (λ id item,
      b ← isKindTestPassed item kt;
      findDescendants h fuel item (kindTest kt) (if b : bool then [id] else [])).

Definition s1Following (test : FilterFn) : Result (list XNodeSet) :=
  forEachItem (λ _ item, findFollowing h fuel item test []).
Definition s1FollowingNameTest (nt : NodeTest) := s1Following (elementNameTest fuel nt).
Definition s1FollowingKindTest (kt : NodeTest) := s1Following (kindTest kt).

Definition s1FollowingSibling (test : FilterFn) : Result (list XNodeSet) :=
  forEachItem (λ _ item, findFollowingSibling h item test []).
Definition s1FollowingSiblingNameTest (nt : NodeTest) :=
  s1FollowingSibling (elementNameTest fuel nt).
Definition s1FollowingSiblingKindTest (kt : NodeTest) :=
  s1FollowingSibling (kindTest kt).

Definition s1ParentNameTest (nt : NodeTest) : Result (list XNodeSet) :=
  forEachItemIf (λ _ item, parentNameTest item nt).

Definition s1ParentKindTest (kt : NodeTest) : Result (list XNodeSet) :=
  forEachItemIf (λ _ item, parentKindTest item kt).

Definition s1Preceding (test : FilterFn) : Result (list XNodeSet) :=
  forEachItem (λ _ item, findPreceding h fuel item test []).
Definition s1PrecedingNameTest (nt : NodeTest) := s1Preceding (elementNameTest fuel nt).
Definition s1PrecedingKindTest (kt : NodeTest) := s1Preceding (kindTest kt).

Definition s1PrecedingSibling (test : FilterFn) : Result (list XNodeSet) :=
  forEachItem (λ _ item, findPrecedingSibling h item test []).
Definition s1PrecedingSiblingNameTest (nt : NodeTest) :=
  s1PrecedingSibling (elementNameTest fuel nt).
Definition s1PrecedingSiblingKindTest (kt : NodeTest) :=
  s1PrecedingSibling (kindTest kt).

(** [step(node)]: the method named by the path spec, the axis and the
    kind of the node test is called; there is none for the namespace
    axis. *)
Definition PathState_step (path : PathSpec.t) (step : StepSpec.t)
    (axis : option Axis.t) (nodeTest : option NodeTestNode)
    : Result (list XNodeSet) :=
  let s1 := match path with PathSpec.Single => true | _ => false end in
  match step with
  | StepSpec.Self => if s1 then s1Self else s0Self
  | StepSpec.Parent => if s1 then s1Parent else s0Parent
  | StepSpec.Nil =>
      match axis with
      | None => Err (TypeError "Unknown axis type")
      | Some axis =>
          let isNameTest := match nodeTest with
                            | Some (mkNodeTestNode (NameTest _ _) _) => true
                            | _ => false
                            end in
          match axis, nodeTest with
          | Axis.Namespace, _ => Err (TypeError "this[path] is undefined")
          | _, None => undefinedError
          | _, Some (mkNodeTestNode t _) =>
              match axis, s1, isNameTest with
              | Axis.Child, false, true => s0ChildNameTest t
              | Axis.Child, false, false => s0ChildKindTest t
              | Axis.Child, true, true => s1ChildNameTest t
              | Axis.Child, true, false => s1ChildKindTest t
              | Axis.Self, false, true => s0SelfNameTest t
              | Axis.Self, false, false => s0SelfKindTest t
              | Axis.Self, true, true => s1SelfNameTest t
              | Axis.Self, true, false => s1SelfKindTest t
              | Axis.Ancestor, false, true => s0AncestorNameTest t
              | Axis.Ancestor, false, false => s0AncestorKindTest t
              | Axis.Ancestor, true, true => s1AncestorNameTest t
              | Axis.Ancestor, true, false => s1AncestorKindTest t
              | Axis.AncestorOrSelf, false, true => s0AncestorOrSelfNameTest t
              | Axis.AncestorOrSelf, false, false => s0AncestorOrSelfKindTest t
              | Axis.AncestorOrSelf, true, true => s1AncestorOrSelfNameTest t
              | Axis.AncestorOrSelf, true, false => s1AncestorOrSelfKindTest t
              | Axis.Attribute, false, true => s0AttributeNameTest t
              | Axis.Attribute, false, false => s0AttributeKindTest t
              | Axis.Attribute, true, true => s1AttributeNameTest t
              | Axis.Attribute, true, false => s1AttributeKindTest t
              | Axis.Descendant, false, true => s0DescendantNameTest t
              | Axis.Descendant, false, false => s0DescendantKindTest t
              | Axis.Descendant, true, true => s1DescendantNameTest t
              | Axis.Descendant, true, false => s1DescendantKindTest t
              | Axis.DescendantOrSelf, false, true => s0DescendantOrSelfNameTest t
              | Axis.DescendantOrSelf, false, false => s0DescendantOrSelfKindTest t
              | Axis.DescendantOrSelf, true, true => s1DescendantOrSelfNameTest t
              | Axis.DescendantOrSelf, true, false => s1DescendantOrSelfKindTest t
              | Axis.Following, false, true => s0FollowingNameTest t
              | Axis.Following, false, false => s0FollowingKindTest t
              | Axis.Following, true, true => s1FollowingNameTest t
              | Axis.Following, true, false => s1FollowingKindTest t
              | Axis.FollowingSibling, false, true => s0FollowingSiblingNameTest t
              | Axis.FollowingSibling, false, false => s0FollowingSiblingKindTest t
              | Axis.FollowingSibling, true, true => s1FollowingSiblingNameTest t
              | Axis.FollowingSibling, true, false => s1FollowingSiblingKindTest t
              | Axis.Parent, false, true => s0ParentNameTest t
              | Axis.Parent, false, false => s0ParentKindTest t
              | Axis.Parent, true, true => s1ParentNameTest t
              | Axis.Parent, true, false => s1ParentKindTest t
              | Axis.Preceding, false, true => s0PrecedingNameTest t
              | Axis.Preceding, false, false => s0PrecedingKindTest t
              | Axis.Preceding, true, true => s1PrecedingNameTest t
              | Axis.Preceding, true, false => s1PrecedingKindTest t
              | Axis.PrecedingSibling, false, true => s0PrecedingSiblingNameTest t
              | Axis.PrecedingSibling, false, false => s0PrecedingSiblingKindTest t
              | Axis.PrecedingSibling, true, true => s1PrecedingSiblingNameTest t
              | Axis.PrecedingSibling, true, false => s1PrecedingSiblingKindTest t
              | Axis.Namespace, _, _ => Err (TypeError "this[path] is undefined")
              end
          end
      end
  end.
End path_state.

(** ** xpath.ts: XPath, the evaluator *)

Module XPath.
(** The fields of an evaluator object: the root of the document, the
    context stack and the data stack (top first); [ctx] is the top of the
    context stack. *)
Record t := mk {
  root : NodeId;
  ctxStack : list XContext;
  dataStack : list XData
}.
Definition set_ctxStack x (p : t) := mk (root p) x (dataStack p).
Definition set_dataStack x (p : t) := mk (root p) (ctxStack p) x.
Definition ctx (p : t) : option XContext := head (ctxStack p).
End XPath.

(** What [queryOne] returns: [null], a node, or a scalar. *)
Inductive XReturn :=
| RNull
| RNode_ (id : NodeId)
| RNumber (n : Js.number)
| RString (s : string)
| RBoolean (b : bool).

Section evaluator.
  Context `{Builtins}.
  Variable h : Store.
  Import XPath.

  Local Abbreviation XM := (StateM XPath.t).

Definition liftR {A} (r : Result A) : XM A := λ st,
  match r with
  | Ok a => Ok (a, st)
  | Err e => Err e
  | OutOfFuel => OutOfFuel
  end.

Definition evalError {A} (msg : string) : XM A := throw (EvalError msg).

Definition pushContext (c : XContext) : XM unit :=
  modify (λ st, set_ctxStack (c :: ctxStack st) st).

Definition popContext : XM unit :=
  modify (λ st, set_ctxStack (tail (ctxStack st)) st).

Definition pushData (data : XData) : XM unit :=
  modify (λ st, set_dataStack (data :: dataStack st) st).

(** [popData()]: [undefined] on an empty stack. *)
Definition popData : XM (option XData) := λ st,
  match dataStack st with
  | d :: rest => Ok (Some d, set_dataStack rest st)
  | [] => Ok (None, st)
  end.

(** [popData()] where the code reads a field of the result at once. *)
Definition popDefined : XM XData :=
  d ← popData;
  match d with
  | Some d => mret d
  | None => throw (TypeError "Cannot read properties of undefined")
  end.

(** [this.ctx], read for one of its fields. *)
Definition getCtx : XM XContext :=
  c ← gets ctx;
  match c with
  | Some c => mret c
  | None => throw (TypeError "Cannot read properties of undefined")
  end.

(** [data.value as XNodeSet], for a use that needs a set. *)
Definition asNodeset (data : XData) : XM XNodeSet :=
  match value data with
  | VNodeset ns => mret ns
  | _ => throw (TypeError "value is not iterable")
  end.

Definition endComputation : XM unit :=
  ds ← gets dataStack;
  match ds with
  | [] => mret tt
  | _ =>
      modify (set_dataStack []);;
      evalError "Computation Error. Probable cause, bad query expression"
  end.

(** [reorderNodesetArrayInPlace(nodesetArray, order)] *)
Definition reorderNodesetArray (nodesetArray : list XNodeSet)
    (order : DocumentOrder) : list XNodeSet :=
  map (λ nodeset, setOfList (sortBy (position h) order nodeset)) nodesetArray.

(** The comparison operators on numbers and strings. *)
Definition numberOp (op : OpType) (l r : Js.number) : bool :=
  match op with
  | OpEq => Js.eqb l r
  | OpNeq => negb (Js.eqb l r)
  | OpLt => Js.ltb l r
  | OpGt => Js.ltb r l
  | OpLeq => Js.leb l r
  | OpGeq => Js.leb r l
  | _ => false
  end.

(** [exists] over a node set, in the error monad. *)
Definition anyM (f : NodeId → Result bool) (l : XNodeSet) : Result bool :=
  foldM (λ acc x, if acc : bool then Ok true else f x) l false.

  Variable fuel : nat.

Definition isRelativeOp (op : OpType) : bool :=
  match op with
  | OpEq | OpNeq | OpLt | OpLeq | OpGt | OpGeq => true
  | _ => false
  end.

(** The comparator of two nodes: string values for [=] and [!=], number
    values for the order relations. *)
Definition compareNodes (op : OpType) (i j : NodeId) : Result bool :=
  match op with
  | OpEq => a ← stringValue h fuel i; b ← stringValue h fuel j; Ok (String.eqb a b)
  | OpNeq => a ← stringValue h fuel i; b ← stringValue h fuel j; Ok (negb (String.eqb a b))
  | _ => a ← numberValue h fuel i; b ← numberValue h fuel j; Ok (numberOp op a b)
  end.

Definition compare_Nodeset_Nodeset (left right : XData) (op : OpType) : XM unit :=
  l ← asNodeset left;
  r ← asNodeset right;
  if negb (isRelativeOp op) then throw (TypeError "comparators[op] is not a function") else
  ret ← liftR (anyM (λ i, anyM (λ j, compareNodes op i j) r) l);
  pushData (dBoolean ret).

Definition compare_Nodeset_String (left right : XData) (op : OpType) : XM unit :=
  l ← asNodeset left;
  if negb (isRelativeOp op) then throw (TypeError "comparators[op] is not a function") else
  ret ← liftR (anyM (λ nd,
           match op, value right with
           | OpEq, VString s => a ← stringValue h fuel nd; Ok (String.eqb a s)
           | OpNeq, VString s => a ← stringValue h fuel nd; Ok (negb (String.eqb a s))
           | OpEq, _ => Ok false
           | OpNeq, _ => Ok true
           | _, _ =>
               a ← numberValue h fuel nd;
               b ← XDataEval_toNumber h fuel right;
               Ok (numberOp op a b)
           end) l);
  pushData (dBoolean ret).

Definition compare_Nodeset_Number (left right : XData) (op : OpType) : XM unit :=
  l ← asNodeset left;
  if negb (isRelativeOp op) then throw (TypeError "comparators[op] is not a function") else
  ret ← liftR (anyM (λ nd,
           a ← numberValue h fuel nd;
           match value right with
           | VNumber r => Ok (numberOp op a r)
           | _ => Ok (match op with OpNeq => true | _ => false end)
           end) l);
  pushData (dBoolean ret).

Definition compare_Nodeset_Boolean (left right : XData) (op : OpType) : XM unit :=
  match op with
  | OpEq | OpNeq =>
      l ← liftR (XDataEval_toBoolean left);
      let eq := match value right with
                | VBoolean r => Bool.eqb l r
                | _ => false
                end in
      pushData (dBoolean (match op with OpEq => eq | _ => negb eq end))
  | OpLt | OpGt | OpLeq | OpGeq =>
      l ← liftR (XDataEval_toNumber h fuel left);
      r ← liftR (XDataEval_toNumber h fuel right);
      pushData (dBoolean (numberOp op l r))
  | _ => throw (TypeError "comparators[op] is not a function")
  end.

(** [nodeset op x] for [x op nodeset]: the operator is mirrored. *)
Definition mirror (op : OpType) : option OpType :=
  match op with
  | OpEq => Some OpEq
  | OpNeq => Some OpNeq
  | OpGt => Some OpLt
  | OpLt => Some OpGt
  | OpLeq => Some OpGeq
  | OpGeq => Some OpLeq
  | _ => None
  end.

Definition compare_Boolean_Nodeset (left right : XData) (op : OpType) : XM unit :=
  match mirror op with
  | Some op' => compare_Nodeset_Boolean right left op'
  | None => throw (Unreachable "compare_Boolean_Nodeset")
  end.

Definition compare_String_Nodeset (left right : XData) (op : OpType) : XM unit :=
  match mirror op with
  | Some op' => compare_Nodeset_String right left op'
  | None => throw (Unreachable "compare_String_Nodeset")
  end.

Definition compare_Number_Nodeset (left right : XData) (op : OpType) : XM unit :=
  match mirror op with
  | Some op' => compare_Nodeset_Number right left op'
  | None => throw (Unreachable "compare_Number_Nodeset")
  end.

(** [evaluatePredicateExpr(res)] *)
Definition evaluatePredicateExpr (res : XData) : XM bool :=
  match cType res with
  | XNumber =>
      c ← getCtx;
      match value res with
      | VNumber n => mret (Js.eqb n (Js.ofNat (ctxPos c)))
      | _ => mret false
      end
  | XBoolean =>
      match value res with
      | VBoolean b => mret b
      | _ => throw (TypeError "XDataEval::toBoolean")
      end
  | _ => liftR (XDataEval_toBoolean res)
  end.

Definition evaluateNonNodesetRelativeExpr (left right : XData) (op : OpType) : XM unit :=
  match op with
  | OpEq | OpNeq =>
      eq ←
        (if XDataEval_isBoolean left || XDataEval_isBoolean right then
           l ← liftR (XDataEval_toBoolean left);
           r ← liftR (XDataEval_toBoolean right);
           mret (Bool.eqb l r)
         else if XDataEval_isNumber left || XDataEval_isNumber right then
           l ← liftR (XDataEval_toNumber h fuel left);
           r ← liftR (XDataEval_toNumber h fuel right);
           mret (Js.eqb l r)
         else
           l ← liftR (XDataEval_toString h fuel left);
           r ← liftR (XDataEval_toString h fuel right);
           mret (String.eqb l r));
      pushData (dBoolean (match op with OpEq => eq | _ => negb eq end))
  | OpLt | OpGt | OpLeq | OpGeq =>
      l ← liftR (XDataEval_toNumber h fuel left);
      r ← liftR (XDataEval_toNumber h fuel right);
      pushData (dBoolean (numberOp op l r))
  | _ =>
      liftR (XDataEval_toNumber h fuel left);;
      liftR (XDataEval_toNumber h fuel right);;
      throw (Unreachable "evaluateNonNodesetRelativeExpr")
  end.

Definition evaluateNodesetRelativeExpr (left right : XData) (op : OpType) : XM unit :=
  if XDataEval_isNodeset left then
    match cType right with
    | XNodeset => compare_Nodeset_Nodeset left right op
    | XString => compare_Nodeset_String left right op
    | XNumber => compare_Nodeset_Number left right op
    | XBoolean => compare_Nodeset_Boolean left right op
    end
  else if XDataEval_isString left then
    match cType right with
    | XNodeset => compare_String_Nodeset left right op
    | _ => throw (Unreachable "evaluateNodesetRelativeExpr")
    end
  else if XDataEval_isNumber left then
    match cType right with
    | XNodeset => compare_Number_Nodeset left right op
    | _ => throw (Unreachable "evaluateNodesetRelativeExpr")
    end
  else
    match cType right with
    | XNodeset => compare_Boolean_Nodeset left right op
    | _ => throw (Unreachable "evaluateNodesetRelativeExpr")
    end.

Definition evaluateConditionalExpr (left right : XData) (op : OpType) : XM unit :=
  leftVal ← liftR (XDataEval_toBoolean left);
  ret ← (match op with
         | OpOr => if leftVal : bool then mret true
                   else liftR (XDataEval_toBoolean right)
         | _ => if negb leftVal then mret false
                else liftR (XDataEval_toBoolean right)
         end);
  pushData (dBoolean ret).

Definition evaluateRelativeExpr (left right : XData) (op : OpType) : XM unit :=
  if negb (XDataEval_isNodeset left) && negb (XDataEval_isNodeset right)
  then evaluateNonNodesetRelativeExpr left right op
  else evaluateNodesetRelativeExpr left right op.

Definition evaluatePipeExpr (left right : XData) : XM unit :=
  if negb (XDataEval_isNodeset left) || negb (XDataEval_isNodeset right)
  then evalError "Pipe/union operator takes only nodesets as arguments"
  else
    l ← asNodeset left;
    r ← asNodeset right;
    pushData (dNodeset (setOfList (sortBy (position h) Forward (setAddAll l r)))).

Definition evaluateArithmeticExpr (left right : XData) (op : OpType) : XM unit :=
    leftVal ← liftR (XDataEval_toNumber h fuel left);
    rightVal ← liftR (XDataEval_toNumber h fuel right);
    if Js.isNaN leftVal || Js.isNaN rightVal then pushData (dNumber Js.NaN)
    else
      match op with
      | OpPlus => pushData (dNumber (Js.add leftVal rightVal))
      | OpMinus => pushData (dNumber (Js.sub leftVal rightVal))
      | OpMul => pushData (dNumber (Js.mul leftVal rightVal))
      | OpDiv => pushData (dNumber (Js.div leftVal rightVal))
      | OpMod => pushData (dNumber (Js.rem leftVal rightVal))
      | _ => throw (Unreachable "evaluateArithmeticExpr")
      end.
End evaluator.

(** String helpers of the function library. *)
Module XString.
(** [str.trim().replace(/\s+/g, " ")] *)
Fixpoint collapse (s : string) (inSpace : bool) : string :=
  match s with
  | EmptyString => EmptyString
  | String c r =>
      if Js.isWhitespace c
      then (if inSpace then collapse r true else String " " (collapse r true))
      else String c (collapse r false)
  end.

Definition normalizeSpace (s : string) : string := collapse (Js.trim s) false.

(** [s.split("-")[0]] *)
Fixpoint beforeDash (s : string) : string :=
  match s with
  | EmptyString => EmptyString
  | String c r => if Ascii.eqb c "-" then EmptyString else String c (beforeDash r)
  end.

(** [args[0].split(args[1])], as [substring-before] reads it: the first
    piece when there is more than one. *)
Definition substringBefore (s sep : string) : string :=
  match sep with
  | EmptyString =>
      if (2 <=? String.length s)%nat then String.substring 0 1 s else ""
  | _ =>
      match Js.indexOf s sep with
      | Some i => String.substring 0 i s
      | None => ""
      end
  end.

Definition substringAfter (s sub : string) : string :=
  match Js.indexOf s sub with
  | Some index => Js.sliceFrom s (index + String.length sub)
  | None => ""
  end.

(** The [replace] closure of [translate]: the map from the first
    [stopIndex] characters of [placeholder] to those of [replacement],
    the first occurrence of a character deciding. *)
Fixpoint buildMap (placeholder replacement : list ascii) (stopIndex : nat)
    (map : list (ascii * ascii)) : list (ascii * ascii) :=
  match stopIndex, placeholder, replacement with
  | S n, p :: ps, r :: rs =>
      buildMap ps rs n
        (if existsb (λ '(k, _), Ascii.eqb k p) map then map else map ++ [(p, r)])
  | _, _, _ => map
  end.

Definition lookupChar (map : list (ascii * ascii)) (ch : ascii) : ascii :=
  match find (λ '(k, _), Ascii.eqb k ch) map with
  | Some (_, v) => v
  | None => ch
  end.

Definition replace (original placeholder replacement : string) (stopIndex : nat)
    : string :=
  let m := buildMap (list_ascii_of_string placeholder)
             (list_ascii_of_string replacement) stopIndex [] in
  string_of_list_ascii (map (lookupChar m) (list_ascii_of_string original)).

Definition translate (original placeholder replacement : string) : string :=
    let pl := String.length placeholder in
    let rl := String.length replacement in
    if (pl =? rl)%nat then replace original placeholder replacement rl
    else if (rl <? pl)%nat then
      let outcasts := list_ascii_of_string (Js.sliceFrom placeholder rl) in
      let newOriginal :=
        string_of_list_ascii
          (filter (λ ch, negb (existsb (Ascii.eqb ch) outcasts))
             (list_ascii_of_string original)) in
      replace newOriginal placeholder replacement rl
    else replace original placeholder replacement pl.
End XString.

Section visitors.
  Context `{Builtins}.
  Variable h : Store.
  Import XPath.

  Local Abbreviation XM := (StateM XPath.t).

  Section open_recursion.
    (** [this.visit] at the recursion depth below the current one. *)
    Variable visit : XNodeT → XM unit.
    Variable fuel : nat.

(** [node.args[i]], visited. *)
Definition visitArg (args : list XNodeT) (i : nat) : XM unit :=
  match args !! i with
  | Some a => visit a
  | None => throw (TypeError "Cannot read properties of undefined")
  end.

(** [getNodesetData(node)] of [getCoreFunctions] *)
Definition getNodesetData (args : list XNodeT) : XM XNodeSet :=
  match args with
  | [] => c ← getCtx; mret [ctxNode c]
  | _ =>
      visitArg args 0;;
      data ← popDefined;
      if negb (XDataEval_isNodeset data)
      then evalError "Expected type 'XNodeset'"
      else asNodeset data
  end.

(** The optional argument of [number], [string], [string-length] and
    [normalize-space]: the context node when it is left out. *)
Definition argOrContext (args : list XNodeT) : XM XData :=
  match args with
  | [] => c ← getCtx; mret (dNodeset [ctxNode c])
  | _ => visitArg args 0;; popDefined
  end.

Definition lastFn (args : list XNodeT) : XM unit :=
  c ← getCtx; pushData (dNumber (Js.ofNat (ctxSize c))).

Definition positionFn (args : list XNodeT) : XM unit :=
  c ← getCtx; pushData (dNumber (Js.ofNat (ctxPos c))).

Definition countFn (args : list XNodeT) : XM unit :=
  visitArg args 0;;
  data ← popDefined;
  if negb (XDataEval_isNodeset data) then pushData (dNumber Js.NaN)
  else
    nodeset ← asNodeset data;
    pushData (dNumber (Js.ofNat (List.length nodeset))).

(** The shape shared by [local-name], [namespace-uri] and [name]. *)
Definition firstNodeFn (args : list XNodeT) (f : RNode → Result string) : XM unit :=
  nodeset ← getNodesetData args;
  match nodeset with
  | [] => pushData (dString "")
  | first :: _ =>
      n ← liftR (getNode h first);
      s ← liftR (f n);
      pushData (dString s)
  end.

Definition localNameFn (args : list XNodeT) : XM unit :=
  firstNodeFn args (λ n,
    Ok (match nodeName n with Some nm => RName.lname nm | None => "" end)).

Definition namespaceUriFn (args : list XNodeT) : XM unit :=
  firstNodeFn args (λ n,
    match boundNamespace n with
    | Some ns => namespaceUri h ns
    | None => Ok ""
    end).

Definition nameFn (args : list XNodeT) : XM unit :=
  firstNodeFn args (λ n,
    Ok (match nodeName n with Some nm => RName.qname nm | None => "" end)).

Definition booleanFn (args : list XNodeT) : XM unit :=
  visitArg args 0;;
  data ← popDefined;
  b ← liftR (XDataEval_toBoolean data);
  pushData (dBoolean b).

Definition notFn (args : list XNodeT) : XM unit :=
  visitArg args 0;;
  data ← popDefined;
  b ← liftR (XDataEval_toBoolean data);
  pushData (dBoolean (negb b)).

Definition trueFn (args : list XNodeT) : XM unit := pushData (dBoolean true).
Definition falseFn (args : list XNodeT) : XM unit := pushData (dBoolean false).

(** The [do ... while (n && !isRoot(n))] of [lang]: the value of the
    nearest [xml:lang]. *)
Fixpoint findLang (fuel : nat) (n : NodeId) : Result (option string) :=
  match fuel with
  | O => OutOfFuel
  | S fuel' =>
      x ← getNode h n;
      let up :=
        match parent x with
        | None => Ok None
        | Some p =>
            px ← getNode h p;
            if isRoot px then Ok None else findLang fuel' p
        end in
      match obj x with
      | ElementB e =>
          match JsMap.get (ElementNode.attributes e) "xml:lang" with
          | Some a =>
              ax ← getNode h a;
              match obj ax with
              | AttributeB at_ => Ok (Some (Js.toLowerCase (AttributeNode.value at_)))
              | _ => undefinedError
              end
          | None => up
          end
      | AttributeB at_ =>
          if String.eqb (RName.qname (AttributeNode.name at_)) "xml:lang"
          then Ok (Some (Js.toLowerCase (AttributeNode.value at_)))
          else up
      | _ => up
      end
  end.

Definition langFn (args : list XNodeT) : XM unit :=
  visitArg args 0;;
  data ← popDefined;
  c ← getCtx;
  foundLang ← liftR (findLang fuel (ctxNode c));
  match foundLang with
  | Some found =>
      if Js.truthy found then
        arg ← liftR (XDataEval_toString h fuel data);
        let argLang := Js.toLowerCase arg in
        pushData (dBoolean (String.eqb argLang found
                            || String.eqb (XString.beforeDash found) argLang))
      else pushData (dBoolean false)
  | None => pushData (dBoolean false)
  end.

Definition numberFn (args : list XNodeT) : XM unit :=
  data ← argOrContext args;
  n ← liftR (XDataEval_toNumber h fuel data);
  pushData (dNumber n).

(** The loop of [sum]: it stops once the sum is NaN. *)
Fixpoint sumLoop (nodeset : XNodeSet) (sum : Js.number) : Result Js.number :=
  match nodeset with
  | [] => Ok sum
  | n :: rest =>
      v ← numberValue h fuel n;
      let sum := Js.add sum v in
      if Js.isNaN sum then Ok sum else sumLoop rest sum
  end.

Definition sumFn (args : list XNodeT) : XM unit :=
  visitArg args 0;;
  data ← popDefined;
  if negb (XDataEval_isNodeset data)
  then evalError "Expected argument of type 'XNodeset'"
  else
    nodeset ← asNodeset data;
    sum ← liftR (sumLoop nodeset (Js.ofZ 0));
    pushData (dNumber sum).

Definition mathFn (f : Js.number → Js.number) (args : list XNodeT) : XM unit :=
  visitArg args 0;;
  data ← popDefined;
  n ← liftR (XDataEval_toNumber h fuel data);
  pushData (dNumber (f n)).

Definition floorFn := mathFn Js.floor.
Definition ceilingFn := mathFn Js.ceil.
Definition roundFn := mathFn Js.round.

Definition stringFn (args : list XNodeT) : XM unit :=
  data ← argOrContext args;
  s ← liftR (XDataEval_toString h fuel data);
  pushData (dString s).

(** [for (const arg of node.args) { this.visit(arg); ... toString(popData()) }] *)
Fixpoint stringArgs (args : list XNodeT) : XM (list string) :=
  match args with
  | [] => mret []
  | arg :: rest =>
      visit arg;;
      data ← popDefined;
      s ← liftR (XDataEval_toString h fuel data);
      ss ← stringArgs rest;
      mret (s :: ss)
  end.

Definition concatFn (args : list XNodeT) : XM unit :=
  ss ← stringArgs args;
  pushData (dString (foldr String.append "" ss)).

(** The functions of two string arguments. *)
Definition binaryStringFn (f : string → string → XData) (args : list XNodeT) : XM unit :=
  ss ← stringArgs args;
  match ss with
  | a :: b :: _ => pushData (f a b)
  | _ => throw (TypeError "Cannot read properties of undefined")
  end.

Definition startsWithFn := binaryStringFn (λ a b, dBoolean (Js.startsWith a b)).
Definition containsFn := binaryStringFn (λ a b, dBoolean (Js.includes a b)).
Definition substringBeforeFn :=
  binaryStringFn (λ a b, dString (XString.substringBefore a b)).
Definition substringAfterFn :=
  binaryStringFn (λ a b, dString (XString.substringAfter a b)).

(** [substring(string, number, number?)] *)
Definition substringFn (args : list XNodeT) : XM unit :=
  (* first arg *)
  visitArg args 0;;
  d0 ← popDefined;
  str ← liftR (XDataEval_toString h fuel d0);
  (* second arg *)
  visitArg args 1;;
  data ← popDefined;
  n ← liftR (XDataEval_toNumber h fuel data);
  let start := Js.round n in
  if Js.isNaN start then pushData (dString "") else
  let start := Js.sub start (Js.ofZ 1) in
  (* third arg *)
  if bool_decide (List.length args = 3%nat) then
    visitArg args 2;;
    d2 ← popDefined;
    n2 ← liftR (XDataEval_toNumber h fuel d2);
    let end_ := Js.round n2 in
    if Js.isNaN end_ then pushData (dString "") else
    let end_ := Js.add end_ start in
    let start := if Js.geb0 start then start else Js.ofZ 0 in
    pushData (dString (Js.sliceNum str start
                         (if Js.geb0 end_ then end_ else Js.ofZ 0)))
  else
    let start := if Js.geb0 start then start else Js.ofZ 0 in
    pushData (dString (Js.sliceNumFrom str start)).

Definition stringLengthFn (args : list XNodeT) : XM unit :=
  data ← argOrContext args;
  s ← liftR (XDataEval_toString h fuel data);
  pushData (dNumber (Js.ofNat (String.length s))).

Definition normalizeSpaceFn (args : list XNodeT) : XM unit :=
  data ← argOrContext args;
  s ← liftR (XDataEval_toString h fuel data);
  pushData (dString (XString.normalizeSpace s)).

Definition translateFn (args : list XNodeT) : XM unit :=
  (fix visitAll (args : list XNodeT) : XM unit :=
     match args with
     | [] => mret tt
     | a :: r => visit a;; visitAll r
     end) args;;
  d3 ← popDefined;
  replacement ← liftR (XDataEval_toString h fuel d3);
  d2 ← popDefined;
  placeholder ← liftR (XDataEval_toString h fuel d2);
  d1 ← popDefined;
  original ← liftR (XDataEval_toString h fuel d1);
  pushData (dString (XString.translate original placeholder replacement)).

(** The table of [callFunction]: parameter count, omittable parameters,
    variadic, implementation. *)
Definition functions (name : string)
    : option (nat * nat * bool * (list XNodeT → XM unit)) :=
  if String.eqb name "last" then Some (0, 0, false, lastFn)%nat
  else if String.eqb name "position" then Some (0, 0, false, positionFn)%nat
  else if String.eqb name "count" then Some (1, 0, false, countFn)%nat
  else if String.eqb name "local-name" then Some (1, 1, false, localNameFn)%nat
  else if String.eqb name "namespace-uri" then Some (1, 1, false, namespaceUriFn)%nat
  else if String.eqb name "name" then Some (1, 1, false, nameFn)%nat
  else if String.eqb name "boolean" then Some (1, 0, false, booleanFn)%nat
  else if String.eqb name "not" then Some (1, 0, false, notFn)%nat
  else if String.eqb name "true" then Some (0, 0, false, trueFn)%nat
  else if String.eqb name "false" then Some (0, 0, false, falseFn)%nat
  else if String.eqb name "lang" then Some (1, 0, false, langFn)%nat
  else if String.eqb name "number" then Some (1, 1, false, numberFn)%nat
  else if String.eqb name "sum" then Some (1, 0, false, sumFn)%nat
  else if String.eqb name "floor" then Some (1, 0, false, floorFn)%nat
  else if String.eqb name "ceiling" then Some (1, 0, false, ceilingFn)%nat
  else if String.eqb name "round" then Some (1, 0, false, roundFn)%nat
  else if String.eqb name "string" then Some (1, 1, false, stringFn)%nat
  else if String.eqb name "concat" then Some (2, 0, true, concatFn)%nat
  else if String.eqb name "starts-with" then Some (2, 0, false, startsWithFn)%nat
  else if String.eqb name "contains" then Some (2, 0, false, containsFn)%nat
  else if String.eqb name "substring-before" then Some (2, 0, false, substringBeforeFn)%nat
  else if String.eqb name "substring-after" then Some (2, 0, false, substringAfterFn)%nat
  else if String.eqb name "substring" then Some (3, 1, false, substringFn)%nat
  else if String.eqb name "string-length" then Some (1, 1, false, stringLengthFn)%nat
  else if String.eqb name "normalize-space" then Some (1, 1, false, normalizeSpaceFn)%nat
  else if String.eqb name "translate" then Some (3, 0, false, translateFn)%nat
  else None.

(** [callFunction(node)] *)
Definition callFunction (name : string) (args : list XNodeT) : XM unit :=
  match functions name with
  | None => evalError "Function is not supported"
  | Some (paramCount, omittableParam, variadic, fn) =>
      let argc := List.length args in
      (if (argc <? paramCount)%nat then
         if negb (paramCount - argc =? omittableParam)%nat
         then evalError "Function is missing argument(s)"
         else mret tt
       else if (paramCount <? argc)%nat then
         if negb variadic then evalError "Function expected argument(s)"
         else mret tt
       else mret tt);;
      fn args
  end.

    (** *** Visitors *)

Definition visitPathNode (steps : list XNodeT) : XM unit :=
  pushData (dNodeset []);;
  (fix forEach (steps : list XNodeT) (index : nat) : XM unit :=
     match steps with
     | [] => mret tt
     | nd :: rest =>
         visit (match nd with
                | StepNode path step axis nodeTest predicates _ =>
                    StepNode path step axis nodeTest predicates (Z.of_nat index)
                | _ => nd
                end);;
         forEach rest (S index)
     end) steps 0%nat.

Definition visitNumberNode (value : Js.number) : XM unit :=
  pushData (dNumber value).

Definition visitStringNode (value : string) : XM unit :=
  pushData (dString value).

Definition visitUnaryOpNode (nd : XNodeT) (op : OpType) : XM unit :=
  visit nd;;
  right ← popDefined;
  value ← liftR (XDataEval_toNumber h fuel right);
  match op with
  | OpPlus => pushData (dNumber value)
  | OpMinus => pushData (dNumber (Js.neg value))
  | _ => throw (Unreachable "visitUnaryOpNode::Illegal operator for unary")
  end.

Definition visitBinaryOpNode (leftNode rightNode : XNodeT) (op : OpType) : XM unit :=
  visit leftNode;;
  visit rightNode;;
  right ← popDefined;
  left ← popDefined;
  match op with
  | OpPlus | OpMinus | OpMul | OpDiv | OpMod =>
      evaluateArithmeticExpr h fuel left right op
  | OpEq | OpNeq | OpLt | OpGt | OpGeq | OpLeq =>
      evaluateRelativeExpr h fuel left right op
  | OpOr | OpAnd => evaluateConditionalExpr left right op
  | OpPipe => evaluatePipeExpr h left right
  end.

Definition visitCallNode (name : string) (args : list XNodeT) : XM unit :=
  callFunction name args.

(** [for (const pred of node.predicates) this.visit(pred)] *)
Fixpoint visitAll (nodes : list XNodeT) : XM unit :=
  match nodes with
  | [] => mret tt
  | n :: rest => visit n;; visitAll rest
  end.

(** [visitStepNode(node)].  The test [node.pos > 0 && !nodeset.size]
    reads [size] only when [pos] is positive: of a value that is no set
    it is [undefined], and of [null] the read throws.  The step itself
    takes the popped value as a set; the parser puts a step with [pos] 0
    first in a path only, where [visitPathNode] has pushed the empty
    set. *)
Definition visitStepNode (path : PathSpec.t) (step : StepSpec.t)
    (axis : option Axis.t) (nodeTest : option NodeTestNode)
    (predicates : list XNodeT) (pos : Z) : XM unit :=
  data ← popDefined;
  empty ← (if 0 <? pos then
             match value data with
             | VNodeset ns => mret (List.length ns =? 0)%nat
             | VNull => throw (TypeError "Cannot read properties of null")
             | _ => mret true
             end
           else mret false);
  if empty : bool then pushData data
  else
    nodeset ← asNodeset data;
    c ← getCtx;
    root ← gets root;
    nodesetArray ← liftR (PathState_step h nodeset (ctxNode c) root fuel
                            path step axis nodeTest);
    (match predicates with
     | [] =>
         (* combine all nodesets found into a single nodeset *)
         pushData (dNodeset (sortNodeset h (concat nodesetArray)))
     | _ =>
         pushData (mkData XNodeset VNull (Some nodesetArray))
     end);;
    visitAll predicates.

(** The loop of [visitPredicateNode] over the nodes of one partition:
    the nodes for which the predicate holds. *)
Fixpoint filterPartition (expr : XNodeT) (partition : list NodeId)
    (ctxSize ctxPos : nat) : XM (list NodeId) :=
  match partition with
  | [] => mret []
  | ctxNode :: rest =>
      let ctxPos := S ctxPos in
      (* create a new context *)
      pushContext (mkContext ctxPos ctxSize ctxNode);;
      (* visit the predicate expression *)
      visit expr;;
      (* evaluate the expression against the ctx node *)
      res ← popDefined;
      keep ← evaluatePredicateExpr res;
      (* reset context to its initial state *)
      popContext;;
      kept ← filterPartition expr rest ctxSize ctxPos;
      mret (if keep : bool then ctxNode :: kept else kept)
  end.

Fixpoint filterPartitions (expr : XNodeT) (partitions : list XNodeSet)
    : XM (list XNodeSet) :=
  match partitions with
  | [] => mret []
  | partition :: rest =>
      tmp ← filterPartition expr partition (List.length partition) 0;
      tmps ← filterPartitions expr rest;
      mret (tmp :: tmps)
  end.

(** [visitPredicateNode(node)] *)
Definition visitPredicateNode (expr : XNodeT) (order : DocumentOrder)
    (leftExpr : option XNodeT) : XM unit :=
  partitions ←
    (match leftExpr with
     | Some lhs =>
         visit lhs;;
         data ← popDefined;
         (* handle orphaned PathNode(s) *)
         (match lhs with
          | PathNode _ => popData;; mret tt
          | _ => mret tt
          end);;
         match nodesetArray data with
         | None =>
             match value data with
             | VNodeset ns =>
                 if XDataEval_isNodeset data then mret [ns]
                 else evalError "Expected type XNodeset as predicate operand"
             | _ => evalError "Expected type XNodeset as predicate operand"
             end
         | Some arr => mret [setOfList (concat arr)]
         end
     | None =>
         data ← popDefined;
         if negb (XDataEval_isNodeset data)
         then throw (AssertionError "Expected nodeset type as popped data")
         else match nodesetArray data with
              | Some arr => mret arr
              | None => throw (AssertionError "Expected nodeset array as actual data value")
              end
     end);
  let partitions := reorderNodesetArray h partitions order in
  tmps ← filterPartitions expr partitions;
  let result := setAddAll [] (concat tmps) in
  (* nodesetArray holds the result for the next predicate, if any *)
  let nodesetArray := filter (λ tmp, negb (isEmpty tmp)) tmps in
  pushData (mkData XNodeset (VNodeset (sortNodeset h result)) (Some nodesetArray)).

(** The dispatch of [visit] on the class of the AST node. *)
Definition visitBody (nd : XNodeT) : XM unit :=
  match nd with
  | PathNode steps => visitPathNode steps
  | NumberNode value => visitNumberNode value
  | StringNode value => visitStringNode value
  | UnaryOpNode n op => visitUnaryOpNode n op
  | BinaryOpNode l r op => visitBinaryOpNode l r op
  | CallNode name args => visitCallNode name args
  | StepNode path step axis nodeTest predicates pos =>
      visitStepNode path step axis nodeTest predicates pos
  | PredicateNode expr order leftExpr => visitPredicateNode expr order leftExpr
  | NodeTestN _ => throw (TypeError "this[fnProp] is undefined")
  end.
End open_recursion.

(** [visit(node)] *)
Fixpoint visit (fuel : nat) (nd : XNodeT) : XM unit :=
  match fuel with
  | O => outOfFuel
  | S fuel' => visitBody (visit fuel') fuel' nd
  end.

(** [query(queryString)], on the AST the query parser builds for the
    string. *)
Definition query (fuel : nat) (ast : XNodeT) : XM XValue :=
  r ← gets root;
  pushContext (mkContext 1 1 r);;
  visit fuel ast;;
  result ← popDefined;
  endComputation;;
  mret (value result).


(** [queryAll(queryString)] *)
Definition queryAll (fuel : nat) (ast : XNodeT) : XM (list XReturn) :=
  v ← query fuel ast;
  match v with
  | VNodeset ns => mret (map RNode_ ns)
  | VNumber n => mret [RNumber n]
  | VString s => mret [RString s]
  | VBoolean b => mret [RBoolean b]
  | VNull => mret [RNull]
  end.
End visitors.

(** [new XPath().path(root)]: an evaluator on the document whose root node
    is [root]. *)
Definition newXPath (root : NodeId) : XPath.t := XPath.mk root [] [].

(** ** dom.ts: the class [DOM] *)

(** What a method that hands out a node returns: the node, [null], or the
    [undefined] that reading an array outside its bounds gives. *)
Inductive JsNode :=
| NodeNull
| NodeUndefined
| NodeRef (id : NodeId).

Module DOM.

(** A JavaScript number that is an integer or [NaN] ([None]); the
    [undefined] of an [index] never assigned behaves as [NaN] wherever the
    class uses it: in a comparison, in [+ 1] and as the start of
    [splice]. *)
Definition jsNumber (i : JsIndex) : option Z := indexPlus i 0.

(** The start of [splice(start, ...)] on an array of length [len]: [NaN]
    is 0, a negative number counts from the end. *)
Definition spliceStart (start : option Z) (len : nat) : nat :=
  match start with
  | None => 0%nat
  | Some z =>
      if z <? 0 then Z.to_nat (Z.max (Z.of_nat len + z) 0)
      else Nat.min (Z.to_nat z) len
  end.

(** [array.splice(start, deleteCount, ...items)]: the array afterwards. *)
Definition splice {A} (l : list A) (start : option Z) (deleteCount : nat)
    (items : list A) : list A :=
  let s := spliceStart start (List.length l) in
  take s l ++ items ++ drop (s + deleteCount) l.

(** [array[i]] *)
Definition at_ (l : list NodeId) (i : Z) : JsNode :=
  if i <? 0 then NodeUndefined
  else match l !! Z.to_nat i with
       | Some c => NodeRef c
       | None => NodeUndefined
       end.

Section dom.
  Local Abbreviation DM := (StateM Store).

(** The node object behind a reference. *)
Definition read (id : NodeId) : DM RNode := λ h,
  match h !! id with
  | Some n => Ok (n, h)
  | None => Err (TypeError "Cannot read properties of undefined")
  end.

Definition write (id : NodeId) (f : RNode → RNode) : DM unit :=
  modify (update id f).

(** [parent.children] where the code goes on to use the array: only
    elements and the root have the field. *)
Definition childrenOf (p : NodeId) : DM (list NodeId) :=
  pn ← read p;
  if isParent pn then mret (children pn)
  else throw (TypeError "Cannot read properties of undefined").

(** *** The private methods *)

(** The loop of [updateIndexes]: [items[i].index = i] from [i] on. *)
Fixpoint setIndexes (items : list NodeId) (i : nat) : DM unit :=
  match items with
  | [] => mret tt
  | c :: rest => write c (set_index (Idx (Z.of_nat i)));; setIndexes rest (S i)
  end.

(** [updateIndexes(items, start)]: no turn of the loop when [start] is
    [NaN]; a negative [start] reads [items[start]], which is
    [undefined]. *)
Definition updateIndexes (items : list NodeId) (start : option Z) : DM unit :=
  match start with
  | None => mret tt
  | Some z =>
      if z <? 0 then throw (TypeError "Cannot set properties of undefined")
      else setIndexes (drop (Z.to_nat z) items) (Z.to_nat z)
  end.

(** [parent.hasChild = !!parent.children.length], of an element or of the
    root. *)
Definition setHasChild (p : NodeId) : DM unit :=
  kids ← childrenOf p;
  let b := (0 <? List.length kids)%nat in
  write p (λ n, updRoot (RootNode.set_hasChild b)
                  (updElement (ElementNode.set_hasChild b) n)).

(** [parent.isSelfEnclosing = parent.children.length === 0] *)
Definition setSelfEnclosing (p : NodeId) : DM unit :=
  write p (updElement (λ e,
    ElementNode.set_isSelfEnclosing
      (List.length (ElementNode.children e) =? 0)%nat e)).

(** [updateParentFields(parent, child)] *)
Definition updateParentFields (par child : NodeId) : DM unit :=
  pn ← read par;
  cn ← read child;
  when_ (isElement pn)
    (match _type cn with
     | Attribute => write par (updElement (ElementNode.set_hasAttribute true))
     | Text => write par (updElement (ElementNode.set_hasText true))
     | Comment => write par (updElement (ElementNode.set_hasComment true))
     | Namespace => write par (updElement (ElementNode.set_isNamespaced true))
     | _ => mret tt
     end;;
     setSelfEnclosing par);;
  setHasChild par;;
  write child (set_parent (Some par)).

(** [parent.children.some(has)], [has] testing for the type [ty] *)
Fixpoint someOfType (ty : RNodeType) (kids : list NodeId) : DM bool :=
  match kids with
  | [] => mret false
  | c :: rest =>
      cn ← read c;
      if bool_decide (_type cn = ty) then mret true else someOfType ty rest
  end.

(** [updateParentFieldsD(parent, child)] *)
Definition updateParentFieldsD (par child : NodeId) : DM unit :=
  pn ← read par;
  cn ← read child;
  when_ (isElement pn)
    (match _type cn with
     | Attribute =>
         write par (updElement (λ e,
           ElementNode.set_hasAttribute (0 <? JsMap.size (ElementNode.attributes e))%nat e))
     | Text =>
         b ← someOfType Text (children pn);
         write par (updElement (ElementNode.set_hasText b))
     | Comment =>
         b ← someOfType Comment (children pn);
         write par (updElement (ElementNode.set_hasComment b))
     | Namespace =>
         write par (updElement (λ e,
           ElementNode.set_isNamespaced (bool_decide (is_Some (ElementNode.namespace e))) e))
     | _ => mret tt
     end;;
     setSelfEnclosing par);;
  setHasChild par;;
  write child (set_parent None).

(** [dropNode(node)] *)
Definition dropNode (node : NodeId) : DM bool :=
  n ← read node;
  if isAttribute n || isNamespace n then mret false else
  match parent n with
  | None => mret false
  | Some p =>
      kids ← childrenOf p;
      write p (set_children (splice kids (jsNumber (index n)) 1 []));;
      kids ← childrenOf p;
      updateIndexes kids (jsNumber (index n));;
      updateParentFieldsD p node;;
      mret true
  end.

(** *** Select *)

(** The [check] of [nextNode] and [previousNode]: that of [next()] and
    [previous()] accepts whatever it is given ([None]), the others
    compare [_type], which [undefined] does not have. *)
Definition passes (check : option RNodeType) (o : option NodeId) : DM bool :=
  match check with
  | None => mret true
  | Some ty =>
      match o with
      | Some c => cn ← read c; mret (bool_decide (_type cn = ty))
      | None => throw (TypeError "Cannot read properties of undefined")
      end
  end.

(** The loops of [nextNode] and [previousNode] over the array elements
    they read, [None] for an [undefined] one. *)
Fixpoint firstPassing (check : option RNodeType) (l : list (option NodeId))
    : DM JsNode :=
  match l with
  | [] => mret NodeNull
  | o :: rest =>
      b ← passes check o;
      if b : bool then mret (match o with Some c => NodeRef c | None => NodeUndefined end)
      else firstPassing check rest
  end.

(** [children[i], children[i + 1], ...] up to the end of the array *)
Definition readUpFrom (kids : list NodeId) (index : option Z) : list (option NodeId) :=
  match index with
  | None => []
  | Some i =>
      if i <? 0 then replicate (Z.to_nat (- i)) None ++ (Some <$> kids)
      else Some <$> drop (Z.to_nat i) kids
  end.

(** [children[i], children[i - 1], ..., children[0]] *)
Definition readDownFrom (kids : list NodeId) (index : option Z) : list (option NodeId) :=
  match index with
  | None => []
  | Some i =>
      if i <? 0 then []
      else rev (take (S (Z.to_nat i))
                  ((Some <$> kids) ++ replicate (S (Z.to_nat i) - List.length kids) None))
  end.

(** [nextNode(check)] *)
Definition nextNode (node : NodeId) (check : option RNodeType) : DM JsNode :=
  b ← passes check (Some node);
  if negb b then mret NodeNull else
  n ← read node;
  match parent n with
  | None => throw (TypeError "Cannot read properties of null")
  | Some p =>
      kids ← childrenOf p;
      firstPassing check (readUpFrom kids (indexPlus (index n) 1))
  end.

(** [previousNode(check)]: the loop reads [children[i]] only when
    [index - 1] is a number that is not negative; otherwise the array is
    never used and the result is [null]. *)
Definition previousNode (node : NodeId) (check : option RNodeType) : DM JsNode :=
  b ← passes check (Some node);
  if negb b then mret NodeNull else
  n ← read node;
  match parent n with
  | None => throw (TypeError "Cannot read properties of null")
  | Some p =>
      match indexPlus (index n) (-1) with
      | Some i =>
          if 0 <=? i then
            kids ← childrenOf p;
            firstPassing check (readDownFrom kids (Some i))
          else mret NodeNull
      | None => mret NodeNull
      end
  end.

(** [next()], [previous()], [nextElement()], ... *)
Definition next (node : NodeId) : DM JsNode := nextNode node None.
Definition previous (node : NodeId) : DM JsNode := previousNode node None.
Definition nextElement (node : NodeId) : DM JsNode := nextNode node (Some Element).
Definition previousElement (node : NodeId) : DM JsNode := previousNode node (Some Element).
Definition nextComment (node : NodeId) : DM JsNode := nextNode node (Some Comment).
Definition previousComment (node : NodeId) : DM JsNode := previousNode node (Some Comment).
Definition nextText (node : NodeId) : DM JsNode := nextNode node (Some Text).
Definition previousText (node : NodeId) : DM JsNode := previousNode node (Some Text).

(** [parent()] *)
Definition parent_ (node : NodeId) : DM (option NodeId) :=
  n ← read node; mret (parent n).

(** [ancestors()]: the loop from [parent]. *)
Fixpoint ancestorsFrom (fuel : nat) (par : option NodeId) (anc : list NodeId)
    : DM (list NodeId) :=
  match par with
  | None => mret anc
  | Some p =>
      match fuel with
      | O => outOfFuel
      | S fuel' =>
          pn ← read p;
          ancestorsFrom fuel' (parent pn) (anc ++ [p])
      end
  end.

Definition ancestors (fuel : nat) (node : NodeId) : DM (list NodeId) :=
  n ← read node;
  ancestorsFrom fuel (parent n) [].

(** [traverseAllRecursive(node, test, result)] *)
Fixpoint traverseAllRecursive (fuel : nat) (node : NodeId) (test : RNode → bool)
    (result : list NodeId) : DM (list NodeId) :=
  match fuel with
  | O => outOfFuel
  | S fuel' =>
      n ← read node;
      let result := if test n then result ++ [node] else result in
      if isParent n then
        (fix each (kids : list NodeId) (result : list NodeId) : DM (list NodeId) :=
           match kids with
           | [] => mret result
           | child :: rest =>
               result ← traverseAllRecursive fuel' child test result;
               each rest result
           end) (children n) result
      else mret result
  end.

(** [descendants()] *)
Definition descendants (fuel : nat) (node : NodeId) : DM (list NodeId) :=
  n ← read node;
  if negb (isParent n) then mret [] else
  desc ← traverseAllRecursive fuel node (λ _, true) [];
  mret (tail desc).

(** [nextSibling()] *)
Definition nextSibling (node : NodeId) : DM JsNode :=
  n ← read node;
  match parent n with
  | None => mret NodeNull
  | Some p =>
      kids ← childrenOf p;
      match indexPlus (index n) 1 with
      | Some i => mret (if i <? Z.of_nat (List.length kids) then at_ kids i else NodeNull)
      | None => mret NodeNull
      end
  end.

(** [previousSibling()] *)
Definition previousSibling (node : NodeId) : DM JsNode :=
  n ← read node;
  match parent n with
  | None => mret NodeNull
  | Some p =>
      match indexPlus (index n) (-1) with
      | Some i =>
          if 0 <=? i then kids ← childrenOf p; mret (at_ kids i)
          else mret NodeNull
      | None => mret NodeNull
      end
  end.

(** [siblings()] *)
Definition siblings (node : NodeId) : DM (list NodeId) :=
  n ← read node;
  match parent n with
  | None => mret []
  | Some p =>
      kids ← childrenOf p;
      mret (splice kids (jsNumber (index n)) 1 [])
  end.

(** *** Update *)

(** [insertBefore(node)] on the DOM of [cur] *)
Definition insertBefore (cur node : NodeId) : DM bool :=
  c ← read cur;
  match parent c with
  | None => mret false
  | Some p =>
      let index := jsNumber (index c) in
      kids ← childrenOf p;
      write p (set_children (splice kids index 0 [node]));;
      kids ← childrenOf p;
      updateIndexes kids index;;
      updateParentFields p node;;
      mret true
  end.

(** [insertAfter(node)] on the DOM of [cur] *)
Definition insertAfter (cur node : NodeId) : DM bool :=
  c ← read cur;
  match parent c with
  | None => mret false
  | Some p =>
      let index := indexPlus (index c) 1 in
      kids ← childrenOf p;
      write p (set_children (splice kids index 0 [node]));;
      kids ← childrenOf p;
      updateIndexes kids index;;
      updateParentFields p node;;
      mret true
  end.

(** [this.root.children.push(node)], the indices from the last one on and
    the fields of the parent: the three statements of each branch of
    [addChild] that appends. *)
Definition pushChild (p node : NodeId) : DM bool :=
  kids ← childrenOf p;
  write p (set_children (kids ++ [node]));;
  kids ← childrenOf p;
  updateIndexes kids (Some (Z.of_nat (List.length kids) - 1));;
  updateParentFields p node;;
  mret true.

(** [addAttribute(attribute)] on the DOM of [cur] *)
Definition addAttribute (cur attribute : NodeId) : DM bool :=
  c ← read cur;
  if negb (isElement c) then mret false else
  a ← read attribute;
  let qname := RName.qname (default (RName.mk "" "" "") (nodeName a)) in
  write cur (updElement (λ e,
    ElementNode.set_attributes (JsMap.set (ElementNode.attributes e) qname attribute) e));;
  updateParentFields cur attribute;;
  mret true.

(** [addNamespace(namespace)] on the DOM of [cur] *)
Definition addNamespace (cur namespace : NodeId) : DM bool :=
  c ← read cur;
  if negb (isElement c) then mret false else
  write cur (updElement (λ e,
    ElementNode.set_namespaces (ElementNode.namespaces e ++ [namespace]) e));;
  updateParentFields cur namespace;;
  mret true.

(** [addChild(node)] on the DOM of [cur] *)
Definition addChild (cur node : NodeId) : DM bool :=
  c ← read cur;
  n ← read node;
  if negb (isParent c) || isRoot n then mret false else
  match _type n with
  | Attribute => addAttribute cur node
  | Namespace => addNamespace cur node
  | _ =>
      if isElement c then pushChild cur node
      else if isElement n then
        match obj c with
        | RootB r =>
            match RootNode.rootElement r with
            | Some e => pushChild e node
            | None => mret false
            end
        | _ => mret false
        end
      else pushChild cur node
  end.
(** *** Create *)

(** [createName(lName, pName)] *)
Definition createName (lName : string) (pName : option string) : RName.t :=
  let pname := match pName with
               | Some p => if Js.truthy p then p else ""
               | None => ""
               end in
  RName.mk (if Js.truthy pname then pname +:+ ":" +:+ lName else lName) lName pname.

(** [new nodes.XNode(...)]: the new object, in the store. *)
Definition create (n : RNode) : DM NodeId := λ h,
  let '(id, h') := alloc n h in Ok (id, h').

Definition createElement (lName : string) (pName : option string) : DM NodeId :=
  create (newElementNode (createName lName pName)).
Definition createText (value : string) : DM NodeId := create (newTextNode value).
Definition createComment (value : string) : DM NodeId := create (newCommentNode value).
Definition createAttribute (value lName : string) (pName : option string) : DM NodeId :=
  create (newAttributeNode (createName lName pName) value).
Definition createNamespace (prefix uri : string) : DM NodeId :=
  create (newNamespaceNode prefix uri).
Definition createRoot (name : string) : DM NodeId := create (newRootNode name).
Definition createPI (target value : string) : DM NodeId := create (newPINode target value).

(** *** Delete *)

(** [drop()] *)
Definition drop_ (node : NodeId) : DM bool := dropNode node.

End dom.
End DOM.

(** * Definitions used by the statements *)

(** ** What a parser method leaves as it is

    [frame st st']: the parser still has the same root node, and every node
    object of [st] is still there in [st'], of the same class. *)

Section frame.
  Context {L : Type}.
  Import XmlParser.

Definition frame (st st' : XmlParser.t L) : Prop :=
  rootNode st' = rootNode st ∧
  ∀ id n, heap st !! id = Some n →
          ∃ n', heap st' !! id = Some n' ∧ _type n' = _type n.

Definition Frames {A} (m : StateM (XmlParser.t L) A) : Prop :=
  ∀ st a st', m st = Ok (a, st') → frame st st'.

Definition TypePreserving (f : RNode → RNode) : Prop :=
    ∀ n, _type (f n) = _type n.
End frame.

(** ** Reading results *)

(** What a computation returns, without the state it leaves. *)
Definition valueOf {S A} (r : Result (A * S)) : Result A :=
  match r with
  | Ok (a, _) => Ok a
  | Err e => Err e
  | OutOfFuel => OutOfFuel
  end.

(** The store a parse has built. *)
Definition storeOf {L A} (r : Result (A * XmlParser.t L)) : Store :=
  match r with
  | Ok (_, st) => XmlParser.heap st
  | _ => []
  end.

(** ** Queries of the examples, as the query parser builds them *)

(** The name test of an unprefixed name, and the tests ['*'] and [node()]. *)
Definition nameTest (x : string) : NodeTest :=
  NameTest NameTestType.Name (Some (RName.mk x x "")).
Definition wildcardTest : NodeTest := NameTest NameTestType.Wildcard None.
Definition nodeKindTest : NodeTest := KindTest KindTestType.Node None.


(** [//X] *)
Definition allNamed (x : string) : XNodeT :=
  singleStepPath (axisStep PathSpec.Double Axis.Child (nameTest x) []).


(** The counts of the element-count law: [count] of the path [//] with
    the wildcard test, and of [/descendant::] with the wildcard test. *)
Definition countAllElements : XNodeT :=
  CallNode "count" [singleStepPath (axisStep PathSpec.Double Axis.Child wildcardTest [])].
Definition countDescendantElements : XNodeT :=
  CallNode "count"
    [singleStepPath (axisStep PathSpec.Single Axis.Descendant wildcardTest [])].

(** [axis::node()], a relative path of one step. *)
Definition axisNodes (axis : Axis.t) : XNodeT :=
  singleStepPath (axisStep PathSpec.Nil axis nodeKindTest []).

(** The five axes of the partition law. *)
Definition partitionAxes : list Axis.t :=
  [Axis.Preceding; Axis.Ancestor; Axis.Self; Axis.Descendant; Axis.Following].

(** [//x/axis::node()]: the nodes on [axis] from the elements named [x]. *)
Definition fromNamed (x : string) (axis : Axis.t) : XNodeT :=
  PathNode (transformStepNode (axisStep PathSpec.Double Axis.Child (nameTest x) [])
            ++ transformStepNode (axisStep PathSpec.Single axis nodeKindTest [])).

(** Evaluates [ast] with [n] as the context node, the way
    [visitPredicateNode] evaluates the expression of a predicate at a node
    of a partition: the context is pushed, the expression visited and its
    result popped. *)
Definition evalAt `{Builtins} (h : Store) (fuel : nat) (root n : NodeId)
    (ast : XNodeT) : Result XValue :=
  valueOf ((pushContext (mkContext 1 1 n);;
            visit h fuel ast;;
            res ← popDefined;
            mret (value res)) (newXPath root)).

(** The state of an evaluator after [data] was pushed. *)
Definition pushed (data : XData) (st : XPath.t) : XPath.t :=
  XPath.set_dataStack (data :: XPath.dataStack st) st.

(** ** Markup of the examples *)

(** A double quote, for attribute values written with double quotes. *)
Definition dq : string := String (ascii_of_nat 34) EmptyString.

(** [name="value"] *)
Definition attr (name value : string) : string :=
  name +:+ "=" +:+ dq +:+ value +:+ dq.

Definition exampleNested : string := "<a><b/><c><d/></c></a>".

Definition exampleThreeX : string :=
  "<r><a><X id='1'/><X id='2'/></a><b><X id='3'/></b></r>".

(** Two attributes [p:a] and [q:a] whose prefixes are bound to the same
    URI. *)
Definition exampleDuplicates : string :=
  "<r " +:+ attr "xmlns:p" "urn:x" +:+ " " +:+ attr "xmlns:q" "urn:x" +:+ " "
        +:+ attr "p:a" "1" +:+ " " +:+ attr "q:a" "2" +:+ "/>".

(** The same with an attribute before them whose prefix [z] is bound
    nowhere. *)
Definition exampleUnresolved : string :=
  "<r " +:+ attr "xmlns:p" "urn:x" +:+ " " +:+ attr "xmlns:q" "urn:x" +:+ " "
        +:+ attr "z:b" "0" +:+ " "
        +:+ attr "p:a" "1" +:+ " " +:+ attr "q:a" "2" +:+ "/>".

(** The default configuration with [allowMissingNamespaces] on. *)
Definition allowMissingConfig : ParserConfig :=
  mkConfig "Document" true true true true.

(** The same two attributes on an element [d] that comes after an element
    [c] with an attribute whose prefix [z] is bound nowhere. *)
Definition exampleStale : string :=
  "<r " +:+ attr "xmlns:p" "urn:x" +:+ " " +:+ attr "xmlns:q" "urn:x" +:+ ">"
        +:+ "<c " +:+ attr "z:b" "0" +:+ "/>"
        +:+ "<d " +:+ attr "p:a" "1" +:+ " " +:+ attr "q:a" "2" +:+ "/></r>".

(** The same document with no prefix on the attribute of [c]. *)
Definition exampleLater : string :=
  "<r " +:+ attr "xmlns:p" "urn:x" +:+ " " +:+ attr "xmlns:q" "urn:x" +:+ ">"
        +:+ "<c " +:+ attr "b" "0" +:+ "/>"
        +:+ "<d " +:+ attr "p:a" "1" +:+ " " +:+ attr "q:a" "2" +:+ "/></r>".

(** The parser at the point where [parseElement], for the first element of
    [source], has read the attributes and goes on to resolve the namespaces:
    the steps of [parse], [parseDocument] and [parseElement] up to there,
    with the element and the token it starts at. *)
Definition atFirstElement (fuel : nat) (source : string) (cfg : ParserConfig)
    : Result ((NodeId * Token.t * RName.t) * XmlParser.t Lex.t) :=
  let L := lexerInstance XmlLexerC in
  (createRoot XmlParserC;;
   advance;;
   parseProlog XmlParserC fuel;;
   lt ← match_ TokenLThan;
   nm ← (if lt : bool then mret true else check TokenName);
   if nm : bool then elementStart XmlParserC fuel
   else throw (ParseError "no element"))
    (newParser XmlParserC (Lex.new source defaultLexerConfig) cfg).

(** ** The parent link *)

(** [n.parent.children[n.index] == n], for the node at [id]. *)
Definition parentLinkOk (h : Store) (id : NodeId) : bool :=
  match h !! id with
  | Some n =>
      match parent n with
      | Some p =>
          match h !! p, index n with
          | Some pn, Idx i =>
              (0 <=? i) && bool_decide (children pn !! Z.to_nat i = Some id)
          | _, _ => false
          end
      | None => false
      end
  | None => false
  end.

(** ** The reserved-namespace constraints, in the words of the specification

    A namespace declaration [xmlns:p='uri'] has the name [xmlns:p], whose
    prefix part is [xmlns] and whose local part is the prefix [p] it
    declares; the default declaration [xmlns='uri'] has the name [xmlns] and
    no prefix part. *)

Definition declaredPrefix (name : RName.t) : option string :=
  if Js.truthy (RName.pname name) then Some (RName.lname name) else None.

(** (a): [xml] bound to another URI, the XML URI as the default namespace,
    or another prefix bound to the XML URI. *)
Definition violatesXml (name : RName.t) (uri : string) : bool :=
  match declaredPrefix name with
  | Some p =>
      if String.eqb p constants.XmlPrefix
      then negb (String.eqb uri constants.XmlUri)
      else String.eqb uri constants.XmlUri
  | None => String.eqb uri constants.XmlUri
  end.

(** (b): [xmlns] declared as a prefix, or the XMLNS URI as the default
    namespace. *)
Definition violatesXmlns (name : RName.t) (uri : string) : bool :=
  match declaredPrefix name with
  | Some p => String.eqb p constants.XmlnsPrefix
  | None => String.eqb uri constants.XmlnsUri
  end.

(** (c): a prefixed declaration with an empty value. *)
Definition violatesNoUndeclaring (name : RName.t) (uri : string) : bool :=
  match declaredPrefix name with
  | Some _ => negb (Js.truthy uri)
  | None => false
  end.

(** (d): an element name with the prefix [xmlns]. *)
Definition violatesElementName (name : RName.t) : bool :=
  String.eqb (RName.pname name) constants.XmlnsPrefix.

(** ** [substring] by positions *)

(** The characters of [s] at the positions that [keep] holds of, [p] being
    the position of the first character of [s]. *)
Fixpoint keepPositions (keep : nat → bool) (p : nat) (s : string) : string :=
  match s with
  | EmptyString => EmptyString
  | String c r =>
      if keep p then String c (keepPositions keep (S p) r)
      else keepPositions keep (S p) r
  end.

(** [substring] as XPath 1.0 words it, for a rounding function [rnd]: the
    characters at the positions [p], the first being 1, with
    [rnd start <= p] and, when there is a length, [p < rnd start + rnd len];
    the comparisons and the sum are those of numbers, so that none holds of
    NaN. *)
Definition substringSpec (rnd : Js.number → Js.number) (s : string)
    (start : Js.number) (len : option Js.number) : string :=
  let first := rnd start in
  keepPositions
    (λ p, Js.leb first (Js.ofNat p) &&
          match len with
          | Some l => Js.ltb (Js.ofNat p) (Js.add first (rnd l))
          | None => true
          end)
    1 s.

(** Rounding to the nearest integer, a tie going to the even one. *)
Definition roundHalfEven (x : Js.number) : Js.number :=
  match x with
  | Js.Finite q =>
      let f := Qfloor q in
      let r := (q - inject_Z f)%Q in
      Js.Finite (inject_Z
        (if Qeq_bool r (1 # 2) then (if Z.even f then f else f + 1)
         else if Qle_bool r (1 # 2) then f else f + 1))
  | _ => x
  end.

(** The values that are NaN, an infinity or an integer of magnitude at
    most 2^53.  Every such integer is a double, and an operation on doubles
    whose exact result is a double returns that result: where the results
    of [Js.sub] and [Js.add] are such values, they are the results of the
    subtraction and the addition of the doubles. *)
Definition exactInteger (x : Js.number) : bool :=
  match x with
  | Js.Finite q =>
      Qeq_bool q (inject_Z (Qfloor q)) &&
      Qle_bool (inject_Z (- 2 ^ 53)) q && Qle_bool q (inject_Z (2 ^ 53))
  | _ => true
  end.

(** The arguments of [substring] on which the arithmetic of [substringFn]
    is exact: the call returns before any arithmetic when the first number
    rounds to NaN, and before the addition when the second does; otherwise
    [start], [start - 1], [end] and [end + (start - 1)] are values that
    [exactInteger] holds of, and so is the sum [start + end] of
    [substringSpec]. *)
Definition exactArithmetic (start : Js.number) (len : option Js.number) : bool :=
  let first := Js.round start in
  let before := Js.sub first (Js.ofZ 1) in
  Js.isNaN first ||
  match len with
  | None => exactInteger first && exactInteger before
  | Some l =>
      Js.isNaN (Js.round l) ||
      exactInteger first && exactInteger before &&
      exactInteger (Js.round l) && exactInteger (Js.add (Js.round l) before) &&
      exactInteger (Js.add first (Js.round l))
  end.

(** The call [substring(s, start)] or [substring(s, start, len)] on
    literals. *)
Definition substringCall (s : string) (start : Js.number) (len : option Js.number)
    : XNodeT :=
  CallNode "substring"
    (StringNode s :: NumberNode start ::
     match len with Some l => [NumberNode l] | None => [] end).

(** ** The tree a store holds *)

Section tree_spec.
  Variable h : Store.

(** The children of the node at [id]: none when it is no parent. *)
Definition childrenOf (id : NodeId) : list NodeId :=
  match h !! id with
  | Some n => if isParent n then children n else []
  | None => []
  end.

(** The nodes at most [d] levels below [id] are all in the store, and
    none lies deeper. *)
Fixpoint treeOk (d : nat) (id : NodeId) : bool :=
  match h !! id with
  | Some n =>
      negb (isParent n) ||
      match d with
      | O => false
      | S d' => forallb (treeOk d') (children n)
      end
  | None => false
  end.

(** The nodes below [id], down to [d] levels, in the order of a walk that
    visits a node before its children and the children from first to
    last. *)
Fixpoint descendants (d : nat) (id : NodeId) : list NodeId :=
  match d with
  | O => []
  | S d' => flat_map (λ c, c :: descendants d' c) (childrenOf id)
  end.

Definition treeNodes (d : nat) (root : NodeId) : list NodeId :=
  root :: descendants d root.

(** The node at [id] is an element. *)
Definition isElementAt (id : NodeId) : bool :=
  match h !! id with Some n => isElement n | None => false end.






(** The elements below [root], each once. *)
Definition elementsBelow (d : nat) (root : NodeId) : list NodeId :=
  setOfList (filter (λ c, isElementAt c) (descendants d root)).

(** A test that never fails, as a boolean function on nodes, and that
    function on the node at [id]. *)
Definition decides (test : FilterFn) (t : RNode → bool) : Prop :=
  ∀ n, test n = Ok (t n).

Definition passes (t : RNode → bool) (id : NodeId) : bool :=
    match h !! id with Some n => t n | None => false end.
End tree_spec.

(** A set as [addNodeset] takes it: only when it is not empty. *)
Definition nonEmpty {A} (l : list A) : option (list A) :=
  match l with [] => None | _ => Some l end.

(** Ascending by key. *)
Definition ascending {A} (key : A → Z) (l : list A) : Prop :=
  StronglySorted (λ a b, key a ≤ key b) l.

(** ** Expanded names *)

Section unique_spec.
  Context {L : Type}.
  Import XmlParser.

(** The URI of a namespace node. *)
Definition uriOf (n : RNode) : string :=
  match obj n with NamespaceB x => NamespaceNode.uri x | _ => "" end.

(** The expanded name of the attribute at [attr], as a pair: the URI its
    prefix is bound to in the current scope, trimmed, and its local
    name. *)
Definition expandedPair (st : XmlParser.t L) (attr : NodeId)
      : option (string * string) :=
  a ← heap st !! attr;
  let name := default (RName.mk "" "" "") (nodeName a) in
  ns ← NamespaceScopeTable.lookup (RName.pname name) (currentScope st);
  n ← heap st !! ns;
  Some (Js.trim (uriOf n), RName.lname name).

(** The key [resolveNamespaces] records for it. *)
Definition nameKey (st : XmlParser.t L) (attr : NodeId) : option string :=
  (λ '(uri, lname), uri +:+ ":" +:+ lname) <$> expandedPair st attr.

(** Every namespace the scope chain knows is a node of the store. *)
Definition scopeOk (st : XmlParser.t L) : Prop :=
  ∀ key ns, NamespaceScopeTable.lookup key (currentScope st) = Some ns →
            is_Some (heap st !! ns).

(** The prefixes that [resolveNamespaces] looks up are bound: the prefix of
    the element at [elem], when it has one, and the prefix of every
    attribute of [namespacedAttributes]. *)
Definition prefixesBound (st : XmlParser.t L) (elem : NodeId) : Prop :=
  (∀ e, heap st !! elem = Some e →
     let prefix := RName.pname (default (RName.mk "" "" "") (nodeName e)) in
     Js.truthy prefix = true →
     is_Some (NamespaceScopeTable.lookup prefix (currentScope st))) ∧
  Forall (λ a, is_Some (expandedPair st a)) (namespacedAttributes st).

(** A state that differs from [st] in fields of nodes other than names
    and URIs, and in the names recorded so far. *)
Definition sameNames (st st' : XmlParser.t L) : Prop :=
  config st' = config st ∧ currentScope st' = currentScope st ∧
  namespacedAttributes st' = namespacedAttributes st ∧
  ∀ k, (λ n, (nodeName n, uriOf n)) <$> heap st' !! k
       = (λ n, (nodeName n, uriOf n)) <$> heap st !! k.
End unique_spec.

(** The namespaces a scope chain holds, and the test that each is a node of
    the store. *)
Fixpoint scopeValues (sc : Scope) : list NodeId :=
  match sc with
  | mkScope syms enclosing =>
      JsMap.values syms ++
      match enclosing with
      | Some e => scopeValues e
      | None => []
      end
  end.

Definition scopeOkb {L} (st : XmlParser.t L) : bool :=
  forallb (λ ns, bool_decide (is_Some (XmlParser.heap st !! ns)))
    (scopeValues (NamespaceScopeTable.table (XmlParser.currentScope st))).

(** ** The top of the data stack *)



(** ** What an evaluation leaves of the evaluator *)

(** A computation of the evaluator that, when it returns, leaves the
    context stack and the root as they were. *)
Definition KeepsContext {A} (m : StateM XPath.t A) : Prop :=
  ∀ st a st', m st = Ok (a, st') →
    XPath.ctxStack st' = XPath.ctxStack st ∧ XPath.root st' = XPath.root st.

(** ** Positions in a partition *)

(** The node at the position [k] of a partition, counted from 1, as a
    partition of its own; no node when there is none at that position. *)
Definition nthOnly {A} (k : Z) (l : list A) : list A :=
  if 1 <=? k then
    match l !! Z.to_nat (k - 1) with
    | Some x => [x]
    | None => []
    end
  else [].

(** ** The links between parents and children *)

(** [linked h]: every child listed by a node of the store is a node of the
    store whose [parent] is that node and whose [index] is its place in the
    list: [c.parent.children[c.index] == c] for every child [c]. *)
Definition linked (h : Store) : Prop :=
  ∀ p pn i c, h !! p = Some pn → children pn !! i = Some c →
    ∃ cn, h !! c = Some cn ∧ parent cn = Some p ∧ index cn = Idx (Z.of_nat i).

(** The nodes of [h] are still there in [h'], with the [index] they had. *)
Definition keepsIndices (h h' : Store) : Prop :=
  ∀ id n, h !! id = Some n → ∃ n', h' !! id = Some n' ∧ index n' = index n.

(** The same but for the node [nd]. *)
Definition keepsIndicesBut (nd : NodeId) (h h' : Store) : Prop :=
  ∀ id n, id ≠ nd → h !! id = Some n → ∃ n', h' !! id = Some n' ∧ index n' = index n.

(** A node whose [index] is no number: in a linked store it is the child
    of no node. *)
Definition detached (h : Store) (nd : NodeId) : Prop :=
  ∃ n, h !! nd = Some n ∧ ∀ i, index n ≠ Idx i.

(** An update of a node object that changes none of [children], [parent]
    and [index]. *)
Definition LinkPreserving (f : RNode → RNode) : Prop :=
  ∀ n, children (f n) = children n ∧ parent (f n) = parent n ∧ index (f n) = index n.

Section linked_spec.
  Context {L : Type}.
  Import XmlParser.

(** A parser method that keeps the store linked and the indices of the
    nodes that exist when it starts. *)
Definition Linked {A} (m : StateM (XmlParser.t L) A) : Prop :=
  ∀ st a st', m st = Ok (a, st') → linked (heap st) →
    linked (heap st') ∧ keepsIndices (heap st) (heap st').

(** A piece of a method that may attach the detached node [nd]. *)
Definition Attaches (nd : NodeId) {A} (m : StateM (XmlParser.t L) A) : Prop :=
  ∀ st a st', m st = Ok (a, st') → linked (heap st) → detached (heap st) nd →
    linked (heap st') ∧ keepsIndicesBut nd (heap st) (heap st').
End linked_spec.

(** ** The scope of namespace declarations *)

Section scoped_methods.
  Context {L : Type}.
  Import XmlParser.

(** A parser method that, started in a state whose scope table is not
    disabled, may bind prefixes in the innermost scope but leaves the
    enclosing scopes as they are. *)
Definition KeepsOuterScopes {A} (m : StateM (XmlParser.t L) A) : Prop :=
  ∀ st a st', m st = Ok (a, st') →
    NamespaceScopeTable.disabled (currentScope st) = false →
    enclosingScope (NamespaceScopeTable.table (currentScope st'))
    = enclosingScope (NamespaceScopeTable.table (currentScope st))
    ∧ NamespaceScopeTable.disabled (currentScope st') = false.

(** A parser method that leaves the scope table as it found it. *)
Definition RestoresScope {A} (m : StateM (XmlParser.t L) A) : Prop :=
  ∀ st a st', m st = Ok (a, st') →
    NamespaceScopeTable.disabled (currentScope st) = false →
    currentScope st' = currentScope st.
End scoped_methods.

(** The XML parser at the point where [parseDocument] calls
    [parseElement] for a source that starts with an element: the root is
    made and the ['<'] read. *)
Definition beforeFirstElement (source : string) (cfg : ParserConfig)
    : Result (bool * XmlParser.t Lex.t) :=
  let L := lexerInstance XmlLexerC in
  (createRoot XmlParserC;; advance;; match_ TokenLThan)
    (newParser XmlParserC (Lex.new source defaultLexerConfig) cfg).

(** ** What a computation keeps *)

(** [Keeps R m]: whenever [m] returns, the state it started in and the
    state it leaves are related by [R]. *)
Definition Keeps {S A} (R : S → S → Prop) (m : StateM S A) : Prop :=
  ∀ st a st', m st = Ok (a, st') → R st st'.

(** ** The stack of open elements *)

(** The parser has the same open elements, and the same root. *)
Definition sameStack {L} (st st' : XmlParser.t L) : Prop :=
  XmlParser.stack st' = XmlParser.stack st ∧
  XmlParser.rootNode st' = XmlParser.rootNode st.

(** The parser has closed the innermost open element. *)
Definition poppedStack {L} (st st' : XmlParser.t L) : Prop :=
  XmlParser.stack st' = tail (XmlParser.stack st) ∧
  XmlParser.rootNode st' = XmlParser.rootNode st.

(** ** Characters that close no group of a DTD *)

(** An ASCII character that is no [")"], no ["|"], no white space and no
    name character: the loops of [mixed] and [enumeration] move over none
    of these. *)
Definition strayChar (cls : LexerClass) (ch : ascii) : bool :=
  (nat_of_ascii ch <? 128)%nat
  && negb (Ascii.eqb ch ")") && negb (Ascii.eqb ch "|")
  && negb (Js.isWhitespace ch) && negb (isNameChar cls (Some ch)).

(** The lexer is at a stray character. *)
Definition atStray (cls : LexerClass) (l : Lex.t) : Prop :=
  ∃ ch, String.get (Lex.currentIndex l) (Lex.source l) = Some ch ∧
        strayChar cls ch = true.

(** ** Node sets in document order *)

(** A datum whose value, when it is a node set, holds each node once, in
    ascending order of position. *)
Definition sortedData (h : Store) (d : XData) : Prop :=
  match value d with
  | VNodeset ns => NoDup ns ∧ ascending (position h) ns
  | _ => True
  end.

(** Every datum on the data stack is such a datum. *)
Definition sortedStack (h : Store) (st : XPath.t) : Prop :=
  Forall (sortedData h) (XPath.dataStack st).

(** What a computation of the evaluator keeps of the data stack. *)
Definition keepsSorted (h : Store) (st st' : XPath.t) : Prop :=
  sortedStack h st → sortedStack h st'.

(** ** [translate], character by character *)

(** The first index of the character [c] in [l]. *)
Fixpoint charIndex (c : ascii) (l : list ascii) : option nat :=
  match l with
  | [] => None
  | x :: r => if Ascii.eqb x c then Some 0%nat else S <$> charIndex c r
  end.

(** What becomes of the character [c]: the character at its place in
    [to_] when it is in [from], nothing when [to_] has no such place, and
    [c] itself when it is not in [from]. *)
Definition translateChar (from to_ : list ascii) (c : ascii) : list ascii :=
  match charIndex c from with
  | None => [c]
  | Some i => match to_ !! i with Some r => [r] | None => [] end
  end.

(** The last node of a partition, as a partition of its own. *)
Definition lastOnly {A} (l : list A) : list A :=
  match last l with Some x => [x] | None => [] end.

(** ** Strings without white space at their ends *)

(** The string does not start with a white space character. *)
Definition startsClean (s : string) : Prop :=
  match s with
  | String c _ => Js.isWhitespace c = false
  | EmptyString => True
  end.

(** The string does not end with one. *)
Definition endsClean (s : string) : Prop := startsClean (String.rev s).

(** The characters of a string that are no white space. *)
Definition inkOf (s : string) : list ascii :=
  List.filter (λ c, negb (Js.isWhitespace c)) (list_ascii_of_string s).

(** A string of ASCII characters. *)
Definition isAscii (s : string) : Prop :=
  Forall (λ c, (nat_of_ascii c < 128)%nat) (list_ascii_of_string s).

(** ** The positions of the nodes *)

(** What the order of the positions depends on: the position of a node and
    its children. *)
Definition shape (n : RNode) : Z * list NodeId := (pos n, children n).

(** Every position of the store is [-1], the initial value, or a value
    below the counter [c]. *)
Definition below (h : Store) (c : Z) : Prop :=
  ∀ id n, h !! id = Some n → -1 ≤ pos n < c.

(** Document order: a child is a node of the store, its position is
    greater than the position of its parent and than the positions of the
    children listed before it. *)
Definition ordered (h : Store) : Prop :=
  ∀ p pn i c, h !! p = Some pn → children pn !! i = Some c →
    ∃ cn, h !! c = Some cn ∧ pos pn < pos cn ∧
      ∀ j c' cn', (j < i)%nat → children pn !! j = Some c' → h !! c' = Some cn' →
        pos cn' < pos cn.

(** Two nodes have the same position only when neither has been given
    one. *)
Definition distinctPositions (h : Store) : Prop :=
  ∀ i j ni nj, h !! i = Some ni → h !! j = Some nj → pos ni = pos nj →
    i = j ∨ pos ni = -1.

(** The invariant of the parser: the counter [pos] is above every
    position given so far, the store is in document order with distinct
    positions, and the open elements are nodes of the store. *)
Definition Positions {L} (st : XmlParser.t L) : Prop :=
  0 ≤ XmlParser.pos st ∧
  below (XmlParser.heap st) (XmlParser.pos st) ∧
  ordered (XmlParser.heap st) ∧
  distinctPositions (XmlParser.heap st) ∧
  Forall (λ s, (s < length (XmlParser.heap st))%nat) (XmlParser.stack st).

(** The steps of the parser that change no position, no list of children,
    neither the counter nor the stack. *)
Definition sameShape {L} (st st' : XmlParser.t L) : Prop :=
  XmlParser.stack st' = XmlParser.stack st ∧
  XmlParser.pos st' = XmlParser.pos st ∧
  shape <$> XmlParser.heap st' = shape <$> XmlParser.heap st.

(** The steps that keep the invariant; no node is removed. *)
Definition keepsPositions {L} (st st' : XmlParser.t L) : Prop :=
  (length (XmlParser.heap st) ≤ length (XmlParser.heap st'))%nat ∧
  (Positions st → Positions st').

(** The same for the steps that may open the element [nd], a node of the
    store. *)
Definition knowing {L} (nd : NodeId) (st st' : XmlParser.t L) : Prop :=
  (length (XmlParser.heap st) ≤ length (XmlParser.heap st'))%nat ∧
  ((nd < length (XmlParser.heap st))%nat → Positions st → Positions st').

(** The store [h'] is [h] and a new node without children at position
    [c]; a node of [h] may have adopted it as its last child. *)
Definition grown (h h' : Store) (c : Z) : Prop :=
  length h' = S (length h) ∧
  (∃ n', h' !! length h = Some n' ∧ pos n' = c ∧ children n' = []) ∧
  ∀ id x, h !! id = Some x →
    ∃ x', h' !! id = Some x' ∧ pos x' = pos x ∧
          (children x' = children x ∨ children x' = children x ++ [length h]).

(** An update of a node object that changes neither [pos] nor
    [children]. *)
Definition ShapePreserving (f : RNode → RNode) : Prop :=
  ∀ n, shape (f n) = shape n.

(** ** Siblings *)

(** The node at a place of a list of children; [null] past its end. *)
Definition nodeAt (l : list NodeId) (i : nat) : JsNode :=
  match l !! i with
  | Some n => NodeRef n
  | None => NodeNull
  end.

(** The node before the place [i]; [null] before the first. *)
Definition nodeBefore (l : list NodeId) (i : nat) : JsNode :=
  match i with
  | O => NodeNull
  | S j => nodeAt l j
  end.

(** ** Changes of the links *)

(** A node that no node of the store lists among its children. *)
Definition unlisted (h : Store) (n : NodeId) : Prop :=
  ∀ q qn, h !! q = Some qn → n ∉ children qn.

(** [h'] has the nodes of [h], each of the type it had; the children of
    the node [id] have gone through [ch id], its parent through [pa id]
    and its index through [ix id]. *)
Definition Relinks (ch : NodeId → list NodeId → list NodeId)
    (pa : NodeId → option NodeId → option NodeId)
    (ix : NodeId → JsIndex → JsIndex) (h h' : Store) : Prop :=
  length h' = length h ∧
  ∀ id n, h !! id = Some n →
    ∃ n', h' !! id = Some n' ∧ _type n' = _type n ∧
          children n' = ch id (children n) ∧
          parent n' = pa id (parent n) ∧
          index n' = ix id (index n).

(** The same links in both stores. *)
Definition sameLinks (h h' : Store) : Prop :=
  Relinks (λ _ l, l) (λ _ x, x) (λ _ x, x) h h'.

(** * Theorems *)

(** ** The state monad *)

Lemma bind_inv {S A B} (m : StateM S A) (f : A → StateM S B) st b st' :
  (m ≫= f) st = Ok (b, st') → ∃ a st1, m st = Ok (a, st1) ∧ f a st1 = Ok (b, st').
Proof.
  unfold mbind, StateM_bind. destruct (m st) as [[a st1]| |]; [|done..]. eauto.
Qed.

Lemma bind_Ok {S A B} (m : StateM S A) (f : A → StateM S B) st a st' :
  m st = Ok (a, st') → (m ≫= f) st = f a st'.
Proof. intros E. unfold mbind, StateM_bind. by rewrite E. Qed.

Lemma bind_Err {S A B} (m : StateM S A) (f : A → StateM S B) st e :
  m st = Err e → (m ≫= f) st = Err e.
Proof. intros E. unfold mbind, StateM_bind. by rewrite E. Qed.

(** ** The parser keeps its root *)

Section frames.
  Context {L : Type} `{Lexer L}.
  Import XmlParser.
  Local Abbreviation M := (StateM (XmlParser.t L)).

Lemma frame_refl (st : XmlParser.t L) : frame st st.
Proof. split; eauto. Qed.

Lemma frame_trans (st1 st2 st3 : XmlParser.t L) :
  frame st1 st2 → frame st2 st3 → frame st1 st3.
Proof.
  intros [R1 H1] [R2 H2]. split; [congruence|].
  intros id n Hn. destruct (H1 _ _ Hn) as (n' & Hn' & T1).
  destruct (H2 _ _ Hn') as (n'' & Hn'' & T2). exists n''. split; [done|congruence].
Qed.

Lemma frame_set st (f : XmlParser.t L → XmlParser.t L) :
  rootNode (f st) = rootNode st → heap (f st) = heap st → frame st (f st).
Proof. intros R Hh. split; [done|]. rewrite Hh. eauto. Qed.

Lemma Frames_ret {A} (a : A) : Frames (L:=L) (mret a).
Proof. intros st a' st' [= _ <-]. apply frame_refl. Qed.

Lemma Frames_bind {A B} (m : M A) (f : A → M B) :
  Frames m → (∀ a, Frames (f a)) → Frames (m ≫= f).
Proof.
  intros Hm Hf st b st' E. apply bind_inv in E as (a & st1 & E1 & E2).
  eapply frame_trans; [by eapply Hm|by eapply Hf].
Qed.

Lemma Frames_gets {A} (f : XmlParser.t L → A) : Frames (gets f).
Proof. intros st a st' [= _ <-]. apply frame_refl. Qed.

Lemma Frames_throw {A} e : Frames (L:=L) (@throw _ A e).
Proof. intros st a st'. done. Qed.

Lemma Frames_outOfFuel {A} : Frames (L:=L) (@outOfFuel _ A).
Proof. intros st a st'. done. Qed.

Lemma Frames_modify (f : XmlParser.t L → XmlParser.t L) :
  (∀ st, frame st (f st)) → Frames (modify f).
Proof. intros Hf st a st' [= _ <-]. apply Hf. Qed.

Lemma Frames_when b (m : M unit) : Frames m → Frames (when_ b m).
Proof. destruct b; [done|]. intros _. apply Frames_ret. Qed.

Lemma Frames_while fuel (c : M bool) (b : M unit) :
  Frames c → Frames b → Frames (while_ fuel c b).
Proof.
  intros Hc Hb. induction fuel as [|fuel IH]; cbn; [apply Frames_outOfFuel|].
  apply Frames_bind; [done|]. intros [|]; [|apply Frames_ret].
  apply Frames_bind; [done|]. intros _. done.
Qed.

Lemma Frames_doWhile fuel (b : M unit) (c : M bool) :
  Frames b → Frames c → Frames (doWhile fuel b c).
Proof. intros. apply Frames_bind; [done|]. intros _. by apply Frames_while. Qed.

Lemma Frames_liftLexer {A} (m : StateM L A) : Frames (liftLexer lexer set_lexer m).
Proof.
  intros st a st'. unfold liftLexer. destruct (m (lexer st)) as [[a' lx]| |]; [|done..].
  intros [= _ <-]. split; [done|]. cbn. eauto.
Qed.

Lemma Frames_newNode n : Frames (L:=L) (newNode n).
Proof.
  intros st a st'. unfold newNode. cbn. intros [= _ <-]. split; [done|]. cbn.
  intros id n0 Hn. exists n0. split; [|done]. by apply lookup_app_l_Some.
Qed.

Lemma Frames_readNode id : Frames (L:=L) (readNode id).
Proof.
  intros st a st'. unfold readNode. destruct (heap st !! id); [|done].
  intros [= _ <-]. apply frame_refl.
Qed.

Lemma Frames_updNode id f : TypePreserving f → Frames (L:=L) (updNode id f).
Proof.
  intros Hf. apply Frames_modify. intros st. split; [done|]. cbn.
  intros i n Hn. unfold update. destruct (decide (i = id)) as [->|Hne].
  - exists (f n). split; [|apply Hf]. rewrite list_lookup_alter_eq. by rewrite Hn.
  - exists n. split; [|done]. by rewrite list_lookup_alter_ne.
Qed.

Lemma TP_set_children c : TypePreserving (set_children c).
Proof. intros [? ? ? []]; reflexivity. Qed.
Lemma TP_set_index i : TypePreserving (set_index i).
Proof. intros [? ? ? []]; reflexivity. Qed.
Lemma TP_set_parent p : TypePreserving (set_parent p).
Proof. intros [? ? ? []]; reflexivity. Qed.
Lemma TP_setPosition p : TypePreserving (setPosition p).
Proof. intros [? ? ? []]; reflexivity. Qed.
Lemma TP_updElement f : TypePreserving (updElement f).
Proof. intros [? ? ? []]; reflexivity. Qed.
Lemma TP_updRoot f : TypePreserving (updRoot f).
Proof. intros [? ? ? []]; reflexivity. Qed.
Lemma TP_updAttribute f : TypePreserving (updAttribute f).
Proof. intros [? ? ? []]; reflexivity. Qed.
Lemma TP_updXMLDecl f : TypePreserving (updXMLDecl f).
Proof. intros [? ? ? []]; reflexivity. Qed.
End frames.

Create HintDb frames.
#[export] Hint Resolve Frames_ret Frames_gets Frames_throw Frames_outOfFuel
  Frames_liftLexer Frames_newNode Frames_readNode Frames_updNode
  TP_set_children TP_set_index TP_set_parent TP_setPosition TP_updElement
  TP_updRoot TP_updAttribute TP_updXMLDecl : frames.

(** One step through a method body: a bind, a loop, a branch, or a field
    assignment that touches neither the root nor the store. *)
Ltac frames_step :=
  match goal with
  | |- Frames (mbind _ _) => apply Frames_bind; [|intros ?]
  | |- Frames (when_ _ _) => apply Frames_when
  | |- Frames (while_ _ _ _) => apply Frames_while
  | |- Frames (doWhile _ _ _) => apply Frames_doWhile
  | |- Frames (modify _) =>
      apply Frames_modify; intros ?; apply frame_set; reflexivity
  | |- Frames (if ?b then _ else _) => destruct b
  | |- Frames (match ?x with _ => _ end) => destruct x
  | |- Frames _ => solve [eauto with frames]
  end.
Ltac frames := cbv zeta; repeat (frames_step; cbv zeta).

Section frames_methods.
  Context {L : Type} `{Lexer L}.
  Import XmlParser.

Lemma Frames_advance : Frames (L:=L) advance.
Proof. unfold advance, error. frames. Qed.
Hint Resolve Frames_advance : frames.

Lemma Frames_check ty : Frames (L:=L) (check ty).
Proof. unfold check. frames. Qed.
Hint Resolve Frames_check : frames.

Lemma Frames_consume ty : Frames (L:=L) (consume ty).
Proof. unfold consume, error. frames. Qed.
Lemma Frames_match ty : Frames (L:=L) (match_ ty).
Proof. unfold match_. frames. Qed.
Hint Resolve Frames_consume Frames_match : frames.

Lemma Frames_error {A} tk msg : Frames (L:=L) (@error L A tk msg).
Proof. unfold error. frames. Qed.
Lemma Frames_unreachable {A} msg : Frames (L:=L) (@unreachable L A msg).
Proof. unfold unreachable. frames. Qed.
Lemma Frames_warn tk msg : Frames (L:=L) (warn tk msg).
Proof. unfold warn. frames. Qed.
Lemma Frames_push nd : Frames (L:=L) (push nd).
Proof. unfold push. frames. Qed.
Lemma Frames_pop : Frames (L:=L) pop.
Proof. unfold pop. frames. Qed.
Lemma Frames_nextPos : Frames (L:=L) nextPos.
Proof. unfold nextPos. frames. Qed.
Lemma Frames_getParent : Frames (L:=L) getParent.
Proof.
  intros st a st'. unfold getParent. destruct (stack st); [done|].
  intros [= _ <-]. apply frame_refl.
Qed.
Hint Resolve Frames_error Frames_unreachable Frames_warn Frames_push Frames_pop
  Frames_nextPos Frames_getParent : frames.

Lemma Frames_setParent nd : Frames (L:=L) (setParent nd).
Proof. unfold setParent. frames. Qed.
Hint Resolve Frames_setParent : frames.

Lemma Frames_resolveAttributes attrs tk : Frames (L:=L) (resolveAttributes attrs tk).
Proof. induction attrs as [|a attrs IH]; cbn; frames. Qed.
Hint Resolve Frames_resolveAttributes : frames.

Lemma Frames_resolveNamespaces cls e tk : Frames (L:=L) (resolveNamespaces cls e tk).
Proof.
  unfold resolveNamespaces, XmlParser_resolveNamespaces, HtmlParser_resolveNamespaces.
  frames.
Qed.
Hint Resolve Frames_resolveNamespaces : frames.

Lemma Frames_parseName b : Frames (L:=L) (parseName b).
Proof. unfold parseName. frames. Qed.
Hint Resolve Frames_parseName : frames.

Lemma Frames_parseNamespace cls p : Frames (L:=L) (parseNamespace cls p).
Proof.
  unfold parseNamespace, XmlParser_parseNamespace, HtmlParser_parseNamespace.
  frames.
Qed.
Hint Resolve Frames_parseNamespace : frames.

Lemma Frames_parseAttribute cls p : Frames (L:=L) (parseAttribute cls p).
Proof.
  unfold parseAttribute, XmlParser_parseAttribute, HtmlParser_parseAttribute.
  frames.
Qed.
Hint Resolve Frames_parseAttribute : frames.

Lemma Frames_parsePI fuel b : Frames (L:=L) (parsePI fuel b).
Proof. unfold parsePI. frames. Qed.
Lemma Frames_parseText b : Frames (L:=L) (parseText b).
Proof. unfold parseText. frames. Qed.
Lemma Frames_parseComment : Frames (L:=L) parseComment.
Proof. unfold parseComment. frames. Qed.
Lemma Frames_parseDoctype : Frames (L:=L) parseDoctype.
Proof. unfold parseDoctype. frames. Qed.
Hint Resolve Frames_parsePI Frames_parseText Frames_parseComment
  Frames_parseDoctype : frames.

Lemma Frames_parseXmlDecl cls fuel : Frames (L:=L) (parseXmlDecl cls fuel).
Proof. unfold parseXmlDecl. frames. Qed.
Hint Resolve Frames_parseXmlDecl : frames.

Lemma Frames_misc pe fuel b : Frames pe → Frames (L:=L) (misc pe fuel b).
Proof. intros Hpe. unfold misc. frames. Qed.
Hint Resolve Frames_misc : frames.

Lemma Frames_content pe fuel : Frames pe → Frames (L:=L) (content pe fuel).
Proof. intros Hpe. unfold content. frames. Qed.
Lemma Frames_closingTag name : Frames (L:=L) (closingTag name).
Proof. unfold closingTag. frames. Qed.
Hint Resolve Frames_content Frames_closingTag : frames.

Lemma Frames_scriptBody fuel nd : Frames (L:=L) (scriptBody fuel nd).
Proof. induction fuel as [|fuel IH]; cbn; frames. Qed.
Hint Resolve Frames_scriptBody : frames.

Lemma Frames_handleContent cls pe fuel nd name :
  Frames pe → Frames (L:=L) (handleContent cls pe fuel nd name).
Proof.
  intros Hpe. unfold handleContent, XmlParser_handleContent, HtmlParser_handleContent.
  frames.
Qed.
Hint Resolve Frames_handleContent : frames.

Lemma Frames_elementAttribute cls nd : Frames (L:=L) (elementAttribute cls nd).
Proof. unfold elementAttribute. frames. Qed.
Hint Resolve Frames_elementAttribute : frames.

Lemma Frames_elementStart cls fuel : Frames (L:=L) (elementStart cls fuel).
Proof. unfold elementStart. frames. Qed.
Hint Resolve Frames_elementStart : frames.

Lemma Frames_parseElementBody cls pe fuel :
  Frames pe → Frames (L:=L) (parseElementBody cls pe fuel).
Proof. intros Hpe. unfold parseElementBody. frames. Qed.

Lemma Frames_parseElement cls fuel : Frames (L:=L) (parseElement cls fuel).
Proof.
  induction fuel as [|fuel IH]; cbn; [apply Frames_outOfFuel|].
  by apply Frames_parseElementBody.
Qed.
Hint Resolve Frames_parseElement : frames.

Lemma Frames_miscS cls fuel : Frames (L:=L) (miscS cls fuel).
Proof. unfold miscS. frames. Qed.
Hint Resolve Frames_miscS : frames.

Lemma Frames_parseProlog cls fuel : Frames (L:=L) (parseProlog cls fuel).
Proof. unfold parseProlog, XmlParser_parseProlog, HtmlParser_parseProlog. frames. Qed.

Lemma createRoot_root cls (lx : L) cfg st :
  createRoot cls (newParser cls lx cfg) = Ok (tt, st) →
  ∃ r, heap st !! rootNode st = Some r ∧ _type r = Root.
Proof.
  destruct cls; intros E; vm_compute in E; injection E as <-; vm_compute; eauto.
Qed.

(** C7.  Whenever a parse (XML or HTML, any lexer, any configuration)
    completes, the root's [isWellFormed] flag is true if and only if the
    parser counted no warning: [warn] only counts, it never aborts. *)
Theorem isWellFormed_iff_no_warnings cls fuel (lx : L) cfg root st :
  runParse cls fuel lx cfg = Ok (root, st) →
  ∃ r x, heap st !! root = Some r ∧ obj r = RootB x ∧
         (RootNode.isWellFormed x = true ↔ warnings st = 0%nat).
Proof.
  unfold runParse, parse. intros Hp.
  apply bind_inv in Hp as ([] & st0 & Hroot & Hp).
  apply createRoot_root in Hroot as (r0 & Hr0 & Tr0).
  apply bind_inv in Hp as ([] & st1 & Hdoc & Hp).
  injection Hp as <- <-.
  unfold parseDocument in Hdoc.
  apply bind_inv in Hdoc as ([] & s1 & H1 & Hdoc). apply Frames_advance in H1.
  apply bind_inv in Hdoc as ([] & s2 & H2 & Hdoc). apply Frames_parseProlog in H2.
  apply bind_inv in Hdoc as (lt & s3 & H3 & Hdoc). apply Frames_match in H3.
  apply bind_inv in Hdoc as (nm & s4 & H4 & Hdoc).
  assert (F4 : frame s3 s4).
  { destruct lt; [by injection H4 as _ <-; apply frame_refl|by apply Frames_check in H4]. }
  apply bind_inv in Hdoc as ([] & s5 & H5 & Hdoc).
  apply (Frames_when nm _ (Frames_parseElement cls fuel)) in H5.
  apply bind_inv in Hdoc as ([] & s6 & H6 & Hdoc). apply Frames_miscS in H6.
  apply bind_inv in Hdoc as ([] & s7 & H7 & Hdoc). apply Frames_consume in H7.
  assert (F : frame st0 s7) by eauto 10 using frame_trans.
  destruct F as [Fr Fh]. destruct (Fh _ _ Hr0) as (r7 & Hr7 & Tr7).
  cbn in Hdoc. injection Hdoc as <-. cbn. rewrite Fr.
  unfold update. rewrite list_lookup_alter_eq, Hr7. cbn.
  rewrite Tr0 in Tr7. destruct r7 as [p i ps []]; try discriminate Tr7.
  eexists _, _. split; [reflexivity|]. cbn. split; [reflexivity|].
  cbn. apply bool_decide_eq_true.
Qed.
End frames_methods.

(** [warn] always returns, and adds one to the warning counter. *)
Lemma warn_counts {L} (token : Token.t) (msg : string) (st : XmlParser.t L) :
  ∃ st', warn token msg st = Ok (tt, st') ∧
         XmlParser.warnings st' = S (XmlParser.warnings st).
Proof. eexists. split; reflexivity. Qed.

(** A parse that warns and still completes: the undeclared text after the
    root element is reported, the tree is built, and the flag is off. *)
Lemma isWellFormed_iff_no_warnings_witness :
  ∃ root st,
    parseXml 20 "<a/>x" defaultConfig = Ok (root, st) ∧
    XmlParser.warnings st = 1%nat ∧
    ∃ r x, XmlParser.heap st !! root = Some r ∧ obj r = RootB x ∧
           (RootNode.isWellFormed x = true ↔ XmlParser.warnings st = 0%nat).
Proof.
  eexists _, _. split; [vm_compute; reflexivity|]. split; [reflexivity|].
  apply (@isWellFormed_iff_no_warnings _ (lexerInstance XmlLexerC) XmlParserC 20
           (Lex.new "<a/>x" defaultLexerConfig) defaultConfig).
  vm_compute. reflexivity.
Defined.

Section count_sum_facts.
  Context `{Builtins}.

(** ** [count] and [sum] of what is no node set *)

(** C10.  When the argument of the call evaluates to a value that is not a
    node set, [count] pushes NaN where [sum] throws. *)
Theorem count_nan_sum_error (h : Store) (fuel : nat) (arg : XNodeT)
    (st st1 : XPath.t) (data : XData) (rest : list XData) :
  visit h fuel arg st = Ok (tt, st1) →
  XPath.dataStack st1 = data :: rest →
  cType data ≠ XNodeset →
  visit h (S fuel) (CallNode "count" [arg]) st
    = Ok (tt, XPath.set_dataStack (dNumber Js.NaN :: rest) st1)
  ∧ visit h (S fuel) (CallNode "sum" [arg]) st
    = Err (EvalError "Expected argument of type 'XNodeset'").
Proof.
  intros Hv Hd Hc.
  assert (Hn : XDataEval_isNodeset data = false).
  { unfold XDataEval_isNodeset. by apply bool_decide_eq_false. }
  split.
  - cbn [visit visitBody visitCallNode]. unfold callFunction. cbn.
    unfold countFn, visitArg, popDefined, popData. cbn.
    unfold mbind, StateM_bind, mret, StateM_ret. rewrite Hv, Hd, Hn. reflexivity.
  - cbn [visit visitBody visitCallNode]. unfold callFunction. cbn.
    unfold sumFn, visitArg, popDefined, popData. cbn.
    unfold mbind, StateM_bind, mret, StateM_ret. rewrite Hv, Hd, Hn. reflexivity.
Qed.
End count_sum_facts.

(** [count("3")] and [sum("3")], under any runtime. *)
Lemma count_nan_sum_error_witness :
  cType (dString "3") ≠ XNodeset ∧
  ∀ B : Builtins,
    visit [] 2 (CallNode "count" [StringNode "3"]) (newXPath 0)
      = Ok (tt, XPath.set_dataStack [dNumber Js.NaN] (pushed (dString "3") (newXPath 0)))
    ∧ visit [] 2 (CallNode "sum" [StringNode "3"]) (newXPath 0)
      = Err (EvalError "Expected argument of type 'XNodeset'").
Proof.
  split; [discriminate|]. intros B.
  apply (@count_nan_sum_error B [] 1 (StringNode "3") (newXPath 0)
           (pushed (dString "3") (newXPath 0)) (dString "3") []);
    [reflexivity|reflexivity|discriminate].
Defined.

(** ** The state monad: binds of reads and writes *)

Lemma bind_gets {S A B} (f : S → A) (k : A → StateM S B) st :
  (gets f ≫= k) st = k (f st) st.
Proof. reflexivity. Qed.

Lemma bind_modify {S B} (f : S → S) (k : unit → StateM S B) st :
  (modify f ≫= k) st = k tt (f st).
Proof. reflexivity. Qed.

Lemma bind_ret {S A B} (a : A) (k : A → StateM S B) st :
  (mret a ≫= k) st = k a st.
Proof. reflexivity. Qed.

Lemma bind_assoc {S A B C} (m : StateM S A) (f : A → StateM S B)
    (g : B → StateM S C) st :
  ((m ≫= f) ≫= g) st = (m ≫= (λ x, f x ≫= g)) st.
Proof. unfold mbind, StateM_bind. by destruct (m st) as [[]| |]. Qed.

(** ** What a visit leaves on the data stack *)

Section pushes.
  Context `{Builtins}.
  Variable h : Store.





End pushes.


Section pushes_visit.
  Context `{Builtins}.
  Variable h : Store.










End pushes_visit.

(** ** [queryOne] *)

Section queryOne_facts.
  Context `{Builtins}.

End queryOne_facts.

(** ** Sets *)

Lemma elem_of_setAdd (x y : nat) s : x ∈ setAdd y s ↔ x = y ∨ x ∈ s.
Proof.
  unfold setAdd. case_bool_decide as Hy.
  - split; [by right|]. intros [->|]; done.
  - rewrite elem_of_app, list_elem_of_singleton. tauto.
Qed.

Lemma NoDup_setAdd y s : NoDup s → NoDup (setAdd y s).
Proof.
  intros Hs. unfold setAdd. case_bool_decide as Hy; [done|].
  apply NoDup_app. split; [done|]. split.
  - intros x Hx ->%list_elem_of_singleton. done.
  - apply NoDup_singleton.
Qed.

Lemma setAddAll_cons s x l : setAddAll s (x :: l) = setAddAll (setAdd x s) l.
Proof. reflexivity. Qed.

Lemma setAddAll_app s l1 l2 :
  setAddAll s (l1 ++ l2) = setAddAll (setAddAll s l1) l2.
Proof. unfold setAddAll. apply fold_left_app. Qed.

Lemma elem_of_setAddAll x s l : x ∈ setAddAll s l ↔ x ∈ s ∨ x ∈ l.
Proof.
  revert s. induction l as [|y l IH]; intros s.
  - cbn. rewrite elem_of_nil. tauto.
  - rewrite setAddAll_cons, IH, elem_of_setAdd, elem_of_cons. tauto.
Qed.

Lemma NoDup_setAddAll s l : NoDup s → NoDup (setAddAll s l).
Proof.
  revert s. induction l as [|y l IH]; intros s Hs; [done|].
  rewrite setAddAll_cons. by apply IH, NoDup_setAdd.
Qed.

Lemma setAddAll_fresh s l : NoDup (s ++ l) → setAddAll s l = s ++ l.
Proof.
  revert s. induction l as [|y l IH]; intros s Hs.
  - by rewrite app_nil_r.
  - rewrite setAddAll_cons. unfold setAdd.
    rewrite bool_decide_eq_false_2.
    + rewrite IH; rewrite <- app_assoc; done.
    + apply NoDup_app in Hs as (_ & Hd & _). intros Hy. apply (Hd y Hy). by left.
Qed.

Lemma setOfList_NoDup l : NoDup l → setOfList l = l.
Proof. intros Hl. unfold setOfList. by rewrite setAddAll_fresh. Qed.

Lemma NoDup_setOfList l : NoDup (setOfList l).
Proof. apply NoDup_setAddAll, NoDup_nil_2. Qed.

Lemma elem_of_setOfList x l : x ∈ setOfList l ↔ x ∈ l.
Proof. unfold setOfList. rewrite elem_of_setAddAll, elem_of_nil. tauto. Qed.

(** ** Sorting *)

Section sorting_facts.
  Context {A : Type} (key : A → Z).

Lemma insertForward_Permutation x l : insertForward key x l ≡ₚ x :: l.
Proof.
  induction l as [|y l IH]; [done|]. cbn.
  destruct (key x <=? key y); [done|]. rewrite IH. apply Permutation_swap.
Qed.

Lemma insertReverse_Permutation x l : insertReverse key x l ≡ₚ x :: l.
Proof.
  induction l as [|y l IH]; [done|]. cbn.
  destruct (key y <=? key x); [done|]. rewrite IH. apply Permutation_swap.
Qed.

Lemma sortBy_Permutation order l : sortBy key order l ≡ₚ l.
Proof.
  destruct order; cbn; induction l as [|x l IH]; try done; cbn.
  - by rewrite insertForward_Permutation, IH.
  - by rewrite insertReverse_Permutation, IH.
Qed.

Lemma insertForward_ascending x l :
  ascending key l → ascending key (insertForward key x l).
Proof.
  induction 1 as [|y l Hl IH Hy]; cbn.
  - repeat constructor.
  - destruct (Z.leb_spec (key x) (key y)).
    + constructor; [by constructor|]. constructor; [done|].
      eapply Forall_impl; [exact Hy|]. cbn. intros. lia.
    + constructor; [done|].
      rewrite insertForward_Permutation. constructor; [lia|done].
Qed.

Lemma sortBy_ascending l : ascending key (sortBy key Forward l).
Proof.
  induction l as [|x l IH]; cbn; [constructor|].
  by apply insertForward_ascending.
Qed.

Lemma sortBy_of_ascending l : ascending key l → sortBy key Forward l = l.
Proof.
  induction 1 as [|x l Hl IH Hx]; [done|]. cbn. fold (sortBy key Forward l).
  rewrite IH. destruct l as [|y l]; [done|]. cbn.
  apply Forall_cons in Hx as [Hxy _].
  by rewrite (proj2 (Z.leb_le _ _) Hxy).
Qed.


Lemma sortBy_nil order : sortBy key order [] = [].
Proof. by destruct order. Qed.

Lemma sortBy_singleton order x : sortBy key order [x] = [x].
Proof. by destruct order. Qed.

End sorting_facts.

Lemma keepPositions_none keep p s :
  (∀ q, (p ≤ q < p + String.length s)%nat → keep q = false) →
  keepPositions keep p s = "".
Proof.
  revert p. induction s as [|c r IH]; intros p Hk; [done|]. cbn in *.
  rewrite Hk by lia. apply IH. intros q Hq. apply Hk. lia.
Qed.

Lemma keepPositions_substring keep s : ∀ p a n,
  (∀ q, (p ≤ q < p + String.length s)%nat →
        keep q = (p + a <=? q)%nat && (q <? p + a + n)%nat) →
  keepPositions keep p s = String.substring a n s.
Proof.
  induction s as [|c r IH]; intros p a n Hk.
  { by destruct a, n. }
  cbn [keepPositions]. rewrite Hk by (cbn; lia).
  destruct a as [|a].
  - destruct n as [|n].
    + replace ((p + 0 <=? p)%nat && (p <? p + 0 + 0)%nat) with false
        by (symmetry; apply andb_false_iff; right; apply Nat.ltb_ge; lia).
      cbn. apply keepPositions_none. intros q Hq. rewrite Hk by (cbn; lia).
      apply andb_false_iff; right; apply Nat.ltb_ge; lia.
    + replace ((p + 0 <=? p)%nat && (p <? p + 0 + S n)%nat) with true
        by (symmetry; apply andb_true_iff; split; [apply Nat.leb_le|apply Nat.ltb_lt]; lia).
      cbn. f_equal. apply IH. intros q Hq. rewrite Hk by (cbn; lia).
      f_equal; [|f_equal; lia].
      transitivity true; [|symmetry]; apply Nat.leb_le; lia.
  - replace ((p + S a <=? p)%nat && (p <? p + S a + n)%nat) with false
      by (symmetry; apply andb_false_iff; left; apply Nat.leb_gt; lia).
    cbn. apply IH. intros q Hq. rewrite Hk by (cbn; lia).
    f_equal; [f_equal|f_equal]; lia.
Qed.

(** ** Numbers that are integers *)

Lemma Qred_inject_Z z : Qred (inject_Z z) = inject_Z z.
Proof.
  unfold Qred, inject_Z. cbn [Qnum Qden].
  pose proof (Z.ggcd_gcd z 1) as Hg.
  pose proof (Z.ggcd_correct_divisors z 1) as Hd.
  destruct (Z.ggcd z 1) as (g & aa & bb). cbn in Hg. rewrite Z.gcd_1_r in Hg.
  subst g. destruct Hd as [-> Hb]. cbn [snd].
  replace bb with 1 by lia. f_equal. lia.
Qed.

Lemma add_ofZ a b : Js.add (Js.ofZ a) (Js.ofZ b) = Js.ofZ (a + b).
Proof.
  unfold Js.add, Js.ofZ. by rewrite <- inject_Z_plus, Qred_inject_Z.
Qed.

Lemma neg_ofZ a : Js.neg (Js.ofZ a) = Js.ofZ (- a).
Proof. reflexivity. Qed.

Lemma sub_ofZ a b : Js.sub (Js.ofZ a) (Js.ofZ b) = Js.ofZ (a - b).
Proof. unfold Js.sub. by rewrite neg_ofZ, add_ofZ. Qed.

Lemma ltb_ofZ a b : Js.ltb (Js.ofZ a) (Js.ofZ b) = (a <? b).
Proof.
  unfold Js.ltb, Js.ofZ, Qle_bool. cbn. rewrite !Z.mul_1_r.
  rewrite Z.ltb_antisym. done.
Qed.

Lemma eqb_ofZ a b : Js.eqb (Js.ofZ a) (Js.ofZ b) = (a =? b).
Proof. unfold Js.eqb, Js.ofZ, Qeq_bool. cbn. by rewrite !Z.mul_1_r. Qed.

Lemma leb_ofZ a b : Js.leb (Js.ofZ a) (Js.ofZ b) = (a <=? b).
Proof.
  unfold Js.leb. change (Js.ofZ a) with (Js.Finite (inject_Z a)) at 1.
  change (Js.ofZ b) with (Js.Finite (inject_Z b)) at 1.
  cbv iota beta. fold (Js.ofZ a) (Js.ofZ b).
  rewrite ltb_ofZ, eqb_ofZ.
  destruct (Z.ltb_spec a b), (Z.eqb_spec a b), (Z.leb_spec a b); try done; lia.
Qed.

Lemma geb0_ofZ a : Js.geb0 (Js.ofZ a) = (0 <=? a).
Proof. apply leb_ofZ. Qed.

Lemma toIntegerOrInfinity_ofZ a : Js.toIntegerOrInfinity (Js.ofZ a) = Js.BInt a.
Proof. unfold Js.toIntegerOrInfinity, Js.ofZ. cbn. by rewrite Z.quot_1_r. Qed.

Lemma round_Finite q : Js.round (Js.Finite q) = Js.ofZ (Qfloor (q + (1 # 2))).
Proof. reflexivity. Qed.

Lemma round_Infinity b : Js.round (Js.Infinity b) = Js.Infinity b.
Proof. reflexivity. Qed.
Lemma add_Infinity_ofZ b z : Js.add (Js.Infinity b) (Js.ofZ z) = Js.Infinity b.
Proof. reflexivity. Qed.
Lemma add_ofZ_Infinity b z : Js.add (Js.ofZ z) (Js.Infinity b) = Js.Infinity b.
Proof. reflexivity. Qed.
Lemma add_Infinity a b :
  Js.add (Js.Infinity a) (Js.Infinity b) = if Bool.eqb a b then Js.Infinity a else Js.NaN.
Proof. reflexivity. Qed.
Lemma sub_Infinity_ofZ b z : Js.sub (Js.Infinity b) (Js.ofZ z) = Js.Infinity b.
Proof. reflexivity. Qed.
Lemma geb0_Infinity b : Js.geb0 (Js.Infinity b) = negb b.
Proof. by destruct b. Qed.
Lemma geb0_NaN : Js.geb0 Js.NaN = false.
Proof. reflexivity. Qed.
Lemma leb_Infinity_ofZ b z : Js.leb (Js.Infinity b) (Js.ofZ z) = b.
Proof. by destruct b. Qed.
Lemma ltb_ofZ_Infinity b z : Js.ltb (Js.ofZ z) (Js.Infinity b) = negb b.
Proof. reflexivity. Qed.
Lemma ltb_ofZ_NaN z : Js.ltb (Js.ofZ z) Js.NaN = false.
Proof. reflexivity. Qed.
Lemma toIntegerOrInfinity_Infinity b :
  Js.toIntegerOrInfinity (Js.Infinity b) = if b then Js.BNegInf else Js.BPosInf.
Proof. by destruct b. Qed.

Create Rewrite HintDb jsnum.
#[export] Hint Rewrite round_Finite round_Infinity add_ofZ sub_ofZ geb0_ofZ leb_ofZ
  ltb_ofZ toIntegerOrInfinity_ofZ add_Infinity_ofZ add_ofZ_Infinity add_Infinity
  sub_Infinity_ofZ geb0_Infinity geb0_NaN leb_Infinity_ofZ ltb_ofZ_Infinity
  ltb_ofZ_NaN toIntegerOrInfinity_Infinity andb_true_r andb_false_r : jsnum.

(** Decides the comparisons of a goal one by one and leaves the arithmetic
    to [lia]. *)
Ltac norm :=
  repeat progress (autorewrite with jsnum;
                   cbn [andb orb negb Bool.eqb Js.clampBound];
                   cbv beta iota).
Ltac bools :=
  norm;
  repeat (match goal with
          | |- context [(?x <=? ?y)%Z] => destruct (Z.leb_spec x y)
          | |- context [(?x <? ?y)%Z] => destruct (Z.ltb_spec x y)
          | |- context [(?x <=? ?y)%nat] => destruct (Nat.leb_spec x y)
          | |- context [(?x <? ?y)%nat] => destruct (Nat.ltb_spec x y)
          end; norm);
  first [reflexivity | exfalso; lia].

Lemma substringSpec_NaN_start s a len :
  Js.isNaN (Js.round a) = true → substringSpec Js.round s a len = "".
Proof.
  intros Ha. destruct a; try discriminate Ha.
  apply keepPositions_none. intros q _. reflexivity.
Qed.

Lemma substringSpec_NaN_length s a b :
  Js.isNaN (Js.round b) = true → substringSpec Js.round s a (Some b) = "".
Proof.
  intros Hb. destruct b; try discriminate Hb.
  apply keepPositions_none. intros q _. cbn.
  apply andb_false_iff. right. by destruct (Js.round a) as [|[]|].
Qed.

Lemma sliceNumFrom_spec s a :
  Js.isNaN (Js.round a) = false →
  Js.sliceNumFrom s
    (let start := Js.sub (Js.round a) (Js.ofZ 1) in
     if Js.geb0 start then start else Js.ofZ 0)
  = substringSpec Js.round s a None.
Proof.
  intros Ha. destruct a as [|[]|q]; [discriminate Ha|..];
    cbv zeta; unfold Js.sliceNumFrom, substringSpec;
    symmetry; apply keepPositions_substring; intros p Hp; unfold Js.ofNat;
    bools.
Qed.

Lemma sliceNum_spec s a b :
  Js.isNaN (Js.round a) = false →
  Js.isNaN (Js.round b) = false →
  Js.sliceNum s
    (let start := Js.sub (Js.round a) (Js.ofZ 1) in
     if Js.geb0 start then start else Js.ofZ 0)
    (let end_ := Js.add (Js.round b) (Js.sub (Js.round a) (Js.ofZ 1)) in
     if Js.geb0 end_ then end_ else Js.ofZ 0)
  = substringSpec Js.round s a (Some b).
Proof.
  intros Ha Hb.
  destruct a as [|[]|qa]; [discriminate Ha|..];
    (destruct b as [|[]|qb]; [discriminate Hb|..]);
    cbv zeta; unfold Js.sliceNum, substringSpec;
    symmetry; apply keepPositions_substring; intros p Hp; unfold Js.ofNat;
    bools.
Qed.

(** ** [substring] *)

Section substring.
  Context `{Builtins}.

Ltac eval_call :=
  cbn -[Js.round Js.sliceNum Js.sliceNumFrom Js.sub Js.add Js.geb0 Js.isNaN substringSpec];
  unfold mbind, StateM_bind, mret, StateM_ret, visitStringNode, visitNumberNode,
    pushData, popDefined, popData, modify, liftR;
  cbn -[Js.round Js.sliceNum Js.sliceNumFrom Js.sub Js.add Js.geb0 Js.isNaN substringSpec];
  unfold mbind, StateM_bind, mret, StateM_ret, throw;
  cbn -[Js.round Js.sliceNum Js.sliceNumFrom Js.sub Js.add Js.geb0 Js.isNaN substringSpec].

(** C4, amended.  For numbers on which the arithmetic of [substringFn]
  is exact, [substring] of a string and one or two numbers is the XPath
  1.0 substring by positions with [Math.round] for the rounding, which
  takes a tie to the next integer up: positions count from 1, the range is
  cut to the string, and a start or length that is NaN gives the empty
  string. *)
Theorem substring_rounds_half_up (h : Store) (fuel : nat) (st : XPath.t)
    (s : string) (a : Js.number) (len : option Js.number) :
  exactArithmetic a len = true →
  visit h (S (S fuel)) (substringCall s a len) st
    = Ok (tt, pushed (dString (substringSpec Js.round s a len)) st)
  ∧ (Js.isNaN a || match len with Some b => Js.isNaN b | None => false end = true →
     visit h (S (S fuel)) (substringCall s a len) st
       = Ok (tt, pushed (dString "") st)).
Proof.
  intros _.
  assert (Hcall : visit h (S (S fuel)) (substringCall s a len) st
            = Ok (tt, pushed (dString (substringSpec Js.round s a len)) st));
    [|split; [exact Hcall|rewrite Hcall; intros Hn; do 4 f_equal]].
  - destruct len as [b|]; unfold substringCall.
    + eval_call.
      destruct (Js.isNaN (Js.round a)) eqn:Ha.
      { by rewrite substringSpec_NaN_start. }
      cbn -[Js.round Js.sliceNum Js.sub Js.add Js.geb0 Js.isNaN substringSpec].
      destruct (Js.isNaN (Js.round b)) eqn:Hb.
      { by rewrite substringSpec_NaN_length. }
      by rewrite <- sliceNum_spec.
    + eval_call.
      destruct (Js.isNaN (Js.round a)) eqn:Ha.
      { by rewrite substringSpec_NaN_start. }
      by rewrite <- sliceNumFrom_spec.
  - apply orb_true_iff in Hn as [Ha|Hb].
    + apply substringSpec_NaN_start. by destruct a.
    + destruct len as [b|]; [|done].
      apply substringSpec_NaN_length. by destruct b.
Qed.
End substring.

(** ** Walking the tree *)

Lemma foldM_app {A B} (f : B → A → Result B) l1 l2 acc :
  foldM f (l1 ++ l2) acc = foldM f l1 acc ≫= foldM f l2.
Proof.
  revert acc. induction l1 as [|x l1 IH]; intros acc; [done|]. cbn.
  destruct (f acc x); cbn; [apply IH|done..].
Qed.

Section walking.
  Context `{Builtins}.
  Variable h : Store.

Lemma getNode_Ok id n : h !! id = Some n → getNode h id = Ok n.
Proof. intros E. unfold getNode. by rewrite E. Qed.

Lemma treeOk_lookup d id : treeOk h d id = true → is_Some (h !! id).
Proof. destruct d; cbn; destruct (h !! id); eauto; done. Qed.

Lemma treeOk_children d id n c :
  treeOk h d id = true → h !! id = Some n → isParent n = true → c ∈ children n →
  ∃ d', d = S d' ∧ treeOk h d' c = true.
Proof.
  intros Ht Hn Hp Hc. destruct d as [|d']; cbn in Ht; rewrite Hn, Hp in Ht; [done|].
  exists d'. split; [done|]. cbn in Ht.
  rewrite forallb_forall in Ht. apply Ht. by apply list_elem_of_In.
Qed.

Lemma treeOk_mono d d' id : treeOk h d id = true → (d ≤ d')%nat → treeOk h d' id = true.
Proof.
  revert d' id. induction d as [|d IH]; intros d' id Ht Hd.
  - cbn in Ht. destruct (h !! id) eqn:E; [|done]. rewrite orb_false_r in Ht.
    destruct d'; cbn; rewrite E, Ht; done.
  - destruct d' as [|d']; [lia|]. cbn in *. destruct (h !! id); [|done].
    destruct (isParent r); [|done]. cbn in *.
    rewrite forallb_forall in Ht |- *. intros c Hc. apply IH; [by apply Ht|lia].
Qed.

Lemma childrenOf_parent id n :
  h !! id = Some n → isParent n = true → childrenOf h id = children n.
Proof. intros Hn Hp. unfold childrenOf. by rewrite Hn, Hp. Qed.

Lemma childrenOf_leaf id n :
  h !! id = Some n → isParent n = false → childrenOf h id = [].
Proof. intros Hn Hp. unfold childrenOf. by rewrite Hn, Hp. Qed.

Lemma descendants_leaf d id n :
  h !! id = Some n → isParent n = false → descendants h d id = [].
Proof. intros Hn Hp. destruct d; [done|]. cbn. by rewrite (childrenOf_leaf id n). Qed.

Lemma addIfPassing_decides test t acc c n :
  decides test t → h !! c = Some n →
  addIfPassing h test acc c = Ok (if t n then setAdd c acc else acc).
Proof.
  intros Ht Hc. unfold addIfPassing. rewrite (getNode_Ok c n) by done. cbn.
  by rewrite Ht.
Qed.

Lemma filter_passes_cons t c n l :
  h !! c = Some n →
  filter (λ x, passes h t x) (c :: l)
  = (if t n then [c] else []) ++ filter (λ x, passes h t x) l.
Proof.
  intros Hc. assert (E : passes h t c = t n) by (unfold passes; by rewrite Hc).
  rewrite filter_cons. destruct (decide (passes h t c)) as [Hd|Hd];
    rewrite E in Hd; by destruct (t n).
Qed.

(** [findDescendants] adds the descendants that pass the test, in the
    order of the walk. *)
Lemma findDescendants_spec test t d : ∀ fuel id n acc,
  decides test t →
  h !! id = Some n → treeOk h d id = true → (d < fuel)%nat →
  findDescendants h fuel n test acc
  = Ok (setAddAll acc (filter (λ x, passes h t x) (descendants h d id))).
Proof.
  induction d as [|d IH]; intros fuel id n acc Ht Hn Hok Hd;
    (destruct fuel as [|fuel]; [lia|]); cbn [findDescendants].
  - cbn in Hok. rewrite Hn, orb_false_r in Hok. by rewrite Hok.
  - destruct (isParent n) eqn:Hp; cbn [negb].
    2:{ by rewrite (descendants_leaf _ id n). }
    cbn [descendants]. rewrite (childrenOf_parent id n) by done.
    assert (Hkids : ∀ c, c ∈ children n → treeOk h d c = true).
    { intros c Hc. destruct (treeOk_children _ _ _ _ Hok Hn Hp Hc) as (d' & [= <-] & ?).
      done. }
    clear Hok Hn. revert acc. induction (children n) as [|c cs IHc]; intros acc; [done|].
    cbn [foldM flat_map].
    assert (Hc : treeOk h d c = true) by (apply Hkids; left).
    destruct (treeOk_lookup _ _ Hc) as [cn Hcn].
    rewrite (addIfPassing_decides test t acc c cn) by done. cbn [mbind Result_bind].
    rewrite (getNode_Ok c cn) by done. cbn [mbind Result_bind].
    rewrite <- app_comm_cons, (filter_passes_cons t c cn), filter_app by done.
    rewrite !setAddAll_app.
    assert (Hfirst : setAddAll acc (if t cn then [c] else [])
                     = if t cn then setAdd c acc else acc) by by destruct (t cn).
    rewrite Hfirst.
    destruct (isParent cn) eqn:Hpc.
    + rewrite (IH fuel c cn) by (done || lia). cbn [mbind Result_bind].
      apply IHc. intros c' Hc'. apply Hkids. by right.
    + rewrite (descendants_leaf _ c cn) by done. cbn [mbind Result_bind].
      rewrite filter_nil. cbn [setAddAll fold_left].
      apply IHc. intros c' Hc'. apply Hkids. by right.
Qed.

(** [traverseAllLinear] adds the children that pass the test. *)
Lemma addPassing_spec test t ids acc :
  decides test t → Forall (λ c, is_Some (h !! c)) ids →
  addPassing h test ids acc = Ok (setAddAll acc (filter (λ x, passes h t x) ids)).
Proof.
  intros Ht. unfold addPassing. revert acc.
  induction ids as [|c cs IH]; intros acc Hall; [done|].
  apply Forall_cons in Hall as [[cn Hcn] Hall]. cbn [foldM].
  rewrite (addIfPassing_decides test t acc c cn) by done. cbn [mbind Result_bind].
  rewrite IH by done. rewrite (filter_passes_cons t c cn) by done.
  rewrite setAddAll_app. by destruct (t cn).
Qed.

Lemma traverseAllLinear_spec test t id n acc :
  decides test t → h !! id = Some n →
  Forall (λ c, is_Some (h !! c)) (childrenOf h id) →
  traverseAllLinear h n test acc
  = Ok (setAddAll acc (filter (λ x, passes h t x) (childrenOf h id))).
Proof.
  intros Ht Hn Hall. unfold traverseAllLinear. unfold childrenOf in *. rewrite Hn in *.
  destruct (isParent n); [by apply addPassing_spec|done].
Qed.
End walking.

Section tree_facts.
  Variable h : Store.

Lemma elem_of_flat_map {A B} (f : A → list B) l y :
  y ∈ flat_map f l ↔ ∃ x, x ∈ l ∧ y ∈ f x.
Proof.
  rewrite list_elem_of_In, in_flat_map. setoid_rewrite list_elem_of_In. done.
Qed.

Lemma childrenOf_treeOk d id c :
  treeOk h (S d) id = true → c ∈ childrenOf h id → treeOk h d c = true.
Proof.
  intros Ht Hc. unfold childrenOf in Hc.
  destruct (h !! id) as [n|] eqn:Hn; [|by apply elem_of_nil in Hc].
  destruct (isParent n) eqn:Hp; [|by apply elem_of_nil in Hc].
  destruct (treeOk_children h _ _ _ _ Ht Hn Hp Hc) as (d' & [= <-] & ?). done.
Qed.

Lemma childrenOf_treeOk_0 id : treeOk h 0 id = true → childrenOf h id = [].
Proof.
  intros Ht. cbn in Ht. unfold childrenOf. destruct (h !! id); [|done].
  rewrite orb_false_r in Ht. by destruct (isParent r).
Qed.

Lemma descendants_treeOk d id x :
  treeOk h d id = true → x ∈ descendants h d id → treeOk h d x = true.
Proof.
  revert id. induction d as [|d IH]; intros id Ht Hx; [by apply elem_of_nil in Hx|].
  cbn in Hx. apply elem_of_flat_map in Hx as (c & Hc & Hx).
  pose proof (childrenOf_treeOk _ _ _ Ht Hc) as Hcok.
  apply elem_of_cons in Hx as [->|Hx].
  - apply (treeOk_mono h d); [done|lia].
  - apply (treeOk_mono h d); [by apply (IH c)|lia].
Qed.


Lemma treeOk_childrenOf_lookup d id :
  treeOk h d id = true → Forall (λ c, is_Some (h !! c)) (childrenOf h id).
Proof.
  intros Ht. apply Forall_forall. intros c Hc. destruct d as [|d].
  - rewrite childrenOf_treeOk_0 in Hc by done. by apply elem_of_nil in Hc.
  - eapply treeOk_lookup, childrenOf_treeOk; done.
Qed.

Lemma flat_map_ext_elem {A B} (f g : A → list B) l :
  (∀ x, x ∈ l → f x = g x) → flat_map f l = flat_map g l.
Proof.
  induction l as [|x l IH]; intros Hfg; [done|]. cbn.
  rewrite Hfg by left. rewrite IH; [done|]. intros y Hy. apply Hfg. by right.
Qed.

(** Below the depth of the tree there is nothing more. *)
Lemma descendants_stable d id :
  treeOk h d id = true → descendants h (S d) id = descendants h d id.
Proof.
  revert id. induction d as [|d IH]; intros id Ht.
  - cbn. by rewrite childrenOf_treeOk_0.
  - change (flat_map (λ c, c :: descendants h (S d) c) (childrenOf h id)
            = flat_map (λ c, c :: descendants h d c) (childrenOf h id)).
    apply flat_map_ext_elem. intros c Hc. f_equal. apply IH.
    by eapply childrenOf_treeOk.
Qed.

Lemma flat_map_cons_Permutation {A} (f : A → list A) l :
  flat_map (λ c, c :: f c) l ≡ₚ l ++ flat_map f l.
Proof.
  induction l as [|x l IH]; [done|]. cbn. rewrite IH.
  constructor. rewrite !app_assoc. apply Permutation_app_tail, Permutation_app_comm.
Qed.

Lemma flat_map_Permutation_ext {A B} (f g : A → list B) l :
  (∀ x, f x ≡ₚ g x) → flat_map f l ≡ₚ flat_map g l.
Proof.
  intros Hfg. induction l as [|x l IH]; [done|]. cbn. by rewrite Hfg, IH.
Qed.

Lemma flat_map_flat_map {A B C} (f : A → list B) (g : B → list C) l :
  flat_map g (flat_map f l) = flat_map (λ x, flat_map g (f x)) l.
Proof.
  induction l as [|x l IH]; [done|]. cbn. by rewrite flat_map_app, IH.
Qed.

Lemma children_of_descendants d id :
  flat_map (childrenOf h) (descendants h d id)
  ≡ₚ flat_map (descendants h d) (childrenOf h id).
Proof.
  revert id. induction d as [|d IH]; intros id.
  - cbn. by induction (childrenOf h id).
  - cbn [descendants]. rewrite flat_map_flat_map.
    apply flat_map_Permutation_ext. intros c. cbn [flat_map].
    rewrite IH. symmetry. apply flat_map_cons_Permutation.
Qed.

(** The children of the nodes of a tree are its nodes other than the root. *)
Lemma children_of_treeNodes d root :
  treeOk h d root = true →
  flat_map (childrenOf h) (treeNodes h d root) ≡ₚ descendants h d root.
Proof.
  intros Ht. unfold treeNodes. cbn [flat_map]. rewrite children_of_descendants.
  rewrite <- (descendants_stable d root) by done. cbn [descendants].
  symmetry. apply flat_map_cons_Permutation.
Qed.
End tree_facts.

(** ** The steps of the examples *)

Section steps.
  Variable h : Store.

Lemma decides_kindTest_node : decides (kindTest nodeKindTest) (λ _, true).
Proof. intros n. reflexivity. Qed.



Lemma decides_wildcard fuel :
  decides (elementNameTest h fuel wildcardTest) isElement.
Proof. intros n. unfold elementNameTest. by destruct (isElement n). Qed.

Lemma filter_passes_true l :
  Forall (λ c, is_Some (h !! c)) l → filter (λ x, passes h (λ _, true) x) l = l.
Proof.
  induction 1 as [|c l [n Hn] Hl IH]; [done|].
  by rewrite (filter_passes_cons h _ c n), IH.
Qed.

Lemma omap_ext_elem {A B} (f g : A → option B) (l : list A) :
  (∀ x, x ∈ l → f x = g x) → omap f l = omap g l.
Proof.
  induction l as [|x l IH]; intros Hfg; [done|]. cbn.
  rewrite Hfg by left. rewrite IH; [done|]. intros y Hy. apply Hfg. by right.
Qed.

Lemma addNodeset_nonEmpty ns arr :
  addNodeset ns arr = arr ++ option_list (nonEmpty ns).
Proof. destruct ns; cbn; by rewrite ?app_nil_r. Qed.

Lemma forEachItemIf_acc f (g : NodeId → option XNodeSet) D acc :
  (∀ p, p ∈ D → ∃ n, h !! p = Some n ∧ f p n = Ok (g p)) →
  foldM (λ arr item,
           n ← getNode h item;
           r ← f item n;
           Ok (match r with Some ns => addNodeset ns arr | None => arr end))
        D acc
  = Ok (acc ++ omap (λ p, g p ≫= nonEmpty) D).
Proof.
  revert acc. induction D as [|p D IH]; intros acc HD.
  - by rewrite app_nil_r.
  - destruct (HD p) as (n & Hn & Hf); [by left|].
    cbn [foldM]. rewrite (getNode_Ok h p n) by done. cbn [mbind Result_bind].
    rewrite Hf. cbn [mbind Result_bind].
    rewrite IH by (intros q Hq; apply HD; by right).
    f_equal. cbn -[addNodeset]. destruct (g p) as [ns|]; cbn -[addNodeset].
    + rewrite addNodeset_nonEmpty. destruct (nonEmpty ns); cbn.
      * by rewrite <- app_assoc.
      * by rewrite app_nil_r.
    + done.
Qed.

Lemma forEachItemIf_spec f (g : NodeId → option XNodeSet) D :
  (∀ p, p ∈ D → ∃ n, h !! p = Some n ∧ f p n = Ok (g p)) →
  forEachItemIf h D f = Ok (omap (λ p, g p ≫= nonEmpty) D).
Proof. intros HD. unfold forEachItemIf. by rewrite (forEachItemIf_acc f g). Qed.

(** The first step of [//]: the root and everything below it. *)
Lemma step_descendantOrSelf d fuel node root :
  treeOk h d root = true → (d < fuel)%nat →
  PathState_step h [] node root fuel PathSpec.Single StepSpec.Nil
    (Some Axis.DescendantOrSelf)
    (Some (mkNodeTestNode nodeKindTest Axis.DescendantOrSelf))
  = Ok [setAddAll [root] (descendants h d root)].
Proof.
  intros Ht Hd. cbn. unfold s1DescendantOrSelfKindTest. cbn [isEmpty].
  destruct (treeOk_lookup h _ _ Ht) as [rn Hrn].
  rewrite (getNode_Ok h root rn) by done. cbn [mbind Result_bind isKindTestPassed nodeKindTest].
  rewrite (findDescendants_spec h _ (λ _, true) d fuel root rn)
    by (done || apply decides_kindTest_node).
  cbn [mbind Result_bind]. rewrite filter_passes_true.
  2:{ apply Forall_forall. intros x Hx. eapply treeOk_lookup, descendants_treeOk; done. }
  unfold single. rewrite addNodeset_nonEmpty.
  destruct (setAddAll [root] (descendants h d root)) eqn:E; [|done].
  assert (root ∈ setAddAll [root] (descendants h d root)) as Hr
    by (apply elem_of_setAddAll; left; by left).
  rewrite E in Hr. by apply elem_of_nil in Hr.
Qed.

(** The first step [/descendant::] with a name test. *)
Lemma step_descendant_test d fuel node root nt t :
  decides (elementNameTest h fuel nt) t →
  (match nt with NameTest _ _ => True | _ => False end) →
  treeOk h d root = true → (d < fuel)%nat →
  PathState_step h [] node root fuel PathSpec.Single StepSpec.Nil
    (Some Axis.Descendant) (Some (mkNodeTestNode nt Axis.Descendant))
  = Ok (single (setOfList (filter (λ x, passes h t x) (descendants h d root)))).
Proof.
  intros Ht Hnt Hok Hd. destruct nt as [tt name|]; [|done].
  cbn -[findDescendants]. unfold s1DescendantNameTest, s1Descendant. cbn [isEmpty].
  destruct (treeOk_lookup h _ _ Hok) as [rn Hrn].
  rewrite (getNode_Ok h root rn) by done. cbn [mbind Result_bind].
  by rewrite (findDescendants_spec h _ t d fuel root rn).
Qed.

(** The child step with a name test, from a non-empty node set. *)
Lemma step_child_test fuel node root nt t D d :
  decides (elementNameTest h fuel nt) t →
  D ≠ [] →
  (∀ p, p ∈ D → treeOk h d p = true) →
  (match nt with NameTest _ _ => True | _ => False end) →
  PathState_step h D node root fuel PathSpec.Single StepSpec.Nil (Some Axis.Child)
    (Some (mkNodeTestNode nt Axis.Child))
  = Ok (omap (λ p, nonEmpty (setOfList (filter (λ x, passes h t x) (childrenOf h p)))) D).
Proof.
  intros Ht HD Hok Hnt. destruct nt as [tt name|]; [|done]. cbn.
  unfold s1ChildNameTest. destruct D as [|p0 D0] eqn:ED; [done|]. cbn [isEmpty].
  rewrite <- ED in *. clear ED HD p0 D0.
  rewrite (forEachItemIf_spec _
             (λ p, match h !! p with
                   | Some n => if isParent n
                               then Some (setOfList (filter (λ x, passes h t x) (childrenOf h p)))
                               else None
                   | None => None
                   end)).
  - f_equal. apply omap_ext_elem. intros p Hp.
    destruct (treeOk_lookup h _ _ (Hok p Hp)) as [n Hn]. rewrite Hn.
    destruct (isParent n) eqn:Hpar; [done|]. cbn.
    by rewrite (childrenOf_leaf h p n).
  - intros p Hp. destruct (treeOk_lookup h _ _ (Hok p Hp)) as [n Hn].
    exists n. split; [done|]. rewrite Hn. destruct (isParent n); [|done].
    rewrite (traverseAllLinear_spec h _ t p n) by
      (done || eapply treeOk_childrenOf_lookup, Hok, Hp).
    done.
Qed.
End steps.

Ltac unmonad :=
  unfold mbind, StateM_bind, mret, StateM_ret, pushData, popDefined, popData,
    modify, liftR, getCtx, gets, asNodeset, throw, pushContext, popContext,
    evalError.
Ltac keep_cbn :=
  cbn -[PathState_step sortNodeset setAddAll setOfList reorderNodesetArray
        filterPartitions filterPartition descendants childrenOf Js.eqb treeOk
        visit Z.ltb Nat.eqb].
Ltac run := repeat progress (unmonad; keep_cbn).
Ltac tidy :=
  repeat match goal with
    | |- context [visitBody ?h (visit ?h ?f) ?f] =>
        change (visitBody h (visit h f) f) with (visit h (S f))
    | |- context [λ nd, visit ?h ?f nd] =>
        change (λ nd, visit h f nd) with (visit h f)
    end;
  unfold XDataEval_isNodeset;
  cbv [XPath.set_dataStack XPath.set_ctxStack XPath.root XPath.ctxStack
       XPath.dataStack cType value nodesetArray dNodeset];
  rewrite ?bool_decide_eq_true_2 by done;
  cbv beta iota; cbn [negb].

Section eval.
  Context `{Builtins}.
  Variable h : Store.

Lemma visit_step f path step axis nt preds pos r c cs ns ds arr :
  (0 <? pos) && (List.length ns =? 0)%nat = false →
  PathState_step h ns (ctxNode c) r f path step axis nt = Ok arr →
  visit h (S f) (StepNode path step axis nt preds pos)
    (XPath.mk r (c :: cs) (dNodeset ns :: ds))
  = visitAll (visit h f) preds
      (XPath.mk r (c :: cs)
         (match preds with
          | [] => dNodeset (sortNodeset h (concat arr))
          | _ => mkData XNodeset VNull (Some arr)
          end :: ds)).
Proof.
  intros Hpos Hstep. cbn [visit visitBody]. unfold visitStepNode.
  run. destruct (0 <? pos); cbn [andb] in Hpos; run; rewrite ?Hpos; run;
    rewrite Hstep; destruct preds; reflexivity.
Qed.

Lemma visit_path2 f p1 t1 a1 n1 pr1 q1 p2 t2 a2 n2 pr2 q2 r cs ds :
  visit h (S f) (PathNode [StepNode p1 t1 a1 n1 pr1 q1; StepNode p2 t2 a2 n2 pr2 q2])
    (XPath.mk r cs ds)
  = (visit h f (StepNode p1 t1 a1 n1 pr1 0);;
     visit h f (StepNode p2 t2 a2 n2 pr2 1))
      (XPath.mk r cs (dNodeset [] :: ds)).
Proof.
  cbn [visit visitBody]. unfold visitPathNode. run.
  cbv [XPath.set_dataStack XPath.root XPath.ctxStack XPath.dataStack Z.of_nat
       Pos.of_succ_nat].
  destruct (visit h f _ _) as [[[] st1]| |]; [|done..].
  by destruct (visit h f _ _) as [[[] ?]| |].
Qed.

Lemma visit_path1 f p1 t1 a1 n1 pr1 q1 r cs ds :
  visit h (S f) (PathNode [StepNode p1 t1 a1 n1 pr1 q1]) (XPath.mk r cs ds)
  = visit h f (StepNode p1 t1 a1 n1 pr1 0) (XPath.mk r cs (dNodeset [] :: ds)).
Proof.
  cbn [visit visitBody]. unfold visitPathNode. run.
  cbv [XPath.set_dataStack XPath.root XPath.ctxStack XPath.dataStack Z.of_nat].
  by destruct (visit h f _ _) as [[[] ?]| |].
Qed.

Lemma visit_number f v st :
  visit h (S f) (NumberNode v) st = pushData (dNumber v) st.
Proof. reflexivity. Qed.




End eval.

(** ** Lists of partitions *)

Section partitions.
  Context {A : Type}.
  Implicit Types (l : list nat) (f : nat → list A).

Lemma concat_omap_nonEmpty f l :
  concat (omap (λ p, nonEmpty (f p)) l) = flat_map f l.
Proof.
  induction l as [|p l IH]; [done|]. cbn. destruct (f p) eqn:E; cbn; by rewrite IH.
Qed.




End partitions.

(** ** Predicates over partitions *)

Section laws.
  Context `{Builtins}.
  Variable h : Store.














Lemma query_value fuel ast data root :
  visit h fuel ast (XPath.mk root [mkContext 1 1 root] [])
  = Ok (tt, XPath.mk root [mkContext 1 1 root] [data]) →
  valueOf (query h fuel ast (newXPath root)) = Ok (value data).
Proof.
  intros Hv. unfold query, newXPath. run. tidy.
  rewrite Hv. reflexivity.
Qed.


End laws.

(** ** The element-count law *)

Section count_law.
  Context `{Builtins}.
  Variable h : Store.

Lemma visit_count f arg ns r cs ds :
  visit h f arg (XPath.mk r cs ds) = Ok (tt, XPath.mk r cs (dNodeset ns :: ds)) →
  visit h (S f) (CallNode "count" [arg]) (XPath.mk r cs ds)
  = Ok (tt, XPath.mk r cs (dNumber (Js.ofNat (List.length ns)) :: ds)).
Proof.
  intros Hv. cbn [visit visitBody visitCallNode]. unfold callFunction. cbn.
  unfold countFn, visitArg. cbn [lookup list_lookup].
  unfold mbind at 1, StateM_bind at 1. unfold mret at 1, StateM_ret at 1.
  unfold mbind at 1, StateM_bind at 1. rewrite Hv.
  run. tidy. reflexivity.
Qed.

Lemma elem_of_sortNodeset x l : x ∈ sortNodeset h l ↔ x ∈ l.
Proof. unfold sortNodeset. by rewrite elem_of_setOfList, sortBy_Permutation. Qed.

Lemma NoDup_sortNodeset l : NoDup (sortNodeset h l).
Proof. apply NoDup_setOfList. Qed.

Lemma concat_single ns : concat (single ns) = ns.
Proof. destruct ns; cbn; by rewrite ?app_nil_r. Qed.

(** C3, amended.  In a store that holds a tree below [root], with fuel for
  it, [count] of [//] with the wildcard test and [count] of
  [/descendant::] with the wildcard test return the same number: that of
  the elements below the root node, the root element among them. *)
Theorem element_counts_agree (d fuel : nat) (root : NodeId) :
  treeOk h d root = true →
  (d + 4 ≤ fuel)%nat →
  valueOf (query h fuel countAllElements (newXPath root))
  = Ok (VNumber (Js.ofNat (List.length (elementsBelow h d root))))
  ∧ valueOf (query h fuel countDescendantElements (newXPath root))
    = Ok (VNumber (Js.ofNat (List.length (elementsBelow h d root)))).
Proof.
  intros Hok Hfuel. destruct fuel as [|[|[|[|f]]]]; try lia.
  split.
  - apply (query_value _ _ _ (dNumber (Js.ofNat (List.length (elementsBelow h d root))))).
    unfold countAllElements, singleStepPath, axisStep. cbn [transformStepNode map].
    erewrite visit_count.
    2:{ rewrite visit_path2. unfold mbind at 1, StateM_bind at 1.
        erewrite visit_step; [|reflexivity|apply (step_descendantOrSelf h d); [done|lia]].
        cbn [visitAll]. unfold mret at 1, StateM_ret at 1.
        erewrite visit_step; [reflexivity| |].
        - apply andb_false_iff. right. apply Nat.eqb_neq. intros E.
          apply length_zero_iff_nil in E.
          assert (root ∈ sortNodeset h (concat [setAddAll [root] (descendants h d root)])) as Hr.
          { apply elem_of_sortNodeset. cbn [concat]. rewrite app_nil_r.
            apply elem_of_setAddAll. left. by left. }
          rewrite E in Hr. by apply elem_of_nil in Hr.
        - apply (step_child_test h _ _ _ wildcardTest _ _ d (decides_wildcard h _)); [|..|done].
          + intros E.
            assert (root ∈ sortNodeset h (concat [setAddAll [root] (descendants h d root)])) as Hr.
            { apply elem_of_sortNodeset. cbn [concat]. rewrite app_nil_r.
              apply elem_of_setAddAll. left. by left. }
            rewrite E in Hr. by apply elem_of_nil in Hr.
          + intros p Hp. rewrite elem_of_sortNodeset in Hp. cbn [concat] in Hp.
            rewrite app_nil_r in Hp. apply elem_of_setAddAll in Hp as [Hp|Hp].
            * apply list_elem_of_singleton in Hp as ->. done.
            * by apply (descendants_treeOk h d root). }
    match goal with
    | |- context [Js.ofNat (List.length ?A)] =>
        replace (List.length A) with (List.length (elementsBelow h d root));
        [reflexivity|symmetry]
    end.
    apply Permutation_length, NoDup_Permutation;
      [apply NoDup_sortNodeset|apply NoDup_setOfList|].
    intros x. rewrite elem_of_sortNodeset, concat_omap_nonEmpty. split.
    + intros Hx. apply elem_of_flat_map in Hx as (p & Hp & Hx).
      rewrite elem_of_setOfList in Hx. apply list_elem_of_filter in Hx as [He Hc].
      rewrite elem_of_sortNodeset in Hp. cbn [concat] in Hp.
      rewrite app_nil_r, elem_of_setAddAll in Hp.
      unfold elementsBelow. rewrite elem_of_setOfList. apply list_elem_of_filter.
      split; [done|]. rewrite <- (children_of_treeNodes h d root Hok).
      apply elem_of_flat_map. exists p. split; [|done]. unfold treeNodes.
      destruct Hp as [Hp%list_elem_of_singleton|Hp]; [subst; by left|by right].
    + intros Hx. unfold elementsBelow in Hx. rewrite elem_of_setOfList in Hx.
      apply list_elem_of_filter in Hx as [He Hx].
      rewrite <- (children_of_treeNodes h d root Hok) in Hx.
      apply elem_of_flat_map in Hx as (p & Hp & Hc).
      apply elem_of_flat_map. exists p. split.
      * rewrite elem_of_sortNodeset. cbn [concat].
        rewrite app_nil_r, elem_of_setAddAll. unfold treeNodes in Hp.
        apply elem_of_cons in Hp as [->|Hp]; [left; by left|by right].
      * rewrite elem_of_setOfList. by apply list_elem_of_filter.
  - apply (query_value _ _ _ (dNumber (Js.ofNat (List.length (elementsBelow h d root))))).
    unfold countDescendantElements, singleStepPath, axisStep. cbn [transformStepNode map].
    destruct (treeOk_lookup h _ _ Hok) as [rn Hrn].
    erewrite visit_count.
    2:{ rewrite visit_path1. erewrite visit_step; [reflexivity|reflexivity|].
        apply (step_descendant_test h d _ _ _ wildcardTest isElement);
          [apply decides_wildcard|done|done|lia]. }
    match goal with
    | |- context [Js.ofNat (List.length ?A)] =>
        replace (List.length A) with (List.length (elementsBelow h d root));
        [reflexivity|symmetry]
    end.
    rewrite concat_single.
    apply Permutation_length, NoDup_Permutation;
      [apply NoDup_sortNodeset|apply NoDup_setOfList|].
    intros x. rewrite elem_of_sortNodeset. reflexivity.
Qed.
End count_law.

(** ** Attributes with the same expanded name *)

Section unique.
  Context {L : Type}.
  Import XmlParser.

Lemma readNode_Ok id n (st : XmlParser.t L) :
  heap st !! id = Some n → readNode id st = Ok (n, st).
Proof. intros E. unfold readNode. by rewrite E. Qed.
Lemma expandedPair_intro (st : XmlParser.t L) attr a ns n :
  heap st !! attr = Some a →
  NamespaceScopeTable.lookup
    (RName.pname (default (RName.mk "" "" "") (nodeName a))) (currentScope st) = Some ns →
  heap st !! ns = Some n →
  expandedPair st attr
  = Some (Js.trim (uriOf n), RName.lname (default (RName.mk "" "" "") (nodeName a))).
Proof.
  intros Ha Hns Hn. unfold expandedPair. rewrite Ha. cbn. rewrite Hns. cbn.
  by rewrite Hn.
Qed.

Lemma lookup_update_fmap {A} (g : RNode → A) f id (h : Store) k :
  (∀ n, g (f n) = g n) → g <$> update id f h !! k = g <$> h !! k.
Proof.
  intros Hg. unfold update. destruct (decide (k = id)) as [->|Hne].
  - rewrite list_lookup_alter_eq. destruct (h !! id); cbn; [by rewrite Hg|done].
  - by rewrite list_lookup_alter_ne.
Qed.

Lemma uriOf_updAttribute f n : uriOf (updAttribute f n) = uriOf n.
Proof. destruct n as [? ? ? []]; reflexivity. Qed.
Lemma uriOf_updElement f n : uriOf (updElement f n) = uriOf n.
Proof. destruct n as [? ? ? []]; reflexivity. Qed.
Lemma nodeName_set_namespace ns n :
  nodeName (updAttribute (AttributeNode.set_namespace ns) n) = nodeName n.
Proof.
  destruct n as [? ? ? []]; reflexivity.
Qed.
Lemma nodeName_bind_element ns n :
  nodeName (updElement (λ x, ElementNode.set_isNamespaced true
                               (ElementNode.set_namespace ns x)) n) = nodeName n.
Proof.
  destruct n as [? ? ? []]; try reflexivity.
  match goal with x : ElementNode.t |- _ => by destruct x end.
Qed.

Lemma sameNames_expandedPair (st st' : XmlParser.t L) a :
  sameNames st st' → expandedPair st' a = expandedPair st a.
Proof.
  intros (_ & Hs & _ & Hh). unfold expandedPair. rewrite Hs.
  pose proof (Hh a) as Ha.
  destruct (heap st' !! a) as [x'|], (heap st !! a) as [x|]; try done.
  cbn in *. injection Ha as Hn Hu. rewrite Hn.
  destruct (NamespaceScopeTable.lookup _ _) as [ns|]; [|done]. cbn.
  pose proof (Hh ns) as Hns.
  destruct (heap st' !! ns) as [y'|], (heap st !! ns) as [y|]; try done.
  cbn in *. injection Hns as _ ->. done.
Qed.

Lemma sameNames_is_Some (st st' : XmlParser.t L) k :
  sameNames st st' → is_Some (heap st !! k) → is_Some (heap st' !! k).
Proof.
  intros (_ & _ & _ & Hh) [x Hx]. specialize (Hh k). rewrite Hx in Hh.
  destruct (heap st' !! k); [eauto|done].
Qed.

Lemma resolveAttributes_rejects attrs token (st : XmlParser.t L) :
  ensureUniqueNamespacedAttributes (config st) = true →
  allowMissingNamespaces (config st) = false
    ∨ Forall (λ a, is_Some (expandedPair st a)) attrs →
  Forall (λ a, is_Some (heap st !! a)) attrs →
  scopeOk st →
  ((∃ a e, a ∈ attrs ∧ nameKey st a = Some e ∧ e ∈ uniqueNames st) ∨
   (∃ i j a b e, (i < j)%nat ∧ attrs !! i = Some a ∧ attrs !! j = Some b ∧
                 nameKey st a = Some e ∧ nameKey st b = Some e)) →
  ∃ msg, resolveAttributes attrs token st = Err (ParseError msg).
Proof.
  revert st. induction attrs as [|attr rest IH]; intros st Hu Hm Hall Hsc Hdup.
  { destruct Hdup as [(a & e & Ha & _)|(i & j & a & b & e & _ & Ha & _)].
    - by apply elem_of_nil in Ha.
    - done. }
  apply Forall_cons in Hall as [[a0 Ha0] Hall].
  cbn [resolveAttributes].
  rewrite (bind_Ok _ _ st a0 st) by (by apply readNode_Ok).
  rewrite !bind_gets.
  destruct (NamespaceScopeTable.lookup _ _) as [ns|] eqn:Hns.
  2:{ destruct Hm as [Hm|Hb]; [rewrite Hm; cbn; eauto|].
      apply Forall_cons in Hb as [[e He] _]. unfold expandedPair in He.
      rewrite Ha0 in He. cbn in He. by rewrite Hns in He. }
  unfold updNode at 1. rewrite bind_modify.
  set (st1 := set_heap _ st).
  assert (S1 : sameNames st st1).
  { split; [done|]. split; [done|]. split; [done|]. intros k. subst st1. cbn.
    apply lookup_update_fmap. intros n.
    by rewrite nodeName_set_namespace, uriOf_updAttribute. }
  replace (config st1) with (config st) by done. rewrite Hu.
  destruct (Hsc _ _ Hns) as [n0 Hn0].
  assert (is_Some (heap st1 !! ns)) as [n1 Hn1] by (eapply sameNames_is_Some; eauto).
  rewrite bind_assoc.
  rewrite (bind_Ok _ _ st1 n1 st1) by (by apply readNode_Ok).
  cbv zeta. rewrite bind_assoc, bind_gets.
  assert (Hu1 : uriOf n1 = uriOf n0).
  { destruct S1 as (_ & _ & _ & Hh). specialize (Hh ns). rewrite Hn0, Hn1 in Hh.
    cbn in Hh. by injection Hh as _ ->. }
  assert (Hkey : nameKey st attr = Some (expandedNameOf (uriOf n1)
            (RName.lname (default (RName.mk "" "" "") (nodeName a0))))).
  { unfold nameKey. rewrite (expandedPair_intro st attr a0 ns n0) by done.
    by rewrite Hu1. }
  fold (uriOf n1).
  set (e0 := expandedNameOf _ _) in *.
  destruct (bool_decide (e0 ∈ uniqueNames st1)) eqn:Hin.
  { cbn. eauto. }
  apply bool_decide_eq_false in Hin.
  rewrite bind_modify.
  set (st2 := set_uniqueNames _ st1).
  assert (S2 : sameNames st st2).
  { destruct S1 as (? & ? & ? & ?). split; [done|]. split; [done|]. split; done. }
  apply IH.
  - done.
  - destruct Hm as [Hm|Hb]; [by left|right].
    apply Forall_cons in Hb as [_ Hb]. eapply Forall_impl; [exact Hb|].
    intros k. cbn. by rewrite (sameNames_expandedPair st st2).
  - eapply Forall_impl; [exact Hall|]. intros k. by apply sameNames_is_Some.
  - intros key k Hk. eapply sameNames_is_Some; [done|]. by apply (Hsc key).
  - assert (Hk : ∀ a, nameKey st2 a = nameKey st a).
    { intros a. unfold nameKey. by rewrite (sameNames_expandedPair st st2). }
    destruct Hdup as [(a & e & Ha & He & Hin')|(i & j & a & b & e & Hij & Hi & Hj & Hea & Heb)].
    + apply elem_of_cons in Ha as [->|Ha].
      * rewrite Hkey in He. injection He as <-. done.
      * left. exists a, e. rewrite Hk. split; [done|]. split; [done|].
        subst st2. cbn. apply elem_of_app. by left.
    + destruct i as [|i].
      * cbn in Hi. injection Hi as <-. rewrite Hkey in Hea. injection Hea as <-.
        destruct j as [|j]; [lia|]. cbn in Hj.
        left. exists b, e0. rewrite Hk. split; [by eapply list_elem_of_lookup_2|].
        split; [done|]. subst st2. cbn. apply elem_of_app. right. by apply list_elem_of_singleton.
      * destruct j as [|j]; [lia|]. cbn in Hi, Hj.
        right. exists i, j, a, b, e. rewrite !Hk. repeat split; try done. lia.
Qed.

Lemma sameNames_refl (st : XmlParser.t L) : sameNames st st.
Proof. done. Qed.

Lemma sameNames_bind_element elem ns (st : XmlParser.t L) :
  sameNames st
    (set_heap (update elem (updElement (λ x, ElementNode.set_isNamespaced true
                               (ElementNode.set_namespace ns x))) (heap st)) st).
Proof.
  split; [done|]. split; [done|]. split; [done|]. intros k. cbn.
  apply lookup_update_fmap. intros n.
  by rewrite nodeName_bind_element, uriOf_updElement.
Qed.

(** X30.  With [ensureUniqueNamespacedAttributes] on, [resolveNamespaces]
  of the XML parser throws a ParseError when two of the namespaced
  attributes of the element have the same expanded name, the URI their
  prefix is bound to and their local name, whatever their prefixes,
  provided that [allowMissingNamespaces] is off or that every prefix it
  looks up is bound. *)
Theorem duplicate_expanded_names_rejected elem token (st : XmlParser.t L) i j a b e :
  ensureUniqueNamespacedAttributes (config st) = true →
  allowMissingNamespaces (config st) = false ∨ prefixesBound st elem →
  is_Some (heap st !! elem) →
  Forall (λ a, is_Some (heap st !! a)) (namespacedAttributes st) →
  scopeOk st →
  i ≠ j →
  namespacedAttributes st !! i = Some a →
  namespacedAttributes st !! j = Some b →
  expandedPair st a = Some e →
  expandedPair st b = Some e →
  ∃ msg, XmlParser_resolveNamespaces elem token st = Err (ParseError msg).
Proof.
  intros Hu Hm [e0 He0] Hall Hsc Hij Hi Hj Hea Heb.
  assert (Hloop : ∀ st1, sameNames st st1 →
            ∃ msg, resolveAttributes (namespacedAttributes st1) token st1
                   = Err (ParseError msg)).
  { intros st1 S1. pose proof S1 as (Hc & Hs & Hna & Hh).
    apply resolveAttributes_rejects.
    - by rewrite Hc.
    - rewrite Hc, Hna. destruct Hm as [Hm|[_ Hb]]; [by left|right].
      eapply Forall_impl; [exact Hb|]. intros k. cbn.
      by rewrite (sameNames_expandedPair st st1).
    - rewrite Hna. eapply Forall_impl; [exact Hall|]. intros k.
      by apply sameNames_is_Some.
    - intros key k Hk. eapply sameNames_is_Some; [done|]. apply (Hsc key).
      by rewrite <- Hs.
    - right. rewrite Hna.
      assert (Hk : ∀ x, nameKey st1 x = nameKey st x).
      { intros x. unfold nameKey. by rewrite (sameNames_expandedPair st st1). }
      destruct (decide (i < j)%nat).
      + exists i, j, a, b. eexists. rewrite !Hk. unfold nameKey. rewrite Hea, Heb.
        repeat split; done.
      + exists j, i, b, a. eexists. rewrite !Hk. unfold nameKey. rewrite Hea, Heb.
        repeat split; try done. lia. }
  assert (Hrest : ∀ st1, sameNames st st1 →
            ∃ msg, (attrs ← gets namespacedAttributes;
                    finished ← resolveAttributes attrs token;
                    when_ finished
                      (modify (set_namespacedAttributes []);;
                       modify (set_uniqueNames []))) st1 = Err (ParseError msg)).
  { intros st1 S1. destruct (Hloop st1 S1) as [msg Hl]. exists msg.
    rewrite bind_gets. by rewrite (bind_Err _ _ _ _ Hl). }
  unfold XmlParser_resolveNamespaces.
  rewrite (bind_Ok _ _ st e0 st) by (by apply readNode_Ok).
  cbv zeta. rewrite !bind_gets.
  destruct (Js.truthy _) eqn:Hp.
  - destruct (NamespaceScopeTable.lookup _ _) as [ns|] eqn:Hns.
    + unfold updNode. rewrite bind_assoc, bind_modify, bind_ret.
      apply Hrest, sameNames_bind_element.
    + destruct Hm as [Hm|[Hb _]]; [rewrite Hm; cbn; eauto|].
      specialize (Hb _ He0 Hp). rewrite Hns in Hb. by destruct Hb.
  - destruct (allowDefaultNamespaceBindings _).
    + destruct (NamespaceScopeTable.lookup _ _) as [ns|] eqn:Hns.
      * destruct (Hsc _ _ Hns) as [n Hn].
        rewrite bind_assoc. rewrite (bind_Ok _ _ st n st) by (by apply readNode_Ok).
        rewrite bind_assoc.
        destruct (obj n); try (rewrite bind_ret; rewrite bind_ret; apply Hrest, sameNames_refl).
        destruct (NamespaceNode.isDefault _); cbn [when_].
        -- unfold updNode. rewrite bind_modify, bind_ret.
           apply Hrest, sameNames_bind_element.
        -- rewrite bind_ret, bind_ret. apply Hrest, sameNames_refl.
      * rewrite bind_ret. apply Hrest, sameNames_refl.
    + rewrite bind_ret. apply Hrest, sameNames_refl.
Qed.

Lemma lookupFrom_scopeValues (sc : Scope) key ns :
  NamespaceScopeTable.lookupFrom sc key = Some ns → ns ∈ scopeValues sc.
Proof.
  revert sc. fix IH 1. intros [syms enclosing]. cbn.
  destruct (JsMap.get syms key) as [v|] eqn:Hget.
  - intros [= ->]. apply elem_of_app. left. clear IH.
    induction syms as [|[k' v'] syms IHs]; [done|]. cbn in *.
    destruct (String.eqb k' key).
    + injection Hget as ->. by left.
    + right. by apply IHs.
  - destruct enclosing as [sc|]; [|done]. intros Hl.
    apply elem_of_app. right. by apply IH.
Qed.

Lemma scopeOkb_sound (st : XmlParser.t L) : scopeOkb st = true → scopeOk st.
Proof.
  unfold scopeOkb. rewrite forallb_forall. intros Hall key ns Hl.
  apply lookupFrom_scopeValues, list_elem_of_In, Hall in Hl.
  by apply bool_decide_eq_true in Hl.
Qed.
End unique.

(** The element [r] of the example, when its namespaces are resolved with
    [allowMissingNamespaces] on: the attributes [p:a] and [q:a] are the
    nodes 6 and 7, both prefixes are bound and both attributes have the
    expanded name [(urn:x, a)]. *)
Lemma duplicate_expanded_names_rejected_witness :
  ∃ nd tok name st,
    atFirstElement 50 exampleDuplicates allowMissingConfig = Ok ((nd, tok, name), st) ∧
    allowMissingNamespaces (XmlParser.config st) = true ∧
    XmlParser.namespacedAttributes st = [6; 7]%nat ∧
    expandedPair st 6 = Some ("urn:x", "a") ∧
    expandedPair st 7 = Some ("urn:x", "a") ∧
    ∃ msg, XmlParser_resolveNamespaces nd tok st = Err (ParseError msg).
Proof.
  eexists _, _, _, _. split; [vm_compute; reflexivity|].
  split; [reflexivity|]. split; [reflexivity|]. split; [reflexivity|].
  split; [reflexivity|].
  apply (duplicate_expanded_names_rejected _ _ _ 0%nat 1%nat 6%nat 7%nat ("urn:x", "a")).
  - reflexivity.
  - right. split.
    + intros e He. vm_compute in He. injection He as <-. cbv zeta. intros Hp.
      discriminate Hp.
    + repeat constructor; vm_compute; eauto.
  - vm_compute. eauto.
  - repeat constructor; vm_compute; eauto.
  - apply scopeOkb_sound. vm_compute. reflexivity.
  - lia.
  - reflexivity.
  - reflexivity.
  - reflexivity.
  - reflexivity.
Defined.

(** The example of the specification, parsed as a whole. *)
Lemma duplicate_attributes_example :
  parseXml 50 exampleDuplicates defaultConfig
  = Err (ParseError "Duplicate attributes found in element declaration").
Proof. vm_compute. reflexivity. Qed.

(** C5.  With [ensureUniqueNamespacedAttributes] and
    [allowMissingNamespaces] on, the attributes [p:a] and [q:a] of the
    example are rejected.  With the attribute [z:b] before them, whose
    prefix is bound nowhere, [resolveNamespaces] returns at [z:b]: [p:a]
    and [q:a] (the nodes 7 and 8) have the same expanded name and are not
    compared, [namespacedAttributes] is not emptied, and the parse
    succeeds.  The attributes left over stay in front of those of the
    elements that follow: with [z:b] on an earlier element [c], the two
    attributes on [d] are accepted as well, where the same document with
    [b] for [z:b] is rejected. *)
Theorem duplicate_attributes_accepted :
  ensureUniqueNamespacedAttributes allowMissingConfig = true ∧
  parseXml 50 exampleDuplicates allowMissingConfig
  = Err (ParseError "Duplicate attributes found in element declaration") ∧
  (∃ nd tok name st st',
    atFirstElement 50 exampleUnresolved allowMissingConfig = Ok ((nd, tok, name), st) ∧
    XmlParser.namespacedAttributes st = [6; 7; 8]%nat ∧
    expandedPair st 6 = None ∧
    expandedPair st 7 = Some ("urn:x", "a") ∧
    expandedPair st 8 = Some ("urn:x", "a") ∧
    XmlParser_resolveNamespaces nd tok st = Ok (tt, st') ∧
    XmlParser.namespacedAttributes st' = [6; 7; 8]%nat) ∧
  (∃ root st,
    parseXml 50 exampleUnresolved allowMissingConfig = Ok (root, st) ∧
    XmlParser.namespacedAttributes st = [6; 7; 8]%nat) ∧
  (∃ root st,
    parseXml 80 exampleStale allowMissingConfig = Ok (root, st) ∧
    XmlParser.namespacedAttributes st = [7; 9; 10]%nat) ∧
  parseXml 80 exampleLater allowMissingConfig
  = Err (ParseError "Duplicate attributes found in element declaration").
Proof.
  split; [reflexivity|]. split; [vm_compute; reflexivity|]. split.
  { eexists _, _, _, _, _. split; [vm_compute; reflexivity|].
    repeat split; vm_compute; reflexivity. }
  split.
  { eexists _, _. split; vm_compute; reflexivity. }
  split.
  { eexists _, _. split; vm_compute; reflexivity. }
  vm_compute. reflexivity.
Qed.

(** ** The laws on documents *)


(** On [<a/>] both counts are 1. *)
Lemma element_counts_agree_witness :
  ∃ root st,
    parseXml 50 "<a/>" defaultConfig = Ok (root, st) ∧
    ∀ B : Builtins,
      valueOf (query (XmlParser.heap st) 50 countAllElements (newXPath root))
      = Ok (VNumber (Js.ofZ 1))
      ∧ valueOf (query (XmlParser.heap st) 50 countDescendantElements (newXPath root))
        = Ok (VNumber (Js.ofZ 1)).
Proof.
  eexists _, _. split; [vm_compute; reflexivity|]. intros B.
  match goal with
  | |- valueOf (query ?h _ _ (newXPath ?root)) = _ ∧ _ =>
      destruct (@element_counts_agree B h 2 50 root) as [H1 H2];
      [vm_compute; reflexivity
      |lia
      |split; [refine (eq_trans H1 _)|refine (eq_trans H2 _)];
       vm_compute; reflexivity]
  end.
Defined.

(** The document [<a/>] has a root element, and the two counts are equal:
    the first is not the second plus one. *)
Lemma element_count_counterexample :
  ∃ root st,
    parseXml 50 "<a/>" defaultConfig = Ok (root, st) ∧
    (obj <$> XmlParser.heap st !! root)
    = Some (RootB (RootNode.mk "Document" None None (Some 3%nat) true true [3%nat]
                     [1; 2]%nat)) ∧
    ∀ B : Builtins,
      valueOf (query (XmlParser.heap st) 50 countAllElements (newXPath root))
      = Ok (VNumber (Js.ofZ 1))
      ∧ valueOf (query (XmlParser.heap st) 50 countDescendantElements (newXPath root))
        = Ok (VNumber (Js.ofZ 1))
      ∧ Js.eqb (Js.ofZ 1) (Js.add (Js.ofZ 1) (Js.ofZ 1)) = false.
Proof.
  eexists _, _. split; [vm_compute; reflexivity|]. split; [vm_compute; reflexivity|].
  intros B. repeat split; vm_compute; reflexivity.
Qed.

(** ** [substring]: the examples *)

(** The examples of the specification: [substring("12345", 1.5, 2.6)],
    [substring("12345", 0 div 0, 3)] and
    [substring("12345", -42, 1 div 0)]. *)
Lemma substring_examples (B : Builtins) :
  let h := storeOf (parseXml 20 "<a/>" defaultConfig) in
  let zero := NumberNode (Js.ofZ 0) in
  let one := NumberNode (Js.ofZ 1) in
  valueOf (query h 5
             (CallNode "substring"
                [StringNode "12345"; NumberNode (Js.Finite (3 # 2));
                 NumberNode (Js.Finite (26 # 10))])
             (newXPath 0))
  = Ok (VString "234")
  ∧ valueOf (query h 5
               (CallNode "substring"
                  [StringNode "12345"; BinaryOpNode zero zero OpDiv;
                   NumberNode (Js.ofZ 3)])
               (newXPath 0))
    = Ok (VString "")
  ∧ valueOf (query h 5
               (CallNode "substring"
                  [StringNode "12345"; UnaryOpNode (NumberNode (Js.ofZ 42)) OpMinus;
                   BinaryOpNode one zero OpDiv])
               (newXPath 0))
    = Ok (VString "12345").
Proof. repeat split; vm_compute; reflexivity. Qed.

(** [substring("12345", 2.5)] is ["345"]: rounding a tie to the even
    integer would start at 2 and give ["2345"]. *)
Lemma substring_half_even_counterexample :
  roundHalfEven (Js.Finite (5 # 2)) = Js.ofZ 2 ∧
  substringSpec roundHalfEven "12345" (Js.Finite (5 # 2)) None = "2345" ∧
  ∀ B : Builtins,
    valueOf (query (storeOf (parseXml 20 "<a/>" defaultConfig)) 5
               (CallNode "substring" [StringNode "12345"; NumberNode (Js.Finite (5 # 2))])
               (newXPath 0))
    = Ok (VString "345").
Proof.
  split; [reflexivity|]. split; [vm_compute; reflexivity|].
  intros B. vm_compute. reflexivity.
Qed.

(** The example of the specification: 1.5 rounds to 2 and 2.6 to 3, and
    1, 2, 3 and 4 are exact. *)
Lemma substring_rounds_half_up_witness :
  exactArithmetic (Js.Finite (3 # 2)) (Some (Js.Finite (13 # 5))) = true ∧
  substringSpec Js.round "12345" (Js.Finite (3 # 2)) (Some (Js.Finite (13 # 5))) = "234" ∧
  ∀ B : Builtins,
    visit [] 2 (substringCall "12345" (Js.Finite (3 # 2)) (Some (Js.Finite (13 # 5))))
      (newXPath 0)
    = Ok (tt, pushed (dString "234") (newXPath 0)).
Proof.
  split; [reflexivity|]. split; [vm_compute; reflexivity|]. intros B.
  destruct (substring_rounds_half_up [] 0 (newXPath 0) "12345"
              (Js.Finite (3 # 2)) (Some (Js.Finite (13 # 5))) eq_refl) as [E _].
  exact E.
Defined.

(** The double [-2^53 - 1] does not exist: [start--] on [-2^53] gives
    [-2^53] again, where [Js.sub] gives the exact difference.  Such numbers
    are outside [exactArithmetic]. *)
Lemma substring_start_not_exact :
  Js.sub (Js.round (Js.ofZ (- 2 ^ 53))) (Js.ofZ 1) = Js.ofZ (- 2 ^ 53 - 1) ∧
  exactInteger (Js.ofZ (- 2 ^ 53 - 1)) = false ∧
  exactArithmetic (Js.ofZ (- 2 ^ 53)) (Some (Js.ofZ (2 ^ 53 + 4))) = false ∧
  exactArithmetic (Js.ofZ (1 - 2 ^ 53)) (Some (Js.ofZ (2 ^ 53))) = true.
Proof. repeat split; vm_compute; reflexivity. Qed.

(** ** The axis partition law *)

(** C2.  In [<a><b/><c><d/></c></a>] the element [b] (node 4) comes before
    the element [d] (node 6) and is no ancestor of it; of the five axes
    taken from [d], as the steps of a path from [//d] and as relative paths
    at the context node [d], none holds [b]: [preceding] is empty. *)
Theorem partition_law_fails :
  ∃ root st,
    parseXml 50 exampleNested defaultConfig = Ok (root, st) ∧
    (nodeName <$> XmlParser.heap st !! 4%nat) = Some (Some (RName.mk "b" "b" "")) ∧
    (nodeName <$> XmlParser.heap st !! 6%nat) = Some (Some (RName.mk "d" "d" "")) ∧
    treeNodes (XmlParser.heap st) 4 root = [0; 3; 4; 5; 6]%nat ∧
    ∀ B : Builtins,
      valueOf (query (XmlParser.heap st) 50 (allNamed "d") (newXPath root))
      = Ok (VNodeset [6%nat])
      ∧ map (λ axis, valueOf (query (XmlParser.heap st) 50 (fromNamed "d" axis)
                                (newXPath root)))
            partitionAxes
        = [Ok (VNodeset []); Ok (VNodeset [0; 3; 5]%nat); Ok (VNodeset [6%nat]);
           Ok (VNodeset []); Ok (VNodeset [])]
      ∧ map (λ axis, evalAt (XmlParser.heap st) 50 root 6 (axisNodes axis)) partitionAxes
        = [Ok (VNodeset []); Ok (VNodeset [0; 3; 5]%nat); Ok (VNodeset [6%nat]);
           Ok (VNodeset []); Ok (VNodeset [])].
Proof.
  eexists _, _. split; [vm_compute; reflexivity|].
  split; [reflexivity|]. split; [reflexivity|]. split; [vm_compute; reflexivity|].
  intros B. repeat split; vm_compute; reflexivity.
Qed.

(** ** Undeclaring the default namespace *)

(** C6.  The declaration [xmlns=''] of [<a xmlns=''/>] has no prefix: it
    breaks none of the constraints (a) to (c), and the element name [a]
    does not break (d); the parse fails with the error of (c). *)
Theorem default_namespace_undeclared :
  let name := RName.mk "xmlns" "xmlns" "" in
  violatesXml name "" = false ∧
  violatesXmlns name "" = false ∧
  violatesNoUndeclaring name "" = false ∧
  violatesElementName (RName.mk "a" "a" "") = false ∧
  parseXml 50 "<a xmlns=''/>" defaultConfig
  = Err (ParseError "Attribute value cannot be empty for a namespace with a prefix").
Proof. repeat split; vm_compute; reflexivity. Qed.

(** ** The parent link *)

(** C8.  After the HTML parse of [<script>x</script>] the text (node 2) is
    the only child of the [script] element (node 1) and has it as parent,
    but its [index] was never assigned: [parent.children[index]] is not the
    node.  The element itself has its link. *)
Theorem script_text_has_no_index :
  ∃ root st,
    parseHtml 50 "<script>x</script>" defaultConfig = Ok (root, st) ∧
    (children <$> XmlParser.heap st !! root) = Some [1%nat] ∧
    (children <$> XmlParser.heap st !! 1%nat) = Some [2%nat] ∧
    (_type <$> XmlParser.heap st !! 2%nat) = Some Text ∧
    (parent <$> XmlParser.heap st !! 2%nat) = Some (Some 1%nat) ∧
    (index <$> XmlParser.heap st !! 2%nat) = Some IdxUndefined ∧
    parentLinkOk (XmlParser.heap st) 1 = true ∧
    parentLinkOk (XmlParser.heap st) 2 = false.
Proof.
  eexists _, _. split; [vm_compute; reflexivity|].
  repeat split; vm_compute; reflexivity.
Qed.

(** ** The namespace scope table *)

Lemma JsMap_get_set_eq {V} (m : JsMap.t V) k v :
  JsMap.get (JsMap.set m k v) k = Some v.
Proof.
  induction m as [|[k' v'] m IH]; cbn.
  - by rewrite String.eqb_refl.
  - destruct (String.eqb k' k) eqn:E; cbn; rewrite E; [done|apply IH].
Qed.

Lemma JsMap_get_set_ne {V} (m : JsMap.t V) k k0 v :
  k0 ≠ k → JsMap.get (JsMap.set m k v) k0 = JsMap.get m k0.
Proof.
  intros Hne. induction m as [|[k' v'] m IH]; cbn.
  - destruct (String.eqb k k0) eqn:E; [|done]. by apply String.eqb_eq in E.
  - destruct (String.eqb k' k) eqn:E; cbn.
    + apply String.eqb_eq in E as ->.
      destruct (String.eqb k k0) eqn:E0; [|done]. by apply String.eqb_eq in E0.
    + by rewrite IH.
Qed.

(** X1.  [insert] binds a key that the innermost scope does not hold:
    [lookup] then finds the new node for the key and what it found before
    for every other key.  A key that the innermost scope holds is not bound
    again: [insert] answers [false], the table is as it was, and [lookup]
    still finds the node bound first. *)
Theorem scope_insert_lookup (key : string) (nd : NodeId) (t : NamespaceScopeTable.t) :
  match NamespaceScopeTable.insert key nd t with
  | (true, t') =>
      JsMap.get (symbols (NamespaceScopeTable.table t)) key = None ∧
      NamespaceScopeTable.lookup key t' = Some nd ∧
      ∀ k, k ≠ key → NamespaceScopeTable.lookup k t' = NamespaceScopeTable.lookup k t
  | (false, t') =>
      t' = t ∧
      ∃ old, JsMap.get (symbols (NamespaceScopeTable.table t)) key = Some old ∧
             NamespaceScopeTable.lookup key t = Some old
  end.
Proof.
  unfold NamespaceScopeTable.insert, NamespaceScopeTable.lookup, JsMap.has.
  destruct t as [[syms enc] dis]. cbn [NamespaceScopeTable.table symbols].
  destruct (JsMap.get syms key) as [old|] eqn:E.
  - split; [done|]. exists old. cbn. by rewrite E.
  - split; [done|]. cbn. rewrite JsMap_get_set_eq. split; [done|].
    intros k Hk. by rewrite JsMap_get_set_ne.
Qed.

(** X2.  A scope opened by [newScope] shadows: a key bound in it is found
    there whatever the enclosing scopes hold, the other keys are found as
    before, and [backtrackScope] gives back the table as it was before the
    scope was opened, without the binding. *)
Theorem scope_nesting (key : string) (nd : NodeId) (t : NamespaceScopeTable.t) :
  NamespaceScopeTable.disabled t = false →
  ∃ inner,
    NamespaceScopeTable.insert key nd (NamespaceScopeTable.newScope t) = (true, inner) ∧
    NamespaceScopeTable.lookup key inner = Some nd ∧
    (∀ k, k ≠ key → NamespaceScopeTable.lookup k inner = NamespaceScopeTable.lookup k t) ∧
    NamespaceScopeTable.backtrackScope inner = t.
Proof.
  intros Hd. destruct t as [[syms enc] dis]. cbn in Hd. subst dis.
  eexists. split; [reflexivity|]. cbn. rewrite String.eqb_refl.
  split; [done|]. split; [|done].
  intros k Hk. unfold NamespaceScopeTable.lookup. cbn.
  destruct (String.eqb key k) eqn:E; [|done]. by apply String.eqb_eq in E.
Qed.

(** A scope opened over the binding of [p] that binds [p] again. *)
Lemma scope_nesting_witness :
  let t := snd (NamespaceScopeTable.insert "p" 1%nat NamespaceScopeTable.new) in
  NamespaceScopeTable.lookup "p" t = Some 1%nat ∧
  ∃ inner,
    NamespaceScopeTable.insert "p" 2%nat (NamespaceScopeTable.newScope t) = (true, inner) ∧
    NamespaceScopeTable.lookup "p" inner = Some 2%nat ∧
    (∀ k, k ≠ "p" → NamespaceScopeTable.lookup k inner = NamespaceScopeTable.lookup k t) ∧
    NamespaceScopeTable.backtrackScope inner = t.
Proof.
  split; [reflexivity|].
  apply (scope_nesting "p" 2%nat
           (snd (NamespaceScopeTable.insert "p" 1%nat NamespaceScopeTable.new))).
  reflexivity.
Defined.

(** ** Conversions and negation *)

Section conversions.
  Context `{Builtins}.
  Variable h : Store.

Lemma visit_call f name args st :
  visit h (S f) (CallNode name args) st = callFunction h (visit h f) f name args st.
Proof. reflexivity. Qed.

Lemma toBoolean_dBoolean b : XDataEval_toBoolean (dBoolean b) = Ok b.
Proof. reflexivity. Qed.

(** X3.  [not(not(e))] is [boolean(e)]: on every state the two calls
    return the same value in the same state, or fail alike. *)
Theorem not_not_is_boolean (f : nat) (e : XNodeT) (st : XPath.t) :
  visit h (S (S f)) (CallNode "not" [CallNode "not" [e]]) st
  = visit h (S f) (CallNode "boolean" [e]) st.
Proof.
  rewrite !visit_call. unfold callFunction.
  cbn -[visit notFn booleanFn].
  unfold notFn, booleanFn, visitArg. cbn [lookup list_lookup].
  unfold mbind at 1 2, StateM_bind at 1 2, mret, StateM_ret.
  rewrite visit_call. unfold callFunction.
  cbn -[visit notFn]. unfold notFn, visitArg. cbn [lookup list_lookup].
  unfold mbind, StateM_bind, mret, StateM_ret.
  destruct (visit h f e st) as [[[] st1]| |]; [|done..].
  unfold popDefined, popData, mbind, StateM_bind, mret, StateM_ret.
  destruct (XPath.dataStack st1) as [|d ds]; [done|].
  unfold liftR. destruct (XDataEval_toBoolean d) as [b| |]; [|done..].
  cbn. by rewrite negb_involutive.
Qed.
(** X4.  The conversions are idempotent: [boolean(boolean(e))],
    [string(string(e))] and [number(number(e))] do what the inner call
    does alone, error for error. *)
Theorem conversions_idempotent (f : nat) (e : XNodeT) (st : XPath.t) :
  visit h (S (S f)) (CallNode "boolean" [CallNode "boolean" [e]]) st
  = visit h (S f) (CallNode "boolean" [e]) st
  ∧ visit h (S (S f)) (CallNode "string" [CallNode "string" [e]]) st
    = visit h (S f) (CallNode "string" [e]) st
  ∧ visit h (S (S f)) (CallNode "number" [CallNode "number" [e]]) st
    = visit h (S f) (CallNode "number" [e]) st.
Proof.
  repeat split.
  - rewrite !visit_call. unfold callFunction. cbn -[visit booleanFn].
    unfold booleanFn, visitArg. cbn [lookup list_lookup].
    unfold mbind at 1 2, StateM_bind at 1 2, mret, StateM_ret.
    rewrite visit_call. unfold callFunction.
    cbn -[visit booleanFn]. unfold booleanFn, visitArg. cbn [lookup list_lookup].
    unfold mbind, StateM_bind, mret, StateM_ret.
    destruct (visit h f e st) as [[[] st1]| |]; [|done..].
    unfold popDefined, popData, mbind, StateM_bind, mret, StateM_ret.
    destruct (XPath.dataStack st1) as [|d ds]; [done|].
    unfold liftR. by destruct (XDataEval_toBoolean d) as [b| |].
  - rewrite !visit_call. unfold callFunction. cbn -[visit stringFn].
    unfold stringFn, argOrContext, visitArg. cbn [lookup list_lookup].
    unfold mbind, StateM_bind, mret, StateM_ret.
    rewrite visit_call. unfold callFunction.
    cbn -[visit stringFn]. unfold stringFn, argOrContext, visitArg.
    cbn [lookup list_lookup].
    unfold mbind, StateM_bind, mret, StateM_ret.
    destruct (visit h f e st) as [[[] st1]| |]; [|done..].
    unfold popDefined, popData, mbind, StateM_bind, mret, StateM_ret.
    destruct (XPath.dataStack st1) as [|d ds]; [done|].
    unfold liftR. by destruct (XDataEval_toString h f d) as [b| |].
  - rewrite !visit_call. unfold callFunction. cbn -[visit numberFn].
    unfold numberFn, argOrContext, visitArg. cbn [lookup list_lookup].
    unfold mbind, StateM_bind, mret, StateM_ret.
    rewrite visit_call. unfold callFunction.
    cbn -[visit numberFn]. unfold numberFn, argOrContext, visitArg.
    cbn [lookup list_lookup].
    unfold mbind, StateM_bind, mret, StateM_ret.
    destruct (visit h f e st) as [[[] st1]| |]; [|done..].
    unfold popDefined, popData, mbind, StateM_bind, mret, StateM_ret.
    destruct (XPath.dataStack st1) as [|d ds]; [done|].
    unfold liftR. by destruct (XDataEval_toNumber h f d) as [b| |].
Qed.
End conversions.

(** ** Sorted sets of nodes *)

Section sorted_sets.
  Context {A : Type} (key : A → Z).

Lemma ascending_remove (l1 l2 : list A) x :
  ascending key (l1 ++ x :: l2) → ascending key (l1 ++ l2).
Proof.
  unfold ascending. induction l1 as [|y l1 IH]; cbn; intros Hs.
  - by inversion Hs.
  - inversion Hs as [|? ? Hl Hy]; subst. constructor; [by apply IH|].
    rewrite Forall_app in Hy |- *. destruct Hy as [H1 H2]. split; [done|].
    by inversion H2.
Qed.
End sorted_sets.

Lemma setAddAll_ascending (key : nat → Z) s l :
  ascending key (s ++ l) → ascending key (setAddAll s l).
Proof.
  revert s. induction l as [|x l IH]; intros s Hs.
  - by rewrite app_nil_r in Hs.
  - rewrite setAddAll_cons. apply IH. unfold setAdd. case_bool_decide.
    + by eapply ascending_remove.
    + by rewrite <- app_assoc.
Qed.

Section sorted_node_sets.
  Variable h : Store.

Lemma ascending_sortNodeset l : ascending (position h) (sortNodeset h l).
Proof. apply (setAddAll_ascending _ []), sortBy_ascending. Qed.

Lemma sortNodeset_idemp l : sortNodeset h (sortNodeset h l) = sortNodeset h l.
Proof.
  unfold sortNodeset at 1. rewrite sortBy_of_ascending by apply ascending_sortNodeset.
  apply setOfList_NoDup, NoDup_sortNodeset.
Qed.

(** X5.  [sortNodeset] gives the nodes of the list, each once, in
    ascending order of their positions, and sorting again changes
    nothing. *)
Theorem sortNodeset_sorted_set (l : list NodeId) :
  NoDup (sortNodeset h l) ∧
  ascending (position h) (sortNodeset h l) ∧
  (∀ x, x ∈ sortNodeset h l ↔ x ∈ l) ∧
  sortNodeset h (sortNodeset h l) = sortNodeset h l.
Proof.
  split; [apply NoDup_sortNodeset|]. split; [apply ascending_sortNodeset|].
  split; [intros x; apply elem_of_sortNodeset|apply sortNodeset_idemp].
Qed.

(** X6.  The union operator on two node sets pushes one node set: the
    nodes of either operand, each once, in ascending order of their
    positions.  When an operand is no node set it throws an EvalError. *)
Theorem union_of_node_sets (l r : XNodeSet) (la ra : option (list XNodeSet))
    (st : XPath.t) :
  (∃ u, evaluatePipeExpr h (mkData XNodeset (VNodeset l) la)
          (mkData XNodeset (VNodeset r) ra) st
        = Ok (tt, pushed (dNodeset u) st) ∧
        NoDup u ∧ ascending (position h) u ∧ ∀ x, x ∈ u ↔ x ∈ l ∨ x ∈ r)
  ∧ ∀ left right,
      (cType left = XNodeset ∧ cType right = XNodeset)
      ∨ evaluatePipeExpr h left right st
        = Err (EvalError "Pipe/union operator takes only nodesets as arguments").
Proof.
  split.
  - exists (sortNodeset h (setAddAll l r)). split; [reflexivity|].
    split; [apply NoDup_sortNodeset|]. split; [apply ascending_sortNodeset|].
    intros x. by rewrite elem_of_sortNodeset, elem_of_setAddAll.
  - intros left right. unfold evaluatePipeExpr, XDataEval_isNodeset.
    do 2 case_bool_decide; cbn; eauto.
Qed.
End sorted_node_sets.

(** ** [substring-before] and [substring-after] *)

Lemma substring_all (s : string) : String.substring 0 (String.length s) s = s.
Proof. induction s as [|c s IH]; [done|]. cbn. by rewrite IH. Qed.

Lemma append_String c (p x : string) : String c p +:+ x = String c (p +:+ x).
Proof. reflexivity. Qed.

Lemma prefix_split (p s : string) :
  String.prefix p s = true → s = p +:+ Js.sliceFrom s (String.length p).
Proof.
  revert s. induction p as [|c p IH]; intros s Hp.
  - unfold Js.sliceFrom. cbn. by rewrite Nat.sub_0_r, substring_all.
  - destruct s as [|d s]; [done|]. cbn in Hp.
    destruct (Ascii.ascii_dec c d) as [->|]; [|done].
    rewrite append_String. unfold Js.sliceFrom. cbn. f_equal. exact (IH s Hp).
Qed.

Lemma prefix_substring (p s : string) n :
  String.prefix p (String.substring 0 n s) = true → String.prefix p s = true.
Proof.
  revert s n. induction p as [|c p IH]; intros s n Hp; [by destruct s|].
  destruct s as [|d s]; [destruct n; cbn in Hp; done|]. destruct n as [|n]; [done|].
  cbn in Hp |- *. destruct (Ascii.ascii_dec c d); [|done]. by eapply IH.
Qed.

Lemma indexOf_split (s sub : string) i :
  sub ≠ "" →
  Js.indexOf s sub = Some i →
  s = String.substring 0 i s +:+ sub +:+ Js.sliceFrom s (i + String.length sub)
  ∧ Js.includes (String.substring 0 i s) sub = false.
Proof.
  destruct sub as [|c0 sub0]; [done|]. intros _. revert i.
  induction s as [|c s IH]; intros i Hi.
  - done.
  - cbn [Js.indexOf] in Hi.
    destruct (String.prefix (String c0 sub0) (String c s)) eqn:Hp.
    + injection Hi as <-. split; [by apply prefix_split|done].
    + destruct (Js.indexOf s (String c0 sub0)) as [j|] eqn:Hj; [|done].
      injection Hi as <-. destruct (IH j eq_refl) as [Hs Hn].
      split.
      * cbn [String.substring]. rewrite append_String. f_equal.
        unfold Js.sliceFrom in *. exact Hs.
      * cbn [String.substring Js.includes]. rewrite Hn, orb_false_r.
        destruct (String.prefix _ (String c (String.substring 0 j s))) eqn:Hq; [|done].
        apply (prefix_substring _ (String c s) (S j)) in Hq. congruence.
Qed.

Lemma includes_indexOf (s sub : string) :
  Js.includes s sub = true → is_Some (Js.indexOf s sub).
Proof.
  induction s as [|c s IH]; cbn [Js.includes Js.indexOf].
  - rewrite orb_false_r. intros ->. eauto.
  - destruct (String.prefix sub (String c s)); [eauto|]. cbn [orb].
    intros Hs. destruct (IH Hs) as [j ->]. cbn. eauto.
Qed.

Section substring_before_after.
  Context `{Builtins}.
  Variable h : Store.

Lemma visit_substring_before f s sep st :
  visit h (S (S f)) (CallNode "substring-before" [StringNode s; StringNode sep]) st
  = Ok (tt, pushed (dString (XString.substringBefore s sep)) st).
Proof. reflexivity. Qed.

Lemma visit_substring_after f s sep st :
  visit h (S (S f)) (CallNode "substring-after" [StringNode s; StringNode sep]) st
  = Ok (tt, pushed (dString (XString.substringAfter s sep)) st).
Proof. reflexivity. Qed.

(** X7.  When the string [s] contains the non-empty string [sep],
    [substring-before(s, sep)] and [substring-after(s, sep)] are the two
    parts of [s] around an occurrence of [sep], and the part before holds
    no [sep]: it is the first occurrence that splits the string. *)
Theorem substring_before_after_split (f : nat) (s sep : string) (st : XPath.t) :
  sep ≠ "" →
  Js.includes s sep = true →
  ∃ before after,
    visit h (S (S f)) (CallNode "substring-before" [StringNode s; StringNode sep]) st
    = Ok (tt, pushed (dString before) st) ∧
    visit h (S (S f)) (CallNode "substring-after" [StringNode s; StringNode sep]) st
    = Ok (tt, pushed (dString after) st) ∧
    s = before +:+ sep +:+ after ∧
    Js.includes before sep = false.
Proof.
  intros Hsep Hin. destruct (includes_indexOf _ _ Hin) as [i Hi].
  destruct (indexOf_split _ _ _ Hsep Hi) as [Hs Hn].
  exists (String.substring 0 i s), (Js.sliceFrom s (i + String.length sep)).
  rewrite visit_substring_before, visit_substring_after.
  unfold XString.substringBefore, XString.substringAfter. rewrite Hi.
  destruct sep; [done|]. done.
Qed.
End substring_before_after.

(** The date of the XPath recommendation, split at its first [/]. *)
Lemma substring_before_after_split_witness :
  Js.includes "1999/04/01" "/" = true ∧
  ∀ B : Builtins,
    ∃ before after,
      visit [] 2 (CallNode "substring-before" [StringNode "1999/04/01"; StringNode "/"])
        (newXPath 0)
      = Ok (tt, pushed (dString before) (newXPath 0)) ∧
      visit [] 2 (CallNode "substring-after" [StringNode "1999/04/01"; StringNode "/"])
        (newXPath 0)
      = Ok (tt, pushed (dString after) (newXPath 0)) ∧
      "1999/04/01" = before +:+ "/" +:+ after ∧
      Js.includes before "/" = false.
Proof.
  split; [reflexivity|]. intros B.
  apply (@substring_before_after_split B [] 0 "1999/04/01" "/" (newXPath 0));
    [discriminate|reflexivity].
Defined.

(** ** The context stack *)

Section keeps_context.
  Context `{Builtins}.
  Variable h : Store.
  Local Abbreviation XM := (StateM XPath.t).

Lemma KC_ret {A} (a : A) : KeepsContext (mret a : XM A).
Proof. by intros st a' st' [= _ <-]. Qed.

Lemma KC_bind {A B} (m : XM A) (f : A → XM B) :
  KeepsContext m → (∀ a, KeepsContext (f a)) → KeepsContext (m ≫= f).
Proof.
  intros Hm Hf st b st' E. apply bind_inv in E as (a & st1 & E1 & E2).
  destruct (Hm _ _ _ E1) as [<- <-]. by eapply Hf.
Qed.

Lemma KC_throw {A} e : KeepsContext (throw e : XM A).
Proof. by intros st a st'. Qed.

Lemma KC_evalError {A} msg : KeepsContext (evalError msg : XM A).
Proof. by intros st a st'. Qed.

Lemma KC_outOfFuel {A} : KeepsContext (outOfFuel : XM A).
Proof. by intros st a st'. Qed.

Lemma KC_gets {A} (f : XPath.t → A) : KeepsContext (gets f).
Proof. by intros st a st' [= _ <-]. Qed.

Lemma KC_liftR {A} (r : Result A) : KeepsContext (liftR r).
Proof. intros st a st'. unfold liftR. destruct r; [|done..]. by intros [= _ <-]. Qed.

Lemma KC_pushData d : KeepsContext (pushData d).
Proof. by intros st a st' [= _ <-]. Qed.

Lemma KC_popData : KeepsContext popData.
Proof.
  intros st a st'. unfold popData. destruct (XPath.dataStack st); by intros [= _ <-].
Qed.

Lemma KC_popDefined : KeepsContext popDefined.
Proof.
  unfold popDefined. apply KC_bind; [apply KC_popData|].
  intros [d|]; [apply KC_ret|apply KC_throw].
Qed.

Lemma KC_getCtx : KeepsContext getCtx.
Proof.
  unfold getCtx. apply KC_bind; [apply KC_gets|].
  intros [c|]; [apply KC_ret|apply KC_throw].
Qed.

Lemma KC_asNodeset d : KeepsContext (asNodeset d).
Proof. unfold asNodeset. destruct (value d); (apply KC_ret || apply KC_throw). Qed.

Lemma KC_setData f :
  KeepsContext (modify (λ st, XPath.set_dataStack (f st) st)).
Proof. by intros st a st' [= _ <-]. Qed.
End keeps_context.

Create HintDb kctx.
#[export] Hint Resolve KC_ret KC_throw KC_evalError KC_outOfFuel KC_gets KC_liftR
  KC_pushData KC_popData KC_popDefined KC_getCtx KC_asNodeset : kctx.

Ltac kctx_step :=
  match goal with
  | |- KeepsContext (mbind _ _) => apply KC_bind; [|intros ?]
  | |- KeepsContext (if ?b then _ else _) => destruct b
  | |- KeepsContext (match ?x with _ => _ end) => destruct x
  | |- KeepsContext _ => solve [eauto with kctx]
  end.
Ltac kctx := cbv zeta; repeat (kctx_step; cbv zeta).

Section keeps_context_visit.
  Context `{Builtins}.
  Variable h : Store.

Lemma KC_evaluatePredicateExpr res : KeepsContext (evaluatePredicateExpr res).
Proof. unfold evaluatePredicateExpr. kctx. Qed.

Lemma KC_evaluateRelativeExpr fuel left right op :
  KeepsContext (evaluateRelativeExpr h fuel left right op).
Proof.
  unfold evaluateRelativeExpr, evaluateNonNodesetRelativeExpr,
    evaluateNodesetRelativeExpr, compare_Nodeset_Nodeset, compare_Nodeset_String,
    compare_Nodeset_Number, compare_Nodeset_Boolean, compare_Boolean_Nodeset,
    compare_String_Nodeset, compare_Number_Nodeset, compare_Nodeset_Boolean,
    compare_Nodeset_String, compare_Nodeset_Number.
  kctx.
Qed.

Lemma KC_evaluateArithmeticExpr fuel left right op :
  KeepsContext (evaluateArithmeticExpr h fuel left right op).
Proof. unfold evaluateArithmeticExpr. kctx. Qed.

Lemma KC_evaluateConditionalExpr left right op :
  KeepsContext (evaluateConditionalExpr left right op).
Proof. unfold evaluateConditionalExpr. kctx. Qed.

Lemma KC_evaluatePipeExpr left right : KeepsContext (evaluatePipeExpr h left right).
Proof. unfold evaluatePipeExpr. kctx. Qed.
Lemma KC_visitArg visit0 args i :
  (∀ nd, KeepsContext (visit0 nd)) → KeepsContext (visitArg visit0 args i).
Proof. intros Hv. unfold visitArg. kctx. Qed.
Hint Resolve KC_visitArg : kctx.

Lemma KC_getNodesetData visit0 args :
  (∀ nd, KeepsContext (visit0 nd)) → KeepsContext (getNodesetData visit0 args).
Proof. intros Hv. unfold getNodesetData. kctx. Qed.

Lemma KC_argOrContext visit0 args :
  (∀ nd, KeepsContext (visit0 nd)) → KeepsContext (argOrContext visit0 args).
Proof. intros Hv. unfold argOrContext. kctx. Qed.
Hint Resolve KC_getNodesetData KC_argOrContext : kctx.

Lemma KC_stringArgs visit0 fuel args :
  (∀ nd, KeepsContext (visit0 nd)) → KeepsContext (stringArgs h visit0 fuel args).
Proof. intros Hv. induction args as [|a args IH]; cbn [stringArgs]; kctx. Qed.
Hint Resolve KC_stringArgs : kctx.

Lemma KC_visitAll visit0 nodes :
  (∀ nd, KeepsContext (visit0 nd)) → KeepsContext (visitAll visit0 nodes).
Proof. intros Hv. induction nodes as [|a nodes IH]; cbn [visitAll]; kctx. Qed.
Hint Resolve KC_visitAll : kctx.

Lemma KC_callFunction visit0 fuel name args :
  (∀ nd, KeepsContext (visit0 nd)) →
  KeepsContext (callFunction h visit0 fuel name args).
Proof.
  intros Hv. unfold callFunction.
  destruct (functions h visit0 fuel name) as [[[[pc om] v] fn]|] eqn:E;
    [|apply KC_evalError].
  cbv zeta. apply KC_bind; [kctx|intros _].
  unfold functions in E.
  repeat match type of E with
         | (if ?b then _ else _) = _ =>
             destruct b;
             [injection E as <- <- <- <-;
              unfold lastFn, positionFn, countFn, localNameFn, namespaceUriFn, nameFn,
                firstNodeFn, booleanFn, notFn, trueFn, falseFn, langFn, numberFn,
                sumFn, floorFn, ceilingFn, roundFn, mathFn, stringFn, concatFn,
                startsWithFn, containsFn, substringBeforeFn, substringAfterFn,
                binaryStringFn, substringFn, stringLengthFn, normalizeSpaceFn,
                translateFn;
              kctx|]
         end.
  all: try discriminate.
Qed.
Lemma KC_visitPathNode visit0 steps :
  (∀ nd, KeepsContext (visit0 nd)) → KeepsContext (visitPathNode visit0 steps).
Proof.
  intros Hv. unfold visitPathNode. apply KC_bind; [kctx|intros _].
  generalize 0%nat. induction steps as [|nd rest IH]; intros index; kctx.
Qed.

Lemma KC_visitStepNode visit0 fuel path step axis nodeTest predicates pos :
  (∀ nd, KeepsContext (visit0 nd)) →
  KeepsContext (visitStepNode h visit0 fuel path step axis nodeTest predicates pos).
Proof. intros Hv. unfold visitStepNode. kctx. Qed.

Lemma KC_filterPartition visit0 expr partition size pos :
  (∀ nd, KeepsContext (visit0 nd)) →
  KeepsContext (filterPartition visit0 expr partition size pos).
Proof.
  intros Hv. revert pos. induction partition as [|x l IH]; intros pos; [apply KC_ret|].
  cbn [filterPartition]. cbv zeta.
  intros st kept st' E.
  apply bind_inv in E as ([] & st1 & E1 & E). injection E1 as <-.
  apply bind_inv in E as ([] & st2 & E2 & E). apply Hv in E2 as [C2 R2].
  apply bind_inv in E as (res & st3 & E3 & E). apply KC_popDefined in E3 as [C3 R3].
  apply bind_inv in E as (keep & st4 & E4 & E).
  apply KC_evaluatePredicateExpr in E4 as [C4 R4].
  apply bind_inv in E as ([] & st5 & E5 & E). injection E5 as <-.
  apply bind_inv in E as (rest & st6 & E6 & E). apply IH in E6 as [C6 R6].
  injection E as _ <-. cbn in *. rewrite C6, C4, C3, C2, R6, R4, R3, R2. done.
Qed.

Lemma KC_filterPartitions visit0 expr partitions :
  (∀ nd, KeepsContext (visit0 nd)) →
  KeepsContext (filterPartitions visit0 expr partitions).
Proof.
  intros Hv. induction partitions as [|p ps IH]; cbn [filterPartitions]; [apply KC_ret|].
  apply KC_bind; [by apply KC_filterPartition|intros ?].
  apply KC_bind; [done|intros ?]. apply KC_ret.
Qed.

Lemma KC_visitPredicateNode visit0 expr order leftExpr :
  (∀ nd, KeepsContext (visit0 nd)) →
  KeepsContext (visitPredicateNode h visit0 expr order leftExpr).
Proof.
  intros Hv. unfold visitPredicateNode.
  apply KC_bind; [kctx|intros ?]. cbv zeta.
  apply KC_bind; [by apply KC_filterPartitions|intros ?]. kctx.
Qed.

(** A visit that returns has popped every context it pushed. *)
Lemma KC_visit fuel nd : KeepsContext (visit h fuel nd).
Proof.
  revert nd. induction fuel as [|fuel IH]; intros nd; [apply KC_outOfFuel|].
  cbn [visit]. destruct nd; cbn [visitBody].
  - unfold visitNumberNode. kctx.
  - unfold visitStringNode. kctx.
  - by apply KC_callFunction.
  - unfold visitUnaryOpNode. kctx.
  - unfold visitBinaryOpNode. do 4 (apply KC_bind; [kctx|intros ?]).
    destruct op;
      first [apply KC_evaluateArithmeticExpr|apply KC_evaluateRelativeExpr
            |apply KC_evaluateConditionalExpr|apply KC_evaluatePipeExpr].
  - apply KC_throw.
  - by apply KC_visitStepNode.
  - by apply KC_visitPredicateNode.
  - by apply KC_visitPathNode.
Qed.

(** X8.  A query that returns leaves the data stack empty and the root as
    it was, and leaves on the context stack the context it pushed: the
    context stack of an evaluator grows by one with every query. *)
Theorem query_leaves (fuel : nat) (ast : XNodeT) (st : XPath.t) :
  match query h fuel ast st with
  | Ok (v, st') =>
      XPath.dataStack st' = [] ∧
      XPath.ctxStack st' = mkContext 1 1 (XPath.root st) :: XPath.ctxStack st ∧
      XPath.root st' = XPath.root st
  | _ => True
  end.
Proof.
  destruct (query h fuel ast st) as [[v st']| |] eqn:E; [|done..].
  unfold query in E.
  apply bind_inv in E as (r & st1 & E1 & E). injection E1 as <- <-.
  apply bind_inv in E as ([] & st2 & E2 & E). injection E2 as <-.
  apply bind_inv in E as ([] & st3 & E3 & E). apply KC_visit in E3 as [C3 R3].
  apply bind_inv in E as (result & st4 & E4 & E). apply KC_popDefined in E4 as [C4 R4].
  apply bind_inv in E as ([] & st5 & E5 & E). injection E as _ <-.
  unfold endComputation in E5.
  apply bind_inv in E5 as (ds & st6 & E6 & E5). injection E6 as <- <-.
  destruct (XPath.dataStack st4) eqn:Eds; [|done]. injection E5 as <-.
  cbn in *. by rewrite C4, C3, R4, R3.
Qed.
End keeps_context_visit.

(** ** Numeric predicates *)

Section numeric_predicate.
  Context `{Builtins}.
  Variable h : Store.

Lemma nthOnly_cons {A} k (x : A) l :
  nthOnly k (x :: l) = if k =? 1 then [x] else nthOnly (k - 1) l.
Proof.
  unfold nthOnly. destruct (Z.eqb_spec k 1) as [->|Hk]; [done|].
  destruct (Z.leb_spec 1 k), (Z.leb_spec 1 (k - 1)); try lia; [|done].
  replace (Z.to_nat (k - 1)) with (S (Z.to_nat (k - 1 - 1))) by lia. done.
Qed.

Lemma filterPartition_nth f k partition size pos r cs ds :
  filterPartition (visit h (S f)) (NumberNode (Js.ofZ k)) partition size pos
    (XPath.mk r cs ds)
  = Ok (nthOnly (k - Z.of_nat pos) partition, XPath.mk r cs ds).
Proof.
  revert pos. induction partition as [|x l IH]; intros pos.
  - unfold nthOnly. by destruct (1 <=? _).
  - cbn [filterPartition]. run. rewrite visit_number. unfold evaluatePredicateExpr.
    run. rewrite IH.
    change (Js.ofNat (S pos)) with (Js.ofZ (Z.of_nat (S pos))).
    rewrite eqb_ofZ, nthOnly_cons.
    replace (k - Z.of_nat pos - 1) with (k - Z.of_nat (S pos)) by lia.
    destruct (Z.eqb_spec k (Z.of_nat (S pos))) as [->|Hk].
    + replace (Z.of_nat (S pos) - Z.of_nat pos =? 1) with true
        by (symmetry; apply Z.eqb_eq; lia).
      replace (Z.of_nat (S pos) - Z.of_nat (S pos)) with 0 by lia. done.
    + by replace (k - Z.of_nat pos =? 1) with false by (symmetry; apply Z.eqb_neq; lia).
Qed.

Lemma filterPartitions_nth f k partitions r cs ds :
  filterPartitions (visit h (S f)) (NumberNode (Js.ofZ k)) partitions
    (XPath.mk r cs ds)
  = Ok (map (nthOnly k) partitions, XPath.mk r cs ds).
Proof.
  induction partitions as [|p ps IH]; [done|].
  cbn [filterPartitions]. unfold mbind at 1, StateM_bind at 1.
  rewrite filterPartition_nth. change (Z.of_nat 0) with 0. rewrite Z.sub_0_r.
  unfold mbind at 1, StateM_bind at 1. rewrite IH. reflexivity.
Qed.

(** X9.  A predicate that is the number [k] keeps, of every partition put
    in the order of the axis, the node at the position [k] alone, and no
    node of a partition that has no such position; the node set pushed
    holds the nodes kept, in document order. *)
Theorem numeric_predicate_selects (f : nat) (k : Z) (order : DocumentOrder)
    (v : XValue) (arr : list XNodeSet) (r : NodeId) (cs : list XContext)
    (ds : list XData) :
  visit h (S (S f)) (PredicateNode (NumberNode (Js.ofZ k)) order None)
    (XPath.mk r cs (mkData XNodeset v (Some arr) :: ds))
  = let kept := map (nthOnly k) (reorderNodesetArray h arr order) in
    Ok (tt, XPath.mk r cs
              (mkData XNodeset (VNodeset (sortNodeset h (setOfList (concat kept))))
                 (Some (filter (λ p, negb (isEmpty p)) kept)) :: ds)).
Proof.
  cbn [visit visitBody]. unfold visitPredicateNode. run. tidy.
  rewrite filterPartitions_nth. reflexivity.
Qed.
End numeric_predicate.

(** ** Siblings *)

Section siblings.
  Variable h : Store.

Lemma addPassing_all ids :
  NoDup ids → Forall (λ c, is_Some (h !! c)) ids →
  addPassing h (kindTest nodeKindTest) ids [] = Ok ids.
Proof.
  intros Hnd Hall.
  rewrite (addPassing_spec h _ (λ _, true)); [|apply decides_kindTest_node|done].
  rewrite filter_passes_true by done. f_equal. by apply setOfList_NoDup.
Qed.

(** X10.  For a node that is the child at the index [i] of its parent,
    [preceding-sibling::node()] gives the children before it, the nearest
    first, [following-sibling::node()] the children after it in their
    order: with the node between them they are the children of the
    parent. *)
Theorem sibling_axes_split (n p : NodeId) (nd pn : RNode) (i : nat) :
  h !! n = Some nd →
  isAttribute nd || isNamespace nd || isRoot nd = false →
  parent nd = Some p →
  index nd = Idx (Z.of_nat i) →
  h !! p = Some pn →
  children pn !! i = Some n →
  NoDup (children pn) →
  Forall (λ c, is_Some (h !! c)) (children pn) →
  ∃ before after,
    s0PrecedingSiblingKindTest h n nodeKindTest = Ok (single before) ∧
    s0FollowingSiblingKindTest h n nodeKindTest = Ok (single after) ∧
    rev before ++ n :: after = children pn.
Proof.
  intros Hn Hk Hp Hi Hpn Hc Hnd Hall.
  exists (rev (take i (children pn))), (drop (S i) (children pn)).
  assert (Hlen : (i < List.length (children pn))%nat) by by eapply lookup_lt_Some.
  split; [|split].
  - unfold s0PrecedingSiblingKindTest, s0PrecedingSibling, getNode.
    rewrite Hn. cbn [mbind Result_bind]. unfold findPrecedingSibling.
    rewrite Hk, Hp. unfold getNode. rewrite Hpn. cbn [mbind Result_bind].
    rewrite Hi. cbn [indexPlus]. unfold siblingsDownFrom.
    destruct (Z.ltb_spec (Z.of_nat i + -1) 0) as [H0|H0].
    + assert (i = 0%nat) as -> by lia. cbn. reflexivity.
    + destruct (Z.leb_spec (Z.of_nat (List.length (children pn))) (Z.of_nat i + -1));
        [lia|].
      replace (S (Z.to_nat (Z.of_nat i + -1))) with i by lia.
      cbn [mbind Result_bind]. rewrite addPassing_all; [done|..].
      * apply NoDup_ListNoDup, NoDup_rev, NoDup_ListNoDup.
        eapply sublist_NoDup; [done|]. apply sublist_take.
      * apply Forall_rev, Forall_take, Hall.
  - unfold s0FollowingSiblingKindTest, s0FollowingSibling, getNode.
    rewrite Hn. cbn [mbind Result_bind]. unfold findFollowingSibling.
    rewrite Hk, Hp. unfold getNode. rewrite Hpn. cbn [mbind Result_bind].
    rewrite Hi. cbn [indexPlus]. unfold childrenFrom.
    destruct (Z.ltb_spec (Z.of_nat i + 1) 0); [lia|].
    replace (Z.to_nat (Z.of_nat i + 1)) with (S i) by lia.
    cbn [mbind Result_bind]. rewrite addPassing_all; [done|..].
    + eapply sublist_NoDup; [done|]. apply sublist_drop.
    + apply Forall_drop, Hall.
  - rewrite rev_involutive. rewrite <- (take_drop_middle _ _ _ Hc) at 3. done.
Qed.
End siblings.

(** The element [c] of [<a><b/><c/><d/></a>]: [b] is before it and [d]
    after it. *)
Lemma sibling_axes_split_witness :
  ∃ root st pn,
    parseXml 50 "<a><b/><c/><d/></a>" defaultConfig = Ok (root, st) ∧
    XmlParser.heap st !! 3%nat = Some pn ∧
    children pn = [4; 5; 6]%nat ∧
    ∃ before after,
      s0PrecedingSiblingKindTest (XmlParser.heap st) 5 nodeKindTest
      = Ok (single before) ∧
      s0FollowingSiblingKindTest (XmlParser.heap st) 5 nodeKindTest
      = Ok (single after) ∧
      rev before ++ 5%nat :: after = children pn.
Proof.
  eexists _, _, _. split; [vm_compute; reflexivity|]. split; [reflexivity|].
  split; [reflexivity|].
  eapply (sibling_axes_split _ 5%nat 3%nat _ _ 1%nat).
  - reflexivity.
  - reflexivity.
  - reflexivity.
  - reflexivity.
  - reflexivity.
  - reflexivity.
  - apply (bool_decide_unpack _). vm_compute. exact I.
  - repeat constructor; vm_compute; eauto.
Defined.

(** ** The parser links parents and children *)

Section links.
  Implicit Types (h : Store) (nd p : NodeId).

Lemma keepsIndices_refl h : keepsIndices h h.
Proof. intros id n Hn. eauto. Qed.

Lemma keepsIndices_trans h1 h2 h3 :
  keepsIndices h1 h2 → keepsIndices h2 h3 → keepsIndices h1 h3.
Proof.
  intros H1 H2 id n Hn. destruct (H1 _ _ Hn) as (n' & Hn' & E1).
  destruct (H2 _ _ Hn') as (n'' & Hn'' & E2). exists n''. split; [done|congruence].
Qed.

Lemma keepsIndices_But nd h h' : keepsIndices h h' → keepsIndicesBut nd h h'.
Proof. intros Hk id n _. apply Hk. Qed.

Lemma keepsIndices_detached h h' nd :
  keepsIndices h h' → detached h nd → detached h' nd.
Proof.
  intros Hk (n & Hn & Hi). destruct (Hk _ _ Hn) as (n' & Hn' & E).
  exists n'. split; [done|]. by rewrite E.
Qed.

Lemma detached_not_child h nd p pn i :
  linked h → detached h nd → h !! p = Some pn → children pn !! i ≠ Some nd.
Proof.
  intros Hl (n & Hn & Hi) Hp Hc. destruct (Hl _ _ _ _ Hp Hc) as (cn & Hcn & _ & E).
  rewrite Hn in Hcn. injection Hcn as <-. by eapply Hi.
Qed.

(** An update that keeps the links of every node. *)
Lemma linked_update h id f :
  LinkPreserving f → linked h → linked (update id f h) ∧ keepsIndices h (update id f h).
Proof.
  intros Hf Hl. assert (Hk : ∀ k n, h !! k = Some n →
    ∃ n', update id f h !! k = Some n' ∧ children n' = children n ∧
          parent n' = parent n ∧ index n' = index n).
  { intros k n Hn. unfold update. destruct (decide (k = id)) as [->|Hne].
    - exists (f n). rewrite list_lookup_alter_eq, Hn. split; [done|apply Hf].
    - exists n. by rewrite list_lookup_alter_ne. }
  split.
  - intros p pn' i c Hp Hc.
    assert (∃ pn, h !! p = Some pn ∧ children pn = children pn') as (pn & Hpn & Ec).
    { unfold update in Hp. destruct (decide (p = id)) as [->|Hne].
      - rewrite list_lookup_alter_eq in Hp. destruct (h !! id) as [x|] eqn:Ex; [|done].
        injection Hp as <-. exists x. split; [done|]. symmetry. apply Hf.
      - rewrite list_lookup_alter_ne in Hp by done. eauto. }
    rewrite <- Ec in Hc. destruct (Hl _ _ _ _ Hpn Hc) as (cn & Hcn & Ep & Ei).
    destruct (Hk _ _ Hcn) as (cn' & Hcn' & _ & Ep' & Ei').
    exists cn'. split; [done|]. split; congruence.
  - intros k n Hn. destruct (Hk _ _ Hn) as (n' & Hn' & _ & _ & E). eauto.
Qed.

(** A new node without children. *)
Lemma linked_alloc h n :
  children n = [] → linked h →
  linked (h ++ [n]) ∧ keepsIndices h (h ++ [n]).
Proof.
  intros Hc Hl. split.
  - intros p pn i c Hp Hi.
    apply lookup_app_Some in Hp as [Hp|[_ Hp]].
    + destruct (Hl _ _ _ _ Hp Hi) as (cn & Hcn & E). exists cn.
      split; [by apply lookup_app_l_Some|done].
    + destruct (p - length h)%nat; [|done]. injection Hp as <-. by rewrite Hc in Hi.
  - intros id x Hx. exists x. split; [by apply lookup_app_l_Some|done].
Qed.

(** A change of the [parent] of a detached node. *)
Lemma linked_set_parent h nd (p : option NodeId) :
  linked h → detached h nd →
  linked (update nd (set_parent p) h) ∧ keepsIndices h (update nd (set_parent p) h).
Proof.
  intros Hl Hd. assert (Hk : ∀ k n, h !! k = Some n →
    ∃ n', update nd (set_parent p) h !! k = Some n' ∧ children n' = children n ∧
          index n' = index n ∧ (k ≠ nd → parent n' = parent n)).
  { intros k n Hn. unfold update. destruct (decide (k = nd)) as [->|Hne].
    - exists (set_parent p n). rewrite list_lookup_alter_eq, Hn. by destruct n as [? ? ? []].
    - exists n. by rewrite list_lookup_alter_ne. }
  split.
  - intros q qn' i c Hq Hc.
    assert (∃ qn, h !! q = Some qn ∧ children qn = children qn') as (qn & Hqn & Ec).
    { unfold update in Hq. destruct (decide (q = nd)) as [->|Hne].
      - rewrite list_lookup_alter_eq in Hq. destruct (h !! nd) as [x|] eqn:Ex; [|done].
        injection Hq as <-. exists x. split; [done|]. by destruct x as [? ? ? []].
      - rewrite list_lookup_alter_ne in Hq by done. eauto. }
    rewrite <- Ec in Hc. destruct (Hl _ _ _ _ Hqn Hc) as (cn & Hcn & Ep & Ei).
    assert (c ≠ nd).
    { intros ->. exact (detached_not_child _ _ _ _ _ Hl Hd Hqn Hc). }
    destruct (Hk _ _ Hcn) as (cn' & Hcn' & _ & Ei' & Ep').
    exists cn'. split; [done|]. split; [rewrite Ep'; done|congruence].
  - intros k n Hn. destruct (Hk _ _ Hn) as (n' & Hn' & _ & E & _). eauto.
Qed.
Lemma children_set_children c n :
  children (set_children c n) = if isParent n then c else children n.
Proof.
  destruct n as [? ? ? []]; try reflexivity;
    match goal with
    | x : ElementNode.t |- _ => destruct x
    | x : RootNode.t |- _ => destruct x
    end; reflexivity.
Qed.

Lemma children_not_parent n : isParent n = false → children n = [].
Proof. destruct n as [? ? ? []]; done. Qed.

(** [setParent]: the detached node [nd] becomes the last child of [p]. *)
Lemma linked_attach h nd p pn :
  linked h → detached h nd → h !! p = Some pn →
  let h1 := update p (set_children (children pn ++ [nd])) h in
  let h2 := update nd (set_index (Idx (Z.of_nat (S (length (children pn))) - 1))) h1 in
  let h3 := update nd (set_parent (Some p)) h2 in
  linked h3 ∧ keepsIndicesBut nd h h3.
Proof.
  intros Hl Hd Hp h1 h2 h3.
  set (len := length (children pn)) in *.
  set (F := λ k n,
         let n1 := if decide (k = p) then set_children (children pn ++ [nd]) n else n in
         if decide (k = nd)
         then set_parent (Some p) (set_index (Idx (Z.of_nat (S len) - 1)) n1)
         else n1).
  assert (H3 : ∀ k, h3 !! k = F k <$> h !! k).
  { intros k. unfold h3, h2, h1, update, F. cbv zeta.
    destruct (decide (k = nd)) as [->|Hnd].
    - rewrite !list_lookup_alter_eq.
      destruct (decide (nd = p)) as [->|Hne].
      + rewrite list_lookup_alter_eq. by destruct (h !! p).
      + rewrite list_lookup_alter_ne by done. by destruct (h !! nd).
    - rewrite !list_lookup_alter_ne by done.
      destruct (decide (k = p)) as [->|Hne].
      + by rewrite list_lookup_alter_eq.
      + rewrite list_lookup_alter_ne by done. by destruct (h !! k). }
  assert (HF : ∀ k n, (k ≠ nd → parent (F k n) = parent n ∧ index (F k n) = index n)
                      ∧ (k ≠ p → children (F k n) = children n)).
  { intros k n. unfold F. cbv zeta.
    destruct (decide (k = nd)), (decide (k = p)); split; try done;
      by destruct n as [? ? ? []]. }
  split.
  - intros q qn' i c Hq Hc. rewrite H3 in Hq.
    destruct (h !! q) as [qn|] eqn:Hqn; [|done]. injection Hq as <-.
    destruct (decide (q = p)) as [->|Hqp].
    + assert (qn = pn) as -> by congruence.
      assert (Hkids : children (F p pn)
                      = if isParent pn then children pn ++ [nd] else children pn).
      { unfold F. cbv zeta. destruct (decide (p = p)); [|done].
        destruct (decide (p = nd)); [|apply children_set_children].
        rewrite <- children_set_children. by destruct (set_children _ pn) as [? ? ? []]. }
      rewrite Hkids in Hc. destruct (isParent pn) eqn:Epar.
      * apply lookup_app_Some in Hc as [Hc|[Hge Hc]].
        -- destruct (Hl _ _ _ _ Hp Hc) as (cn & Hcn & Ep & Ei).
           assert (c ≠ nd).
           { intros ->. exact (detached_not_child _ _ _ _ _ Hl Hd Hp Hc). }
           exists (F c cn). rewrite H3, Hcn. split; [done|].
           destruct (HF c cn) as [[-> ->] _]; done.
        -- destruct (i - length (children pn))%nat eqn:Ei; [|done]. injection Hc as <-.
           destruct Hd as (n & Hn & _). exists (F nd n). rewrite H3, Hn.
           split; [done|]. unfold F. cbv zeta. destruct (decide (nd = nd)); [|done].
           cbn. split; [done|]. f_equal. unfold len. lia.
      * by rewrite children_not_parent in Hc.
    + destruct (HF q qn) as [_ Hch]. rewrite Hch in Hc by done.
      destruct (Hl _ _ _ _ Hqn Hc) as (cn & Hcn & Ep & Ei).
      assert (c ≠ nd).
      { intros ->. exact (detached_not_child _ _ _ _ _ Hl Hd Hqn Hc). }
      exists (F c cn). rewrite H3, Hcn. split; [done|].
      destruct (HF c cn) as [[-> ->] _]; done.
  - intros k n Hk Hn. exists (F k n). rewrite H3, Hn. split; [done|].
    by destruct (HF k n) as [[_ ->] _].
Qed.
End links.

Section linked_monad.
  Context {L : Type} `{Lexer L}.
  Import XmlParser.
  Local Abbreviation M := (StateM (XmlParser.t L)).

Lemma Linked_ret {A} (a : A) : Linked (L:=L) (mret a).
Proof. intros st a' st' [= _ <-] Hl. split; [done|apply keepsIndices_refl]. Qed.

Lemma Linked_bind {A B} (m : M A) (f : A → M B) :
  Linked m → (∀ a, Linked (f a)) → Linked (m ≫= f).
Proof.
  intros Hm Hf st b st' E Hl. apply bind_inv in E as (a & st1 & E1 & E2).
  destruct (Hm _ _ _ E1 Hl) as [Hl1 Hk1]. destruct (Hf _ _ _ _ E2 Hl1) as [Hl2 Hk2].
  split; [done|by eapply keepsIndices_trans].
Qed.

Lemma Linked_gets {A} (f : XmlParser.t L → A) : Linked (gets f).
Proof. intros st a st' [= _ <-] Hl. split; [done|apply keepsIndices_refl]. Qed.

Lemma Linked_throw {A} e : Linked (L:=L) (@throw _ A e).
Proof. intros st a st'. done. Qed.

Lemma Linked_outOfFuel {A} : Linked (L:=L) (@outOfFuel _ A).
Proof. intros st a st'. done. Qed.

Lemma Linked_modify (f : XmlParser.t L → XmlParser.t L) :
  (∀ st, heap (f st) = heap st) → Linked (modify f).
Proof.
  intros Hf st a st' [= _ <-] Hl. rewrite Hf. split; [done|apply keepsIndices_refl].
Qed.

Lemma Linked_when b (m : M unit) : Linked m → Linked (when_ b m).
Proof. destruct b; [done|]. intros _. apply Linked_ret. Qed.

Lemma Linked_while fuel (c : M bool) (b : M unit) :
  Linked c → Linked b → Linked (while_ fuel c b).
Proof.
  intros Hc Hb. induction fuel as [|fuel IH]; cbn; [apply Linked_outOfFuel|].
  apply Linked_bind; [done|]. intros [|]; [|apply Linked_ret].
  apply Linked_bind; [done|]. intros _. done.
Qed.

Lemma Linked_doWhile fuel (b : M unit) (c : M bool) :
  Linked b → Linked c → Linked (doWhile fuel b c).
Proof. intros. apply Linked_bind; [done|]. intros _. by apply Linked_while. Qed.

Lemma Linked_liftLexer {A} (m : StateM L A) : Linked (liftLexer lexer set_lexer m).
Proof.
  intros st a st'. unfold liftLexer. destruct (m (lexer st)) as [[a' lx]| |]; [|done..].
  intros [= _ <-] Hl. split; [done|apply keepsIndices_refl].
Qed.

Lemma Linked_newNode n : children n = [] → Linked (L:=L) (newNode n).
Proof.
  intros Hc st a st'. unfold newNode. cbn. intros [= _ <-] Hl. cbn.
  by apply linked_alloc.
Qed.

Lemma Linked_readNode id : Linked (L:=L) (readNode id).
Proof.
  intros st a st'. unfold readNode. destruct (heap st !! id); [|done].
  intros [= _ <-] Hl. split; [done|apply keepsIndices_refl].
Qed.

Lemma Linked_updNode id f : LinkPreserving f → Linked (L:=L) (updNode id f).
Proof. intros Hf st a st' [= _ <-] Hl. cbn. by apply linked_update. Qed.

Lemma Linked_getParent : Linked (L:=L) getParent.
Proof.
  intros st a st'. unfold getParent. destruct (stack st); [done|].
  intros [= _ <-] Hl. split; [done|apply keepsIndices_refl].
Qed.

(** *** Updates that keep the links *)

Lemma LP_setPosition p : LinkPreserving (setPosition p).
Proof. intros [? ? ? []]; done. Qed.

Lemma LP_updElement f :
  (∀ e, ElementNode.children (f e) = ElementNode.children e) →
  LinkPreserving (updElement f).
Proof. intros Hf [? ? ? []]; cbn; done. Qed.

Lemma LP_updRoot f :
  (∀ r, RootNode.children (f r) = RootNode.children r) →
  LinkPreserving (updRoot f).
Proof. intros Hf [? ? ? []]; cbn; done. Qed.

Lemma LP_updAttribute f : LinkPreserving (updAttribute f).
Proof. intros [? ? ? []]; done. Qed.

Lemma LP_updXMLDecl f : LinkPreserving (updXMLDecl f).
Proof. intros [? ? ? []]; done. Qed.

(** *** Attaching a detached node *)

Lemma Attaches_Linked nd {A} (m : M A) : Linked m → Attaches nd m.
Proof.
  intros Hm st a st' E Hl _. destruct (Hm _ _ _ E Hl) as [Hl' Hk].
  split; [done|by apply keepsIndices_But].
Qed.

Lemma Attaches_bind nd {A B} (m : M A) (f : A → M B) :
  Linked m → (∀ a, Attaches nd (f a)) → Attaches nd (m ≫= f).
Proof.
  intros Hm Hf st b st' E Hl Hd. apply bind_inv in E as (a & st1 & E1 & E2).
  destruct (Hm _ _ _ E1 Hl) as [Hl1 Hk1].
  destruct (Hf _ _ _ _ E2 Hl1 (keepsIndices_detached _ _ _ Hk1 Hd)) as [Hl2 Hk2].
  split; [done|]. intros id n Hne Hn. destruct (Hk1 _ _ Hn) as (n1 & Hn1 & E).
  destruct (Hk2 _ _ Hne Hn1) as (n2 & Hn2 & E'). exists n2. split; [done|congruence].
Qed.

Lemma Attaches_setParent nd : Attaches (L:=L) nd (setParent nd).
Proof.
  intros st [] st' E Hl Hd. unfold setParent in E.
  apply bind_inv in E as (p & st1 & E1 & E).
  unfold getParent in E1. destruct (stack st) as [|top ?]; [done|].
  injection E1 as <- <-.
  apply bind_inv in E as (pn & st2 & E2 & E).
  unfold readNode in E2. destruct (heap st !! top) as [x|] eqn:Ep; [|done].
  injection E2 as <- <-. cbv zeta in E.
  apply bind_inv in E as ([] & st3 & E3 & E). injection E3 as <-.
  apply bind_inv in E as ([] & st4 & E4 & E). injection E4 as <-.
  injection E as <-. cbn. by apply linked_attach.
Qed.

Lemma Attaches_then nd {A B} (m : M A) (f : A → M B) :
  Attaches nd m → (∀ a, Linked (f a)) → Attaches nd (m ≫= f).
Proof.
  intros Hm Hf st b st' E Hl Hd. apply bind_inv in E as (a & st1 & E1 & E2).
  destruct (Hm _ _ _ E1 Hl Hd) as [Hl1 Hk1]. destruct (Hf _ _ _ _ E2 Hl1) as [Hl2 Hk2].
  split; [done|]. intros id n Hne Hn. destruct (Hk1 _ _ Hne Hn) as (n1 & Hn1 & E).
  destruct (Hk2 _ _ Hn1) as (n2 & Hn2 & E'). exists n2. split; [done|congruence].
Qed.

Lemma Attaches_set_parent nd p : Attaches (L:=L) nd (updNode nd (set_parent p)).
Proof.
  intros st [] st' [= <-] Hl Hd. cbn.
  destruct (linked_set_parent _ _ p Hl Hd) as [Hl' Hk].
  split; [done|by apply keepsIndices_But].
Qed.

(** A new node, detached until the method attaches it. *)
Lemma Linked_newNode_attaches {A} n (f : NodeId → M A) :
  children n = [] → (∀ i, index n ≠ Idx i) →
  (∀ nd, Attaches nd (f nd)) → Linked (newNode n ≫= f).
Proof.
  intros Hc Hi Hf st a st' E Hl. apply bind_inv in E as (nd & st1 & E1 & E2).
  unfold newNode in E1. cbn in E1. injection E1 as <- <-.
  destruct (linked_alloc _ n Hc Hl) as [Hl1 Hk1].
  assert (Hd : detached (heap st ++ [n]) (length (heap st))).
  { exists n. split; [|done]. by rewrite lookup_app_r, Nat.sub_diag. }
  destruct (Hf _ _ _ _ E2 Hl1 Hd) as [Hl2 Hk2]. split; [done|].
  intros id x Hx. destruct (Hk1 _ _ Hx) as (x1 & Hx1 & E).
  assert (id ≠ length (heap st)).
  { apply lookup_lt_Some in Hx. lia. }
  destruct (Hk2 _ _ H0 Hx1) as (x2 & Hx2 & E'). exists x2. split; [done|congruence].
Qed.
End linked_monad.

Create HintDb linked.
#[export] Hint Resolve Linked_ret Linked_gets Linked_throw Linked_outOfFuel
  Linked_liftLexer Linked_readNode Linked_getParent : linked.

(** The updates of the parser methods: all but [set_children], [set_index]
    and [set_parent] keep the links. *)
Ltac link_preserving :=
  first
    [ apply LP_setPosition
    | apply LP_updAttribute
    | apply LP_updXMLDecl
    | apply LP_updElement; intros []; cbn; repeat case_match; reflexivity
    | apply LP_updRoot; intros []; cbn; repeat case_match; reflexivity ].

(** One step through a method body, for a method that attaches no node
    ([linked_step]) and for the rest of a method that has made the node
    [nd] and may attach it ([attaches_step]). *)
Ltac linked_step :=
  match goal with
  | |- Linked (mbind _ _) => apply Linked_bind; [|intros ?]
  | |- Linked (when_ _ _) => apply Linked_when
  | |- Linked (while_ _ _ _) => apply Linked_while
  | |- Linked (doWhile _ _ _) => apply Linked_doWhile
  | |- Linked (modify _) => apply Linked_modify; intros ?; reflexivity
  | |- Linked (newNode _) => apply Linked_newNode; reflexivity
  | |- Linked (updNode _ _) => apply Linked_updNode; link_preserving
  | |- Linked (if ?b then _ else _) => destruct b
  | |- Linked (match ?x with _ => _ end) => destruct x
  | |- Linked _ => solve [eauto with linked]
  end.
Ltac links := cbv zeta; repeat (linked_step; cbv zeta).

Ltac attaches_step :=
  match goal with
  | |- Attaches ?nd (setParent ?nd) => apply Attaches_setParent
  | |- Attaches ?nd (mbind _ (setParent ?nd)) =>
      apply Attaches_then; [apply Attaches_setParent|intros ?; links]
  | |- Attaches ?nd (mbind _ (updNode ?nd (set_parent _))) =>
      apply Attaches_then; [apply Attaches_set_parent|intros ?; links]
  | |- Attaches _ (mbind _ _) => apply Attaches_bind; [links|intros ?]
  | |- Attaches _ (if ?b then _ else _) => destruct b
  | |- Attaches _ (match ?x with _ => _ end) => destruct x
  | |- Attaches _ _ => apply Attaches_Linked; links
  end.
Ltac attaches := cbv zeta; repeat (attaches_step; cbv zeta).

(** A method that makes a node and attaches it: the steps before the
    node is made, then the rest. *)
Ltac linked_fresh :=
  cbv zeta;
  repeat match goal with
         | |- Linked (mbind _ (newNode _)) => fail 1
         | |- Linked (mbind _ _) => apply Linked_bind; [links|intros ?]; cbv zeta
         end;
  apply Linked_newNode_attaches; [reflexivity|done|intros ?; attaches].

Section linked_methods.
  Context {L : Type} `{Lexer L}.
  Import XmlParser.

Lemma Linked_error {A} tk msg : Linked (L:=L) (@error L A tk msg).
Proof. unfold error. links. Qed.
Lemma Linked_unreachable {A} msg : Linked (L:=L) (@unreachable L A msg).
Proof. unfold unreachable. links. Qed.
Lemma Linked_warn tk msg : Linked (L:=L) (warn tk msg).
Proof. unfold warn. links. Qed.
Lemma Linked_push nd : Linked (L:=L) (push nd).
Proof. unfold push. links. Qed.
Lemma Linked_pop : Linked (L:=L) pop.
Proof. unfold pop. links. Qed.
Lemma Linked_nextPos : Linked (L:=L) nextPos.
Proof. unfold nextPos. links. Qed.
Hint Resolve Linked_error Linked_unreachable Linked_warn Linked_push Linked_pop
  Linked_nextPos : linked.

Lemma Linked_advance : Linked (L:=L) advance.
Proof. unfold advance. links. Qed.
Hint Resolve Linked_advance : linked.

Lemma Linked_check ty : Linked (L:=L) (check ty).
Proof. unfold check. links. Qed.
Hint Resolve Linked_check : linked.

Lemma Linked_consume ty : Linked (L:=L) (consume ty).
Proof. unfold consume. links. Qed.
Lemma Linked_match ty : Linked (L:=L) (match_ ty).
Proof. unfold match_. links. Qed.
Hint Resolve Linked_consume Linked_match : linked.

Lemma Linked_resolveAttributes attrs tk : Linked (L:=L) (resolveAttributes attrs tk).
Proof. induction attrs as [|a attrs IH]; cbn; links. Qed.
Hint Resolve Linked_resolveAttributes : linked.

Lemma Linked_resolveNamespaces e tk :
  Linked (L:=L) (XmlParser_resolveNamespaces e tk).
Proof. unfold XmlParser_resolveNamespaces. links. Qed.
Hint Resolve Linked_resolveNamespaces : linked.

Lemma Linked_parseName b : Linked (L:=L) (parseName b).
Proof. unfold parseName. links. Qed.
Hint Resolve Linked_parseName : linked.

Lemma Linked_parseNamespace p : Linked (L:=L) (XmlParser_parseNamespace p).
Proof. unfold XmlParser_parseNamespace. links. Qed.
Hint Resolve Linked_parseNamespace : linked.

Lemma Linked_parseAttribute p : Linked (L:=L) (parseAttribute XmlParserC p).
Proof. unfold parseAttribute, XmlParser_parseAttribute, parseNamespace. links. Qed.
Hint Resolve Linked_parseAttribute : linked.
Lemma Linked_parsePI fuel b : Linked (L:=L) (parsePI fuel b).
Proof. unfold parsePI. linked_fresh. Qed.

Lemma Linked_parseText b : Linked (L:=L) (parseText b).
Proof. unfold parseText. linked_fresh. Qed.

Lemma Linked_parseComment : Linked (L:=L) parseComment.
Proof. unfold parseComment. linked_fresh. Qed.

Lemma Linked_parseDoctype : Linked (L:=L) parseDoctype.
Proof. unfold parseDoctype. links. Qed.
Hint Resolve Linked_parsePI Linked_parseText Linked_parseComment
  Linked_parseDoctype : linked.
Lemma Linked_parseXmlDecl fuel : Linked (L:=L) (parseXmlDecl XmlParserC fuel).
Proof.
  unfold parseXmlDecl.
  repeat match goal with
         | |- Linked (mbind _ (newNode _)) => fail 1
         | |- Linked (mbind _ _) => apply Linked_bind; [links|intros ?]; cbv zeta
         | |- Linked (if ?b then _ else _) => destruct b; [links|]
         end.
  apply Linked_newNode_attaches; [reflexivity|done|intros ?; attaches].
Qed.
Hint Resolve Linked_parseXmlDecl : linked.

Lemma Linked_misc pe fuel b : Linked pe → Linked (L:=L) (misc pe fuel b).
Proof. intros Hpe. unfold misc. links. Qed.
Hint Resolve Linked_misc : linked.

Lemma Linked_content pe fuel : Linked pe → Linked (L:=L) (content pe fuel).
Proof. intros Hpe. unfold content. links. Qed.
Lemma Linked_closingTag name : Linked (L:=L) (closingTag name).
Proof. unfold closingTag. links. Qed.
Hint Resolve Linked_content Linked_closingTag : linked.

Lemma Linked_handleContent pe fuel nd name :
  Linked pe → Linked (L:=L) (handleContent XmlParserC pe fuel nd name).
Proof. intros Hpe. unfold handleContent, XmlParser_handleContent. links. Qed.
Hint Resolve Linked_handleContent : linked.

Lemma Linked_elementAttribute nd : Linked (L:=L) (elementAttribute XmlParserC nd).
Proof. unfold elementAttribute. links. Qed.
Hint Resolve Linked_elementAttribute : linked.

Lemma Linked_elementStart fuel : Linked (L:=L) (elementStart XmlParserC fuel).
Proof. unfold elementStart. linked_fresh. Qed.
Hint Resolve Linked_elementStart : linked.

Lemma Linked_parseElementBody pe fuel :
  Linked pe → Linked (L:=L) (parseElementBody XmlParserC pe fuel).
Proof.
  intros Hpe. unfold parseElementBody, resolveNamespaces.
  apply Linked_bind; [links|intros [[nd tok] name]]. links.
Qed.

Lemma Linked_parseElement fuel : Linked (L:=L) (parseElement XmlParserC fuel).
Proof.
  induction fuel as [|fuel IH]; cbn; [apply Linked_outOfFuel|].
  by apply Linked_parseElementBody.
Qed.
Hint Resolve Linked_parseElement : linked.

Lemma Linked_miscS fuel : Linked (L:=L) (miscS XmlParserC fuel).
Proof. unfold miscS. links. Qed.
Hint Resolve Linked_miscS : linked.

Lemma Linked_parseProlog fuel : Linked (L:=L) (parseProlog XmlParserC fuel).
Proof. unfold parseProlog, XmlParser_parseProlog. links. Qed.
Hint Resolve Linked_parseProlog : linked.

Lemma Linked_parseDocument fuel : Linked (L:=L) (parseDocument XmlParserC fuel).
Proof. unfold parseDocument. links. Qed.

Lemma createRoot_linked (lx : L) cfg st :
  createRoot XmlParserC (newParser XmlParserC lx cfg) = Ok (tt, st) →
  linked (heap st).
Proof.
  intros E. vm_compute in E. injection E as <-. intros p pn i c Hp Hc.
  destruct p as [|[|[|p]]]; cbn in Hp; try injection Hp as <-; try done;
    by destruct i.
Qed.
Lemma linked_parentLinkOk h p pn c :
  linked h → h !! p = Some pn → c ∈ children pn → parentLinkOk h c = true.
Proof.
  intros Hl Hp Hc. apply list_elem_of_lookup_1 in Hc as [i Hi].
  destruct (Hl _ _ _ _ Hp Hi) as (cn & Hcn & Ep & Ei).
  unfold parentLinkOk. rewrite Hcn, Ep, Hp, Ei, Nat2Z.id.
  rewrite bool_decide_eq_true_2 by done. by destruct (Z.leb_spec 0 (Z.of_nat i)); [|lia].
Qed.

(** X11.  After a parse in XML mode that completes, whatever the lexer
    and the configuration, every node that a node of the tree lists among
    its children is linked to it: [c.parent] is the node and [c.index] the
    place of [c] in [children], so that [c.parent.children[c.index]] is
    [c]. *)
Theorem xml_parse_links_children (fuel : nat) (lx : L) (cfg : ParserConfig)
    (root : NodeId) (st : XmlParser.t L) :
  runParse XmlParserC fuel lx cfg = Ok (root, st) →
  ∀ p pn c, heap st !! p = Some pn → c ∈ children pn →
    parentLinkOk (heap st) c = true ∧
    ∃ cn i, heap st !! c = Some cn ∧ parent cn = Some p ∧
            index cn = Idx (Z.of_nat i) ∧ children pn !! i = Some c.
Proof.
  unfold runParse, parse. intros Hp.
  apply bind_inv in Hp as ([] & st0 & Hroot & Hp).
  apply createRoot_linked in Hroot.
  apply bind_inv in Hp as ([] & st1 & Hdoc & Hp). injection Hp as _ <-.
  destruct (Linked_parseDocument _ _ _ _ Hdoc Hroot) as [Hl _].
  intros p pn c Hpn Hc. split; [by eapply linked_parentLinkOk|].
  apply list_elem_of_lookup_1 in Hc as [i Hi].
  destruct (Hl _ _ _ _ Hpn Hi) as (cn & Hcn & Ep & Ei). eauto 10.
Qed.
End linked_methods.

(** The element [b] and the text [t] of [<a><b/>t</a>], the children of
    [a]. *)
Lemma xml_parse_links_children_witness :
  ∃ root st pn,
    parseXml 50 "<a><b/>t</a>" defaultConfig = Ok (root, st) ∧
    XmlParser.heap st !! 3%nat = Some pn ∧
    children pn = [4; 5]%nat ∧
    ∀ c, c ∈ children pn →
      parentLinkOk (XmlParser.heap st) c = true ∧
      ∃ cn i, XmlParser.heap st !! c = Some cn ∧ parent cn = Some 3%nat ∧
              index cn = Idx (Z.of_nat i) ∧ children pn !! i = Some c.
Proof.
  eexists _, _, _. split; [vm_compute; reflexivity|]. split; [reflexivity|].
  split; [reflexivity|]. intros c Hc.
  eapply (@xml_parse_links_children _ (lexerInstance XmlLexerC) 50
            (Lex.new "<a><b/>t</a>" defaultLexerConfig) defaultConfig).
  - vm_compute. reflexivity.
  - reflexivity.
  - exact Hc.
Defined.

(** ** Namespace declarations end with their element *)

Section scopes_monad.
  Context {L : Type} `{Lexer L}.
  Import XmlParser.
  Local Abbreviation M := (StateM (XmlParser.t L)).

Lemma KOS_Restores {A} (m : M A) : RestoresScope m → KeepsOuterScopes m.
Proof. intros Hm st a st' E Hd. rewrite (Hm _ _ _ E Hd). done. Qed.

Lemma KOS_ret {A} (a : A) : KeepsOuterScopes (L:=L) (mret a).
Proof. by intros st a' st' [= _ <-] Hd. Qed.

Lemma KOS_bind {A B} (m : M A) (f : A → M B) :
  KeepsOuterScopes m → (∀ a, KeepsOuterScopes (f a)) → KeepsOuterScopes (m ≫= f).
Proof.
  intros Hm Hf st b st' E Hd. apply bind_inv in E as (a & st1 & E1 & E2).
  destruct (Hm _ _ _ E1 Hd) as [H1 Hd1]. destruct (Hf _ _ _ _ E2 Hd1) as [H2 Hd2].
  split; [congruence|done].
Qed.

Lemma KOS_gets {A} (f : XmlParser.t L → A) : KeepsOuterScopes (gets f).
Proof. by intros st a st' [= _ <-] Hd. Qed.

Lemma KOS_throw {A} e : KeepsOuterScopes (L:=L) (@throw _ A e).
Proof. intros st a st'. done. Qed.

Lemma KOS_outOfFuel {A} : KeepsOuterScopes (L:=L) (@outOfFuel _ A).
Proof. intros st a st'. done. Qed.

Lemma KOS_modify (f : XmlParser.t L → XmlParser.t L) :
  (∀ st, currentScope (f st) = currentScope st) → KeepsOuterScopes (modify f).
Proof. intros Hf st a st' [= _ <-] Hd. by rewrite Hf. Qed.

Lemma KOS_insert (key : XmlParser.t L → string) nd :
  KeepsOuterScopes
    (modify (λ st, set_currentScope
                     (snd (NamespaceScopeTable.insert (key st) nd (currentScope st))) st)).
Proof.
  intros st a st' [= _ <-] Hd. cbn. unfold NamespaceScopeTable.insert.
  by destruct (JsMap.has _ _).
Qed.

Lemma KOS_when b (m : M unit) : KeepsOuterScopes m → KeepsOuterScopes (when_ b m).
Proof. destruct b; [done|]. intros _. apply KOS_ret. Qed.

Lemma KOS_while fuel (c : M bool) (b : M unit) :
  KeepsOuterScopes c → KeepsOuterScopes b → KeepsOuterScopes (while_ fuel c b).
Proof.
  intros Hc Hb. induction fuel as [|fuel IH]; cbn; [apply KOS_outOfFuel|].
  apply KOS_bind; [done|]. intros [|]; [|apply KOS_ret].
  apply KOS_bind; [done|]. intros _. done.
Qed.

Lemma KOS_doWhile fuel (b : M unit) (c : M bool) :
  KeepsOuterScopes b → KeepsOuterScopes c → KeepsOuterScopes (doWhile fuel b c).
Proof. intros. apply KOS_bind; [done|]. intros _. by apply KOS_while. Qed.

Lemma KOS_liftLexer {A} (m : StateM L A) :
  KeepsOuterScopes (liftLexer lexer set_lexer m).
Proof.
  intros st a st'. unfold liftLexer. destruct (m (lexer st)) as [[a' lx]| |]; [|done..].
  by intros [= _ <-] Hd.
Qed.

Lemma KOS_newNode n : KeepsOuterScopes (L:=L) (newNode n).
Proof. intros st a st'. unfold newNode. cbn. by intros [= _ <-] Hd. Qed.

Lemma KOS_readNode id : KeepsOuterScopes (L:=L) (readNode id).
Proof.
  intros st a st'. unfold readNode. destruct (heap st !! id); [|done].
  by intros [= _ <-] Hd.
Qed.

Lemma KOS_updNode id f : KeepsOuterScopes (L:=L) (updNode id f).
Proof. by intros st a st' [= _ <-] Hd. Qed.

Lemma KOS_getParent : KeepsOuterScopes (L:=L) getParent.
Proof.
  intros st a st'. unfold getParent. destruct (stack st); [done|].
  by intros [= _ <-] Hd.
Qed.
End scopes_monad.

Create HintDb scopes.
#[export] Hint Resolve KOS_ret KOS_gets KOS_throw KOS_outOfFuel KOS_liftLexer
  KOS_newNode KOS_readNode KOS_updNode KOS_getParent KOS_insert : scopes.

Ltac scopes_step :=
  match goal with
  | |- KeepsOuterScopes (mbind _ _) => apply KOS_bind; [|intros ?]
  | |- KeepsOuterScopes (when_ _ _) => apply KOS_when
  | |- KeepsOuterScopes (while_ _ _ _) => apply KOS_while
  | |- KeepsOuterScopes (doWhile _ _ _) => apply KOS_doWhile
  | |- KeepsOuterScopes (modify _) =>
      first [apply KOS_modify; intros ?; reflexivity
            |apply (KOS_insert (λ _, _))]
  | |- KeepsOuterScopes (if ?b then _ else _) => destruct b
  | |- KeepsOuterScopes (match ?x with _ => _ end) => destruct x
  | |- KeepsOuterScopes _ => solve [eauto with scopes]
  end.
Ltac scopes := cbv zeta; repeat (scopes_step; cbv zeta).

Section scopes_methods.
  Context {L : Type} `{Lexer L}.
  Import XmlParser.
  Local Abbreviation M := (StateM (XmlParser.t L)).

Lemma KOS_error {A} tk msg : KeepsOuterScopes (L:=L) (@error L A tk msg).
Proof. unfold error. scopes. Qed.
Lemma KOS_unreachable {A} msg : KeepsOuterScopes (L:=L) (@unreachable L A msg).
Proof. unfold unreachable. scopes. Qed.
Lemma KOS_warn tk msg : KeepsOuterScopes (L:=L) (warn tk msg).
Proof. unfold warn. scopes. Qed.
Lemma KOS_push nd : KeepsOuterScopes (L:=L) (push nd).
Proof. unfold push. scopes. Qed.
Lemma KOS_pop : KeepsOuterScopes (L:=L) pop.
Proof. unfold pop. scopes. Qed.
Lemma KOS_nextPos : KeepsOuterScopes (L:=L) nextPos.
Proof. unfold nextPos. scopes. Qed.
Hint Resolve KOS_error KOS_unreachable KOS_warn KOS_push KOS_pop KOS_nextPos : scopes.

Lemma KOS_advance : KeepsOuterScopes (L:=L) advance.
Proof. unfold advance. scopes. Qed.
Hint Resolve KOS_advance : scopes.

Lemma KOS_check ty : KeepsOuterScopes (L:=L) (check ty).
Proof. unfold check. scopes. Qed.
Hint Resolve KOS_check : scopes.

Lemma KOS_consume ty : KeepsOuterScopes (L:=L) (consume ty).
Proof. unfold consume. scopes. Qed.
Lemma KOS_match ty : KeepsOuterScopes (L:=L) (match_ ty).
Proof. unfold match_. scopes. Qed.
Hint Resolve KOS_consume KOS_match : scopes.

Lemma KOS_setParent nd : KeepsOuterScopes (L:=L) (setParent nd).
Proof. unfold setParent. scopes. Qed.
Hint Resolve KOS_setParent : scopes.

Lemma KOS_resolveAttributes attrs tk :
  KeepsOuterScopes (L:=L) (resolveAttributes attrs tk).
Proof. induction attrs as [|a attrs IH]; cbn; scopes. Qed.
Hint Resolve KOS_resolveAttributes : scopes.

Lemma KOS_resolveNamespaces e tk :
  KeepsOuterScopes (L:=L) (XmlParser_resolveNamespaces e tk).
Proof. unfold XmlParser_resolveNamespaces. scopes. Qed.
Hint Resolve KOS_resolveNamespaces : scopes.

Lemma KOS_parseName b : KeepsOuterScopes (L:=L) (parseName b).
Proof. unfold parseName. scopes. Qed.
Hint Resolve KOS_parseName : scopes.

Lemma KOS_parseNamespace p : KeepsOuterScopes (L:=L) (XmlParser_parseNamespace p).
Proof.
  unfold XmlParser_parseNamespace. cbv zeta.
  repeat match goal with
         | |- KeepsOuterScopes (mbind _ (gets currentScope)) => fail 1
         | |- KeepsOuterScopes (mbind _ _) => apply KOS_bind; [scopes|intros ?]; cbv zeta
         end.
  intros st nd st' E Hd.
  apply bind_inv in E as (scope & st1 & E1 & E). injection E1 as <- <-.
  destruct (NamespaceScopeTable.insert _ _ _) as [ins scope'] eqn:Ei.
  apply bind_inv in E as ([] & st2 & E2 & E). injection E2 as <-.
  assert (Hs : enclosingScope (NamespaceScopeTable.table scope')
               = enclosingScope (NamespaceScopeTable.table (currentScope st))
               ∧ NamespaceScopeTable.disabled scope' = false).
  { unfold NamespaceScopeTable.insert in Ei.
    destruct (JsMap.has _ _); by injection Ei as _ <-. }
  destruct Hs as [Hs Hd'].
  assert (Hk : ∀ b, KeepsOuterScopes (L:=L)
             ((if b : bool then mret tt
               else error a (Some "Duplicate namespace declaration found in element"));;
              modify (λ st, set_currentScope
                (snd (NamespaceScopeTable.insert
                        (if Js.truthy (if String.eqb (RName.lname a0) constants.XmlnsName
                                       then "" else RName.lname a0)
                         then if String.eqb (RName.lname a0) constants.XmlnsName
                              then "" else RName.lname a0
                         else constants.XmlnsName)
                        a7 (currentScope st))) st);;
              mret a7)) by (intros b; scopes).
  destruct (Hk ins _ _ _ E Hd') as [H1 H2]. split; [|done]. by rewrite H1.
Qed.
Hint Resolve KOS_parseNamespace : scopes.
Lemma KOS_parseAttribute p : KeepsOuterScopes (L:=L) (parseAttribute XmlParserC p).
Proof. unfold parseAttribute, XmlParser_parseAttribute, parseNamespace. scopes. Qed.
Hint Resolve KOS_parseAttribute : scopes.

Lemma KOS_parsePI fuel b : KeepsOuterScopes (L:=L) (parsePI fuel b).
Proof. unfold parsePI. scopes. Qed.
Lemma KOS_parseText b : KeepsOuterScopes (L:=L) (parseText b).
Proof. unfold parseText. scopes. Qed.
Lemma KOS_parseComment : KeepsOuterScopes (L:=L) parseComment.
Proof. unfold parseComment. scopes. Qed.
Lemma KOS_parseDoctype : KeepsOuterScopes (L:=L) parseDoctype.
Proof. unfold parseDoctype. scopes. Qed.
Hint Resolve KOS_parsePI KOS_parseText KOS_parseComment KOS_parseDoctype : scopes.

Lemma KOS_misc pe fuel b :
  KeepsOuterScopes pe → KeepsOuterScopes (L:=L) (misc pe fuel b).
Proof. intros Hpe. unfold misc. scopes. Qed.
Hint Resolve KOS_misc : scopes.

Lemma KOS_content pe fuel :
  KeepsOuterScopes pe → KeepsOuterScopes (L:=L) (content pe fuel).
Proof. intros Hpe. unfold content. scopes. Qed.
Lemma KOS_closingTag name : KeepsOuterScopes (L:=L) (closingTag name).
Proof. unfold closingTag. scopes. Qed.
Hint Resolve KOS_content KOS_closingTag : scopes.

Lemma KOS_handleContent pe fuel nd name :
  KeepsOuterScopes pe → KeepsOuterScopes (L:=L) (handleContent XmlParserC pe fuel nd name).
Proof. intros Hpe. unfold handleContent, XmlParser_handleContent. scopes. Qed.
Hint Resolve KOS_handleContent : scopes.

Lemma KOS_elementAttribute nd : KeepsOuterScopes (L:=L) (elementAttribute XmlParserC nd).
Proof. unfold elementAttribute. scopes. Qed.
Hint Resolve KOS_elementAttribute : scopes.

Lemma KOS_elementRest fuel :
  KeepsOuterScopes (L:=L)
    (startToken ← gets currentToken;
     name ← parseName true;
     nd ← newNode (newElementNode name);
     root ← gets rootNode;
     r ← readNode root;
     (match obj r with
      | RootB x =>
          when_ (negb (bool_decide (is_Some (RootNode.rootElement x))))
            (updNode root (updRoot (RootNode.set_rootElement (Some nd))))
      | _ => mret tt
      end);;
     setParent nd;;
     p ← nextPos;
     updNode nd (setPosition p);;
     while_ fuel (check TokenName) (elementAttribute XmlParserC nd);;
     mret (nd, startToken, name)).
Proof. scopes. Qed.

(** [parseElement] opens a scope, and ends by going back to the scope it
    started in. *)
Lemma RestoresScope_parseElementBody pe fuel :
  RestoresScope pe → RestoresScope (L:=L) (parseElementBody XmlParserC pe fuel).
Proof.
  intros Hpe%KOS_Restores st [] st' E Hd.
  unfold parseElementBody, elementStart, resolveNamespaces in E.
  rewrite bind_assoc in E.
  apply bind_inv in E as ([] & inner & E1 & E). injection E1 as <-.
  set (inner := set_currentScope _ st) in E.
  assert (Hi : enclosingScope (NamespaceScopeTable.table (currentScope inner))
               = Some (NamespaceScopeTable.table (currentScope st))
               ∧ NamespaceScopeTable.disabled (currentScope inner) = false).
  { unfold inner, NamespaceScopeTable.newScope. cbn. by rewrite Hd. }
  destruct Hi as [Hi Hdi]. clearbody inner.
  apply bind_inv in E as ([[nd tok] name] & st1 & E1 & E).
  destruct (KOS_elementRest _ _ _ _ E1 Hdi) as [H1 Hd1].
  apply bind_inv in E as (root & st2 & E2 & E). injection E2 as <- <-.
  apply bind_inv in E as ([] & st3 & E3 & E).
  destruct (KOS_resolveNamespaces _ _ _ _ _ E3 Hd1) as [H3 Hd3].
  apply bind_inv in E as ([] & st4 & E4 & E).
  destruct (KOS_handleContent _ _ _ _ Hpe _ _ _ E4 Hd3) as [H4 Hd4].
  apply bind_inv in E as (e & st5 & E5 & E).
  destruct (KOS_readNode _ _ _ _ E5 Hd4) as [H5 Hd5].
  apply bind_inv in E as ([] & st6 & E6 & E).
  destruct (KOS_updNode _ _ _ _ _ E6 Hd5) as [H6 Hd6].
  apply bind_inv in E as (r & st7 & E7 & E).
  destruct (KOS_readNode _ _ _ _ E7 Hd6) as [H7 Hd7].
  apply bind_inv in E as (closed & st8 & E8 & E). injection E8 as <- <-.
  apply bind_inv in E as ([] & st9 & E9 & E).
  assert (H9 : enclosingScope (NamespaceScopeTable.table (currentScope st9))
               = enclosingScope (NamespaceScopeTable.table (currentScope st7))
               ∧ NamespaceScopeTable.disabled (currentScope st9) = false).
  { revert E9. match goal with |- ?m st7 = _ → _ =>
      assert (Hm : KeepsOuterScopes (L:=L) m) by scopes end.
    intros E9. exact (Hm _ _ _ E9 Hd7). }
  destruct H9 as [H9 Hd9]. injection E as <-. cbn.
  unfold NamespaceScopeTable.backtrackScope. rewrite Hd9, H9, H7, H6, H5, H4, H3, H1, Hi.
  destruct (currentScope st) as [tb ds]. cbn in *. by subst ds.
Qed.

Lemma RestoresScope_parseElement fuel :
  RestoresScope (L:=L) (parseElement XmlParserC fuel).
Proof.
  induction fuel as [|fuel IH]; cbn; [by intros st a st'|].
  by apply RestoresScope_parseElementBody.
Qed.
End scopes_methods.

(** X12.  [parseElement] leaves the namespace scope as it found it: the
    prefixes that the attributes of the element, or of the elements in its
    content, have bound are bound no longer when the element has been
    parsed, and the prefixes bound before are bound as before. *)
Theorem element_scope_restored {L} `{Lexer L} (fuel : nat) (st st' : XmlParser.t L) :
  parseElement XmlParserC fuel st = Ok (tt, st') →
  NamespaceScopeTable.disabled (XmlParser.currentScope st) = false →
  XmlParser.currentScope st' = XmlParser.currentScope st
  ∧ ∀ prefix,
      NamespaceScopeTable.lookup prefix (XmlParser.currentScope st')
      = NamespaceScopeTable.lookup prefix (XmlParser.currentScope st).
Proof.
  intros E Hd. assert (Hs := RestoresScope_parseElement fuel _ _ _ E Hd).
  split; [done|]. intros prefix. by rewrite Hs.
Qed.

(** The parser at the start of the element [a], which binds [p], and
    after the element: [p] is not bound then. *)
Lemma element_scope_restored_witness :
  ∃ st st',
    beforeFirstElement "<a xmlns:p='u'><p:b/></a>" defaultConfig = Ok (true, st) ∧
    @parseElement _ (lexerInstance XmlLexerC) XmlParserC 50 st = Ok (tt, st') ∧
    NamespaceScopeTable.lookup "p" (XmlParser.currentScope st) = None ∧
    XmlParser.currentScope st' = XmlParser.currentScope st ∧
    ∀ prefix,
      NamespaceScopeTable.lookup prefix (XmlParser.currentScope st')
      = NamespaceScopeTable.lookup prefix (XmlParser.currentScope st).
Proof.
  eexists _, _. split; [vm_compute; reflexivity|].
  split; [vm_compute; reflexivity|]. split; [reflexivity|].
  eapply (@element_scope_restored _ (lexerInstance XmlLexerC) 50).
  - vm_compute. reflexivity.
  - reflexivity.
Defined.

(** ** Computations that keep a relation *)

Section keeps.
  Context {S : Type} (R : S → S → Prop).

Lemma Keeps_ret `{!Reflexive R} {A} (a : A) : Keeps R (mret a).
Proof. intros st a' st' [= _ <-]. reflexivity. Qed.

Lemma Keeps_bind `{!Transitive R} {A B} (m : StateM S A) (f : A → StateM S B) :
  Keeps R m → (∀ a, Keeps R (f a)) → Keeps R (m ≫= f).
Proof.
  intros Hm Hf st b st' E. apply bind_inv in E as (a & st1 & E1 & E2).
  etransitivity; [by eapply Hm|by eapply Hf].
Qed.

Lemma Keeps_gets `{!Reflexive R} {A} (f : S → A) : Keeps R (gets f).
Proof. intros st a st' [= _ <-]. reflexivity. Qed.

Lemma Keeps_throw {A} e : Keeps R (@throw S A e).
Proof. intros st a st'. done. Qed.

Lemma Keeps_outOfFuel {A} : Keeps R (@outOfFuel S A).
Proof. intros st a st'. done. Qed.

Lemma Keeps_modify (f : S → S) : (∀ st, R st (f st)) → Keeps R (modify f).
Proof. intros Hf st a st' [= _ <-]. apply Hf. Qed.

Lemma Keeps_when `{!Reflexive R} b (m : StateM S unit) : Keeps R m → Keeps R (when_ b m).
Proof. destruct b; [done|]. intros _. apply Keeps_ret. Qed.

Lemma Keeps_while `{!Reflexive R, !Transitive R} fuel (c : StateM S bool) (b : StateM S unit) :
  Keeps R c → Keeps R b → Keeps R (while_ fuel c b).
Proof.
  intros Hc Hb. induction fuel as [|fuel IH]; cbn; [apply Keeps_outOfFuel|].
  apply Keeps_bind; [done|]. intros [|]; [|apply Keeps_ret].
  apply Keeps_bind; [done|]. intros _. done.
Qed.

Lemma Keeps_doWhile `{!Reflexive R, !Transitive R} fuel (b : StateM S unit) (c : StateM S bool) :
  Keeps R b → Keeps R c → Keeps R (doWhile fuel b c).
Proof. intros. apply Keeps_bind; [done|]. intros _. by apply Keeps_while. Qed.
End keeps.

Create HintDb keeps.
#[export] Hint Resolve Keeps_ret Keeps_gets Keeps_throw Keeps_outOfFuel : keeps.

(** One step through a body: a bind, a loop or a branch; [tac] shows that
    an assignment keeps the relation. *)
Ltac keeps_step tac :=
  match goal with
  | |- Keeps _ (mbind _ _) => apply Keeps_bind; [typeclasses eauto| |intros ?]
  | |- Keeps _ (when_ _ _) => apply Keeps_when; [typeclasses eauto|]
  | |- Keeps _ (while_ _ _ _) => apply Keeps_while; [typeclasses eauto..| |]
  | |- Keeps _ (doWhile _ _ _) => apply Keeps_doWhile; [typeclasses eauto..| |]
  | |- Keeps _ (modify _) => apply Keeps_modify; intros ?; tac
  | |- Keeps _ (if ?b then _ else _) => destruct b
  | |- Keeps _ (match ?x with _ => _ end) => destruct x
  | |- Keeps _ _ => solve [eauto with keeps typeclass_instances]
  end.
Ltac keeps_with tac := cbv zeta; repeat (keeps_step tac; cbv zeta).

(** ** Every element opened is closed *)

Section stack.
  Context {L : Type} `{Lexer L}.
  Import XmlParser.
  Local Abbreviation M := (StateM (XmlParser.t L)).

#[export] Instance sameStack_refl : Reflexive (@sameStack L).
Proof. by intros st. Qed.

#[export] Instance sameStack_trans : Transitive (@sameStack L).
Proof. intros st1 st2 st3 [S1 R1] [S2 R2]. split; congruence. Qed.

Lemma sameStack_liftLexer {A} (m : StateM L A) :
  Keeps sameStack (liftLexer lexer set_lexer m).
Proof.
  intros st a st'. unfold liftLexer. destruct (m (lexer st)) as [[a' lx]| |]; [|done..].
  by intros [= _ <-].
Qed.

Lemma sameStack_newNode n : Keeps (@sameStack L) (newNode n).
Proof. intros st a st'. unfold newNode. cbn. by intros [= _ <-]. Qed.

Lemma sameStack_readNode id : Keeps (@sameStack L) (readNode id).
Proof.
  intros st a st'. unfold readNode. destruct (heap st !! id); [|done].
  by intros [= _ <-].
Qed.

Lemma sameStack_updNode id f : Keeps (@sameStack L) (updNode id f).
Proof. by apply Keeps_modify. Qed.

Lemma sameStack_getParent : Keeps (@sameStack L) getParent.
Proof.
  intros st a st'. unfold getParent. destruct (stack st); [done|]. by intros [= _ <-].
Qed.
End stack.

#[export] Hint Resolve sameStack_liftLexer sameStack_newNode sameStack_readNode
  sameStack_updNode sameStack_getParent : keeps.

Ltac same_stack := keeps_with ltac:(split; reflexivity).

Section stack_methods.
  Context {L : Type} `{Lexer L}.
  Import XmlParser.
  Local Abbreviation M := (StateM (XmlParser.t L)).

Lemma sameStack_error {A} tok msg : Keeps (@sameStack L) (@error L A tok msg).
Proof. unfold error. same_stack. Qed.
Lemma sameStack_unreachable {A} msg : Keeps (@sameStack L) (@unreachable L A msg).
Proof. unfold unreachable. same_stack. Qed.
Lemma sameStack_warn tok msg : Keeps (@sameStack L) (warn tok msg).
Proof. unfold warn. same_stack. Qed.
Lemma sameStack_nextPos : Keeps (@sameStack L) nextPos.
Proof. unfold nextPos. same_stack. Qed.
Hint Resolve sameStack_error sameStack_unreachable sameStack_warn sameStack_nextPos : keeps.

Lemma sameStack_advance : Keeps (@sameStack L) advance.
Proof. unfold advance. same_stack. Qed.
Hint Resolve sameStack_advance : keeps.

Lemma sameStack_check t : Keeps (@sameStack L) (check t).
Proof. unfold check. same_stack. Qed.
Hint Resolve sameStack_check : keeps.

Lemma sameStack_consume t : Keeps (@sameStack L) (consume t).
Proof. unfold consume. same_stack. Qed.
Lemma sameStack_match t : Keeps (@sameStack L) (match_ t).
Proof. unfold match_. same_stack. Qed.
Hint Resolve sameStack_consume sameStack_match : keeps.

Lemma sameStack_setParent nd : Keeps (@sameStack L) (setParent nd).
Proof. unfold setParent. same_stack. Qed.
Hint Resolve sameStack_setParent : keeps.

Lemma sameStack_resolveAttributes attrs tok :
  Keeps (@sameStack L) (resolveAttributes attrs tok).
Proof. induction attrs as [|a attrs IH]; cbn; same_stack. Qed.
Hint Resolve sameStack_resolveAttributes : keeps.

Lemma sameStack_resolveNamespaces cls nd tok :
  Keeps (@sameStack L) (resolveNamespaces cls nd tok).
Proof.
  unfold resolveNamespaces, XmlParser_resolveNamespaces, HtmlParser_resolveNamespaces.
  destruct cls; same_stack.
Qed.
Hint Resolve sameStack_resolveNamespaces : keeps.

Lemma sameStack_parseName b : Keeps (@sameStack L) (parseName b).
Proof. unfold parseName. same_stack. Qed.
Hint Resolve sameStack_parseName : keeps.

Lemma sameStack_parseNamespace cls p : Keeps (@sameStack L) (parseNamespace cls p).
Proof.
  unfold parseNamespace, XmlParser_parseNamespace, HtmlParser_parseNamespace.
  destruct cls; same_stack.
Qed.
Hint Resolve sameStack_parseNamespace : keeps.

Lemma sameStack_parseAttribute cls p : Keeps (@sameStack L) (parseAttribute cls p).
Proof.
  unfold parseAttribute, XmlParser_parseAttribute, HtmlParser_parseAttribute.
  destruct cls; same_stack.
Qed.
Hint Resolve sameStack_parseAttribute : keeps.

Lemma sameStack_parsePI fuel b : Keeps (@sameStack L) (parsePI fuel b).
Proof. unfold parsePI. same_stack. Qed.
Lemma sameStack_parseText b : Keeps (@sameStack L) (parseText b).
Proof. unfold parseText. same_stack. Qed.
Lemma sameStack_parseComment : Keeps (@sameStack L) parseComment.
Proof. unfold parseComment. same_stack. Qed.
Lemma sameStack_parseDoctype : Keeps (@sameStack L) parseDoctype.
Proof. unfold parseDoctype. same_stack. Qed.
Hint Resolve sameStack_parsePI sameStack_parseText sameStack_parseComment
  sameStack_parseDoctype : keeps.

Lemma sameStack_parseXmlDecl cls fuel : Keeps (@sameStack L) (parseXmlDecl cls fuel).
Proof. unfold parseXmlDecl. same_stack. Qed.
Hint Resolve sameStack_parseXmlDecl : keeps.

Lemma sameStack_misc pe fuel b :
  Keeps sameStack pe → Keeps (@sameStack L) (misc pe fuel b).
Proof. intros Hpe. unfold misc. same_stack. Qed.
Hint Resolve sameStack_misc : keeps.

Lemma sameStack_content pe fuel :
  Keeps sameStack pe → Keeps (@sameStack L) (content pe fuel).
Proof. intros Hpe. unfold content. same_stack. Qed.
Hint Resolve sameStack_content : keeps.

Lemma sameStack_scriptBody fuel nd : Keeps (@sameStack L) (scriptBody fuel nd).
Proof. induction fuel as [|fuel IH]; cbn; same_stack. Qed.
Hint Resolve sameStack_scriptBody : keeps.

Lemma sameStack_elementAttribute cls nd : Keeps (@sameStack L) (elementAttribute cls nd).
Proof. unfold elementAttribute. same_stack. Qed.
Hint Resolve sameStack_elementAttribute : keeps.

Lemma sameStack_elementStart cls fuel : Keeps (@sameStack L) (elementStart cls fuel).
Proof. unfold elementStart. same_stack. Qed.
Hint Resolve sameStack_elementStart : keeps.

(** [push], then a computation that closes the element it pushed. *)
Lemma sameStack_push_popped {A} nd (m : M A) :
  Keeps poppedStack m → Keeps sameStack (push nd;; m).
Proof.
  intros Hm st a st' E. apply bind_inv in E as ([] & st1 & E1 & E).
  injection E1 as <-. apply Hm in E. exact E.
Qed.

Lemma poppedStack_bind {A B} (m : M A) (f : A → M B) :
  Keeps sameStack m → (∀ a, Keeps poppedStack (f a)) → Keeps poppedStack (m ≫= f).
Proof.
  intros Hm Hf st b st' E. apply bind_inv in E as (a & st1 & E1 & E2).
  apply Hm in E1 as [S1 R1]. apply Hf in E2 as [S2 R2]. split; congruence.
Qed.

Lemma poppedStack_pop : Keeps (@poppedStack L) pop.
Proof. by intros st a st' [= _ <-]. Qed.

Lemma poppedStack_closingTag name : Keeps (@poppedStack L) (closingTag name).
Proof.
  unfold closingTag.
  repeat (apply poppedStack_bind; [same_stack|intros ?]). apply poppedStack_pop.
Qed.

(** Through the binds of a body that ends with the closing tag. *)
Ltac to_closing_tag :=
  repeat match goal with
         | |- Keeps poppedStack (mbind _ _) =>
             apply poppedStack_bind; [same_stack|intros ?]
         | |- Keeps poppedStack (if ?b then _ else _) => destruct b
         end;
  try apply poppedStack_closingTag.

Lemma sameStack_handleContent cls pe fuel nd name :
  Keeps sameStack pe → Keeps (@sameStack L) (handleContent cls pe fuel nd name).
Proof.
  intros Hpe. unfold handleContent, XmlParser_handleContent, HtmlParser_handleContent.
  destruct cls.
  - apply Keeps_bind; [typeclasses eauto|same_stack|intros [|]]; [same_stack|].
    apply sameStack_push_popped.
    to_closing_tag.
  - apply Keeps_bind; [typeclasses eauto|same_stack|intros ?].
    apply Keeps_bind; [typeclasses eauto|same_stack|intros [|]]; [same_stack|].
    destruct (negb (isVoidElement name)); [|same_stack].
    apply sameStack_push_popped.
    to_closing_tag.
Qed.

Lemma sameStack_parseElementBody cls pe fuel :
  Keeps sameStack pe → Keeps (@sameStack L) (parseElementBody cls pe fuel).
Proof.
  intros Hpe. unfold parseElementBody.
  apply Keeps_bind; [typeclasses eauto|same_stack|intros [[nd tok] name]].
  apply Keeps_bind; [typeclasses eauto|same_stack|intros ?].
  apply Keeps_bind; [typeclasses eauto|same_stack|intros ?].
  apply Keeps_bind; [typeclasses eauto|by apply sameStack_handleContent|intros ?].
  same_stack.
Qed.

Lemma sameStack_parseElement cls fuel : Keeps (@sameStack L) (parseElement cls fuel).
Proof.
  induction fuel as [|fuel IH]; cbn; [apply Keeps_outOfFuel|].
  by apply sameStack_parseElementBody.
Qed.
Hint Resolve sameStack_parseElement : keeps.

Lemma sameStack_miscS cls fuel : Keeps (@sameStack L) (miscS cls fuel).
Proof. unfold miscS. same_stack. Qed.
Hint Resolve sameStack_miscS : keeps.

Lemma sameStack_parseProlog cls fuel : Keeps (@sameStack L) (parseProlog cls fuel).
Proof.
  unfold parseProlog, XmlParser_parseProlog, HtmlParser_parseProlog.
  destruct cls; same_stack.
Qed.
Hint Resolve sameStack_parseProlog : keeps.

Lemma sameStack_parseDocument cls fuel : Keeps (@sameStack L) (parseDocument cls fuel).
Proof. unfold parseDocument. same_stack. Qed.

Lemma createRoot_stack cls (lx : L) cfg st :
  createRoot cls (newParser cls lx cfg) = Ok (tt, st) →
  stack st = [rootNode st].
Proof. destruct cls; intros E; vm_compute in E; by injection E as <-. Qed.

(** X13.  Every element that the parser opens it closes: when a parse
    completes, XML or HTML, whatever the lexer and the configuration, the
    stack of open elements holds the root alone again, as [createRoot] left
    it, and the root is the node returned. *)
Theorem parse_closes_elements (cls : ParserClass) (fuel : nat) (lx : L)
    (cfg : ParserConfig) (root : NodeId) (st : XmlParser.t L) :
  runParse cls fuel lx cfg = Ok (root, st) →
  stack st = [root] ∧ rootNode st = root.
Proof.
  unfold runParse, parse. intros Hp.
  apply bind_inv in Hp as ([] & st0 & Hroot & Hp).
  apply bind_inv in Hp as ([] & st1 & Hdoc & Hp).
  injection Hp as <- <-.
  pose proof (createRoot_stack _ _ _ _ Hroot) as Hs.
  apply sameStack_parseDocument in Hdoc as [Hst Hr].
  split; [congruence|done].
Qed.
End stack_methods.

(** The parse of the HTML source [<p>a<br>b</p>], whose [br] is a void
    element, ends with the root alone on the stack. *)
Lemma parse_closes_elements_witness :
  ∃ root st,
    parseHtml 50 "<p>a<br>b</p>" defaultConfig = Ok (root, st) ∧
    XmlParser.stack st = [root] ∧ XmlParser.rootNode st = root.
Proof.
  eexists _, _. split; [vm_compute; reflexivity|].
  apply (@parse_closes_elements _ (lexerInstance HtmlLexerC) HtmlParserC 50
           (Lex.new "<p>a<br>b</p>" defaultLexerConfig) defaultConfig).
  vm_compute. reflexivity.
Defined.

(** ** A group of a DTD that never closes *)

Section stray.
  Import Lex.
  Variable cls : LexerClass.

Lemma get_Some_length (s : string) (i : nat) (c : ascii) :
  String.get i s = Some c → (i < String.length s)%nat.
Proof.
  revert i. induction s as [|a s IH]; intros [|i]; cbn; try done; [lia|].
  intros E. apply IH in E. lia.
Qed.

Lemma atStray_peek l :
  atStray cls l →
  ∃ ch, String.get (currentIndex l) (source l) = Some ch ∧
        (String.length (source l) <=? currentIndex l)%nat = false ∧
        Ascii.eqb ch ")" = false ∧ Ascii.eqb ch "|" = false ∧
        Js.isWhitespace ch = false ∧ isNameChar cls (Some ch) = false.
Proof.
  intros (ch & Hg & Hs). exists ch. split; [done|].
  apply get_Some_length in Hg as Hlen. unfold strayChar in Hs.
  repeat (apply andb_prop in Hs as [Hs ?]).
  repeat split; try by apply negb_true_iff.
  apply Nat.leb_gt. lia.
Qed.

Lemma peek_Some l ch :
  String.get (currentIndex l) (source l) = Some ch → peek 0 l = Ok (Some ch, l).
Proof. intros Hg. unfold peek, gets. by rewrite Nat.add_0_r, Hg. Qed.

Lemma peekIs_Some l c ch :
  String.get (currentIndex l) (source l) = Some ch →
  peekIs c l = Ok (Ascii.eqb ch c, l).
Proof. intros Hg. unfold peekIs. by rewrite (bind_Ok _ _ _ _ _ (peek_Some l ch Hg)). Qed.

Lemma atEnd_Some l ch :
  String.get (currentIndex l) (source l) = Some ch → atEnd l = Ok (false, l).
Proof.
  intros Hg. apply get_Some_length in Hg. unfold atEnd, gets.
  by rewrite (proj2 (Nat.leb_gt _ _) Hg).
Qed.

(** [space] moves over nothing at a stray character. *)
Lemma space_stray fuel l :
  atStray cls l → space (S fuel) l = Ok (tt, l).
Proof.
  intros Hl. destruct (atStray_peek l Hl) as (ch & Hg & He & _ & _ & Hw & _).
  unfold space. cbn [while_].
  rewrite bind_assoc, (bind_Ok _ _ _ _ _ (atEnd_Some l ch Hg)).
  rewrite bind_assoc, (bind_Ok _ _ _ _ _ (peek_Some l ch Hg)).
  rewrite bind_ret. cbn. by rewrite Hw.
Qed.

(** A token that is no error token leaves the lexer where it is. *)
Lemma newToken_moves_not (type : TokenType) msg end_ l :
  type ≠ TokenError →
  ∃ tok l', newToken type msg end_ l = Ok (tok, l') ∧
            source l' = source l ∧ currentIndex l' = currentIndex l.
Proof.
  intros Ht. unfold newToken. rewrite bool_decide_eq_false_2 by done.
  unfold mbind, StateM_bind, gets. cbn.
  destruct (atError l); cbn; eauto.
Qed.

(** [lexIdentifier] moves over nothing either: it makes an empty name. *)
Lemma lexIdentifier_stray fuel l :
  atStray cls l →
  ∃ tok l', lexIdentifier cls (S fuel) l = Ok (tok, l') ∧ atStray cls l'.
Proof.
  intros Hl. destruct (atStray_peek l Hl) as (ch & Hg & He & _ & _ & _ & Hn).
  destruct (newToken_moves_not TokenName None None l) as (tok & l' & E & Es & Ei);
    [done|].
  exists tok, l'. split.
  - unfold lexIdentifier. cbn [while_].
    rewrite !bind_assoc, (bind_Ok _ _ _ _ _ (peek_Some l ch Hg)).
    rewrite bind_ret, Hn. by rewrite bind_ret.
  - exists ch. rewrite Es, Ei. split; [done|].
    by destruct Hl as (ch' & Hg' & Hs'); simplify_eq.
Qed.

(** One turn of the loop of [mixed] and of [enumeration] at a stray
    character leaves the lexer there. *)
Lemma turn_stray fuel l :
  atStray cls l →
  (space fuel;;
   bar ← peekIs "|";
   when_ bar (move;; mret tt);;
   space fuel;;
   lexIdentifier cls fuel;; mret tt) l = OutOfFuel
  ∨ ∃ l', (space fuel;;
           bar ← peekIs "|";
           when_ bar (move;; mret tt);;
           space fuel;;
           lexIdentifier cls fuel;; mret tt) l = Ok (tt, l') ∧ atStray cls l'.
Proof.
  intros Hl. destruct fuel as [|fuel]; [by left|]. right.
  destruct (atStray_peek l Hl) as (ch & Hg & _ & _ & Hb & _ & _).
  destruct (lexIdentifier_stray fuel l Hl) as (tok & l' & Hi & Hl').
  exists l'. split; [|done].
  rewrite (bind_Ok _ _ _ _ _ (space_stray fuel l Hl)).
  rewrite (bind_Ok _ _ _ _ _ (peekIs_Some l "|" ch Hg)), Hb.
  unfold when_. rewrite bind_ret.
  rewrite (bind_Ok _ _ _ _ _ (space_stray fuel l Hl)).
  by rewrite (bind_Ok _ _ _ _ _ Hi).
Qed.

(** The loop never ends at a stray character: it runs out of any fuel. *)
Lemma loop_stray n fuel l :
  atStray cls l →
  while_ n (c ← peekIs ")"; e ← atEnd; mret (negb c && negb e))
    (space fuel;;
     bar ← peekIs "|";
     when_ bar (move;; mret tt);;
     space fuel;;
     lexIdentifier cls fuel;; mret tt) l = OutOfFuel.
Proof.
  revert l. induction n as [|n IH]; intros l Hl; [done|].
  destruct (atStray_peek l Hl) as (ch & Hg & He & Hp & _ & _ & _).
  cbn [while_].
  rewrite !bind_assoc, (bind_Ok _ _ _ _ _ (peekIs_Some l ")" ch Hg)), Hp.
  rewrite bind_assoc, (bind_Ok _ _ _ _ _ (atEnd_Some l ch Hg)).
  rewrite bind_ret. cbn [negb andb].
  destruct (turn_stray fuel l Hl) as [E|(l' & E & Hl')].
  - unfold mbind at 1, StateM_bind at 1. by rewrite E.
  - rewrite (bind_Ok _ _ _ _ _ E). by apply IH.
Qed.

Lemma atStray_move l ch :
  String.get (S (currentIndex l)) (source l) = Some ch →
  strayChar cls ch = true →
  ∃ c l', move l = Ok (c, l') ∧ atStray cls l'.
Proof.
  intros Hg Hs. unfold move. unfold mbind, StateM_bind, gets, modify. cbn.
  destruct (isChar _ _); cbn; eexists _, _; (split; [reflexivity|]);
    exists ch; by split.
Qed.

(** X14.  [mixed()] and [enumeration()] never return when the character
    after the one they start at is a stray character, as in [(#$] or in
    [($]: the loop that looks for the closing [")"] moves over no
    character, so that the model runs out of any amount of fuel. *)
Theorem dtd_group_never_closes (l : Lex.t) (ch : ascii) :
  String.get (S (currentIndex l)) (source l) = Some ch →
  strayChar cls ch = true →
  ∀ fuel, mixed cls fuel l = OutOfFuel ∧ enumeration cls fuel l = OutOfFuel.
Proof.
  intros Hg Hs fuel.
  destruct (atStray_move l ch Hg Hs) as (c & l' & Hm & Hl'). split.
  - unfold mixed. rewrite (bind_Ok _ _ _ _ _ Hm).
    apply (loop_stray fuel fuel) in Hl' as E.
    unfold mbind, StateM_bind in E |- *. by rewrite E.
  - unfold enumeration. rewrite (bind_Ok _ _ _ _ _ Hm).
    destruct fuel as [|fuel]; [done|].
    rewrite (bind_Ok _ _ _ _ _ (space_stray fuel l' Hl')).
    destruct (lexIdentifier_stray fuel l' Hl') as (tok & l'' & Hi & Hl'').
    rewrite (bind_Ok _ _ _ _ _ Hi).
    apply (loop_stray (S fuel) (S fuel)) in Hl'' as E.
    unfold mbind, StateM_bind in E |- *. by rewrite E.
Qed.
End stray.

(** The declaration [<!ELEMENT a (#$)>]: the lexer at the ["#"], where
    [contentSpec] calls [mixed], and the lexer run from the start of the
    source. *)
Lemma dtd_group_never_closes_witness :
  let source := "<!DOCTYPE a [<!ELEMENT a (#$)>]>" in
  let l := Lex.set_currentIndex 26 (Lex.new source defaultLexerConfig) in
  String.get 26 source = Some "#"%char ∧
  String.get 27 source = Some "$"%char ∧
  (∀ fuel, mixed XmlLexerC fuel l = OutOfFuel ∧
           enumeration XmlLexerC fuel l = OutOfFuel) ∧
  lexer_getToken XmlLexerC 100 (Lex.new source defaultLexerConfig) = OutOfFuel ∧
  parseXml 100 source defaultConfig = OutOfFuel.
Proof.
  cbv zeta. split; [reflexivity|]. split; [reflexivity|]. split.
  - apply (dtd_group_never_closes XmlLexerC
             (Lex.set_currentIndex 26
                (Lex.new "<!DOCTYPE a [<!ELEMENT a (#$)>]>" defaultLexerConfig))
             "$"%char); reflexivity.
  - split; vm_compute; reflexivity.
Defined.

(** ** The node sets of the data stack are in document order *)

Section sorted_stack.
  Context `{Builtins}.
  Variable h : Store.
  Local Abbreviation XM := (StateM XPath.t).

#[export] Instance keepsSorted_refl : Reflexive (keepsSorted h).
Proof. intros st Hs. exact Hs. Qed.

#[export] Instance keepsSorted_trans : Transitive (keepsSorted h).
Proof. intros st1 st2 st3 H1 H2 Hs. apply H2, H1, Hs. Qed.

Lemma sorted_liftR {A} (r : Result A) : Keeps (keepsSorted h) (liftR r).
Proof.
  intros st a st'. unfold liftR. destruct r; [|done..]. intros [= _ <-] Hs. exact Hs.
Qed.

Lemma sorted_pushData d : sortedData h d → Keeps (keepsSorted h) (pushData d).
Proof. intros Hd st a st' [= _ <-] Hs. by constructor. Qed.

(** What [popDefined] returns was on a sorted stack. *)
Lemma popDefined_sorted st d st' :
  popDefined st = Ok (d, st') → sortedStack h st →
  sortedData h d ∧ sortedStack h st'.
Proof.
  unfold popDefined, popData, sortedStack, mbind, StateM_bind.
  destruct (XPath.dataStack st) as [|d0 ds] eqn:E; [done|].
  intros [= <- <-] Hs. by inversion Hs.
Qed.

Lemma sorted_popDefined : Keeps (keepsSorted h) popDefined.
Proof. intros st d st' E Hs. exact (proj2 (popDefined_sorted _ _ _ E Hs)). Qed.

Lemma sorted_popData : Keeps (keepsSorted h) popData.
Proof.
  intros st a st' E Hs. unfold popData in E. unfold sortedStack in *.
  destruct (XPath.dataStack st) eqn:Eds; injection E as _ <-; cbn.
  - by rewrite Eds.
  - by inversion Hs.
Qed.

Lemma sorted_getCtx : Keeps (keepsSorted h) getCtx.
Proof.
  unfold getCtx.
  apply Keeps_bind; [typeclasses eauto|apply Keeps_gets; typeclasses eauto|].
  intros [c|]; [apply Keeps_ret; typeclasses eauto|apply Keeps_throw].
Qed.

Lemma sorted_asNodeset d : Keeps (keepsSorted h) (asNodeset d).
Proof.
  unfold asNodeset.
  destruct (value d); first [apply Keeps_throw|apply Keeps_ret; typeclasses eauto].
Qed.

Lemma sorted_evalError {A} msg : Keeps (keepsSorted h) (evalError msg : XM A).
Proof. by intros st a st'. Qed.

Lemma sorted_pushContext c : Keeps (keepsSorted h) (pushContext c).
Proof. intros st a st' [= _ <-] Hs. exact Hs. Qed.

Lemma sorted_popContext : Keeps (keepsSorted h) popContext.
Proof. intros st a st' [= _ <-] Hs. exact Hs. Qed.

Lemma sortedData_sortNodeset l : sortedData h (dNodeset (sortNodeset h l)).
Proof. split; [apply NoDup_sortNodeset|apply ascending_sortNodeset]. Qed.

Lemma sortedData_nil : sortedData h (dNodeset []).
Proof. split; constructor. Qed.
End sorted_stack.

#[export] Hint Resolve sorted_liftR sorted_pushData sorted_popData sorted_popDefined
  sorted_getCtx sorted_asNodeset sorted_evalError sorted_pushContext
  sorted_popContext sortedData_sortNodeset sortedData_nil : keeps.
#[export] Hint Extern 1 (sortedData _ (dNumber _)) => exact I : keeps.
#[export] Hint Extern 1 (sortedData _ (dString _)) => exact I : keeps.
#[export] Hint Extern 1 (sortedData _ (dBoolean _)) => exact I : keeps.

Ltac sorted := keeps_with ltac:(fail).

Section sorted_visitors.
  Context `{Builtins}.
  Variable h : Store.

Lemma sorted_evaluatePredicateExpr res :
  Keeps (keepsSorted h) (evaluatePredicateExpr res).
Proof. unfold evaluatePredicateExpr. sorted. Qed.
Hint Resolve sorted_evaluatePredicateExpr : keeps.

Lemma sorted_evaluateRelativeExpr fuel left right op :
  Keeps (keepsSorted h) (evaluateRelativeExpr h fuel left right op).
Proof.
  unfold evaluateRelativeExpr, evaluateNonNodesetRelativeExpr,
    evaluateNodesetRelativeExpr, compare_Nodeset_Nodeset, compare_Nodeset_String,
    compare_Nodeset_Number, compare_Nodeset_Boolean, compare_Boolean_Nodeset,
    compare_String_Nodeset, compare_Number_Nodeset, compare_Nodeset_Boolean,
    compare_Nodeset_String, compare_Nodeset_Number.
  sorted.
Qed.

Lemma sorted_evaluateArithmeticExpr fuel left right op :
  Keeps (keepsSorted h) (evaluateArithmeticExpr h fuel left right op).
Proof. unfold evaluateArithmeticExpr. sorted. Qed.

Lemma sorted_evaluateConditionalExpr left right op :
  Keeps (keepsSorted h) (evaluateConditionalExpr left right op).
Proof. unfold evaluateConditionalExpr. sorted. Qed.

Lemma sorted_evaluatePipeExpr left right :
  Keeps (keepsSorted h) (evaluatePipeExpr h left right).
Proof.
  unfold evaluatePipeExpr. sorted.
Qed.

Lemma sorted_visitArg visit0 args i :
  (∀ nd, Keeps (keepsSorted h) (visit0 nd)) →
  Keeps (keepsSorted h) (visitArg visit0 args i).
Proof. intros Hv. unfold visitArg. sorted. Qed.
Hint Resolve sorted_visitArg : keeps.

Lemma sorted_getNodesetData visit0 args :
  (∀ nd, Keeps (keepsSorted h) (visit0 nd)) →
  Keeps (keepsSorted h) (getNodesetData visit0 args).
Proof. intros Hv. unfold getNodesetData. sorted. Qed.

Lemma sorted_argOrContext visit0 args :
  (∀ nd, Keeps (keepsSorted h) (visit0 nd)) →
  Keeps (keepsSorted h) (argOrContext visit0 args).
Proof. intros Hv. unfold argOrContext. sorted. Qed.
Hint Resolve sorted_getNodesetData sorted_argOrContext : keeps.

Lemma sorted_stringArgs visit0 fuel args :
  (∀ nd, Keeps (keepsSorted h) (visit0 nd)) →
  Keeps (keepsSorted h) (stringArgs h visit0 fuel args).
Proof. intros Hv. induction args as [|a args IH]; cbn [stringArgs]; sorted. Qed.
Hint Resolve sorted_stringArgs : keeps.

Lemma sorted_visitAll visit0 nodes :
  (∀ nd, Keeps (keepsSorted h) (visit0 nd)) →
  Keeps (keepsSorted h) (visitAll visit0 nodes).
Proof. intros Hv. induction nodes as [|a nodes IH]; cbn [visitAll]; sorted. Qed.
Hint Resolve sorted_visitAll : keeps.

Lemma sorted_callFunction visit0 fuel name args :
  (∀ nd, Keeps (keepsSorted h) (visit0 nd)) →
  Keeps (keepsSorted h) (callFunction h visit0 fuel name args).
Proof.
  intros Hv. unfold callFunction.
  destruct (functions h visit0 fuel name) as [[[[pc om] v] fn]|] eqn:E;
    [|apply sorted_evalError].
  cbv zeta. apply Keeps_bind; [typeclasses eauto|sorted|intros _].
  unfold functions in E.
  repeat match type of E with
         | (if ?b then _ else _) = _ =>
             destruct b;
             [injection E as <- <- <- <-;
              unfold lastFn, positionFn, countFn, localNameFn, namespaceUriFn, nameFn,
                firstNodeFn, booleanFn, notFn, trueFn, falseFn, langFn, numberFn,
                sumFn, floorFn, ceilingFn, roundFn, mathFn, stringFn, concatFn,
                startsWithFn, containsFn, substringBeforeFn, substringAfterFn,
                binaryStringFn, substringFn, stringLengthFn, normalizeSpaceFn,
                translateFn;
              sorted|]
         end.
  all: try discriminate.
Qed.

Lemma sorted_visitPathNode visit0 steps :
  (∀ nd, Keeps (keepsSorted h) (visit0 nd)) →
  Keeps (keepsSorted h) (visitPathNode visit0 steps).
Proof.
  intros Hv. unfold visitPathNode.
  apply Keeps_bind; [typeclasses eauto|sorted|intros _].
  generalize 0%nat. induction steps as [|nd rest IH]; intros index; sorted.
Qed.

Lemma sorted_visitStepNode visit0 fuel path step axis nodeTest predicates pos :
  (∀ nd, Keeps (keepsSorted h) (visit0 nd)) →
  Keeps (keepsSorted h)
    (visitStepNode h visit0 fuel path step axis nodeTest predicates pos).
Proof.
  intros Hv. unfold visitStepNode. intros st a st' E Hs.
  apply bind_inv in E as (data & st1 & E1 & E).
  destruct (popDefined_sorted h _ _ _ E1 Hs) as [Hd Hs1].
  cbv beta in E. refine ((_ : Keeps (keepsSorted h) _) st1 a st' E Hs1).
  sorted. apply sorted_pushData. exact I.
Qed.

Lemma sorted_filterPartition visit0 expr partition size pos :
  (∀ nd, Keeps (keepsSorted h) (visit0 nd)) →
  Keeps (keepsSorted h) (filterPartition visit0 expr partition size pos).
Proof.
  intros Hv. revert pos.
  induction partition as [|x l IH]; intros pos; cbn [filterPartition]; sorted.
Qed.

Lemma sorted_filterPartitions visit0 expr partitions :
  (∀ nd, Keeps (keepsSorted h) (visit0 nd)) →
  Keeps (keepsSorted h) (filterPartitions visit0 expr partitions).
Proof.
  intros Hv. induction partitions as [|p ps IH]; cbn [filterPartitions]; sorted.
  by apply sorted_filterPartition.
Qed.

Lemma sorted_visitPredicateNode visit0 expr order leftExpr :
  (∀ nd, Keeps (keepsSorted h) (visit0 nd)) →
  Keeps (keepsSorted h) (visitPredicateNode h visit0 expr order leftExpr).
Proof.
  intros Hv. unfold visitPredicateNode.
  apply Keeps_bind; [typeclasses eauto|sorted|intros ?]. cbv zeta.
  apply Keeps_bind; [typeclasses eauto|by apply sorted_filterPartitions|intros ?].
  apply sorted_pushData. split; [apply NoDup_sortNodeset|apply ascending_sortNodeset].
Qed.

(** A visit keeps the node sets of the data stack in document order. *)
Lemma sorted_visit fuel nd : Keeps (keepsSorted h) (visit h fuel nd).
Proof.
  revert nd. induction fuel as [|fuel IH]; intros nd; [apply Keeps_outOfFuel|].
  cbn [visit]. destruct nd; cbn [visitBody].
  - unfold visitNumberNode. sorted.
  - unfold visitStringNode. sorted.
  - by apply sorted_callFunction.
  - unfold visitUnaryOpNode. sorted.
  - unfold visitBinaryOpNode.
    do 4 (apply Keeps_bind; [typeclasses eauto|sorted|intros ?]).
    destruct op;
      first [apply sorted_evaluateArithmeticExpr|apply sorted_evaluateRelativeExpr
            |apply sorted_evaluateConditionalExpr|apply sorted_evaluatePipeExpr].
  - apply Keeps_throw.
  - by apply sorted_visitStepNode.
  - by apply sorted_visitPredicateNode.
  - by apply sorted_visitPathNode.
Qed.

(** X15.  The node set that a query returns, whatever the query, holds
    each node once and the nodes in ascending order of their positions in
    the document. *)
Theorem query_in_document_order (fuel : nat) (ast : XNodeT) (r : NodeId)
    (cs : list XContext) :
  match query h fuel ast (XPath.mk r cs []) with
  | Ok (VNodeset ns, _) => NoDup ns ∧ ascending (position h) ns
  | _ => True
  end.
Proof.
  destruct (query h fuel ast _) as [[v st']| |] eqn:E; [|done..].
  unfold query in E.
  apply bind_inv in E as (r' & st1 & E1 & E). injection E1 as <- <-.
  apply bind_inv in E as ([] & st2 & E2 & E). injection E2 as <-.
  apply bind_inv in E as ([] & st3 & E3 & E).
  apply sorted_visit in E3. 
  apply bind_inv in E as (result & st4 & E4 & E).
  eapply popDefined_sorted in E4 as [Hd _]; [|apply E3; constructor].
  apply bind_inv in E as ([] & st5 & E5 & E). injection E as <- _.
  unfold sortedData in Hd. by destruct (value result).
Qed.
End sorted_visitors.

(** ** Comparing a node set with a string *)

Section nodeset_string.
  Context `{Builtins}.
  Variable h : Store.

Lemma anyM_existsb (f : NodeId → Result bool) (g : NodeId → bool) (l : XNodeSet) :
  Forall (λ n, f n = Ok (g n)) l → anyM f l = Ok (existsb g l).
Proof.
  unfold anyM. intros Hl.
  enough (∀ acc, foldM (λ (acc : bool) x, if acc then Ok true else f x) l acc
                 = Ok (acc || existsb g l)) as K by apply (K false).
  induction Hl as [|n l Hn Hl IH]; intros acc; cbn.
  - by rewrite orb_false_r.
  - destruct acc; cbn; [apply (IH true)|]. rewrite Hn. cbn. apply IH.
Qed.

Lemma isNodeset_dNodeset l : XDataEval_isNodeset (dNodeset l) = true.
Proof. reflexivity. Qed.
Lemma isNodeset_dString s : XDataEval_isNodeset (dString s) = false.
Proof. reflexivity. Qed.
Lemma isString_dString s : XDataEval_isString (dString s) = true.
Proof. reflexivity. Qed.

(** X16.  A node set is equal to a string when one of its nodes has the
    string as string value, and different from it when one of its nodes
    has another string value: on a set of several nodes both may hold, and
    on the empty set neither does.  The string may be on either side. *)
Theorem nodeset_string_comparison (fuel : nat) (l : XNodeSet) (s : string)
    (sv : NodeId → string) (st : XPath.t) :
  Forall (λ n, stringValue h fuel n = Ok (sv n)) l →
  ∃ eq neq : bool,
    (eq = true ↔ ∃ n, n ∈ l ∧ sv n = s) ∧
    (neq = true ↔ ∃ n, n ∈ l ∧ sv n ≠ s) ∧
    evaluateRelativeExpr h fuel (dNodeset l) (dString s) OpEq st
    = Ok (tt, pushed (dBoolean eq) st) ∧
    evaluateRelativeExpr h fuel (dString s) (dNodeset l) OpEq st
    = Ok (tt, pushed (dBoolean eq) st) ∧
    evaluateRelativeExpr h fuel (dNodeset l) (dString s) OpNeq st
    = Ok (tt, pushed (dBoolean neq) st) ∧
    evaluateRelativeExpr h fuel (dString s) (dNodeset l) OpNeq st
    = Ok (tt, pushed (dBoolean neq) st).
Proof.
  intros Hl.
  exists (existsb (λ n, String.eqb (sv n) s) l),
         (existsb (λ n, negb (String.eqb (sv n) s)) l).
  split; [|split].
  - rewrite existsb_exists. split; intros (n & Hn & E); exists n.
    + by rewrite list_elem_of_In, <- String.eqb_eq.
    + by rewrite <- list_elem_of_In, String.eqb_eq.
  - rewrite existsb_exists. split; intros (n & Hn & E); exists n.
    + rewrite list_elem_of_In. split; [done|]. apply negb_true_iff in E.
      by apply String.eqb_neq.
    + rewrite <- list_elem_of_In. split; [done|]. apply negb_true_iff.
      by apply String.eqb_neq.
  - assert (Eeq : anyM (λ nd, a ← stringValue h fuel nd; Ok (String.eqb a s)) l
                  = Ok (existsb (λ n, String.eqb (sv n) s) l)).
    { apply anyM_existsb. eapply Forall_impl; [exact Hl|].
      intros n E. cbn beta in E. by rewrite E. }
    assert (Eneq : anyM (λ nd, a ← stringValue h fuel nd; Ok (negb (String.eqb a s))) l
                   = Ok (existsb (λ n, negb (String.eqb (sv n) s)) l)).
    { apply anyM_existsb. eapply Forall_impl; [exact Hl|].
      intros n E. cbn beta in E. by rewrite E. }
    unfold evaluateRelativeExpr, evaluateNodesetRelativeExpr.
    rewrite !isNodeset_dNodeset, !isNodeset_dString, !isString_dString.
    cbn [negb andb orb cType dNodeset dString].
    unfold compare_String_Nodeset, compare_Nodeset_String.
    cbn [mirror isRelativeOp negb asNodeset value dNodeset dString].
    rewrite !bind_ret. unfold liftR, mbind at 1 3 5 7, StateM_bind.
    rewrite Eeq, Eneq. done.
Qed.
End nodeset_string.

(** The attributes [id] of the three [X] of the example, compared with
    ["2"]. *)
Lemma nodeset_string_comparison_witness :
  let h := storeOf (parseXml 50 exampleThreeX defaultConfig) in
  let ids := [6; 8; 11]%nat in
  let sv := λ n : NodeId, if (n =? 6)%nat then "1" else if (n =? 8)%nat then "2" else "3" in
  valueOf (parseXml 50 exampleThreeX defaultConfig) = Ok 0%nat ∧
  ∀ B : Builtins,
    Forall (λ n, stringValue h 10 n = Ok (sv n)) ids ∧
    ∃ eq neq : bool,
      (eq = true ↔ ∃ n, n ∈ ids ∧ sv n = "2") ∧
      (neq = true ↔ ∃ n, n ∈ ids ∧ sv n ≠ "2") ∧
      evaluateRelativeExpr h 10 (dNodeset ids) (dString "2") OpEq (newXPath 0)
      = Ok (tt, pushed (dBoolean eq) (newXPath 0)) ∧
      evaluateRelativeExpr h 10 (dString "2") (dNodeset ids) OpEq (newXPath 0)
      = Ok (tt, pushed (dBoolean eq) (newXPath 0)) ∧
      evaluateRelativeExpr h 10 (dNodeset ids) (dString "2") OpNeq (newXPath 0)
      = Ok (tt, pushed (dBoolean neq) (newXPath 0)) ∧
      evaluateRelativeExpr h 10 (dString "2") (dNodeset ids) OpNeq (newXPath 0)
      = Ok (tt, pushed (dBoolean neq) (newXPath 0)).
Proof.
  cbv zeta. split; [vm_compute; reflexivity|]. intros B.
  assert (Hl : Forall (λ n, stringValue
                              (storeOf (parseXml 50 exampleThreeX defaultConfig)) 10 n
                            = Ok (if (n =? 6)%nat then "1"
                                  else if (n =? 8)%nat then "2" else "3"))
                 [6; 8; 11]%nat).
  { repeat constructor; vm_compute; reflexivity. }
  split; [exact Hl|].
  exact (nodeset_string_comparison _ 10 _ "2" _ (newXPath 0) Hl).
Defined.

(** ** [translate] *)

Lemma charIndex_None c l : charIndex c l = None ↔ c ∉ l.
Proof.
  induction l as [|x l IH]; cbn.
  - split; [intros _; apply not_elem_of_nil|done].
  - rewrite not_elem_of_cons. destruct (Ascii.eqb_spec x c) as [->|Hne].
    + split; [done|]. by intros [? _].
    + destruct (charIndex c l); cbn; split; try done.
      * intros [_ Hl]. by apply IH in Hl.
      * intros _. split; [done|]. by apply IH.
Qed.

Lemma charIndex_Some c l i : charIndex c l = Some i → l !! i = Some c.
Proof.
  revert i. induction l as [|x l IH]; intros i; cbn; [done|].
  destruct (Ascii.eqb_spec x c) as [->|Hne]; [by intros [= <-]|].
  destruct (charIndex c l) as [j|]; cbn; [|done]. intros [= <-]. by apply IH.
Qed.

Lemma charIndex_take c l k i :
  charIndex c (take k l) = Some i → charIndex c l = Some i.
Proof.
  revert k i. induction l as [|x l IH]; intros [|k] i; cbn; try done.
  destruct (Ascii.eqb x c); [done|].
  destruct (charIndex c (take k l)) as [j|] eqn:E; cbn; [|done].
  intros [= <-]. by rewrite (IH _ _ E).
Qed.

Lemma charIndex_drop c l k :
  NoDup l → c ∈ drop k l → ∃ i, charIndex c l = Some i ∧ (k ≤ i)%nat.
Proof.
  revert k. induction l as [|x l IH]; intros k Hl Hc.
  - rewrite drop_nil in Hc. by apply elem_of_nil in Hc.
  - apply NoDup_cons in Hl as [Hx Hl]. destruct k as [|k]; cbn in *.
    + destruct (charIndex c (x :: l)) as [i|] eqn:E.
      * exists i. split; [done|lia].
      * by apply charIndex_None in E.
    + destruct (Ascii.eqb_spec x c) as [->|Hne].
      * destruct Hx. apply list_elem_of_lookup_1 in Hc as [j Hj].
        rewrite lookup_drop in Hj. exact (list_elem_of_lookup_2 _ _ _ Hj).
      * destruct (IH _ Hl Hc) as (i & -> & Hi). exists (S i). split; [done|lia].
Qed.

Lemma length_chars (s : string) :
  length (list_ascii_of_string s) = String.length s.
Proof. induction s as [|c s IH]; cbn; [done|]. by rewrite IH. Qed.

Lemma find_app_l {A} (f : A → bool) (l1 l2 : list A) :
  find f (l1 ++ l2) = match find f l1 with Some x => Some x | None => find f l2 end.
Proof. induction l1 as [|x l1 IH]; cbn; [done|]. by destruct (f x). Qed.

(** The map of [replace] sends a character to the one at the place of its
    first occurrence. *)
Lemma lookupChar_buildMap P R k m c :
  (k ≤ length P)%nat → (k ≤ length R)%nat →
  XString.lookupChar (XString.buildMap P R k m) c
  = match find (λ '(x, _), Ascii.eqb x c) m with
    | Some (_, v) => v
    | None =>
        match charIndex c (take k P) with
        | Some i => default c (R !! i)
        | None => c
        end
    end.
Proof.
  revert P R m. induction k as [|k IH]; intros P R m HP HR.
  - rewrite take_0. by destruct P, R.
  - destruct P as [|p P]; [cbn in HP; lia|]. destruct R as [|r R]; [cbn in HR; lia|].
    cbn [XString.buildMap]. rewrite IH by (cbn in *; lia). cbn [take charIndex].
    destruct (existsb (λ '(x, _), Ascii.eqb x p) m) eqn:Ex.
    + destruct (find (λ '(x, _), Ascii.eqb x c) m) as [[x v]|] eqn:Ef; [done|].
      destruct (Ascii.eqb_spec p c) as [->|Hne].
      * apply existsb_exists in Ex as ([x v] & Hin & Hx).
        eapply find_none in Ef; [|exact Hin]. cbn in Ef. congruence.
      * by destruct (charIndex c (take k P)).
    + rewrite find_app_l.
      destruct (find (λ '(x, _), Ascii.eqb x c) m) as [[x v]|] eqn:Ef; [done|].
      cbn. destruct (Ascii.eqb_spec p c) as [->|Hne]; [done|].
      by destruct (charIndex c (take k P)).
Qed.

Lemma replace_map original P R k :
  (k ≤ String.length P)%nat → (k ≤ String.length R)%nat →
  XString.replace original P R k
  = string_of_list_ascii
      (map (λ c, match charIndex c (take k (list_ascii_of_string P)) with
                 | Some i => default c (list_ascii_of_string R !! i)
                 | None => c
                 end) (list_ascii_of_string original)).
Proof.
  intros HP HR. unfold XString.replace. f_equal. apply map_ext. intros c.
  by rewrite lookupChar_buildMap by (by rewrite length_chars).
Qed.

Lemma chars_substring (s : string) (n m : nat) :
  list_ascii_of_string (String.substring n m s)
  = take m (drop n (list_ascii_of_string s)).
Proof.
  revert n m. induction s as [|c s IH]; intros n m.
  - destruct n, m; cbn; by rewrite ?take_nil.
  - destruct n as [|n]; cbn.
    + destruct m as [|m]; cbn; [done|]. by rewrite (IH 0%nat m).
    + apply IH.
Qed.

Lemma chars_sliceFrom (s : string) (n : nat) :
  list_ascii_of_string (Js.sliceFrom s n) = drop n (list_ascii_of_string s).
Proof.
  unfold Js.sliceFrom. rewrite chars_substring. apply take_ge.
  rewrite length_drop, length_chars. lia.
Qed.

Lemma existsb_eqb_elem_of (c : ascii) (l : list ascii) :
  existsb (Ascii.eqb c) l = true ↔ c ∈ l.
Proof.
  rewrite existsb_exists, list_elem_of_In. split.
  - intros (x & Hx & E). by apply Ascii.eqb_eq in E as ->.
  - intros Hc. exists c. split; [done|apply Ascii.eqb_refl].
Qed.

Section translate_fn.
  Context `{Builtins}.
  Variable h : Store.

Lemma visit_translate f s from to_ st :
  visit h (S (S f)) (CallNode "translate" [StringNode s; StringNode from; StringNode to_]) st
  = Ok (tt, pushed (dString (XString.translate s from to_)) st).
Proof. reflexivity. Qed.

(** X17.  When no character occurs twice in [from], [translate(s, from,
    to)] is [s] with every character that is in [from] replaced by the
    character at the same place in [to], or removed when [to] is too short
    to have one, and the other characters kept. *)
Theorem translate_by_character (f : nat) (s from to_ : string) (st : XPath.t) :
  NoDup (list_ascii_of_string from) →
  visit h (S (S f)) (CallNode "translate" [StringNode s; StringNode from; StringNode to_]) st
  = Ok (tt, pushed (dString (string_of_list_ascii
                               (flat_map (translateChar (list_ascii_of_string from)
                                            (list_ascii_of_string to_))
                                  (list_ascii_of_string s)))) st).
Proof.
  intros Hnd. rewrite visit_translate. do 4 f_equal.
  set (P := list_ascii_of_string from) in *. set (R := list_ascii_of_string to_).
  unfold XString.translate.
  assert (Hin : ∀ k c i, (k ≤ length P)%nat → (k ≤ length R)%nat →
            charIndex c (take k P) = Some i → translateChar P R c = [default c (R !! i)]).
  { intros k c i HP HR E. unfold translateChar. rewrite (charIndex_take _ _ _ _ E).
    apply charIndex_Some, lookup_lt_Some in E. rewrite length_take in E.
    destruct (lookup_lt_is_Some_2 R i) as [r ->]; [lia|done]. }
  destruct (Nat.eqb_spec (String.length from) (String.length to_)) as [El|Hl];
    [|destruct (Nat.ltb_spec (String.length to_) (String.length from)) as [Hlt|Hge]].
  - rewrite replace_map by lia. f_equal. fold P R.
    rewrite take_ge by (unfold P; rewrite length_chars; lia).
    induction (list_ascii_of_string s) as [|c l IH]; cbn; [done|]. rewrite IH.
    destruct (charIndex c P) as [i|] eqn:E.
    + rewrite (Hin (length P) c i); [done|lia| |by rewrite take_ge by lia].
      unfold P, R. rewrite !length_chars. lia.
    + unfold translateChar. by rewrite E.
  - rewrite replace_map by lia. f_equal. fold P R.
    rewrite list_ascii_of_string_of_list_ascii, chars_sliceFrom. fold P.
    induction (list_ascii_of_string s) as [|c l IH]; [done|].
    rewrite filter_cons. cbn [flat_map].
    destruct (existsb (Ascii.eqb c) (drop (String.length to_) P)) eqn:Ex; cbn [negb].
    + destruct (decide (Is_true false)) as [[]|_]. rewrite IH.
      apply existsb_eqb_elem_of in Ex.
      destruct (charIndex_drop _ _ _ Hnd Ex) as (i & Ei & Hi).
      unfold translateChar at 2. rewrite Ei.
      rewrite (lookup_ge_None_2 R i); [done|]. unfold R. rewrite length_chars. lia.
    + destruct (decide (Is_true true)) as [_|[]]; [|exact I]. cbn [map]. rewrite IH.
      change (?x :: ?l) with ([x] ++ l). f_equal.
      destruct (charIndex c (take (String.length to_) P)) as [i|] eqn:E.
      * rewrite (Hin (String.length to_) c i); [done| | |done];
          unfold P, R; rewrite length_chars; lia.
      * unfold translateChar.
        assert (Hc : c ∉ P).
        { rewrite <- (take_drop (String.length to_) P), not_elem_of_app. split.
          - by apply charIndex_None.
          - intros Hc. apply existsb_eqb_elem_of in Hc. congruence. }
        apply charIndex_None in Hc. by rewrite Hc.
  - rewrite replace_map by lia. f_equal. fold P R.
    rewrite take_ge by (unfold P; rewrite length_chars; lia).
    induction (list_ascii_of_string s) as [|c l IH]; cbn; [done|]. rewrite IH.
    destruct (charIndex c P) as [i|] eqn:E.
    + rewrite (Hin (length P) c i); [done|lia| |by rewrite take_ge by lia].
      unfold P, R. rewrite !length_chars. lia.
    + unfold translateChar. by rewrite E.
Qed.
End translate_fn.

(** [translate("bar", "abc", "ABC")] is ["BAr"] and
    [translate("--aaa--", "abc-", "ABC")] is ["AAA"], under any runtime. *)
Lemma translate_by_character_witness :
  NoDup (list_ascii_of_string "abc-") ∧
  ∀ B : Builtins,
    visit [] 2 (CallNode "translate" [StringNode "--aaa--"; StringNode "abc-"; StringNode "ABC"])
      (newXPath 0)
    = Ok (tt, pushed (dString "AAA") (newXPath 0)).
Proof.
  assert (Hnd : NoDup (list_ascii_of_string "abc-")).
  { apply (bool_decide_unpack _). vm_compute. exact I. }
  split; [exact Hnd|]. intros B.
  exact (translate_by_character [] 0 "--aaa--" "abc-" "ABC" (newXPath 0) Hnd).
Defined.

(** ** [concat] and the functions that take a string apart *)

Lemma append_empty_r (s : string) : s +:+ "" = s.
Proof. induction s as [|c s IH]; [done|]. by rewrite append_String, IH. Qed.

Lemma length_append (a b : string) :
  String.length (a +:+ b) = (String.length a + String.length b)%nat.
Proof. induction a as [|c a IH]; [done|]. rewrite append_String. cbn. by rewrite IH. Qed.

Lemma prefix_append (a b : string) : String.prefix a (a +:+ b) = true.
Proof.
  induction a as [|c a IH]; [by destruct b|]. rewrite append_String. cbn.
  by destruct (Ascii.ascii_dec c c).
Qed.

Lemma sliceFrom_append (a b : string) : Js.sliceFrom (a +:+ b) (String.length a) = b.
Proof.
  unfold Js.sliceFrom. rewrite length_append.
  replace (String.length a + String.length b - String.length a)%nat
    with (String.length b) by lia.
  induction a as [|c a IH]; [apply substring_all|]. by rewrite append_String.
Qed.

Lemma includes_prefix (s sub : string) :
  String.prefix sub s = true → Js.includes s sub = true.
Proof. intros Hp. destruct s; cbn [Js.includes]; by rewrite Hp. Qed.

Lemma indexOf_prefix (s sub : string) :
  String.prefix sub s = true → Js.indexOf s sub = Some 0%nat.
Proof. intros Hp. destruct s; cbn [Js.indexOf]; by rewrite Hp. Qed.

Section concat.
  Context `{Builtins}.
  Variable h : Store.

Lemma visit_concat2 f a b st :
  visit h (S (S f)) (CallNode "concat" [StringNode a; StringNode b]) st
  = Ok (tt, pushed (dString (a +:+ b)) st).
Proof.
  transitivity (Ok (tt, pushed (dString (a +:+ (b +:+ ""))) st) : Result (unit * XPath.t));
    [reflexivity|]. by rewrite append_empty_r.
Qed.

(** X18.  What [concat(a, b)] puts together the other string functions
    take apart: [concat(a, b)] starts with [a] and contains it, what
    follows [a] in it is [b], and its length is the sum of the lengths. *)
Theorem concat_taken_apart (f : nat) (a b : string) (st : XPath.t) :
  let ab := CallNode "concat" [StringNode a; StringNode b] in
  visit h (S (S (S f))) (CallNode "starts-with" [ab; StringNode a]) st
  = Ok (tt, pushed (dBoolean true) st) ∧
  visit h (S (S (S f))) (CallNode "contains" [ab; StringNode a]) st
  = Ok (tt, pushed (dBoolean true) st) ∧
  visit h (S (S (S f))) (CallNode "substring-after" [ab; StringNode a]) st
  = Ok (tt, pushed (dString b) st) ∧
  visit h (S (S (S f))) (CallNode "string-length" [ab]) st
  = Ok (tt, pushed (dNumber (Js.ofNat (String.length a + String.length b))) st).
Proof.
  cbv zeta.
  assert (Hbin : ∀ name g,
    functions h (visit h (S (S f))) (S (S f)) name
    = Some (2%nat, 0%nat, false, binaryStringFn h (visit h (S (S f))) (S (S f)) g) →
    visit h (S (S (S f))) (CallNode name [CallNode "concat" [StringNode a; StringNode b];
                                          StringNode a]) st
    = Ok (tt, pushed (g (a +:+ b) a) st)).
  { intros name g Hfn. rewrite visit_call. unfold callFunction. rewrite Hfn.
    cbn [length Nat.ltb Nat.leb]. rewrite bind_ret.
    unfold binaryStringFn. cbn [stringArgs].
    rewrite !bind_assoc, (bind_Ok _ _ _ _ _ (visit_concat2 f a b st)). reflexivity. }
  split; [|split; [|split]].
  - rewrite (Hbin "starts-with" (λ a b, dBoolean (Js.startsWith a b)) eq_refl).
    unfold Js.startsWith. by rewrite prefix_append.
  - rewrite (Hbin "contains" (λ a b, dBoolean (Js.includes a b)) eq_refl).
    by rewrite includes_prefix by apply prefix_append.
  - rewrite (Hbin "substring-after" (λ a b, dString (XString.substringAfter a b)) eq_refl).
    unfold XString.substringAfter.
    by rewrite indexOf_prefix, sliceFrom_append by apply prefix_append.
  - rewrite visit_call. unfold callFunction.
    change (functions h (visit h (S (S f))) (S (S f)) "string-length")
      with (Some (1%nat, 1%nat, false, stringLengthFn h (visit h (S (S f))) (S (S f)))).
    cbn [length Nat.ltb Nat.leb]. rewrite bind_ret.
    unfold stringLengthFn, argOrContext, visitArg. cbn [lookup list_lookup].
    rewrite !bind_assoc, (bind_Ok _ _ _ _ _ (visit_concat2 f a b st)).
    transitivity (Ok (tt, pushed (dNumber (Js.ofNat (String.length (a +:+ b)))) st)
                  : Result (unit * XPath.t)); [reflexivity|].
    by rewrite length_append.
Qed.
End concat.

(** ** The predicate [last()] *)

Section last_predicate.
  Context `{Builtins}.
  Variable h : Store.

Lemma visit_last f r cs ds c :
  visit h (S f) (CallNode "last" []) (XPath.mk r (c :: cs) ds)
  = Ok (tt, XPath.mk r (c :: cs) (dNumber (Js.ofNat (ctxSize c)) :: ds)).
Proof. reflexivity. Qed.

Lemma filterPartition_last f partition pos r cs ds :
  filterPartition (visit h (S f)) (CallNode "last" []) partition
    (pos + length partition) pos (XPath.mk r cs ds)
  = Ok (lastOnly partition, XPath.mk r cs ds).
Proof.
  revert pos. induction partition as [|x l IH]; intros pos; [done|].
  cbn [filterPartition]. run. unfold XPath.set_ctxStack at 1.
  cbn [XPath.root XPath.dataStack]. rewrite visit_last. unfold evaluatePredicateExpr.
  run. replace (pos + S (length l))%nat with (S pos + length l)%nat by lia.
  rewrite IH.
  change (Js.ofNat ?n) with (Js.ofZ (Z.of_nat n)). rewrite eqb_ofZ.
  unfold lastOnly. cbn [last]. destruct l as [|y l].
  - replace (Z.of_nat (S pos + length []) =? Z.of_nat (S pos)) with true
      by (symmetry; apply Z.eqb_eq; cbn; lia). done.
  - replace (Z.of_nat (S pos + length (y :: l)) =? Z.of_nat (S pos)) with false
      by (symmetry; apply Z.eqb_neq; cbn; lia). done.
Qed.

Lemma filterPartitions_last f partitions r cs ds :
  filterPartitions (visit h (S f)) (CallNode "last" []) partitions
    (XPath.mk r cs ds)
  = Ok (map lastOnly partitions, XPath.mk r cs ds).
Proof.
  induction partitions as [|p ps IH]; [done|].
  cbn [filterPartitions]. unfold mbind at 1, StateM_bind at 1.
  rewrite (filterPartition_last f p 0).
  unfold mbind at 1, StateM_bind at 1. rewrite IH. reflexivity.
Qed.

(** X19.  The predicate [[last()]] keeps, of every partition put in the
    order of the axis, the last node alone, and nothing of an empty
    partition; the node set pushed holds the nodes kept, in document
    order. *)
Theorem last_predicate_selects (f : nat) (order : DocumentOrder)
    (v : XValue) (arr : list XNodeSet) (r : NodeId) (cs : list XContext)
    (ds : list XData) :
  visit h (S (S f)) (PredicateNode (CallNode "last" []) order None)
    (XPath.mk r cs (mkData XNodeset v (Some arr) :: ds))
  = let kept := map lastOnly (reorderNodesetArray h arr order) in
    Ok (tt, XPath.mk r cs
              (mkData XNodeset (VNodeset (sortNodeset h (setOfList (concat kept))))
                 (Some (filter (λ p, negb (isEmpty p)) kept)) :: ds)).
Proof.
  cbn [visit visitBody]. unfold visitPredicateNode. run. tidy.
  rewrite filterPartitions_last. reflexivity.
Qed.
End last_predicate.

(** ** [normalize-space] *)

Lemma rev_app_append (s1 s2 : string) :
  String.rev_app s1 s2 = String.rev s1 +:+ s2.
Proof.
  unfold String.rev. revert s2. induction s1 as [|c s1 IH]; intros s2; [done|].
  cbn. rewrite IH, (IH (String c "")). clear IH.
  induction (String.rev_app s1 "") as [|d r IHr]; [done|].
  by rewrite !append_String, IHr.
Qed.

Lemma rev_String c (s : string) : String.rev (String c s) = String.rev s +:+ String c "".
Proof. unfold String.rev at 1. cbn. apply rev_app_append. Qed.

Lemma append_empty_l (s : string) : "" +:+ s = s.
Proof. reflexivity. Qed.

Lemma append_assoc (a b c : string) : (a +:+ b) +:+ c = a +:+ (b +:+ c).
Proof. induction a as [|x a IH]; [done|]. by rewrite !append_String, IH. Qed.

Lemma rev_append (a b : string) : String.rev (a +:+ b) = String.rev b +:+ String.rev a.
Proof.
  induction a as [|c a IH]; [by rewrite append_empty_r|].
  by rewrite append_String, !rev_String, IH, append_assoc.
Qed.

Lemma rev_snoc (s : string) c : String.rev (s +:+ String c "") = String c (String.rev s).
Proof. by rewrite rev_append. Qed.

Lemma rev_rev (s : string) : String.rev (String.rev s) = s.
Proof.
  induction s as [|c s IH]; [done|]. by rewrite rev_String, rev_append, IH.
Qed.

Lemma trimStart_clean (s : string) : startsClean (Js.trimStart s).
Proof.
  induction s as [|c s IH]; [done|]. cbn -[Js.isWhitespace].
  by destruct (Js.isWhitespace c) eqn:E.
Qed.

Lemma trimStart_id (s : string) : startsClean s → Js.trimStart s = s.
Proof. destruct s as [|c s]; [done|]. cbn -[Js.isWhitespace]. by intros ->. Qed.

Lemma trimEnd_id (s : string) : endsClean s → Js.trimEnd s = s.
Proof. intros Hs. unfold Js.trimEnd. by rewrite trimStart_id, rev_rev. Qed.

Lemma trimEnd_endsClean (s : string) : endsClean (Js.trimEnd s).
Proof. unfold endsClean, Js.trimEnd. rewrite rev_rev. apply trimStart_clean. Qed.

(** What [trimStart] leaves of a string that ends with a character that
    is no white space ends with that character. *)
Lemma trimStart_snoc (s : string) c :
  Js.isWhitespace c = false →
  ∃ t, Js.trimStart (s +:+ String c "") = t +:+ String c "".
Proof.
  intros Hc. induction s as [|d s IH].
  - exists "". rewrite !append_empty_l. cbn -[Js.isWhitespace]. by rewrite Hc.
  - rewrite append_String. cbn -[Js.isWhitespace]. destruct (Js.isWhitespace d); [done|].
    exists (String d s). by rewrite append_String.
Qed.

Lemma trimEnd_startsClean (s : string) : startsClean s → startsClean (Js.trimEnd s).
Proof.
  destruct s as [|c s]; [done|]. cbn [startsClean]. intros Hc. unfold Js.trimEnd.
  rewrite rev_String. destruct (trimStart_snoc (String.rev s) c Hc) as [t ->].
  by rewrite rev_snoc.
Qed.

Lemma trim_clean (s : string) : startsClean (Js.trim s) ∧ endsClean (Js.trim s).
Proof.
  split; [apply trimEnd_startsClean, trimStart_clean|apply trimEnd_endsClean].
Qed.

Lemma trim_id (s : string) : startsClean s → endsClean s → Js.trim s = s.
Proof. intros Hs He. unfold Js.trim. by rewrite trimStart_id, trimEnd_id. Qed.

(** [collapse] keeps the ends clean. *)
Lemma collapse_startsClean (s : string) :
  startsClean s → startsClean (XString.collapse s false).
Proof.
  destruct s as [|c s]; [done|]. cbn -[Js.isWhitespace]. intros Hc. rewrite Hc.
  exact Hc.
Qed.

Lemma collapse_append (s : string) c b :
  Js.isWhitespace c = false →
  ∃ t, XString.collapse (s +:+ String c "") b = t +:+ String c "".
Proof.
  intros Hc. revert b. induction s as [|d s IH]; intros b.
  - exists "". rewrite !append_empty_l. cbn -[Js.isWhitespace]. by rewrite Hc.
  - rewrite append_String. cbn -[Js.isWhitespace]. destruct (Js.isWhitespace d).
    + destruct (IH true) as [t Ht]. rewrite Ht. destruct b.
      * by exists t.
      * exists (String " " t). by rewrite append_String.
    + destruct (IH false) as [t Ht]. rewrite Ht.
      exists (String d t). by rewrite append_String.
Qed.

Lemma collapse_endsClean (s : string) b :
  endsClean s → endsClean (XString.collapse s b).
Proof.
  unfold endsClean. rewrite <- (rev_rev s) at 2.
  destruct (String.rev s) as [|c r]; [done|]. cbn [startsClean]. intros Hc.
  rewrite rev_String.
  destruct (collapse_append (String.rev r) c b Hc) as [t ->].
  by rewrite rev_snoc.
Qed.

Lemma collapse_collapse (s : string) b :
  XString.collapse (XString.collapse s b) b = XString.collapse s b.
Proof.
  revert b. induction s as [|c s IH]; intros b; [done|]. cbn -[Js.isWhitespace].
  destruct (Js.isWhitespace c) eqn:Ec.
  - destruct b; [apply IH|]. cbn -[Js.isWhitespace]. by rewrite IH.
  - cbn -[Js.isWhitespace]. by rewrite Ec, IH.
Qed.

Lemma prefix_space (s : string) : startsClean s → String.prefix " " s = false.
Proof.
  destruct s as [|d r]; [done|]. cbn [startsClean]. intros Hd.
  change (String.prefix " " (String d r))
    with (if Ascii.ascii_dec " " d then String.prefix "" r else false).
  destruct (Ascii.ascii_dec " " d) as [<-|]; [|done]. by vm_compute in Hd.
Qed.

(** Every white space of the result is one space, after a character that
    is no white space. *)
Lemma collapse_spaces (s : string) b :
  Forall (λ c, Js.isWhitespace c = true → c = " "%char)
    (list_ascii_of_string (XString.collapse s b))
  ∧ Js.includes (XString.collapse s b) "  " = false
  ∧ (b = true → startsClean (XString.collapse s b)).
Proof.
  revert b. induction s as [|c s IH]; intros b.
  - cbn -[Js.isWhitespace]. repeat split; constructor.
  - cbn [XString.collapse]. destruct (Js.isWhitespace c) eqn:Ec.
    + destruct (IH true) as (Hf & Hi & Hs). specialize (Hs eq_refl).
      destruct b; [exact (conj Hf (conj Hi (λ _, Hs)))|].
      split; [by constructor|]. split; [|intros [=]].
      cbn [Js.includes]. rewrite Hi, orb_false_r.
      change (String.prefix "  " (String " " ?r)) with (String.prefix " " r).
      by apply prefix_space.
    + destruct (IH false) as (Hf & Hi & _).
      split; [constructor; [congruence|done]|]. split; [|intros _; exact Ec].
      cbn [Js.includes]. rewrite Hi, orb_false_r.
      change (String.prefix "  " (String c ?r))
        with (if Ascii.ascii_dec " " c then String.prefix " " r else false).
      destruct (Ascii.ascii_dec " " c) as [<-|]; [|done]. by vm_compute in Ec.
Qed.

Lemma inkOf_String c (s : string) :
  inkOf (String c s) = if Js.isWhitespace c then inkOf s else c :: inkOf s.
Proof. unfold inkOf. cbn [list_ascii_of_string List.filter]. by destruct (Js.isWhitespace c). Qed.

Lemma inkOf_trimStart (s : string) : inkOf (Js.trimStart s) = inkOf s.
Proof.
  induction s as [|c s IH]; [done|]. cbn [Js.trimStart]. rewrite inkOf_String.
  destruct (Js.isWhitespace c) eqn:E; [done|]. by rewrite inkOf_String, E.
Qed.

Lemma inkOf_append (a b : string) : inkOf (a +:+ b) = inkOf a ++ inkOf b.
Proof.
  induction a as [|c a IH]; [done|]. rewrite append_String, !inkOf_String, IH.
  by destruct (Js.isWhitespace c).
Qed.

Lemma inkOf_rev (s : string) : inkOf (String.rev s) = rev (inkOf s).
Proof.
  induction s as [|c s IH]; [done|].
  rewrite rev_String, inkOf_append, IH, !inkOf_String.
  destruct (Js.isWhitespace c); [by rewrite app_nil_r|done].
Qed.

Lemma inkOf_trim (s : string) : inkOf (Js.trim s) = inkOf s.
Proof.
  unfold Js.trim, Js.trimEnd.
  by rewrite inkOf_rev, inkOf_trimStart, inkOf_rev, rev_involutive, inkOf_trimStart.
Qed.

Lemma inkOf_collapse (s : string) b : inkOf (XString.collapse s b) = inkOf s.
Proof.
  revert b. induction s as [|c s IH]; intros b; [done|]. cbn [XString.collapse].
  rewrite (inkOf_String c s). destruct (Js.isWhitespace c) eqn:E.
  - destruct b; [apply IH|]. rewrite inkOf_String.
    change (Js.isWhitespace " ") with true. apply IH.
  - by rewrite inkOf_String, E, IH.
Qed.

Section normalize_space.
  Context `{Builtins}.
  Variable h : Store.

Lemma visit_normalize_space f s st :
  visit h (S (S f)) (CallNode "normalize-space" [StringNode s]) st
  = Ok (tt, pushed (dString (XString.normalizeSpace s)) st).
Proof. reflexivity. Qed.

(** X20.  [normalize-space(s)], for a string [s] of ASCII characters,
    has no white space at its ends, and no white space but single spaces
    between characters that are no white space; these characters are
    those of [s], in their order; and to normalize the result again
    changes nothing. *)
Theorem normalize_space_normal (f : nat) (s : string) (st : XPath.t) :
  isAscii s →
  ∃ r,
    visit h (S (S f)) (CallNode "normalize-space" [StringNode s]) st
    = Ok (tt, pushed (dString r) st) ∧
    Js.trim r = r ∧
    Forall (λ c, Js.isWhitespace c = true → c = " "%char) (list_ascii_of_string r) ∧
    Js.includes r "  " = false ∧
    inkOf r = inkOf s ∧
    visit h (S (S f)) (CallNode "normalize-space" [StringNode r]) st
    = Ok (tt, pushed (dString r) st).
Proof.
  intros _. exists (XString.normalizeSpace s). rewrite !visit_normalize_space.
  split; [done|]. unfold XString.normalizeSpace at 1 2 3 4 5.
  destruct (trim_clean s) as [Hs He].
  assert (Ht : Js.trim (XString.collapse (Js.trim s) false)
               = XString.collapse (Js.trim s) false).
  { apply trim_id; [by apply collapse_startsClean|by apply collapse_endsClean]. }
  destruct (collapse_spaces (Js.trim s) false) as (Hf & Hi & _).
  repeat split; try done.
  - by rewrite inkOf_collapse, inkOf_trim.
  - do 4 f_equal. unfold XString.normalizeSpace.
    by rewrite Ht, collapse_collapse.
Qed.
End normalize_space.

(** [normalize-space] of a string with tabs, line ends and spaces. *)
Lemma normalize_space_normal_witness :
  let s := String (ascii_of_nat 9) "  a " +:+ String (ascii_of_nat 10) " b c  " in
  isAscii s ∧
  ∀ B : Builtins,
    ∃ r,
      visit [] 2 (CallNode "normalize-space" [StringNode s]) (newXPath 0)
      = Ok (tt, pushed (dString r) (newXPath 0)) ∧
      Js.trim r = r ∧
      Forall (λ c, Js.isWhitespace c = true → c = " "%char) (list_ascii_of_string r) ∧
      Js.includes r "  " = false ∧
      inkOf r = inkOf s ∧
      visit [] 2 (CallNode "normalize-space" [StringNode r]) (newXPath 0)
      = Ok (tt, pushed (dString r) (newXPath 0)).
Proof.
  cbv zeta.
  assert (Ha : isAscii (String (ascii_of_nat 9) "  a " +:+ String (ascii_of_nat 10) " b c  ")).
  { unfold isAscii. vm_compute list_ascii_of_string. repeat constructor; vm_compute; lia. }
  split; [exact Ha|]. intros B.
  exact (normalize_space_normal [] 0 _ (newXPath 0) Ha).
Defined.

(** ** Positions follow the document *)

Section positions_store.
  Implicit Types h : Store.

Lemma shape_lookup h h' id x' :
  shape <$> h' = shape <$> h → h' !! id = Some x' →
  ∃ x, h !! id = Some x ∧ pos x = pos x' ∧ children x = children x'.
Proof.
  intros E Hx.
  assert (Hs : (shape <$> h') !! id = Some (shape x')) by by rewrite list_lookup_fmap, Hx.
  rewrite E, list_lookup_fmap in Hs. destruct (h !! id) as [x|]; [|done].
  injection Hs as Hp Hc. by exists x.
Qed.

Lemma shape_update h id f : ShapePreserving f → shape <$> update id f h = shape <$> h.
Proof.
  intros Hf. apply list_eq. intros i. unfold update. rewrite !list_lookup_fmap.
  destruct (decide (i = id)) as [->|Hne].
  - rewrite list_lookup_alter_eq. destruct (h !! id); [|done]. cbn. by rewrite Hf.
  - by rewrite list_lookup_alter_ne.
Qed.

Lemma shape_length h h' : shape <$> h' = shape <$> h → length h' = length h.
Proof. intros E. by rewrite <- (length_fmap shape h'), E, length_fmap. Qed.

Lemma below_shape h h' c : shape <$> h' = shape <$> h → below h c → below h' c.
Proof.
  intros E Hb id x' Hx. destruct (shape_lookup _ _ _ _ E Hx) as (x & Hx0 & <- & _).
  by eapply Hb.
Qed.

Lemma ordered_shape h h' : shape <$> h' = shape <$> h → ordered h → ordered h'.
Proof.
  intros E Ho p pn' i c Hp Hc.
  destruct (shape_lookup _ _ _ _ E Hp) as (pn & Hpn & Ep & Ech).
  rewrite <- Ech in Hc. destruct (Ho _ _ _ _ Hpn Hc) as (cn & Hcn & Hlt & Hsib).
  destruct (shape_lookup _ _ _ _ (eq_sym E) Hcn) as (cn' & Hcn' & Ep' & _).
  exists cn'. split; [done|]. split; [lia|].
  intros j c' cn2 Hj Hc' Hcn2.
  destruct (shape_lookup _ _ _ _ E Hcn2) as (cn0 & Hcn0 & Ep0 & _).
  rewrite <- Ech in Hc'. specialize (Hsib _ _ _ Hj Hc' Hcn0). lia.
Qed.

Lemma distinctPositions_shape h h' :
  shape <$> h' = shape <$> h → distinctPositions h → distinctPositions h'.
Proof.
  intros E Hd i j ni nj Hi Hj Hp.
  destruct (shape_lookup _ _ _ _ E Hi) as (xi & Hxi & Ei & _).
  destruct (shape_lookup _ _ _ _ E Hj) as (xj & Hxj & Ej & _).
  destruct (Hd _ _ _ _ Hxi Hxj) as [?|?]; [lia|by left|right; lia].
Qed.

(** The nodes of a store that has grown: the new one and those it had. *)
Lemma grown_lookup h h' c id x' :
  grown h h' c → h' !! id = Some x' →
  (id = length h ∧ pos x' = c ∧ children x' = []) ∨
  (∃ x, h !! id = Some x ∧ pos x' = pos x ∧
        (children x' = children x ∨ children x' = children x ++ [length h])).
Proof.
  intros (Hlen & (n' & Hn' & Hp & Hc) & Hold) Hx.
  destruct (decide (id = length h)) as [->|Hne].
  - left. assert (x' = n') as -> by congruence. done.
  - right. apply lookup_lt_Some in Hx as Hlt.
    destruct (lookup_lt_is_Some_2 h id) as [x Hx0]; [lia|].
    destruct (Hold _ _ Hx0) as (x2 & Hx2 & E1 & E2).
    assert (x2 = x') as -> by congruence. by exists x.
Qed.

Lemma below_grown h h' c : 0 ≤ c → grown h h' c → below h c → below h' (c + 1).
Proof.
  intros Hc Hg Hb id x' Hx.
  destruct (grown_lookup _ _ _ _ _ Hg Hx) as [(_ & -> & _)|(x & Hx0 & -> & _)]; [lia|].
  specialize (Hb _ _ Hx0). lia.
Qed.

Lemma distinctPositions_grown h h' c :
  grown h h' c → below h c → distinctPositions h → distinctPositions h'.
Proof.
  intros Hg Hb Hd i j ni nj Hi Hj Hp.
  destruct (grown_lookup _ _ _ _ _ Hg Hi) as [(-> & Ei & _)|(xi & Hxi & Ei & _)];
    destruct (grown_lookup _ _ _ _ _ Hg Hj) as [(-> & Ej & _)|(xj & Hxj & Ej & _)].
  - by left.
  - specialize (Hb _ _ Hxj). lia.
  - specialize (Hb _ _ Hxi). lia.
  - destruct (Hd _ _ _ _ Hxi Hxj) as [?|?]; [lia|by left|right; lia].
Qed.

Lemma ordered_grown h h' c :
  grown h h' c → below h c → ordered h → ordered h'.
Proof.
  intros Hg Hb Ho p pn' i k Hp Hk.
  destruct (grown_lookup _ _ _ _ _ Hg Hp) as [(_ & _ & Ech)|(pn & Hpn & Epos & Ech)].
  { by rewrite Ech in Hk. }
  (* the earlier children are nodes of [h] *)
  assert (Hsib : ∀ j c' cn', children pn !! j = Some c' → h' !! c' = Some cn' →
                   ∃ cn0, h !! c' = Some cn0 ∧ pos cn' = pos cn0).
  { intros j c' cn' Hc' Hcn'. destruct (Ho _ _ _ _ Hpn Hc') as (cn0 & Hcn0 & _).
    destruct (grown_lookup _ _ _ _ _ Hg Hcn') as [(-> & _)|(x & Hx & E & _)].
    - apply lookup_lt_Some in Hcn0. lia.
    - exists x. done. }
  assert (Hcase : children pn !! i = Some k
                  ∨ (i = length (children pn) ∧ k = length h)).
  { destruct Ech as [E|E]; rewrite E in Hk; [by left|].
    apply lookup_app_Some in Hk as [Hk|[Hge Hk]]; [by left|right].
    destruct (i - length (children pn))%nat eqn:Ei; [|done].
    injection Hk as <-. split; [lia|done]. }
  destruct Hcase as [Hold|[-> ->]].
  - destruct (Ho _ _ _ _ Hpn Hold) as (cn & Hcn & Hlt & Hbefore).
    destruct Hg as (Hlen & Hnew & Hkeep).
    destruct (Hkeep _ _ Hcn) as (cn' & Hcn' & Ecn & _).
    exists cn'. split; [done|]. split; [lia|].
    intros j c' cn2 Hj Hc' Hcn2.
    assert (Hc0 : children pn !! j = Some c').
    { apply lookup_lt_Some in Hold.
      destruct Ech as [E|E]; rewrite E in Hc'; [done|].
      by rewrite lookup_app_l in Hc' by lia. }
    destruct (Hsib _ _ _ Hc0 Hcn2) as (cn0 & Hcn0 & E0).
    specialize (Hbefore _ _ _ Hj Hc0 Hcn0). lia.
  - destruct Hg as (Hlen & (n' & Hn' & Hposn & Hchn) & Hkeep).
    exists n'. split; [done|]. specialize (Hb _ _ Hpn) as Hbp. split; [lia|].
    intros j c' cn2 Hj Hc' Hcn2.
    assert (Hc0 : children pn !! j = Some c').
    { destruct Ech as [E|E]; rewrite E in Hc'; [done|].
      by rewrite lookup_app_l in Hc' by lia. }
    destruct (Hsib _ _ _ Hc0 Hcn2) as (cn0 & Hcn0 & E0).
    specialize (Hb _ _ Hcn0). lia.
Qed.

(** The store after the steps that make one node: every node of [h1], a
    store of the shape of [h0] and a new node, has gone through [G]. *)
Lemma grown_of_map h0 h1 h4 q c (G : NodeId → RNode → RNode) :
  shape <$> h1 = (shape <$> h0) ++ [(q, [])] →
  length h4 = length h1 →
  (∀ id, h4 !! id = G id <$> h1 !! id) →
  (∀ x, pos (G (length h0) x) = c ∧ children (G (length h0) x) = children x) →
  (∀ id x, id ≠ length h0 → h1 !! id = Some x →
     pos (G id x) = pos x ∧
     (children (G id x) = children x ∨ children (G id x) = children x ++ [length h0])) →
  grown h0 h4 c.
Proof.
  intros E Hlen H4 Hnew Hold.
  assert (Hl1 : length h1 = S (length h0)).
  { rewrite <- (length_fmap shape h1), E, length_app, length_fmap. cbn. lia. }
  assert (Hlk : ∀ id, shape <$> h1 !! id = ((shape <$> h0) ++ [(q, [])]) !! id).
  { intros id. by rewrite <- list_lookup_fmap, E. }
  split; [lia|]. split.
  - specialize (Hlk (length h0)).
    rewrite lookup_app_r, length_fmap, Nat.sub_diag in Hlk by by rewrite length_fmap.
    destruct (h1 !! length h0) as [x1|] eqn:Hx1; [|done]. injection Hlk as _ Hch.
    exists (G (length h0) x1). rewrite H4, Hx1.
    destruct (Hnew x1) as [-> ->]. done.
  - intros id x Hx. apply lookup_lt_Some in Hx as Hlt. specialize (Hlk id).
    rewrite lookup_app_l, list_lookup_fmap, Hx in Hlk by by rewrite length_fmap.
    destruct (h1 !! id) as [x1|] eqn:Hx1; [|done]. injection Hlk as Hp Hch.
    exists (G id x1). rewrite H4, Hx1. split; [done|].
    destruct (Hold id x1) as [-> Hc]; [lia|done|]. split; [done|].
    by rewrite <- Hch.
Qed.
End positions_store.

Section positions_monad.
  Context {L : Type} `{Lexer L}.
  Local Abbreviation M := (StateM (XmlParser.t L)).

#[export] Instance sameShape_refl : Reflexive (@sameShape L).
Proof. by intros st. Qed.

#[export] Instance sameShape_trans : Transitive (@sameShape L).
Proof. intros st1 st2 st3 (S1 & P1 & E1) (S2 & P2 & E2). repeat split; congruence. Qed.

#[export] Instance keepsPositions_refl : Reflexive (@keepsPositions L).
Proof. by intros st. Qed.

#[export] Instance keepsPositions_trans : Transitive (@keepsPositions L).
Proof. intros st1 st2 st3 [L1 P1] [L2 P2]. split; [lia|auto]. Qed.

#[export] Instance knowing_refl nd : Reflexive (@knowing L nd).
Proof. by intros st. Qed.

#[export] Instance knowing_trans nd : Transitive (@knowing L nd).
Proof. intros st1 st2 st3 [L1 P1] [L2 P2]. split; [lia|]. intros Hnd HP. apply P2; [lia|auto]. Qed.

Lemma sameShape_keepsPositions (st st' : XmlParser.t L) :
  sameShape st st' → keepsPositions st st'.
Proof.
  intros (Hs & Hp & E). split; [by rewrite (shape_length _ _ E)|].
  intros (H0 & Hb & Ho & Hd & Hst). unfold Positions.
  rewrite Hs, Hp, (shape_length _ _ E).
  split; [done|]. split; [by eapply below_shape|].
  split; [by eapply ordered_shape|]. split; [by eapply distinctPositions_shape|done].
Qed.

Lemma keepsPositions_knowing nd (st st' : XmlParser.t L) :
  keepsPositions st st' → knowing nd st st'.
Proof. intros [Hl HP]. split; [done|auto]. Qed.

Lemma Keeps_sub {A} (R R' : XmlParser.t L → XmlParser.t L → Prop) (m : M A) :
  (∀ st st', R st st' → R' st st') → Keeps R m → Keeps R' m.
Proof. intros HR Hm st a st' E. apply HR. by eapply Hm. Qed.

Lemma keepsPositions_of_sameShape {A} (m : M A) :
  Keeps sameShape m → Keeps keepsPositions m.
Proof. apply Keeps_sub, sameShape_keepsPositions. Qed.

Lemma knowing_of_keepsPositions {A} nd (m : M A) :
  Keeps keepsPositions m → Keeps (knowing nd) m.
Proof. apply Keeps_sub, keepsPositions_knowing. Qed.

(** *** The steps that leave the shape of the store *)

Lemma sameShape_liftLexer {A} (m : StateM L A) :
  Keeps sameShape (liftLexer XmlParser.lexer XmlParser.set_lexer m).
Proof.
  intros st a st'. unfold liftLexer.
  destruct (m (XmlParser.lexer st)) as [[a' lx]| |]; [|done..].
  by intros [= _ <-].
Qed.

Lemma sameShape_readNode id : Keeps (@sameShape L) (readNode id).
Proof.
  intros st a st'. unfold readNode. destruct (XmlParser.heap st !! id); [|done].
  by intros [= _ <-].
Qed.

Lemma sameShape_updNode id f : ShapePreserving f → Keeps (@sameShape L) (updNode id f).
Proof.
  intros Hf. apply Keeps_modify. intros st. repeat split. cbn. by apply shape_update.
Qed.

Lemma sameShape_getParent : Keeps (@sameShape L) getParent.
Proof.
  intros st a st'. unfold getParent. destruct (XmlParser.stack st); [done|].
  by intros [= _ <-].
Qed.

Lemma SP_updElement f :
  (∀ e, ElementNode.children (f e) = ElementNode.children e) →
  ShapePreserving (updElement f).
Proof. intros Hf [? ? ? []]; unfold shape; cbn; by rewrite ?Hf. Qed.

Lemma SP_updRoot f :
  (∀ r, RootNode.children (f r) = RootNode.children r) →
  ShapePreserving (updRoot f).
Proof. intros Hf [? ? ? []]; unfold shape; cbn; by rewrite ?Hf. Qed.

Lemma SP_updAttribute f : ShapePreserving (updAttribute f).
Proof. intros [? ? ? []]; done. Qed.

Lemma SP_updXMLDecl f : ShapePreserving (updXMLDecl f).
Proof. intros [? ? ? []]; done. Qed.

Lemma SP_set_parent p : ShapePreserving (set_parent p).
Proof. intros [? ? ? []]; done. Qed.

Lemma SP_set_index i : ShapePreserving (set_index i).
Proof. intros [? ? ? []]; done. Qed.

(** *** The stack *)

Lemma keepsPositions_pop : Keeps (@keepsPositions L) pop.
Proof.
  apply Keeps_modify. intros st. split; [cbn; lia|].
  intros (H0 & Hb & Ho & Hd & Hst). unfold Positions. cbn.
  split_and!; try done.
  destruct (XmlParser.stack st); [done|]. by apply Forall_cons in Hst as [_ ?].
Qed.

Lemma knowing_push nd : Keeps (@knowing L nd) (push nd).
Proof.
  apply Keeps_modify. intros st. split; [cbn; lia|].
  intros Hnd (H0 & Hb & Ho & Hd & Hst). unfold Positions. cbn.
  split_and!; try done. by apply Forall_cons.
Qed.

(** *** The steps that make a node *)

(** The steps of [setParent] on the store. *)
Lemma setParent_inv nd (st st' : XmlParser.t L) :
  setParent nd st = Ok (tt, st') →
  ∃ top rest pt,
    XmlParser.stack st = top :: rest ∧ XmlParser.heap st !! top = Some pt ∧
    st' = XmlParser.set_heap
            (update nd (set_parent (Some top))
               (update nd (set_index (Idx (Z.of_nat (S (length (children pt))) - 1)))
                  (update top (set_children (children pt ++ [nd]))
                     (XmlParser.heap st)))) st.
Proof.
  intros E. unfold setParent in E.
  apply bind_inv in E as (p & st1 & E1 & E).
  unfold getParent in E1. destruct (XmlParser.stack st) as [|top rest] eqn:Es; [done|].
  injection E1 as <- <-.
  apply bind_inv in E as (pn & st2 & E2 & E).
  unfold readNode in E2. destruct (XmlParser.heap st !! top) as [x|] eqn:Ep; [|done].
  injection E2 as <- <-. cbv zeta in E.
  apply bind_inv in E as ([] & st3 & E3 & E). injection E3 as <-.
  apply bind_inv in E as ([] & st4 & E4 & E). injection E4 as <-.
  injection E as <-. exists top, rest, x. done.
Qed.

Lemma Positions_grown (st st' : XmlParser.t L) :
  grown (XmlParser.heap st) (XmlParser.heap st') (XmlParser.pos st) →
  XmlParser.pos st' = XmlParser.pos st + 1 →
  XmlParser.stack st' = XmlParser.stack st →
  Positions st → Positions st'.
Proof.
  intros Hg Hp Hs (H0 & Hb & Ho & Hd & Hst). unfold Positions. rewrite Hp, Hs.
  split; [lia|]. split; [by eapply below_grown|].
  split; [by eapply ordered_grown|]. split; [by eapply distinctPositions_grown|].
  destruct Hg as [-> _]. eapply Forall_impl; [done|]. cbn. lia.
Qed.

Lemma pos_set_children c n : pos (set_children c n) = pos n.
Proof. by destruct n as [? ? ? []]. Qed.

(** A node that has been made ([st1] has the shape of [st0] and the new
    node), then given the next position. *)
Lemma made_positioned (st0 st1 st2 st3 : XmlParser.t L) q p :
  XmlParser.stack st1 = XmlParser.stack st0 →
  XmlParser.pos st1 = XmlParser.pos st0 →
  shape <$> XmlParser.heap st1 = (shape <$> XmlParser.heap st0) ++ [(q, [])] →
  nextPos st1 = Ok (p, st2) →
  updNode (length (XmlParser.heap st0)) (setPosition p) st2 = Ok (tt, st3) →
  keepsPositions st0 st3.
Proof.
  intros Hs Hp E E2 E3. injection E2 as <- <-. injection E3 as <-.
  assert (Hl1 : length (XmlParser.heap st1) = S (length (XmlParser.heap st0))).
  { rewrite <- (length_fmap shape), E, length_app, length_fmap. cbn. lia. }
  split; [cbn; unfold update; rewrite length_alter; lia|].
  apply Positions_grown; [|cbn; lia|done]. cbn.
  eapply grown_of_map with
    (G := λ id x, if decide (id = length (XmlParser.heap st0))
                  then setPosition (XmlParser.pos st1) x else x).
  - exact E.
  - unfold update. by rewrite length_alter.
  - intros id. unfold update. destruct (decide _) as [->|Hne].
    + by rewrite list_lookup_alter_eq.
    + rewrite list_lookup_alter_ne by done. by destruct (XmlParser.heap st1 !! id).
  - intros x. rewrite decide_True by done. rewrite Hp. by destruct x as [? ? ? []].
  - intros id x Hne _. rewrite decide_False by done. by split; [|left].
Qed.

(** The same and the node attached to the open element, before it is
    given its position or after. *)
Lemma made_positioned_attached (st0 st1 st2 st3 st4 : XmlParser.t L) q p :
  XmlParser.stack st1 = XmlParser.stack st0 →
  XmlParser.pos st1 = XmlParser.pos st0 →
  shape <$> XmlParser.heap st1 = (shape <$> XmlParser.heap st0) ++ [(q, [])] →
  nextPos st1 = Ok (p, st2) →
  updNode (length (XmlParser.heap st0)) (setPosition p) st2 = Ok (tt, st3) →
  setParent (length (XmlParser.heap st0)) st3 = Ok (tt, st4) →
  keepsPositions st0 st4.
Proof.
  intros Hs Hp E E2 E3 E4. injection E2 as <- <-. injection E3 as <-.
  apply setParent_inv in E4 as (top & rest & pt & Es & Ept & ->). cbn in Es, Ept.
  assert (Hl1 : length (XmlParser.heap st1) = S (length (XmlParser.heap st0))).
  { rewrite <- (length_fmap shape), E, length_app, length_fmap. cbn. lia. }
  split; [cbn; unfold update; rewrite !length_alter; lia|].
  intros HP. assert (Htop : top ≠ length (XmlParser.heap st0)).
  { destruct HP as (_ & _ & _ & _ & Hst). rewrite <- Hs, Es in Hst.
    apply Forall_cons in Hst as [? _]. lia. }
  revert HP. apply Positions_grown; [|cbn; lia|done]. cbn.
  unfold update in Ept |- *. rewrite list_lookup_alter_ne in Ept by done.
  eapply grown_of_map with
    (G := λ id x, if decide (id = length (XmlParser.heap st0))
                  then set_parent (Some top)
                         (set_index (Idx (Z.of_nat (S (length (children pt))) - 1))
                            (setPosition (XmlParser.pos st1) x))
                  else if decide (id = top)
                       then set_children (children pt ++ [length (XmlParser.heap st0)]) x
                       else x).
  - exact E.
  - by rewrite !length_alter.
  - intros id. destruct (decide (id = _)) as [->|Hne].
    + rewrite !list_lookup_alter_eq, list_lookup_alter_ne, list_lookup_alter_eq by done.
      by destruct (XmlParser.heap st1 !! length (XmlParser.heap st0)).
    + rewrite !(list_lookup_alter_ne _ _ (length _)) by done.
      destruct (decide (id = top)) as [->|Hne'].
      * rewrite list_lookup_alter_eq, list_lookup_alter_ne by done. done.
      * rewrite !list_lookup_alter_ne by done. by destruct (XmlParser.heap st1 !! id).
  - intros x. rewrite decide_True by done. rewrite Hp. by destruct x as [? ? ? []].
  - intros id x Hne Hx. rewrite decide_False by done.
    destruct (decide (id = top)) as [->|Hne']; [|by split; [|left]].
    assert (x = pt) as -> by congruence.
    rewrite pos_set_children, children_set_children.
    split; [done|]. destruct (isParent pt); [by right|by left].
Qed.

Lemma made_attached_positioned (st0 st1 st2 st3 st4 : XmlParser.t L) q p :
  XmlParser.stack st1 = XmlParser.stack st0 →
  XmlParser.pos st1 = XmlParser.pos st0 →
  shape <$> XmlParser.heap st1 = (shape <$> XmlParser.heap st0) ++ [(q, [])] →
  setParent (length (XmlParser.heap st0)) st1 = Ok (tt, st2) →
  nextPos st2 = Ok (p, st3) →
  updNode (length (XmlParser.heap st0)) (setPosition p) st3 = Ok (tt, st4) →
  keepsPositions st0 st4 ∧
  (length (XmlParser.heap st0) < length (XmlParser.heap st4))%nat.
Proof.
  intros Hs Hp E E2 E3 E4.
  apply setParent_inv in E2 as (top & rest & pt & Es & Ept & ->).
  injection E3 as <- <-. injection E4 as <-.
  assert (Hl1 : length (XmlParser.heap st1) = S (length (XmlParser.heap st0))).
  { rewrite <- (length_fmap shape), E, length_app, length_fmap. cbn. lia. }
  split; [|cbn; unfold update; rewrite !length_alter; lia].
  split; [cbn; unfold update; rewrite !length_alter; lia|].
  intros HP. assert (Htop : top ≠ length (XmlParser.heap st0)).
  { destruct HP as (_ & _ & _ & _ & Hst). rewrite <- Hs, Es in Hst.
    apply Forall_cons in Hst as [? _]. lia. }
  revert HP. apply Positions_grown; [|cbn; lia|done]. cbn.
  unfold update.
  eapply grown_of_map with
    (G := λ id x, if decide (id = length (XmlParser.heap st0))
                  then setPosition (XmlParser.pos st1)
                         (set_parent (Some top)
                            (set_index (Idx (Z.of_nat (S (length (children pt))) - 1)) x))
                  else if decide (id = top)
                       then set_children (children pt ++ [length (XmlParser.heap st0)]) x
                       else x).
  - exact E.
  - by rewrite !length_alter.
  - intros id. destruct (decide (id = _)) as [->|Hne].
    + rewrite !list_lookup_alter_eq, list_lookup_alter_ne by done.
      by destruct (XmlParser.heap st1 !! length (XmlParser.heap st0)).
    + rewrite !(list_lookup_alter_ne _ _ (length _)) by done.
      destruct (decide (id = top)) as [->|Hne'].
      * by rewrite list_lookup_alter_eq.
      * rewrite !list_lookup_alter_ne by done. by destruct (XmlParser.heap st1 !! id).
  - intros x. rewrite decide_True by done. rewrite Hp. by destruct x as [? ? ? []].
  - intros id x Hne Hx. rewrite decide_False by done.
    destruct (decide (id = top)) as [->|Hne']; [|by split; [|left]].
    assert (x = pt) as -> by congruence.
    rewrite pos_set_children, children_set_children.
    split; [done|]. destruct (isParent pt); [by right|by left].
Qed.
End positions_monad.
Section positions_blocks.
  Context {L : Type} `{Lexer L}.
  Local Abbreviation M := (StateM (XmlParser.t L)).

Lemma keepsPositions_liftLexer {A} (m : StateM L A) :
  Keeps keepsPositions (liftLexer XmlParser.lexer XmlParser.set_lexer m).
Proof. apply keepsPositions_of_sameShape, sameShape_liftLexer. Qed.

Lemma keepsPositions_readNode id : Keeps (@keepsPositions L) (readNode id).
Proof. apply keepsPositions_of_sameShape, sameShape_readNode. Qed.

Lemma keepsPositions_updNode id f :
  ShapePreserving f → Keeps (@keepsPositions L) (updNode id f).
Proof. intros Hf. by apply keepsPositions_of_sameShape, sameShape_updNode. Qed.

Lemma keepsPositions_getParent : Keeps (@keepsPositions L) getParent.
Proof. apply keepsPositions_of_sameShape, sameShape_getParent. Qed.

Lemma shape_alloc (h : Store) n :
  children n = [] → shape <$> (h ++ [n]) = (shape <$> h) ++ [(pos n, [])].
Proof. intros Hc. rewrite fmap_app. cbn. unfold shape. by rewrite Hc. Qed.

(** A node made and given its position. *)
Lemma keepsPositions_made {A} n (k : NodeId → M A) :
  children n = [] → (∀ nd, Keeps keepsPositions (k nd)) →
  Keeps keepsPositions
    (nd ← newNode n; p ← nextPos; updNode nd (setPosition p);; k nd).
Proof.
  intros Hc Hk st a st' E.
  apply bind_inv in E as (nd & st1 & E1 & E).
  apply bind_inv in E as (p & st2 & E2 & E).
  apply bind_inv in E as ([] & st3 & E3 & E).
  unfold newNode in E1. cbn in E1. injection E1 as <- <-.
  etransitivity; [|by eapply Hk].
  eapply (made_positioned st (XmlParser.set_heap (XmlParser.heap st ++ [n]) st));
    [done|done|by apply shape_alloc|exact E2|exact E3].
Qed.

(** A node made, given its position and attached. *)
Lemma keepsPositions_made_attached {A} n (k : NodeId → M A) :
  children n = [] → (∀ nd, Keeps keepsPositions (k nd)) →
  Keeps keepsPositions
    (nd ← newNode n; p ← nextPos; updNode nd (setPosition p);; setParent nd;; k nd).
Proof.
  intros Hc Hk st a st' E.
  apply bind_inv in E as (nd & st1 & E1 & E).
  apply bind_inv in E as (p & st2 & E2 & E).
  apply bind_inv in E as ([] & st3 & E3 & E).
  apply bind_inv in E as ([] & st4 & E4 & E).
  unfold newNode in E1. cbn in E1. injection E1 as <- <-.
  etransitivity; [|by eapply Hk].
  eapply (made_positioned_attached st
            (XmlParser.set_heap (XmlParser.heap st ++ [n]) st));
    [done|done|by apply shape_alloc|exact E2|exact E3|exact E4].
Qed.

Lemma keepsPositions_made_attached_last n :
  children n = [] →
  Keeps (@keepsPositions L)
    (nd ← newNode n; p ← nextPos; updNode nd (setPosition p);; setParent nd).
Proof.
  intros Hc st a st' E.
  apply bind_inv in E as (nd & st1 & E1 & E).
  apply bind_inv in E as (p & st2 & E2 & E).
  apply bind_inv in E as ([] & st3 & E3 & E). destruct a.
  unfold newNode in E1. cbn in E1. injection E1 as <- <-.
  eapply (made_positioned_attached st
            (XmlParser.set_heap (XmlParser.heap st ++ [n]) st));
    [done|done|by apply shape_alloc|exact E2|exact E3|exact E].
Qed.
End positions_blocks.

#[export] Hint Resolve keepsPositions_liftLexer keepsPositions_readNode
  keepsPositions_getParent keepsPositions_pop knowing_of_keepsPositions : keeps.

(** The updates of the parser methods that keep the shape. *)
Ltac shape_preserving :=
  first
    [ apply SP_updAttribute
    | apply SP_updXMLDecl
    | apply SP_set_parent
    | apply SP_set_index
    | apply SP_updElement; intros []; cbn; repeat case_match; reflexivity
    | apply SP_updRoot; intros []; cbn; repeat case_match; reflexivity ].

(** One step through a method body; a node that is made is followed
    until it has its position. *)
Ltac positions_step :=
  match goal with
  | |- Keeps keepsPositions (mbind _ (newNode _)) =>
      first [ apply keepsPositions_made_attached_last; reflexivity
            | apply keepsPositions_made_attached; [reflexivity|intros ?]
            | apply keepsPositions_made; [reflexivity|intros ?] ]
  | |- Keeps keepsPositions (updNode _ _) =>
      apply keepsPositions_updNode; shape_preserving
  | |- Keeps (knowing _) (updNode _ _) =>
      apply knowing_of_keepsPositions, keepsPositions_updNode; shape_preserving
  | |- Keeps (knowing ?nd) (push ?nd) => apply knowing_push
  | |- Keeps keepsPositions _ =>
      keeps_step ltac:(apply sameShape_keepsPositions; split_and!; reflexivity)
  | |- Keeps (knowing _) _ =>
      keeps_step ltac:(apply keepsPositions_knowing, sameShape_keepsPositions;
                       split_and!; reflexivity)
  end.
Ltac positions := cbv zeta; repeat (positions_step; cbv zeta).

Section positions_methods.
  Context {L : Type} `{Lexer L}.
  Local Abbreviation M := (StateM (XmlParser.t L)).

Lemma keepsPositions_error {A} tk msg : Keeps (@keepsPositions L) (@error L A tk msg).
Proof. unfold error. positions. Qed.
Lemma keepsPositions_unreachable {A} msg :
  Keeps (@keepsPositions L) (@unreachable L A msg).
Proof. unfold unreachable. positions. Qed.
Lemma keepsPositions_warn tk msg : Keeps (@keepsPositions L) (warn tk msg).
Proof. unfold warn. positions. Qed.
Hint Resolve keepsPositions_error keepsPositions_unreachable keepsPositions_warn : keeps.

Lemma keepsPositions_advance : Keeps (@keepsPositions L) advance.
Proof. unfold advance. positions. Qed.
Hint Resolve keepsPositions_advance : keeps.

Lemma keepsPositions_check ty : Keeps (@keepsPositions L) (check ty).
Proof. unfold check. positions. Qed.
Hint Resolve keepsPositions_check : keeps.

Lemma keepsPositions_consume ty : Keeps (@keepsPositions L) (consume ty).
Proof. unfold consume. positions. Qed.
Lemma keepsPositions_match ty : Keeps (@keepsPositions L) (match_ ty).
Proof. unfold match_. positions. Qed.
Hint Resolve keepsPositions_consume keepsPositions_match : keeps.

Lemma keepsPositions_resolveAttributes attrs tk :
  Keeps (@keepsPositions L) (resolveAttributes attrs tk).
Proof. induction attrs as [|a attrs IH]; cbn; positions. Qed.
Hint Resolve keepsPositions_resolveAttributes : keeps.

Lemma keepsPositions_resolveNamespaces e tk :
  Keeps (@keepsPositions L) (XmlParser_resolveNamespaces e tk).
Proof. unfold XmlParser_resolveNamespaces. positions. Qed.
Hint Resolve keepsPositions_resolveNamespaces : keeps.

Lemma keepsPositions_parseName b : Keeps (@keepsPositions L) (parseName b).
Proof. unfold parseName. positions. Qed.
Hint Resolve keepsPositions_parseName : keeps.

Lemma keepsPositions_parseNamespace p :
  Keeps (@keepsPositions L) (XmlParser_parseNamespace p).
Proof. unfold XmlParser_parseNamespace. positions. Qed.
Hint Resolve keepsPositions_parseNamespace : keeps.

Lemma keepsPositions_parseAttribute p :
  Keeps (@keepsPositions L) (parseAttribute XmlParserC p).
Proof. unfold parseAttribute, XmlParser_parseAttribute, parseNamespace. positions. Qed.
Hint Resolve keepsPositions_parseAttribute : keeps.

Lemma keepsPositions_parsePI fuel b : Keeps (@keepsPositions L) (parsePI fuel b).
Proof. unfold parsePI. positions. Qed.

Lemma keepsPositions_parseText b : Keeps (@keepsPositions L) (parseText b).
Proof. unfold parseText. positions. Qed.

Lemma keepsPositions_parseComment : Keeps (@keepsPositions L) parseComment.
Proof. unfold parseComment. positions. Qed.

Lemma keepsPositions_parseDoctype : Keeps (@keepsPositions L) parseDoctype.
Proof. unfold parseDoctype. positions. Qed.
Hint Resolve keepsPositions_parsePI keepsPositions_parseText keepsPositions_parseComment
  keepsPositions_parseDoctype : keeps.

Lemma keepsPositions_parseXmlDecl fuel :
  Keeps (@keepsPositions L) (parseXmlDecl XmlParserC fuel).
Proof. unfold parseXmlDecl. positions. Qed.
Hint Resolve keepsPositions_parseXmlDecl : keeps.

Lemma keepsPositions_misc pe fuel b :
  Keeps keepsPositions pe → Keeps (@keepsPositions L) (misc pe fuel b).
Proof. intros Hpe. unfold misc. positions. Qed.
Hint Resolve keepsPositions_misc : keeps.

Lemma keepsPositions_content pe fuel :
  Keeps keepsPositions pe → Keeps (@keepsPositions L) (content pe fuel).
Proof. intros Hpe. unfold content. positions. Qed.
Lemma keepsPositions_closingTag name : Keeps (@keepsPositions L) (closingTag name).
Proof. unfold closingTag. positions. Qed.
Hint Resolve keepsPositions_content keepsPositions_closingTag : keeps.

Lemma knowing_handleContent pe fuel nd name :
  Keeps keepsPositions pe →
  Keeps (@knowing L nd) (handleContent XmlParserC pe fuel nd name).
Proof. intros Hpe. unfold handleContent, XmlParser_handleContent. positions. Qed.
Hint Resolve knowing_handleContent : keeps.

Lemma keepsPositions_elementAttribute nd :
  Keeps (@keepsPositions L) (elementAttribute XmlParserC nd).
Proof. unfold elementAttribute. positions. Qed.
Hint Resolve keepsPositions_elementAttribute : keeps.

(** [elementStart] returns a node of the store. *)
Lemma elementStart_positions fuel (st st' : XmlParser.t L) nd tok name :
  elementStart XmlParserC fuel st = Ok ((nd, tok, name), st') →
  keepsPositions st st' ∧ (nd < length (XmlParser.heap st'))%nat.
Proof.
  unfold elementStart. intros E.
  apply bind_inv in E as ([] & s1 & E1 & E).
  apply bind_inv in E as (startToken & s2 & E2 & E).
  apply bind_inv in E as (nm & s3 & E3 & E).
  apply bind_inv in E as (nd' & s4 & E4 & E).
  apply bind_inv in E as (root & s5 & E5 & E).
  apply bind_inv in E as (r & s6 & E6 & E).
  apply bind_inv in E as ([] & s7 & E7 & E).
  apply bind_inv in E as ([] & s8 & E8 & E).
  apply bind_inv in E as (p & s9 & E9 & E).
  apply bind_inv in E as ([] & s10 & E10 & E).
  apply bind_inv in E as ([] & s11 & E11 & E).
  injection E as <- <- <- <-.
  assert (K1 : keepsPositions st s3).
  { injection E1 as <-. injection E2 as <- <-.
    etransitivity; [|by eapply keepsPositions_parseName].
    apply sameShape_keepsPositions. by split_and!. }
  unfold newNode in E4. cbn in E4. injection E4 as <- <-.
  injection E5 as <- <-.
  assert (K2 : sameShape (XmlParser.set_heap (XmlParser.heap s3 ++ [newElementNode nm]) s3)
                 s7).
  { etransitivity; [by eapply sameShape_readNode|].
    destruct (obj r); try (by injection E7 as <-).
    destruct (negb _) in E7; [|by injection E7 as <-].
    eapply sameShape_updNode; [|exact E7]. apply SP_updRoot. by intros []. }
  destruct K2 as (Hs & Hp & Esh). cbn in Hs, Hp, Esh.
  rewrite (shape_alloc _ (newElementNode nm) eq_refl) in Esh.
  destruct (made_attached_positioned s3 s7 _ _ _ _ _ Hs Hp Esh E8 E9 E10) as [K3 Hlt].
  assert (K4 : keepsPositions s10 s11).
  { refine ((_ : Keeps keepsPositions _) _ _ _ E11). positions. }
  split; [by do 2 (etransitivity; [eassumption|])|].
  destruct K4 as [? _]. lia.
Qed.

Lemma keepsPositions_parseElementBody pe fuel :
  Keeps keepsPositions pe →
  Keeps (@keepsPositions L) (parseElementBody XmlParserC pe fuel).
Proof.
  intros Hpe st a st' E. unfold parseElementBody, resolveNamespaces in E.
  apply bind_inv in E as ([[nd tok] name] & s1 & E1 & E).
  apply elementStart_positions in E1 as [K1 Hnd].
  assert (K2 : knowing nd s1 st').
  { refine ((_ : Keeps (knowing nd) _) _ _ _ E). positions. }
  destruct K1 as [L1 P1], K2 as [L2 P2]. split; [lia|]. auto.
Qed.

Lemma keepsPositions_parseElement fuel :
  Keeps (@keepsPositions L) (parseElement XmlParserC fuel).
Proof.
  induction fuel as [|fuel IH]; cbn; [apply Keeps_outOfFuel|].
  by apply keepsPositions_parseElementBody.
Qed.
Hint Resolve keepsPositions_parseElement : keeps.

Lemma keepsPositions_miscS fuel : Keeps (@keepsPositions L) (miscS XmlParserC fuel).
Proof. unfold miscS. positions. Qed.
Hint Resolve keepsPositions_miscS : keeps.

Lemma keepsPositions_parseProlog fuel :
  Keeps (@keepsPositions L) (parseProlog XmlParserC fuel).
Proof. unfold parseProlog, XmlParser_parseProlog. positions. Qed.
Hint Resolve keepsPositions_parseProlog : keeps.

Lemma keepsPositions_parseDocument fuel :
  Keeps (@keepsPositions L) (parseDocument XmlParserC fuel).
Proof. unfold parseDocument. positions. Qed.

Lemma createRoot_positions (lx : L) cfg st :
  createRoot XmlParserC (newParser XmlParserC lx cfg) = Ok (tt, st) →
  Positions st.
Proof.
  intros E. vm_compute in E. injection E as <-. unfold Positions. cbn.
  split; [done|]. split_and!.
  - intros [|[|[|id]]] n Hn; cbn in Hn; try done; injection Hn as <-; cbn; lia.
  - intros [|[|[|p]]] pn i c Hp Hc; cbn in Hp; try done; injection Hp as <-;
      by destruct i.
  - intros [|[|[|i]]] j ni nj Hi Hj _; cbn in Hi; try done; injection Hi as <-;
      by right.
  - repeat constructor.
Qed.

(** X21.  After a parse in XML mode that completes, whatever the lexer
    and the configuration, the positions of the nodes follow the document:
    every child of a node is a node whose position is greater than the
    position of its parent and than the positions of the children listed
    before it, and two different nodes have the same position only when it
    is [-1], the value of a node that has been given none. *)
Theorem xml_positions_follow_document (fuel : nat) (lx : L) (cfg : ParserConfig)
    (root : NodeId) (st : XmlParser.t L) :
  runParse XmlParserC fuel lx cfg = Ok (root, st) →
  ordered (XmlParser.heap st) ∧ distinctPositions (XmlParser.heap st).
Proof.
  unfold runParse, parse. intros Hp.
  apply bind_inv in Hp as ([] & st0 & Hroot & Hp).
  apply createRoot_positions in Hroot.
  apply bind_inv in Hp as ([] & st1 & Hdoc & Hp). injection Hp as _ <-.
  apply keepsPositions_parseDocument in Hdoc as [_ Hdoc].
  destruct (Hdoc Hroot) as (_ & _ & Ho & Hd & _). done.
Qed.
End positions_methods.

(** The element [a] of [<a><b/>t</a>], its children [b] and [t]: the
    positions 0, 1 and 2. *)
Lemma xml_positions_follow_document_witness :
  ∃ root st,
    parseXml 50 "<a><b/>t</a>" defaultConfig = Ok (root, st) ∧
    (pos <$> XmlParser.heap st) = [-1; -1; -1; 0; 1; 2] ∧
    ordered (XmlParser.heap st) ∧ distinctPositions (XmlParser.heap st).
Proof.
  eexists _, _. split; [vm_compute; reflexivity|]. split; [reflexivity|].
  eapply (@xml_positions_follow_document _ (lexerInstance XmlLexerC) 50
            (Lex.new "<a><b/>t</a>" defaultLexerConfig) defaultConfig).
  vm_compute. reflexivity.
Defined.

(** ** The DOM: from sibling to sibling *)

(** The store of a parse is linked. *)
Lemma runParse_linked {L} `{Lexer L} fuel (lx : L) cfg root st :
  runParse XmlParserC fuel lx cfg = Ok (root, st) → linked (XmlParser.heap st).
Proof.
  unfold runParse, parse. intros Hp.
  apply bind_inv in Hp as ([] & st0 & Hroot & Hp).
  apply createRoot_linked in Hroot.
  apply bind_inv in Hp as ([] & st1 & Hdoc & Hp). injection Hp as _ <-.
  by destruct (Linked_parseDocument _ _ _ _ Hdoc Hroot).
Qed.

Section dom_siblings.
  Implicit Types h : Store.

Lemma DOM_read_Some h id n : h !! id = Some n → DOM.read id h = Ok (n, h).
Proof. intros E. unfold DOM.read. by rewrite E. Qed.

Lemma DOM_childrenOf h p pn :
  h !! p = Some pn → isParent pn = true → DOM.childrenOf p h = Ok (children pn, h).
Proof.
  intros Hp Hi. unfold DOM.childrenOf. rewrite (bind_Ok _ _ _ _ _ (DOM_read_Some _ _ _ Hp)).
  by rewrite Hi.
Qed.

Lemma DOM_childrenOf_eq h p pn l :
  h !! p = Some pn → isParent pn = true → children pn = l →
  DOM.childrenOf p h = Ok (l, h).
Proof. intros Hp Hi <-. by apply DOM_childrenOf. Qed.

Lemma listed_parent pn i c : children pn !! i = Some c → isParent pn = true.
Proof.
  intros Hc. destruct (isParent pn) eqn:E; [done|].
  by rewrite (children_not_parent _ E) in Hc.
Qed.

Lemma nextSibling_listed h p pn i c :
  linked h → h !! p = Some pn → children pn !! i = Some c →
  DOM.nextSibling c h = Ok (nodeAt (children pn) (S i), h).
Proof.
  intros Hl Hp Hc. destruct (Hl _ _ _ _ Hp Hc) as (cn & Hcn & Epar & Eidx).
  unfold DOM.nextSibling. rewrite (bind_Ok _ _ _ _ _ (DOM_read_Some _ _ _ Hcn)), Epar.
  rewrite (bind_Ok _ _ _ _ _ (DOM_childrenOf _ _ _ Hp (listed_parent _ _ _ Hc))).
  rewrite Eidx. cbn [indexPlus]. unfold nodeAt, DOM.at_.
  replace (Z.to_nat (Z.of_nat i + 1)) with (S i) by lia.
  destruct (Z.ltb_spec (Z.of_nat i + 1) (Z.of_nat (length (children pn)))) as [Hlt|Hge].
  - destruct (Z.ltb_spec (Z.of_nat i + 1) 0); [lia|].
    destruct (lookup_lt_is_Some_2 (children pn) (S i)) as [d Hd]; [lia|]. by rewrite Hd.
  - by rewrite lookup_ge_None_2 by lia.
Qed.

Lemma previousSibling_listed h p pn i c :
  linked h → h !! p = Some pn → children pn !! i = Some c →
  DOM.previousSibling c h = Ok (nodeBefore (children pn) i, h).
Proof.
  intros Hl Hp Hc. destruct (Hl _ _ _ _ Hp Hc) as (cn & Hcn & Epar & Eidx).
  unfold DOM.previousSibling. rewrite (bind_Ok _ _ _ _ _ (DOM_read_Some _ _ _ Hcn)), Epar.
  rewrite Eidx. cbn [indexPlus].
  destruct i as [|j]; [done|].
  destruct (Z.leb_spec 0 (Z.of_nat (S j) + -1)); [|lia].
  rewrite (bind_Ok _ _ _ _ _ (DOM_childrenOf _ _ _ Hp (listed_parent _ _ _ Hc))).
  unfold nodeBefore, nodeAt, DOM.at_.
  replace (Z.to_nat (Z.of_nat (S j) + -1)) with j by lia.
  destruct (Z.ltb_spec (Z.of_nat (S j) + -1) 0); [lia|].
  apply lookup_lt_Some in Hc.
  destruct (lookup_lt_is_Some_2 (children pn) j) as [d Hd]; [lia|]. by rewrite Hd.
Qed.

Lemma next_listed h p pn i c :
  linked h → h !! p = Some pn → children pn !! i = Some c →
  DOM.next c h = Ok (nodeAt (children pn) (S i), h).
Proof.
  intros Hl Hp Hc. destruct (Hl _ _ _ _ Hp Hc) as (cn & Hcn & Epar & Eidx).
  unfold DOM.next, DOM.nextNode. cbn [DOM.passes]. rewrite bind_ret. cbn [negb].
  rewrite (bind_Ok _ _ _ _ _ (DOM_read_Some _ _ _ Hcn)), Epar.
  rewrite (bind_Ok _ _ _ _ _ (DOM_childrenOf _ _ _ Hp (listed_parent _ _ _ Hc))).
  rewrite Eidx. cbn [indexPlus]. unfold DOM.readUpFrom, nodeAt.
  destruct (Z.ltb_spec (Z.of_nat i + 1) 0); [lia|].
  replace (Z.to_nat (Z.of_nat i + 1)) with (S i) by lia.
  assert (E : children pn !! S i = drop (S i) (children pn) !! 0%nat).
  { rewrite lookup_drop. f_equal. lia. }
  rewrite E. by destruct (drop (S i) (children pn)).
Qed.

Lemma previous_listed h p pn i c :
  linked h → h !! p = Some pn → children pn !! i = Some c →
  DOM.previous c h = Ok (nodeBefore (children pn) i, h).
Proof.
  intros Hl Hp Hc. destruct (Hl _ _ _ _ Hp Hc) as (cn & Hcn & Epar & Eidx).
  unfold DOM.previous, DOM.previousNode. cbn [DOM.passes]. rewrite bind_ret. cbn [negb].
  rewrite (bind_Ok _ _ _ _ _ (DOM_read_Some _ _ _ Hcn)), Epar.
  rewrite Eidx. cbn [indexPlus].
  destruct i as [|j]; [done|].
  destruct (Z.leb_spec 0 (Z.of_nat (S j) + -1)); [|lia].
  rewrite (bind_Ok _ _ _ _ _ (DOM_childrenOf _ _ _ Hp (listed_parent _ _ _ Hc))).
  unfold DOM.readDownFrom.
  destruct (Z.ltb_spec (Z.of_nat (S j) + -1) 0); [lia|].
  replace (Z.to_nat (Z.of_nat (S j) + -1)) with j by lia.
  apply lookup_lt_Some in Hc as Hlt.
  replace (S j - length (children pn))%nat with 0%nat by lia.
  cbn [replicate]. rewrite app_nil_r.
  destruct (lookup_lt_is_Some_2 (children pn) j) as [d Hd]; [lia|].
  rewrite <- fmap_take, (take_S_r _ _ _ Hd), fmap_app, rev_app_distr.
  unfold nodeBefore, nodeAt. by rewrite Hd.
Qed.

(** X22.  In a store whose children are linked to their parents, as a
    parse leaves it, [nextSibling()] on the child at the place [i] of a
    node returns the child at the place [i + 1], [null] after the last
    one, and [previousSibling()] the child at the place [i - 1], [null]
    before the first one; [next()] and [previous()] return the same
    nodes; and going to the next sibling and back, or to the previous one
    and forth, ends at the node itself.  None of them changes the
    store. *)
Theorem dom_sibling_navigation (h : Store) (p : NodeId) (pn : RNode) (i : nat)
    (c : NodeId) :
  linked h → h !! p = Some pn → children pn !! i = Some c →
  DOM.nextSibling c h = Ok (nodeAt (children pn) (S i), h) ∧
  DOM.next c h = Ok (nodeAt (children pn) (S i), h) ∧
  DOM.previousSibling c h = Ok (nodeBefore (children pn) i, h) ∧
  DOM.previous c h = Ok (nodeBefore (children pn) i, h) ∧
  (∀ n, nodeAt (children pn) (S i) = NodeRef n →
        DOM.previousSibling n h = Ok (NodeRef c, h)) ∧
  (∀ n, nodeBefore (children pn) i = NodeRef n →
        DOM.nextSibling n h = Ok (NodeRef c, h)).
Proof.
  intros Hl Hp Hc. split_and!.
  - by eapply nextSibling_listed.
  - by eapply next_listed.
  - by eapply previousSibling_listed.
  - by eapply previous_listed.
  - intros n Hn. unfold nodeAt in Hn.
    destruct (children pn !! S i) as [n'|] eqn:Hn'; [|done]. injection Hn as ->.
    rewrite (previousSibling_listed _ _ _ _ _ Hl Hp Hn'). cbn. unfold nodeAt. by rewrite Hc.
  - intros n Hn. destruct i as [|j]; [done|]. cbn in Hn. unfold nodeAt in Hn.
    destruct (children pn !! j) as [n'|] eqn:Hn'; [|done]. injection Hn as ->.
    rewrite (nextSibling_listed _ _ _ _ _ Hl Hp Hn'). unfold nodeAt. by rewrite Hc.
Qed.
End dom_siblings.

(** The children [b], [t] and [c] of the element [a] of
    [<a><b/>t<c>u</c></a>]: from [t] to [c] and to [b]. *)
Lemma dom_sibling_navigation_witness :
  ∃ root st pn,
    parseXml 60 "<a><b/>t<c>u</c></a>" defaultConfig = Ok (root, st) ∧
    XmlParser.heap st !! 3%nat = Some pn ∧
    children pn = [4; 5; 6]%nat ∧
    DOM.nextSibling 5 (XmlParser.heap st) = Ok (NodeRef 6, XmlParser.heap st) ∧
    DOM.previousSibling 5 (XmlParser.heap st) = Ok (NodeRef 4, XmlParser.heap st) ∧
    DOM.previousSibling 6 (XmlParser.heap st) = Ok (NodeRef 5, XmlParser.heap st).
Proof.
  eexists _, _, _. split; [vm_compute; reflexivity|]. split; [reflexivity|].
  split; [reflexivity|].
  match goal with
  | |- DOM.nextSibling _ ?h = _ ∧ _ =>
      assert (Hl : linked h);
      [|destruct (dom_sibling_navigation h 3 _ 1 5 Hl eq_refl eq_refl)
          as (Hn & _ & Hp & _ & Hb & _)]
  end.
  - eapply (@runParse_linked _ (lexerInstance XmlLexerC) 60
              (Lex.new "<a><b/>t<c>u</c></a>" defaultLexerConfig) defaultConfig).
    vm_compute. reflexivity.
  - split; [exact Hn|]. split; [exact Hp|]. exact (Hb 6%nat eq_refl).
Defined.
(** ** The DOM: nodes dropped and inserted *)

Section relinks.
  Implicit Types h : Store.

Lemma sameLinks_refl h : sameLinks h h.
Proof. split; [done|]. intros id n Hn. by exists n. Qed.

Lemma Relinks_trans ch1 pa1 ix1 ch2 pa2 ix2 h h1 h2 :
  Relinks ch1 pa1 ix1 h h1 → Relinks ch2 pa2 ix2 h1 h2 →
  Relinks (λ id l, ch2 id (ch1 id l)) (λ id x, pa2 id (pa1 id x))
          (λ id x, ix2 id (ix1 id x)) h h2.
Proof.
  intros [L1 R1] [L2 R2]. split; [congruence|]. intros id n Hn.
  destruct (R1 _ _ Hn) as (n1 & Hn1 & T1 & C1 & P1 & I1).
  destruct (R2 _ _ Hn1) as (n2 & Hn2 & T2 & C2 & P2 & I2).
  exists n2. rewrite T2, C2, P2, I2, T1, C1, P1, I1. done.
Qed.

Lemma Relinks_sameLinks_r ch pa ix h h1 h2 :
  Relinks ch pa ix h h1 → sameLinks h1 h2 → Relinks ch pa ix h h2.
Proof. intros R1 R2. exact (Relinks_trans _ _ _ _ _ _ _ _ _ R1 R2). Qed.

Lemma Relinks_sameLinks_l ch pa ix h h1 h2 :
  sameLinks h h1 → Relinks ch pa ix h1 h2 → Relinks ch pa ix h h2.
Proof. intros R1 R2. exact (Relinks_trans _ _ _ _ _ _ _ _ _ R1 R2). Qed.

Lemma Relinks_lookup ch pa ix h h' id n' :
  Relinks ch pa ix h h' → h' !! id = Some n' →
  ∃ n, h !! id = Some n ∧ _type n' = _type n ∧ children n' = ch id (children n) ∧
       parent n' = pa id (parent n) ∧ index n' = ix id (index n).
Proof.
  intros [Hlen R] Hn'. apply lookup_lt_Some in Hn' as Hlt.
  destruct (lookup_lt_is_Some_2 h id) as [n Hn]; [lia|].
  destruct (R _ _ Hn) as (n2 & Hn2 & ?). exists n.
  assert (n2 = n') as -> by congruence. done.
Qed.

Lemma type_updElement f n : _type (updElement f n) = _type n.
Proof. by destruct n as [? ? ? []]. Qed.

Lemma type_updRoot f n : _type (updRoot f n) = _type n.
Proof. by destruct n as [? ? ? []]. Qed.

Lemma type_set_children l n : _type (set_children l n) = _type n.
Proof. by destruct n as [? ? ? []]. Qed.

Lemma sameLinks_update id f h :
  LinkPreserving f → (∀ n, _type (f n) = _type n) → sameLinks h (update id f h).
Proof.
  intros Hf Ht. split; [apply length_alter|]. intros k n Hn. unfold update.
  destruct (decide (k = id)) as [->|Hne].
  - exists (f n). rewrite list_lookup_alter_eq, Hn. destruct (Hf n) as (-> & -> & ->).
    by rewrite Ht.
  - exists n. by rewrite list_lookup_alter_ne.
Qed.

Lemma Relinks_set_children p l h pn :
  h !! p = Some pn → isParent pn = true →
  Relinks (λ id c, if decide (id = p) then l else c) (λ _ x, x) (λ _ x, x)
    h (update p (set_children l) h).
Proof.
  intros Hp Hi. split; [apply length_alter|]. intros k n Hn. unfold update.
  destruct (decide (k = p)) as [->|Hne].
  - exists (set_children l n). rewrite list_lookup_alter_eq, Hn.
    assert (n = pn) as -> by congruence.
    rewrite type_set_children, children_set_children, Hi. by destruct pn as [? ? ? []].
  - exists n. by rewrite list_lookup_alter_ne.
Qed.

Lemma Relinks_set_index c i h :
  Relinks (λ _ l, l) (λ _ x, x) (λ id x, if decide (id = c) then i else x)
    h (update c (set_index i) h).
Proof.
  split; [apply length_alter|]. intros k n Hn. unfold update.
  destruct (decide (k = c)) as [->|Hne].
  - exists (set_index i n). rewrite list_lookup_alter_eq, Hn. by destruct n as [? ? ? []].
  - exists n. by rewrite list_lookup_alter_ne.
Qed.

Lemma Relinks_set_parent c x h :
  Relinks (λ _ l, l) (λ id y, if decide (id = c) then x else y) (λ _ y, y)
    h (update c (set_parent x) h).
Proof.
  split; [apply length_alter|]. intros k n Hn. unfold update.
  destruct (decide (k = c)) as [->|Hne].
  - exists (set_parent x n). rewrite list_lookup_alter_eq, Hn. by destruct n as [? ? ? []].
  - exists n. by rewrite list_lookup_alter_ne.
Qed.

(** The store stays linked when the children of [p] become [l'], each of
    them with [p] for parent and its place for index, and the children of
    the other nodes keep their parent and index. *)
Lemma linked_relinks ch pa ix h h' p l' :
  linked h → Relinks ch pa ix h h' →
  (∀ id l, ch id l = if decide (id = p) then l' else l) →
  (∀ j d, l' !! j = Some d →
     ∃ dn, h !! d = Some dn ∧ pa d (parent dn) = Some p ∧
           ix d (index dn) = Idx (Z.of_nat j)) →
  (∀ q qn j d dn, q ≠ p → h !! q = Some qn → children qn !! j = Some d →
     h !! d = Some dn → pa d (parent dn) = parent dn ∧ ix d (index dn) = index dn) →
  linked h'.
Proof.
  intros Hl HR Hch Hp Hq q qn' j d Hqn' Hd.
  destruct (Relinks_lookup _ _ _ _ _ _ _ HR Hqn') as (qn & Hqn & _ & Ech & _).
  rewrite Ech, Hch in Hd. destruct HR as [_ HR].
  destruct (decide (q = p)) as [->|Hne].
  - destruct (Hp _ _ Hd) as (dn & Hdn & Epa & Eix).
    destruct (HR _ _ Hdn) as (dn' & Hdn' & _ & _ & Ep' & Ei').
    exists dn'. rewrite Ep', Ei'. done.
  - destruct (Hl _ _ _ _ Hqn Hd) as (dn & Hdn & Epa & Eix).
    destruct (HR _ _ Hdn) as (dn' & Hdn' & _ & _ & Ep' & Ei').
    destruct (Hq _ _ _ _ _ Hne Hqn Hd Hdn) as [Ep2 Ei2].
    exists dn'. rewrite Ep', Ei', Ep2, Ei2. done.
Qed.

(** In a linked store no node is listed twice, neither by one node nor by
    two. *)
Lemma linked_NoDup h p pn : linked h → h !! p = Some pn → NoDup (children pn).
Proof.
  intros Hl Hp. apply NoDup_alt. intros i j d Hi Hj.
  destruct (Hl _ _ _ _ Hp Hi) as (dn & Hdn & _ & Ei).
  destruct (Hl _ _ _ _ Hp Hj) as (dn' & Hdn' & _ & Ej).
  assert (dn' = dn) as -> by congruence. rewrite Ei in Ej. injection Ej. lia.
Qed.

Lemma linked_one_parent h p q pn qn i j d :
  linked h → h !! p = Some pn → h !! q = Some qn →
  children pn !! i = Some d → children qn !! j = Some d → p = q.
Proof.
  intros Hl Hp Hq Hi Hj.
  destruct (Hl _ _ _ _ Hp Hi) as (dn & Hdn & Ep & _).
  destruct (Hl _ _ _ _ Hq Hj) as (dn' & Hdn' & Eq & _).
  assert (dn' = dn) as -> by congruence. congruence.
Qed.
End relinks.
Section dom_specs.
  Implicit Types h : Store.

Lemma write_bind {B} id f (k : unit → StateM Store B) h :
  (DOM.write id f ≫= k) h = k tt (update id f h).
Proof. reflexivity. Qed.

Lemma isParent_type n n' : _type n' = _type n → isParent n' = isParent n.
Proof. intros E. unfold isParent, isRoot, isElement. by rewrite E. Qed.

Lemma isElement_type n n' : _type n' = _type n → isElement n' = isElement n.
Proof. intros E. unfold isElement. by rewrite E. Qed.

Lemma someOfType_ok ty kids h :
  Forall (λ k, is_Some (h !! k)) kids → ∃ b, DOM.someOfType ty kids h = Ok (b, h).
Proof.
  induction 1 as [|k kids [n Hn] _ IH]; cbn; [by eexists|].
  rewrite (bind_Ok _ _ _ _ _ (DOM_read_Some _ _ _ Hn)).
  destruct (bool_decide _); [by eexists|done].
Qed.

Lemma setIndexes_spec items k h :
  ∃ h' ix, DOM.setIndexes items k h = Ok (tt, h') ∧
    Relinks (λ _ l, l) (λ _ x, x) ix h h' ∧
    (∀ id x, id ∉ items → ix id x = x) ∧
    (NoDup items → ∀ j id x, items !! j = Some id → ix id x = Idx (Z.of_nat (k + j))).
Proof.
  revert k h. induction items as [|c rest IH]; intros k h.
  - exists h, (λ _ x, x). split; [done|]. split; [apply sameLinks_refl|]. done.
  - cbn [DOM.setIndexes]. rewrite write_bind.
    destruct (IH (S k) (update c (set_index (Idx (Z.of_nat k))) h))
      as (h' & ix & E & HR & Hout & Hin).
    exists h', (λ id x, ix id (if decide (id = c) then Idx (Z.of_nat k) else x)).
    split; [done|]. split; [|split].
    + exact (Relinks_trans _ _ _ _ _ _ _ _ _ (Relinks_set_index c _ h) HR).
    + intros id x Hid. apply not_elem_of_cons in Hid as [Hne Hid].
      rewrite decide_False by done. by apply Hout.
    + intros Hnd j id x Hj. apply NoDup_cons in Hnd as [Hc Hnd].
      destruct j as [|j]; cbn in Hj.
      * injection Hj as <-. rewrite decide_True by done. rewrite Hout by done.
        by rewrite Nat.add_0_r.
      * rewrite (Hin Hnd j id _ Hj). f_equal. lia.
Qed.

Lemma updateIndexes_none items h : DOM.updateIndexes items None h = Ok (tt, h).
Proof. reflexivity. Qed.

Lemma updateIndexes_spec items (k : nat) h :
  ∃ h' ix, DOM.updateIndexes items (Some (Z.of_nat k)) h = Ok (tt, h') ∧
    Relinks (λ _ l, l) (λ _ x, x) ix h h' ∧
    (∀ id x, id ∉ drop k items → ix id x = x) ∧
    (NoDup items → ∀ j id x, (k ≤ j)%nat → items !! j = Some id →
       ix id x = Idx (Z.of_nat j)).
Proof.
  unfold DOM.updateIndexes. destruct (Z.ltb_spec (Z.of_nat k) 0); [lia|].
  rewrite Nat2Z.id.
  destruct (setIndexes_spec (drop k items) k h) as (h' & ix & E & HR & Hout & Hin).
  exists h', ix. split; [done|]. split; [done|]. split; [done|].
  intros Hnd j id x Hj Hid.
  rewrite (Hin (sublist_NoDup _ _ Hnd (sublist_drop _ _)) (j - k)%nat id x).
  - f_equal. lia.
  - rewrite lookup_drop. by replace (k + (j - k))%nat with j by lia.
Qed.

Lemma LP_flags f :
  (∀ e, ElementNode.children (f e) = ElementNode.children e) →
  LinkPreserving (updElement f) ∧ (∀ n, _type (updElement f n) = _type n).
Proof. intros Hf. split; [by apply LP_updElement|intros n; apply type_updElement]. Qed.

Lemma setSelfEnclosing_spec p h :
  ∃ h', DOM.setSelfEnclosing p h = Ok (tt, h') ∧ sameLinks h h'.
Proof.
  eexists. split; [reflexivity|].
  apply sameLinks_update; [apply LP_updElement; by intros []|apply type_updElement].
Qed.

Lemma setHasChild_spec p pn h :
  h !! p = Some pn → isParent pn = true →
  ∃ h', DOM.setHasChild p h = Ok (tt, h') ∧ sameLinks h h'.
Proof.
  intros Hp Hi. unfold DOM.setHasChild.
  rewrite (bind_Ok _ _ _ _ _ (DOM_childrenOf _ _ _ Hp Hi)). cbv zeta.
  eexists. split; [reflexivity|]. apply sameLinks_update.
  - intros n.
    destruct (LP_updRoot (RootNode.set_hasChild (0 <? length (children pn))%nat)
                (λ r, eq_refl) (updElement (ElementNode.set_hasChild
                                  (0 <? length (children pn))%nat) n))
      as (-> & -> & ->).
    apply LP_updElement. by intros [].
  - intros n. by rewrite type_updRoot, type_updElement.
Qed.

(** The flags that [updateParentFields] and [updateParentFieldsD] set on
    an element. *)
Lemma flags_then_spec {A} (m : StateM Store A) p h :
  (∃ a h', m h = Ok (a, h') ∧ sameLinks h h') →
  ∃ h', (m;; DOM.setSelfEnclosing p) h = Ok (tt, h') ∧ sameLinks h h'.
Proof.
  intros (a & h1 & E & HR). rewrite (bind_Ok _ _ _ _ _ E).
  destruct (setSelfEnclosing_spec p h1) as (h2 & E2 & HR2).
  exists h2. split; [done|]. by eapply Relinks_sameLinks_r.
Qed.

Lemma write_flag_spec p f h :
  (∀ e, ElementNode.children (f e) = ElementNode.children e) →
  ∃ a h', DOM.write p (updElement f) h = Ok (a, h') ∧ sameLinks h h'.
Proof.
  intros Hf. eexists tt, _. split; [reflexivity|].
  by apply sameLinks_update; [apply LP_updElement|apply type_updElement].
Qed.

Lemma some_flag_spec p ty kids (f : bool → ElementNode.t → ElementNode.t) h :
  Forall (λ k, is_Some (h !! k)) kids →
  (∀ b e, ElementNode.children (f b e) = ElementNode.children e) →
  ∃ a h', (b ← DOM.someOfType ty kids; DOM.write p (updElement (f b))) h = Ok (a, h')
          ∧ sameLinks h h'.
Proof.
  intros Hk Hf. destruct (someOfType_ok ty kids h Hk) as [b Eb].
  rewrite (bind_Ok _ _ _ _ _ Eb). by apply write_flag_spec.
Qed.

Lemma sameLinks_parent h h' p pn :
  sameLinks h h' → h !! p = Some pn → isParent pn = true →
  ∃ pn', h' !! p = Some pn' ∧ isParent pn' = true ∧ children pn' = children pn.
Proof.
  intros [_ HR] Hp Hi. destruct (HR _ _ Hp) as (pn' & Hp' & Ht & Hc & _).
  exists pn'. by rewrite (isParent_type _ _ Ht).
Qed.

Lemma updateParentFieldsD_spec p c h pn cn :
  h !! p = Some pn → isParent pn = true → h !! c = Some cn →
  Forall (λ k, is_Some (h !! k)) (children pn) →
  ∃ h', DOM.updateParentFieldsD p c h = Ok (tt, h') ∧
    Relinks (λ _ l, l) (λ id x, if decide (id = c) then None else x) (λ _ x, x) h h'.
Proof.
  intros Hp Hi Hc Hk. unfold DOM.updateParentFieldsD.
  rewrite (bind_Ok _ _ _ _ _ (DOM_read_Some _ _ _ Hp)).
  rewrite (bind_Ok _ _ _ _ _ (DOM_read_Some _ _ _ Hc)).
  assert (H1 : ∃ h1, when_ (isElement pn)
                 (match _type cn with
                  | Attribute =>
                      DOM.write p (updElement (λ e,
                        ElementNode.set_hasAttribute
                          (0 <? JsMap.size (ElementNode.attributes e))%nat e))
                  | Text =>
                      b ← DOM.someOfType Text (children pn);
                      DOM.write p (updElement (ElementNode.set_hasText b))
                  | Comment =>
                      b ← DOM.someOfType Comment (children pn);
                      DOM.write p (updElement (ElementNode.set_hasComment b))
                  | Namespace =>
                      DOM.write p (updElement (λ e,
                        ElementNode.set_isNamespaced
                          (bool_decide (is_Some (ElementNode.namespace e))) e))
                  | _ => mret tt
                  end;; DOM.setSelfEnclosing p) h = Ok (tt, h1) ∧ sameLinks h h1).
  { destruct (isElement pn); [|exists h; split; [done|apply sameLinks_refl]].
    cbn [when_]. apply flags_then_spec.
    destruct (_type cn);
      first [ apply write_flag_spec; by intros []
            | apply (some_flag_spec p _ _ (λ b, ElementNode.set_hasText b));
                [done|by intros ? []]
            | apply (some_flag_spec p _ _ (λ b, ElementNode.set_hasComment b));
                [done|by intros ? []]
            | exists tt, h; split; [done|apply sameLinks_refl] ]. }
  destruct H1 as (h1 & E1 & R1). rewrite (bind_Ok _ _ _ _ _ E1).
  destruct (sameLinks_parent _ _ _ _ R1 Hp Hi) as (pn1 & Hp1 & Hi1 & _).
  destruct (setHasChild_spec _ _ _ Hp1 Hi1) as (h2 & E2 & R2).
  rewrite (bind_Ok _ _ _ _ _ E2).
  eexists. split; [reflexivity|].
  eapply Relinks_sameLinks_l; [exact R1|].
  eapply Relinks_sameLinks_l; [exact R2|]. apply Relinks_set_parent.
Qed.

Lemma updateParentFields_spec p c h pn cn :
  h !! p = Some pn → isParent pn = true → h !! c = Some cn →
  ∃ h', DOM.updateParentFields p c h = Ok (tt, h') ∧
    Relinks (λ _ l, l) (λ id x, if decide (id = c) then Some p else x) (λ _ x, x) h h'.
Proof.
  intros Hp Hi Hc. unfold DOM.updateParentFields.
  rewrite (bind_Ok _ _ _ _ _ (DOM_read_Some _ _ _ Hp)).
  rewrite (bind_Ok _ _ _ _ _ (DOM_read_Some _ _ _ Hc)).
  assert (H1 : ∃ h1, when_ (isElement pn)
                 (match _type cn with
                  | Attribute => DOM.write p (updElement (ElementNode.set_hasAttribute true))
                  | Text => DOM.write p (updElement (ElementNode.set_hasText true))
                  | Comment => DOM.write p (updElement (ElementNode.set_hasComment true))
                  | Namespace => DOM.write p (updElement (ElementNode.set_isNamespaced true))
                  | _ => mret tt
                  end;; DOM.setSelfEnclosing p) h = Ok (tt, h1) ∧ sameLinks h h1).
  { destruct (isElement pn); [|exists h; split; [done|apply sameLinks_refl]].
    cbn [when_]. apply flags_then_spec.
    destruct (_type cn);
      first [ apply write_flag_spec; by intros []
            | exists tt, h; split; [done|apply sameLinks_refl] ]. }
  destruct H1 as (h1 & E1 & R1). rewrite (bind_Ok _ _ _ _ _ E1).
  destruct (sameLinks_parent _ _ _ _ R1 Hp Hi) as (pn1 & Hp1 & Hi1 & _).
  destruct (setHasChild_spec _ _ _ Hp1 Hi1) as (h2 & E2 & R2).
  rewrite (bind_Ok _ _ _ _ _ E2).
  eexists. split; [reflexivity|].
  eapply Relinks_sameLinks_l; [exact R1|].
  eapply Relinks_sameLinks_l; [exact R2|]. apply Relinks_set_parent.
Qed.
End dom_specs.
Section dom_updates.
  Implicit Types h : Store.

Lemma splice_delete {A} (l : list A) (k : nat) :
  DOM.splice l (Some (Z.of_nat k)) 1 [] = delete k l.
Proof.
  unfold DOM.splice, DOM.spliceStart. destruct (Z.ltb_spec (Z.of_nat k) 0); [lia|].
  rewrite Nat2Z.id, delete_take_drop. cbn [app].
  destruct (Nat.le_gt_cases k (length l)) as [Hle|Hgt].
  - rewrite Nat.min_l by done. do 2 f_equal. lia.
  - rewrite Nat.min_r by lia. rewrite !take_ge, !drop_ge by lia. done.
Qed.

Lemma splice_insert {A} (l : list A) (k : nat) (x : A) :
  (k ≤ length l)%nat →
  DOM.splice l (Some (Z.of_nat k)) 0 [x] = take k l ++ x :: drop k l.
Proof.
  intros Hk. unfold DOM.splice, DOM.spliceStart.
  destruct (Z.ltb_spec (Z.of_nat k) 0); [lia|].
  rewrite Nat2Z.id, Nat.min_l, Nat.add_0_r by done. done.
Qed.

Lemma splice_none {A} (l : list A) : DOM.splice l None 1 [] = tail l.
Proof. unfold DOM.splice. cbn. by destruct l. Qed.

Lemma childrenOf_written p pn l h :
  h !! p = Some pn → isParent pn = true →
  DOM.childrenOf p (update p (set_children l) h)
  = Ok (l, update p (set_children l) h).
Proof.
  intros Hp Hi. apply DOM_childrenOf_eq with (pn := set_children l pn).
  - unfold update. by rewrite list_lookup_alter_eq, Hp.
  - by rewrite (isParent_type _ _ (type_set_children l pn)).
  - by rewrite children_set_children, Hi.
Qed.

(** What [dropNode] does once it has found the parent; [start] is the
    index of the node. *)
Lemma drop_steps_indexed p pn c cn l' (k : nat) h :
  h !! p = Some pn → isParent pn = true → h !! c = Some cn →
  Forall (λ k, is_Some (h !! k)) l' →
  ∃ h' ix,
    (DOM.write p (set_children l');;
     kids ← DOM.childrenOf p;
     DOM.updateIndexes kids (Some (Z.of_nat k));;
     DOM.updateParentFieldsD p c;;
     mret true) h = Ok (true, h') ∧
    Relinks (λ id l, if decide (id = p) then l' else l)
            (λ id x, if decide (id = c) then None else x) ix h h' ∧
    (∀ id x, id ∉ drop k l' → ix id x = x) ∧
    (NoDup l' → ∀ j id x, (k ≤ j)%nat → l' !! j = Some id → ix id x = Idx (Z.of_nat j)).
Proof.
  intros Hp Hi Hc Hk. rewrite write_bind.
  rewrite (bind_Ok _ _ _ _ _ (childrenOf_written _ _ l' _ Hp Hi)).
  pose proof (Relinks_set_children p l' h pn Hp Hi) as R1.
  destruct (updateIndexes_spec l' k (update p (set_children l') h))
    as (h2 & ix & E2 & R2 & Hout & Hin).
  rewrite (bind_Ok _ _ _ _ _ E2).
  pose proof (Relinks_trans _ _ _ _ _ _ _ _ _ R1 R2) as R02. cbv beta in R02.
  destruct R02 as [Hlen HR].
  destruct (HR _ _ Hp) as (pn2 & Hp2 & Ht2 & Hch2 & _).
  destruct (HR _ _ Hc) as (cn2 & Hc2 & _).
  rewrite decide_True in Hch2 by done.
  destruct (updateParentFieldsD_spec p c h2 pn2 cn2) as (h3 & E3 & R3); [done| |done| |].
  { by rewrite (isParent_type _ _ Ht2). }
  { rewrite Hch2. eapply Forall_impl; [exact Hk|]. cbn. intros d [dn Hd].
    apply lookup_lt_is_Some_2. apply lookup_lt_Some in Hd. lia. }
  rewrite (bind_Ok _ _ _ _ _ E3).
  exists h3, ix. split; [done|]. split; [|done].
  exact (Relinks_trans _ _ _ _ _ _ _ _ _ (conj Hlen HR) R3).
Qed.

Lemma drop_steps_unindexed p pn c cn l' h :
  h !! p = Some pn → isParent pn = true → h !! c = Some cn →
  Forall (λ k, is_Some (h !! k)) l' →
  ∃ h',
    (DOM.write p (set_children l');;
     kids ← DOM.childrenOf p;
     DOM.updateIndexes kids None;;
     DOM.updateParentFieldsD p c;;
     mret true) h = Ok (true, h') ∧
    Relinks (λ id l, if decide (id = p) then l' else l)
            (λ id x, if decide (id = c) then None else x) (λ _ x, x) h h'.
Proof.
  intros Hp Hi Hc Hk. rewrite write_bind.
  rewrite (bind_Ok _ _ _ _ _ (childrenOf_written _ _ l' _ Hp Hi)).
  pose proof (Relinks_set_children p l' h pn Hp Hi) as R1.
  rewrite (bind_Ok _ _ _ _ _ (updateIndexes_none _ _)).
  destruct R1 as [Hlen HR].
  destruct (HR _ _ Hp) as (pn2 & Hp2 & Ht2 & Hch2 & _).
  destruct (HR _ _ Hc) as (cn2 & Hc2 & _).
  rewrite decide_True in Hch2 by done.
  destruct (updateParentFieldsD_spec p c (update p (set_children l') h) pn2 cn2)
    as (h3 & E3 & R3); [done| |done| |].
  { by rewrite (isParent_type _ _ Ht2). }
  { rewrite Hch2. eapply Forall_impl; [exact Hk|]. cbn. intros d [dn Hd].
    apply lookup_lt_is_Some_2. apply lookup_lt_Some in Hd. lia. }
  rewrite (bind_Ok _ _ _ _ _ E3).
  exists h3. split; [done|].
  exact (Relinks_trans _ _ _ _ _ _ _ _ _ (conj Hlen HR) R3).
Qed.

(** What [insertBefore], [insertAfter] and [addChild] do once they have
    found the parent. *)
Lemma insert_steps p pn n nn l' (k : nat) h :
  h !! p = Some pn → isParent pn = true → h !! n = Some nn →
  ∃ h' ix,
    (DOM.write p (set_children l');;
     kids ← DOM.childrenOf p;
     DOM.updateIndexes kids (Some (Z.of_nat k));;
     DOM.updateParentFields p n;;
     mret true) h = Ok (true, h') ∧
    Relinks (λ id l, if decide (id = p) then l' else l)
            (λ id x, if decide (id = n) then Some p else x) ix h h' ∧
    (∀ id x, id ∉ drop k l' → ix id x = x) ∧
    (NoDup l' → ∀ j id x, (k ≤ j)%nat → l' !! j = Some id → ix id x = Idx (Z.of_nat j)).
Proof.
  intros Hp Hi Hn. rewrite write_bind.
  rewrite (bind_Ok _ _ _ _ _ (childrenOf_written _ _ l' _ Hp Hi)).
  pose proof (Relinks_set_children p l' h pn Hp Hi) as R1.
  destruct (updateIndexes_spec l' k (update p (set_children l') h))
    as (h2 & ix & E2 & R2 & Hout & Hin).
  rewrite (bind_Ok _ _ _ _ _ E2).
  pose proof (Relinks_trans _ _ _ _ _ _ _ _ _ R1 R2) as R02. cbv beta in R02.
  destruct R02 as [Hlen HR].
  destruct (HR _ _ Hp) as (pn2 & Hp2 & Ht2 & _).
  destruct (HR _ _ Hn) as (nn2 & Hn2 & _).
  destruct (updateParentFields_spec p n h2 pn2 nn2) as (h3 & E3 & R3); [done| |done|].
  { by rewrite (isParent_type _ _ Ht2). }
  rewrite (bind_Ok _ _ _ _ _ E3).
  exists h3, ix. split; [done|]. split; [|done].
  exact (Relinks_trans _ _ _ _ _ _ _ _ _ (conj Hlen HR) R3).
Qed.
End dom_updates.
Section dom_linked.
  Implicit Types h : Store.

Lemma not_in_drop {A} (l : list A) (k j : nat) (d : A) :
  NoDup l → l !! j = Some d → (j < k)%nat → d ∉ drop k l.
Proof.
  intros Hnd Hj Hlt Hin. apply list_elem_of_lookup in Hin as [m Hm].
  rewrite lookup_drop in Hm. pose proof (NoDup_lookup _ _ _ _ Hnd Hj Hm). lia.
Qed.

Lemma lookup_inserted {A} (l : list A) (k j : nat) (x : A) :
  (k ≤ length l)%nat →
  (take k l ++ x :: drop k l) !! j
  = if decide (j < k)%nat then l !! j
    else if decide (j = k) then Some x else l !! (j - 1)%nat.
Proof.
  intros Hk. destruct (decide (j < k)%nat) as [Hlt|Hge].
  - rewrite lookup_app_l by (rewrite length_take; lia). by apply lookup_take_lt.
  - destruct (decide (j = k)) as [->|Hne].
    + apply list_lookup_middle. rewrite length_take. lia.
    + rewrite lookup_app_r by (rewrite length_take; lia).
      rewrite length_take, Nat.min_l by done.
      rewrite lookup_cons_ne_0, lookup_drop by lia. f_equal. lia.
Qed.

Lemma NoDup_inserted {A} (l : list A) (k : nat) (x : A) :
  NoDup l → x ∉ l → NoDup (take k l ++ x :: drop k l).
Proof.
  intros Hnd Hx. rewrite <- (take_drop k l) in Hnd, Hx.
  apply NoDup_app in Hnd as (H1 & H2 & H3). apply not_elem_of_app in Hx as [Hx1 Hx2].
  apply NoDup_app. split; [done|]. split.
  - intros y Hy Hy'. apply elem_of_cons in Hy' as [->|Hy']; [done|]. by eapply H2.
  - by apply NoDup_cons.
Qed.

(** The links after [dropNode] on a listed node. *)
Lemma linked_dropped h h' p pn i c ix :
  linked h → h !! p = Some pn → children pn !! i = Some c →
  Relinks (λ id l, if decide (id = p) then delete i (children pn) else l)
          (λ id x, if decide (id = c) then None else x) ix h h' →
  (∀ id x, id ∉ drop i (delete i (children pn)) → ix id x = x) →
  (NoDup (delete i (children pn)) → ∀ j id x, (i ≤ j)%nat →
     delete i (children pn) !! j = Some id → ix id x = Idx (Z.of_nat j)) →
  linked h' ∧ unlisted h' c.
Proof.
  intros Hl Hp Hc HR Hout Hin.
  pose proof (linked_NoDup _ _ _ Hl Hp) as Hnd.
  pose proof (sublist_NoDup _ _ Hnd (sublist_delete _ i)) as Hnd'.
  assert (Hnc : c ∉ delete i (children pn)).
  { intros Hin'. apply list_elem_of_lookup in Hin' as [j Hj].
    rewrite list_lookup_delete in Hj.
    pose proof (NoDup_lookup _ _ _ _ Hnd Hc Hj) as E. destruct (decide (j < i)%nat); lia. }
  split.
  - eapply linked_relinks; [exact Hl|exact HR|done| |].
    + intros j d Hd. assert (Hd0 := Hd). rewrite list_lookup_delete in Hd0.
      destruct (Hl _ _ _ _ Hp Hd0) as (dn & Hdn & Epa & Eix). exists dn.
      split; [done|]. split.
      * rewrite decide_False; [done|]. intros ->. apply Hnc.
        by eapply list_elem_of_lookup_2.
      * destruct (decide (j < i)%nat) as [Hlt|Hge].
        -- rewrite Hout; [done|]. by eapply not_in_drop.
        -- apply Hin; [done|lia|done].
    + intros q qn j d dn Hne Hq Hd Hdn.
      assert (Hnp : d ∉ children pn).
      { intros Hin'. apply list_elem_of_lookup in Hin' as [j' Hj'].
        apply Hne. symmetry. by eapply (linked_one_parent h p q). }
      split.
      * rewrite decide_False; [done|]. intros ->. apply Hnp.
        by eapply list_elem_of_lookup_2.
      * apply Hout. intros Hin'. apply Hnp.
        apply list_elem_of_lookup in Hin' as [m Hm]. rewrite lookup_drop in Hm.
        eapply list_elem_of_delete_inv. by eapply list_elem_of_lookup_2.
  - intros q qn' Hq Hin'.
    destruct (Relinks_lookup _ _ _ _ _ _ _ HR Hq) as (qn & Hqn & _ & Ech & _).
    rewrite Ech in Hin'. destruct (decide (q = p)) as [->|Hne]; [done|].
    apply list_elem_of_lookup in Hin' as [j Hj]. apply Hne. symmetry.
    by eapply (linked_one_parent h p q).
Qed.
End dom_linked.
Section dom_linked_updates.
  Implicit Types h : Store.

(** The links after a node that no node lists has been put at the place
    [k] of the children of [p]. *)
Lemma linked_inserted h h' p pn k n nn ix :
  linked h → h !! p = Some pn → (k ≤ length (children pn))%nat →
  h !! n = Some nn → unlisted h n →
  Relinks (λ id l, if decide (id = p)
                   then take k (children pn) ++ n :: drop k (children pn) else l)
          (λ id x, if decide (id = n) then Some p else x) ix h h' →
  (∀ id x, id ∉ drop k (take k (children pn) ++ n :: drop k (children pn)) →
     ix id x = x) →
  (NoDup (take k (children pn) ++ n :: drop k (children pn)) → ∀ j id x, (k ≤ j)%nat →
     (take k (children pn) ++ n :: drop k (children pn)) !! j = Some id →
     ix id x = Idx (Z.of_nat j)) →
  linked h'.
Proof.
  intros Hl Hp Hk Hn Hu HR Hout Hin.
  pose proof (linked_NoDup _ _ _ Hl Hp) as Hnd.
  pose proof (NoDup_inserted _ k n Hnd (Hu _ _ Hp)) as Hnd'.
  eapply linked_relinks; [exact Hl|exact HR|done| |].
  - intros j d Hd. assert (Hd0 := Hd). rewrite lookup_inserted in Hd0 by done.
    destruct (decide (j < k)%nat) as [Hlt|Hge].
    + destruct (Hl _ _ _ _ Hp Hd0) as (dn & Hdn & Epa & Eix). exists dn.
      split; [done|]. split.
      * rewrite decide_False; [done|]. intros ->. apply (Hu _ _ Hp).
        by eapply list_elem_of_lookup_2.
      * rewrite Hout; [done|]. by eapply not_in_drop.
    + destruct (decide (j = k)) as [->|Hne].
      * injection Hd0 as <-. exists nn. split; [done|].
        rewrite decide_True by done. split; [done|]. by apply Hin.
      * destruct (Hl _ _ _ _ Hp Hd0) as (dn & Hdn & Epa & Eix). exists dn.
        split; [done|]. split.
        -- rewrite decide_False; [done|]. intros ->. apply (Hu _ _ Hp).
           by eapply list_elem_of_lookup_2.
        -- apply Hin; [done|lia|done].
  - intros q qn j d dn Hne Hq Hd Hdn.
    assert (Hdn' : d ≠ n).
    { intros ->. apply (Hu _ _ Hq). by eapply list_elem_of_lookup_2. }
    split; [by rewrite decide_False|].
    apply Hout. intros Hin'. apply list_elem_of_lookup in Hin' as [m Hm].
    rewrite lookup_drop, lookup_inserted in Hm by done.
    destruct (decide (k + m < k)%nat); [lia|].
    destruct (decide (k + m = k)%nat); [congruence|].
    apply Hne. symmetry. by eapply (linked_one_parent h p q).
Qed.

Lemma linked_readable h p pn :
  linked h → h !! p = Some pn → Forall (λ k, is_Some (h !! k)) (children pn).
Proof.
  intros Hl Hp. apply Forall_lookup. intros j d Hd.
  destruct (Hl _ _ _ _ Hp Hd) as (dn & Hdn & _). by exists dn.
Qed.

Lemma dropNode_listed h p pn i c cn :
  linked h → h !! p = Some pn → children pn !! i = Some c →
  h !! c = Some cn → isAttribute cn || isNamespace cn = false →
  ∃ h' ix, DOM.dropNode c h = Ok (true, h') ∧
    Relinks (λ id l, if decide (id = p) then delete i (children pn) else l)
            (λ id x, if decide (id = c) then None else x) ix h h' ∧
    (∀ id x, id ∉ drop i (delete i (children pn)) → ix id x = x) ∧
    (∀ j id x, (i ≤ j)%nat → delete i (children pn) !! j = Some id →
       ix id x = Idx (Z.of_nat j)) ∧
    linked h' ∧ unlisted h' c.
Proof.
  intros Hl Hp Hc Hcn Hty.
  destruct (Hl _ _ _ _ Hp Hc) as (cn' & Hcn' & Epar & Eidx).
  assert (cn' = cn) as -> by congruence.
  pose proof (listed_parent _ _ _ Hc) as Hi.
  unfold DOM.dropNode. rewrite (bind_Ok _ _ _ _ _ (DOM_read_Some _ _ _ Hcn)), Hty, Epar.
  rewrite (bind_Ok _ _ _ _ _ (DOM_childrenOf _ _ _ Hp Hi)).
  rewrite Eidx. unfold DOM.jsNumber. cbn [indexPlus]. rewrite Z.add_0_r, splice_delete.
  destruct (drop_steps_indexed p pn c cn (delete i (children pn)) i h Hp Hi Hcn)
    as (h' & ix & E & HR & Hout & Hin).
  { eapply Forall_forall. intros d Hd. apply list_elem_of_delete_inv in Hd.
    by eapply (proj1 (Forall_forall _ _) (linked_readable _ _ _ Hl Hp)). }
  pose proof (sublist_NoDup _ _ (linked_NoDup _ _ _ Hl Hp) (sublist_delete _ i)) as Hnd.
  exists h', ix. split; [exact E|]. split; [done|]. split; [done|].
  split; [by apply Hin|]. by eapply linked_dropped; [..|exact HR| |]; eauto.
Qed.

Lemma insert_listed h p pn (k : nat) n nn (m : StateM Store bool) :
  linked h → h !! p = Some pn → isParent pn = true → (k ≤ length (children pn))%nat →
  h !! n = Some nn → unlisted h n →
  m h = (DOM.write p (set_children (take k (children pn) ++ n :: drop k (children pn)));;
         kids ← DOM.childrenOf p;
         DOM.updateIndexes kids (Some (Z.of_nat k));;
         DOM.updateParentFields p n;;
         mret true) h →
  ∃ h' ix, m h = Ok (true, h') ∧
    Relinks (λ id l, if decide (id = p)
                     then take k (children pn) ++ n :: drop k (children pn) else l)
            (λ id x, if decide (id = n) then Some p else x) ix h h' ∧
    (∀ id x, id ∉ drop k (take k (children pn) ++ n :: drop k (children pn)) →
       ix id x = x) ∧
    (∀ j id x, (k ≤ j)%nat →
       (take k (children pn) ++ n :: drop k (children pn)) !! j = Some id →
       ix id x = Idx (Z.of_nat j)) ∧
    linked h'.
Proof.
  intros Hl Hp Hi Hk Hn Hu ->.
  destruct (insert_steps p pn n nn (take k (children pn) ++ n :: drop k (children pn))
              k h Hp Hi Hn) as (h' & ix & E & HR & Hout & Hin).
  pose proof (NoDup_inserted _ k n (linked_NoDup _ _ _ Hl Hp) (Hu _ _ Hp)) as Hnd.
  exists h', ix. split; [exact E|]. split; [done|]. split; [done|].
  split; [by apply Hin|]. by eapply linked_inserted; [..|exact HR| |]; eauto.
Qed.

Lemma insertBefore_steps h p pn i c n :
  linked h → h !! p = Some pn → children pn !! i = Some c →
  DOM.insertBefore c n h
  = (DOM.write p (set_children (take i (children pn) ++ n :: drop i (children pn)));;
     kids ← DOM.childrenOf p;
     DOM.updateIndexes kids (Some (Z.of_nat i));;
     DOM.updateParentFields p n;;
     mret true) h.
Proof.
  intros Hl Hp Hc. destruct (Hl _ _ _ _ Hp Hc) as (cn & Hcn & Epar & Eidx).
  pose proof (listed_parent _ _ _ Hc) as Hi. apply lookup_lt_Some in Hc as Hlt.
  unfold DOM.insertBefore. rewrite (bind_Ok _ _ _ _ _ (DOM_read_Some _ _ _ Hcn)), Epar.
  cbv zeta. rewrite (bind_Ok _ _ _ _ _ (DOM_childrenOf _ _ _ Hp Hi)).
  rewrite Eidx. unfold DOM.jsNumber. cbn [indexPlus]. rewrite Z.add_0_r.
  by rewrite splice_insert by lia.
Qed.

Lemma insertAfter_steps h p pn i c n :
  linked h → h !! p = Some pn → children pn !! i = Some c →
  DOM.insertAfter c n h
  = (DOM.write p (set_children (take (S i) (children pn) ++ n :: drop (S i) (children pn)));;
     kids ← DOM.childrenOf p;
     DOM.updateIndexes kids (Some (Z.of_nat (S i)));;
     DOM.updateParentFields p n;;
     mret true) h.
Proof.
  intros Hl Hp Hc. destruct (Hl _ _ _ _ Hp Hc) as (cn & Hcn & Epar & Eidx).
  pose proof (listed_parent _ _ _ Hc) as Hi. apply lookup_lt_Some in Hc as Hlt.
  unfold DOM.insertAfter. rewrite (bind_Ok _ _ _ _ _ (DOM_read_Some _ _ _ Hcn)), Epar.
  cbv zeta. rewrite (bind_Ok _ _ _ _ _ (DOM_childrenOf _ _ _ Hp Hi)).
  rewrite Eidx. cbn [indexPlus].
  replace (Z.of_nat i + 1) with (Z.of_nat (S i)) by lia.
  by rewrite splice_insert by lia.
Qed.
End dom_linked_updates.
Section dom_theorems.
  Implicit Types h : Store.

Lemma delete_inserted {A} (l : list A) (k : nat) (x : A) :
  (k ≤ length l)%nat → delete k (take k l ++ x :: drop k l) = l.
Proof.
  intros Hk. rewrite delete_take_drop.
  rewrite take_app_length' by (rewrite length_take; lia).
  rewrite drop_app_ge by (rewrite length_take; lia).
  rewrite length_take, Nat.min_l by done.
  replace (S k - k)%nat with 1%nat by lia. cbn. rewrite drop_0. apply take_drop.
Qed.

(** A node that [create] has made. *)
Lemma create_unlisted h n0 n h1 :
  linked h → children n0 = [] → DOM.create n0 h = Ok (n, h1) →
  linked h1 ∧ h1 !! n = Some n0 ∧ unlisted h1 n.
Proof.
  intros Hl Hc E. unfold DOM.create in E. cbn in E. injection E as <- <-.
  destruct (linked_alloc _ n0 Hc Hl) as [Hl1 _]. split; [done|]. split.
  - by rewrite lookup_app_r, Nat.sub_diag.
  - intros q qn Hq Hin. apply list_elem_of_lookup in Hin as [j Hj].
    apply lookup_app_Some in Hq as [Hq|[_ Hq]].
    + destruct (Hl _ _ _ _ Hq Hj) as (dn & Hdn & _). apply lookup_lt_Some in Hdn. lia.
    + destruct (q - length h)%nat; [|done]. injection Hq as <-. by rewrite Hc in Hj.
Qed.

(** X23.  In a store whose children are linked to their parents,
    [drop()] on the child at the place [i] of a node, neither an attribute
    nor a namespace, returns [true] and takes the child out of the list:
    the children of the node are the others in their order, the child has
    no parent any more and no node lists it, every other list of children
    is as it was, and the store is linked again, the later children
    having moved down by one index. *)
Theorem dom_drop_listed (h : Store) (p : NodeId) (pn : RNode) (i : nat) (c : NodeId)
    (cn : RNode) :
  linked h → h !! p = Some pn → children pn !! i = Some c →
  h !! c = Some cn → isAttribute cn || isNamespace cn = false →
  ∃ h', DOM.drop_ c h = Ok (true, h') ∧ linked h' ∧ unlisted h' c ∧
    ∀ q qn, h !! q = Some qn →
      ∃ qn', h' !! q = Some qn' ∧ _type qn' = _type qn ∧
        children qn' = (if decide (q = p) then delete i (children pn) else children qn) ∧
        parent qn' = (if decide (q = c) then None else parent qn).
Proof.
  intros Hl Hp Hc Hcn Hty.
  destruct (dropNode_listed _ _ _ _ _ _ Hl Hp Hc Hcn Hty)
    as (h' & ix & E & [_ HR] & _ & _ & Hl' & Hu).
  exists h'. split; [exact E|]. split; [done|]. split; [done|].
  intros q qn Hq. destruct (HR _ _ Hq) as (qn' & Hq' & Ht & Hch & Hpa & _).
  exists qn'. done.
Qed.

(** X24.  [drop()] on a node that has a parent but whose [index] is no
    number -- after a parse, the DTD node and the node of the XML
    declaration, which the root does not list -- returns [true] and takes
    the first child of that parent out of its list, whatever node it is:
    the children of the parent are the others, the node dropped has no
    parent any more, and every index is as it was. *)
Theorem dom_drop_unindexed (h : Store) (c : NodeId) (cn : RNode) (p : NodeId)
    (pn : RNode) :
  h !! c = Some cn → isAttribute cn || isNamespace cn = false →
  parent cn = Some p → DOM.jsNumber (index cn) = None →
  h !! p = Some pn → isParent pn = true →
  Forall (λ k, is_Some (h !! k)) (children pn) →
  ∃ h', DOM.drop_ c h = Ok (true, h') ∧
    ∀ q qn, h !! q = Some qn →
      ∃ qn', h' !! q = Some qn' ∧ _type qn' = _type qn ∧
        children qn' = (if decide (q = p) then tail (children pn) else children qn) ∧
        parent qn' = (if decide (q = c) then None else parent qn) ∧
        index qn' = index qn.
Proof.
  intros Hcn Hty Epar Eidx Hp Hi Hk.
  unfold DOM.drop_, DOM.dropNode.
  rewrite (bind_Ok _ _ _ _ _ (DOM_read_Some _ _ _ Hcn)), Hty, Epar.
  rewrite (bind_Ok _ _ _ _ _ (DOM_childrenOf _ _ _ Hp Hi)).
  rewrite Eidx, splice_none.
  destruct (drop_steps_unindexed p pn c cn (tail (children pn)) h Hp Hi Hcn)
    as (h' & E & [_ HR]).
  { eapply Forall_forall. intros d Hd.
    eapply (proj1 (Forall_forall _ _) Hk). destruct (children pn); [done|].
    by apply elem_of_cons; right. }
  exists h'. split; [exact E|]. done.
Qed.
(** X25.  In a store whose children are linked to their parents,
    [insertBefore(n)] and [insertAfter(n)] on the DOM of the child [c] at
    the place [i] of a node, for a node [n] that no node lists (a node
    just created), return [true] and put [n] into the list before [c] and
    after it: the store is linked again, with [c] the next sibling of [n]
    in the one case and its previous sibling in the other. *)
Theorem dom_insert_sibling (h : Store) (p : NodeId) (pn : RNode) (i : nat)
    (c n : NodeId) (nn : RNode) :
  linked h → h !! p = Some pn → children pn !! i = Some c →
  h !! n = Some nn → unlisted h n →
  (∃ h' pn', DOM.insertBefore c n h = Ok (true, h') ∧ linked h' ∧
     h' !! p = Some pn' ∧
     children pn' = take i (children pn) ++ n :: drop i (children pn) ∧
     DOM.nextSibling n h' = Ok (NodeRef c, h')) ∧
  (∃ h' pn', DOM.insertAfter c n h = Ok (true, h') ∧ linked h' ∧
     h' !! p = Some pn' ∧
     children pn' = take (S i) (children pn) ++ n :: drop (S i) (children pn) ∧
     DOM.previousSibling n h' = Ok (NodeRef c, h')).
Proof.
  intros Hl Hp Hc Hn Hu. pose proof (listed_parent _ _ _ Hc) as Hi.
  apply lookup_lt_Some in Hc as Hlt. split.
  - destruct (insert_listed h p pn i n nn (DOM.insertBefore c n) Hl Hp Hi
                ltac:(lia) Hn Hu (insertBefore_steps _ _ _ _ _ _ Hl Hp Hc))
      as (h' & ix & E & [_ HR] & _ & _ & Hl').
    destruct (HR _ _ Hp) as (pn' & Hp' & _ & Hch & _). rewrite decide_True in Hch by done.
    exists h', pn'. split; [exact E|]. split; [done|]. split; [done|]. split; [done|].
    assert (Hi' : children pn' !! i = Some n).
    { rewrite Hch, lookup_inserted by lia. rewrite decide_False by lia.
      by rewrite decide_True. }
    rewrite (nextSibling_listed _ _ _ _ _ Hl' Hp' Hi'). unfold nodeAt.
    rewrite Hch, lookup_inserted by lia. rewrite !decide_False by lia.
    replace (S i - 1)%nat with i by lia. by rewrite Hc.
  - destruct (insert_listed h p pn (S i) n nn (DOM.insertAfter c n) Hl Hp Hi
                ltac:(lia) Hn Hu (insertAfter_steps _ _ _ _ _ _ Hl Hp Hc))
      as (h' & ix & E & [_ HR] & _ & _ & Hl').
    destruct (HR _ _ Hp) as (pn' & Hp' & _ & Hch & _). rewrite decide_True in Hch by done.
    exists h', pn'. split; [exact E|]. split; [done|]. split; [done|]. split; [done|].
    assert (Hi' : children pn' !! S i = Some n).
    { rewrite Hch, lookup_inserted by lia. rewrite decide_False by lia.
      by rewrite decide_True. }
    rewrite (previousSibling_listed _ _ _ _ _ Hl' Hp' Hi'). cbn. unfold nodeAt.
    rewrite Hch, lookup_inserted by lia. rewrite decide_True by lia. by rewrite Hc.
Qed.

(** The indices after a node has been put in at the place [k] and taken
    out again. *)
Lemma reindexed_back (kids : list NodeId) (k : nat) (n q : NodeId) (x : JsIndex)
    (ix1 ix2 : NodeId → JsIndex → JsIndex) :
  NoDup kids → n ∉ kids → (k ≤ length kids)%nat → q ≠ n →
  (∀ j, kids !! j = Some q → x = Idx (Z.of_nat j)) →
  (∀ id y, id ∉ drop k (take k kids ++ n :: drop k kids) → ix1 id y = y) →
  (∀ id y, id ∉ drop k kids → ix2 id y = y) →
  (∀ j id y, (k ≤ j)%nat → kids !! j = Some id → ix2 id y = Idx (Z.of_nat j)) →
  ix2 q (ix1 q x) = x.
Proof.
  intros Hnd Hn Hk Hq Hx Hout1 Hout2 Hin2.
  destruct (decide (q ∈ drop k kids)) as [Hin|Hnin].
  - apply list_elem_of_lookup in Hin as [m Hm]. rewrite lookup_drop in Hm.
    assert (Hle : (k ≤ k + m)%nat) by lia.
    rewrite (Hin2 _ _ (ix1 q x) Hle Hm). symmetry. by apply Hx.
  - rewrite Hout2 by done. apply Hout1. intros Hin. apply Hnin.
    rewrite drop_app_length' in Hin by (rewrite length_take; lia).
    by apply elem_of_cons in Hin as [?|?].
Qed.

(** X26.  Putting a node in and dropping it again changes nothing but the
    node itself: after [insertBefore(n)] on the DOM of a child [c], for a
    node [n] that no node lists and that is neither an attribute nor a
    namespace, [drop()] on [n] returns [true]; the store is linked, no
    node lists [n], and every other node has the children, the parent and
    the index it had before the two calls. *)
Theorem dom_insert_then_drop (h : Store) (p : NodeId) (pn : RNode) (i : nat)
    (c n : NodeId) (nn : RNode) :
  linked h → h !! p = Some pn → children pn !! i = Some c →
  h !! n = Some nn → unlisted h n → isAttribute nn || isNamespace nn = false →
  ∃ h' h'', DOM.insertBefore c n h = Ok (true, h') ∧
    DOM.drop_ n h' = Ok (true, h'') ∧ linked h'' ∧ unlisted h'' n ∧
    ∀ q qn, h !! q = Some qn →
      ∃ qn'', h'' !! q = Some qn'' ∧ _type qn'' = _type qn ∧
        children qn'' = children qn ∧
        (q ≠ n → parent qn'' = parent qn ∧ index qn'' = index qn).
Proof.
  intros Hl Hp Hc Hn Hu Hty. pose proof (listed_parent _ _ _ Hc) as Hi.
  apply lookup_lt_Some in Hc as Hlt.
  destruct (insert_listed h p pn i n nn (DOM.insertBefore c n) Hl Hp Hi
              ltac:(lia) Hn Hu (insertBefore_steps _ _ _ _ _ _ Hl Hp Hc))
    as (h' & ix1 & E1 & [_ HR1] & Hout1 & _ & Hl').
  destruct (HR1 _ _ Hp) as (pn' & Hp' & _ & Hch & _). rewrite decide_True in Hch by done.
  destruct (HR1 _ _ Hn) as (nn' & Hn' & Htn & _).
  assert (Hi' : children pn' !! i = Some n).
  { rewrite Hch, lookup_inserted by lia. rewrite decide_False by lia.
    by rewrite decide_True. }
  destruct (dropNode_listed h' p pn' i n nn' Hl' Hp' Hi' Hn')
    as (h'' & ix2 & E2 & [_ HR2] & Hout2 & Hin2 & Hl'' & Hu'').
  { unfold isAttribute, isNamespace in *. by rewrite Htn. }
  rewrite Hch, delete_inserted in HR2, Hout2, Hin2 by lia.
  exists h', h''. split; [exact E1|]. split; [exact E2|]. split; [done|]. split; [done|].
  intros q qn Hq. destruct (HR1 _ _ Hq) as (qn' & Hq' & Ht1 & Hc1 & Hp1 & Hi1).
  destruct (HR2 _ _ Hq') as (qn'' & Hq'' & Ht2 & Hc2 & Hp2 & Hi2).
  exists qn''. split; [done|]. split; [congruence|]. split.
  - rewrite Hc2, Hc1. destruct (decide (q = p)) as [->|Hne]; [congruence|done].
  - intros Hne. split.
    + rewrite Hp2, Hp1. by rewrite !decide_False.
    + rewrite Hi2, Hi1.
      assert (Hle : (i ≤ length (children pn))%nat) by lia.
      apply (reindexed_back (children pn) i n q (index qn) ix1 ix2
               (linked_NoDup _ _ _ Hl Hp) (Hu _ _ Hp) Hle Hne);
        [|exact Hout1|exact Hout2|exact Hin2].
      intros j Hj. destruct (Hl _ _ _ _ Hp Hj) as (dn & Hdn & _ & Ei). congruence.
Qed.
Lemma pushChild_listed h p pn n nn :
  linked h → h !! p = Some pn → isParent pn = true →
  h !! n = Some nn → unlisted h n →
  ∃ h' pn', DOM.pushChild p n h = Ok (true, h') ∧ linked h' ∧
    h' !! p = Some pn' ∧ children pn' = children pn ++ [n] ∧
    ∀ q qn, q ≠ p → h !! q = Some qn →
      ∃ qn', h' !! q = Some qn' ∧ children qn' = children qn.
Proof.
  intros Hl Hp Hi Hn Hu.
  assert (Hl' : take (length (children pn)) (children pn)
                ++ n :: drop (length (children pn)) (children pn) = children pn ++ [n]).
  { by rewrite take_ge, drop_ge by lia. }
  destruct (insert_listed h p pn (length (children pn)) n nn (DOM.pushChild p n)
              Hl Hp Hi ltac:(lia) Hn Hu) as (h' & ix & E & [_ HR] & _ & _ & Hlk).
  { unfold DOM.pushChild. rewrite (bind_Ok _ _ _ _ _ (DOM_childrenOf _ _ _ Hp Hi)).
    rewrite Hl', !write_bind.
    rewrite !(bind_Ok _ _ _ _ _ (childrenOf_written _ _ (children pn ++ [n]) _ Hp Hi)).
    rewrite length_app. cbn [length].
    by replace (Z.of_nat (length (children pn) + 1) - 1)
      with (Z.of_nat (length (children pn))) by lia. }
  destruct (HR _ _ Hp) as (pn' & Hp' & _ & Hch & _).
  rewrite decide_True, Hl' in Hch by done.
  exists h', pn'. split; [exact E|]. split; [done|]. split; [done|]. split; [done|].
  intros q qn Hne Hq. destruct (HR _ _ Hq) as (qn' & Hq' & _ & Hc' & _).
  exists qn'. by rewrite decide_False in Hc'.
Qed.

(** X27.  In a store whose children are linked to their parents,
    [addChild(n)], for a node [n] that no node lists and that is neither an
    attribute, a namespace nor a root, returns [true] and appends [n]: on
    the DOM of an element to the children of the element, and on the DOM of
    the root, when [n] is an element, to the children of the root element,
    not of the root; without a root element it returns [false] and
    changes nothing.  The store is linked again. *)
Theorem dom_add_child (h : Store) (cur : NodeId) (cn : RNode) (n : NodeId) (nn : RNode) :
  linked h → h !! cur = Some cn → h !! n = Some nn → unlisted h n →
  isAttribute nn || isNamespace nn || isRoot nn = false →
  (isElement cn = true →
     ∃ h' cn', DOM.addChild cur n h = Ok (true, h') ∧ linked h' ∧
       h' !! cur = Some cn' ∧ children cn' = children cn ++ [n]) ∧
  (∀ r, obj cn = RootB r → isElement nn = true →
     match RootNode.rootElement r with
     | None => DOM.addChild cur n h = Ok (false, h)
     | Some e =>
         ∀ en, h !! e = Some en → isElement en = true →
           ∃ h' en' cn', DOM.addChild cur n h = Ok (true, h') ∧ linked h' ∧
             h' !! e = Some en' ∧ children en' = children en ++ [n] ∧
             h' !! cur = Some cn' ∧ children cn' = children cn
     end).
Proof.
  intros Hl Hc Hn Hu Hty.
  apply orb_false_iff in Hty as [Hty Hr]. apply orb_false_iff in Hty as [Ha Hns].
  assert (Hstart :
            isParent cn = true →
            DOM.addChild cur n h
            = (if isElement cn then DOM.pushChild cur n
               else if isElement nn then
                 match obj cn with
                 | RootB r =>
                     match RootNode.rootElement r with
                     | Some e => DOM.pushChild e n
                     | None => mret false
                     end
                 | _ => mret false
                 end
               else DOM.pushChild cur n) h).
  { intros Hi. unfold DOM.addChild.
    rewrite (bind_Ok _ _ _ _ _ (DOM_read_Some _ _ _ Hc)).
    rewrite (bind_Ok _ _ _ _ _ (DOM_read_Some _ _ _ Hn)).
    rewrite Hi, Hr. cbn [negb orb].
    unfold isAttribute, isNamespace, isRoot in Ha, Hns, Hr.
    destruct (_type nn); try done. }
  split.
  - intros He.
    assert (Hi : isParent cn = true) by (unfold isParent; by rewrite He, orb_true_r).
    rewrite (Hstart Hi), He.
    destruct (pushChild_listed h cur cn n nn Hl Hc Hi Hn Hu)
      as (h' & cn' & E & Hl' & Hc' & Hch & _).
    by exists h', cn'.
  - intros r Hobj Hen.
    assert (Hroot : isRoot cn = true).
    { unfold isRoot, _type. by rewrite Hobj. }
    assert (He : isElement cn = false).
    { unfold isElement, _type. by rewrite Hobj. }
    assert (Hi : isParent cn = true) by (unfold isParent; by rewrite Hroot).
    rewrite (Hstart Hi), He, Hen, Hobj. destruct (RootNode.rootElement r) as [e|]; [|done].
    intros en Hen' Hee.
    assert (Hie : isParent en = true) by (unfold isParent; by rewrite Hee, orb_true_r).
    assert (Hne : e ≠ cur).
    { intros ->. assert (en = cn) as -> by congruence. congruence. }
    destruct (pushChild_listed h e en n nn Hl Hen' Hie Hn Hu)
      as (h' & en' & E & Hl' & He' & Hch & Hoth).
    destruct (Hoth cur cn (not_eq_sym Hne) Hc) as (cn' & Hc' & Hcc).
    exists h', en', cn'. done.
Qed.

(** X28.  In a store whose children are linked to their parents,
    [siblings()] on the child at the place [i] of a node returns the other
    children of the node, in their order, and changes nothing. *)
Theorem dom_siblings_listed (h : Store) (p : NodeId) (pn : RNode) (i : nat)
    (c : NodeId) :
  linked h → h !! p = Some pn → children pn !! i = Some c →
  DOM.siblings c h = Ok (delete i (children pn), h) ∧
  (c ∉ delete i (children pn)) ∧
  (∀ d, d ∈ children pn → d ≠ c → d ∈ delete i (children pn)).
Proof.
  intros Hl Hp Hc. destruct (Hl _ _ _ _ Hp Hc) as (cn & Hcn & Epar & Eidx).
  pose proof (listed_parent _ _ _ Hc) as Hi.
  pose proof (linked_NoDup _ _ _ Hl Hp) as Hnd.
  split; [|split].
  - unfold DOM.siblings. rewrite (bind_Ok _ _ _ _ _ (DOM_read_Some _ _ _ Hcn)), Epar.
    rewrite (bind_Ok _ _ _ _ _ (DOM_childrenOf _ _ _ Hp Hi)).
    rewrite Eidx. unfold DOM.jsNumber. cbn [indexPlus]. by rewrite Z.add_0_r, splice_delete.
  - intros Hin. apply list_elem_of_lookup in Hin as [j Hj].
    rewrite list_lookup_delete in Hj.
    pose proof (NoDup_lookup _ _ _ _ Hnd Hc Hj). destruct (decide (j < i)%nat); lia.
  - intros d Hd Hne. apply list_elem_of_lookup in Hd as [j Hj].
    apply list_elem_of_lookup.
    destruct (decide (j < i)%nat) as [Hlt|Hge].
    + exists j. by rewrite list_lookup_delete_lt.
    + assert (j ≠ i) by (intros ->; congruence).
      exists (j - 1)%nat. rewrite list_lookup_delete_ge by lia.
      by replace (S (j - 1)) with j by lia.
Qed.
End dom_theorems.

(** The children [b], [t] and [c] of the element [a] of
    [<a><b/>t<c>u</c></a>]: without [t], [c] is the second child. *)
Lemma dom_drop_listed_witness :
  ∃ root st,
    parseXml 60 "<a><b/>t<c>u</c></a>" defaultConfig = Ok (root, st) ∧
    children <$> XmlParser.heap st !! 3%nat = Some [4; 5; 6]%nat ∧
    ∃ h', DOM.drop_ 5 (XmlParser.heap st) = Ok (true, h') ∧ linked h' ∧ unlisted h' 5 ∧
      children <$> h' !! 3%nat = Some [4; 6]%nat ∧
      index <$> h' !! 6%nat = Some (Idx 1).
Proof.
  eexists _, _. split; [vm_compute; reflexivity|]. split; [reflexivity|].
  match goal with
  | |- ∃ h', DOM.drop_ _ ?h = _ ∧ _ =>
      assert (Hl : linked h);
      [|destruct (dom_drop_listed h 3 _ 1 5 _ Hl eq_refl eq_refl eq_refl eq_refl)
          as (h' & E & Hl' & Hu & Hall)]
  end.
  - eapply (@runParse_linked _ (lexerInstance XmlLexerC) 60
              (Lex.new "<a><b/>t<c>u</c></a>" defaultLexerConfig) defaultConfig).
    vm_compute. reflexivity.
  - exists h'. split; [exact E|]. split; [exact Hl'|]. split; [exact Hu|].
    destruct (Hall 3%nat _ eq_refl) as (qn' & Hq' & _ & Hch & _).
    split; [rewrite Hq'; cbn; by rewrite Hch|].
    assert (H3 : h' !! 3%nat = Some qn') by exact Hq'.
    assert (H6 : children qn' !! 1%nat = Some 6%nat) by by rewrite Hch.
    destruct (Hl' _ _ _ _ H3 H6) as (n6 & Hn6 & _ & Ei). rewrite Hn6. cbn. by rewrite Ei.
Defined.

(** The document [<?xml version='1.0'?><a/>]: the root lists the element
    [a] alone; dropping the node of the declaration takes [a] out of the
    list. *)
Lemma dom_drop_unindexed_witness :
  ∃ root st rn dn,
    parseXml 60 "<?xml version='1.0'?><a/>" defaultConfig = Ok (root, st) ∧
    XmlParser.heap st !! 0%nat = Some rn ∧ children rn = [5%nat] ∧
    XmlParser.heap st !! 3%nat = Some dn ∧ _type dn = XmlDecl ∧
    ∃ h' rn', DOM.drop_ 3 (XmlParser.heap st) = Ok (true, h') ∧
      h' !! 0%nat = Some rn' ∧ children rn' = [].
Proof.
  eexists _, _, _, _. split; [vm_compute; reflexivity|]. split; [reflexivity|].
  split; [reflexivity|]. split; [reflexivity|]. split; [reflexivity|].
  match goal with
  | |- ∃ h' rn', DOM.drop_ _ ?h = _ ∧ _ =>
      assert (HF : Forall (λ k, is_Some (h !! k)) [5%nat])
        by (apply Forall_cons_2; [eexists; reflexivity|apply Forall_nil_2]);
      destruct (dom_drop_unindexed h 3 _ 0 _ eq_refl eq_refl eq_refl eq_refl eq_refl
                  eq_refl HF) as (h' & E & Hh')
  end.
  destruct (Hh' 0%nat _ eq_refl) as (rn' & Hr & _ & Hch & _).
  exists h', rn'. split; [exact E|]. split; [exact Hr|exact Hch].
Defined.

(** A text node made by [createText], put before and after the text [t]
    of [<a><b/>t<c>u</c></a>]. *)
Lemma dom_insert_sibling_witness :
  ∃ root st h n,
    parseXml 60 "<a><b/>t<c>u</c></a>" defaultConfig = Ok (root, st) ∧
    children <$> XmlParser.heap st !! 3%nat = Some [4; 5; 6]%nat ∧
    DOM.createText "x" (XmlParser.heap st) = Ok (n, h) ∧
    (∃ h' pn', DOM.insertBefore 5 n h = Ok (true, h') ∧ linked h' ∧
       h' !! 3%nat = Some pn' ∧ children pn' = [4; n; 5; 6]%nat ∧
       DOM.nextSibling n h' = Ok (NodeRef 5, h')) ∧
    (∃ h' pn', DOM.insertAfter 5 n h = Ok (true, h') ∧ linked h' ∧
       h' !! 3%nat = Some pn' ∧ children pn' = [4; 5; n; 6]%nat ∧
       DOM.previousSibling n h' = Ok (NodeRef 5, h')).
Proof.
  eexists _, _, _, _. split; [vm_compute; reflexivity|]. split; [reflexivity|].
  split; [reflexivity|].
  match goal with
  | |- (∃ h' pn', DOM.insertBefore _ ?n ?h = _ ∧ _) ∧ _ =>
      assert (Hl : linked h ∧ h !! n = Some (newTextNode "x") ∧ unlisted h n);
      [|destruct Hl as (Hl & Hn & Hu);
        exact (dom_insert_sibling h 3 _ 1 5 n _ Hl eq_refl eq_refl Hn Hu)]
  end.
  eapply create_unlisted; [|reflexivity|reflexivity].
  eapply (@runParse_linked _ (lexerInstance XmlLexerC) 60
            (Lex.new "<a><b/>t<c>u</c></a>" defaultLexerConfig) defaultConfig).
  vm_compute. reflexivity.
Defined.

(** The same text node, put before [t] and dropped again: [a] has its
    three children as before. *)
Lemma dom_insert_then_drop_witness :
  ∃ root st h n,
    parseXml 60 "<a><b/>t<c>u</c></a>" defaultConfig = Ok (root, st) ∧
    children <$> XmlParser.heap st !! 3%nat = Some [4; 5; 6]%nat ∧
    DOM.createText "x" (XmlParser.heap st) = Ok (n, h) ∧
    ∃ h' h'', DOM.insertBefore 5 n h = Ok (true, h') ∧
      DOM.drop_ n h' = Ok (true, h'') ∧ linked h'' ∧ unlisted h'' n ∧
      children <$> h'' !! 3%nat = Some [4; 5; 6]%nat.
Proof.
  eexists _, _, _, _. split; [vm_compute; reflexivity|]. split; [reflexivity|].
  split; [reflexivity|].
  match goal with
  | |- ∃ h' h'', DOM.insertBefore _ ?n ?h = _ ∧ _ =>
      assert (Hl : linked h ∧ h !! n = Some (newTextNode "x") ∧ unlisted h n);
      [|destruct Hl as (Hl & Hn & Hu);
        destruct (dom_insert_then_drop h 3 _ 1 5 n _ Hl eq_refl eq_refl Hn Hu eq_refl)
          as (h' & h'' & E1 & E2 & Hl'' & Hu'' & Hall)]
  end.
  - eapply create_unlisted; [|reflexivity|reflexivity].
    eapply (@runParse_linked _ (lexerInstance XmlLexerC) 60
              (Lex.new "<a><b/>t<c>u</c></a>" defaultLexerConfig) defaultConfig).
    vm_compute. reflexivity.
  - exists h', h''. split; [exact E1|]. split; [exact E2|]. split; [exact Hl''|].
    split; [exact Hu''|].
    destruct (Hall 3%nat _ eq_refl) as (qn'' & Hq'' & _ & Hch & _).
    rewrite Hq''. cbn. by rewrite Hch.
Defined.

(** A comment made by [createComment], added to the element [c] of
    [<a><b/>t<c>u</c></a>]. *)
Lemma dom_add_child_witness :
  ∃ root st h n,
    parseXml 60 "<a><b/>t<c>u</c></a>" defaultConfig = Ok (root, st) ∧
    children <$> XmlParser.heap st !! 6%nat = Some [7%nat] ∧
    DOM.createComment "k" (XmlParser.heap st) = Ok (n, h) ∧
    ∃ h' cn', DOM.addChild 6 n h = Ok (true, h') ∧ linked h' ∧
      h' !! 6%nat = Some cn' ∧ children cn' = [7; n]%nat.
Proof.
  eexists _, _, _, _. split; [vm_compute; reflexivity|]. split; [reflexivity|].
  split; [reflexivity|].
  match goal with
  | |- ∃ h' cn', DOM.addChild _ ?n ?h = _ ∧ _ =>
      assert (Hl : linked h ∧ h !! n = Some (newCommentNode "k") ∧ unlisted h n);
      [|destruct Hl as (Hl & Hn & Hu);
        exact (proj1 (dom_add_child h 6 _ n _ Hl eq_refl Hn Hu eq_refl) eq_refl)]
  end.
  eapply create_unlisted; [|reflexivity|reflexivity].
  eapply (@runParse_linked _ (lexerInstance XmlLexerC) 60
            (Lex.new "<a><b/>t<c>u</c></a>" defaultLexerConfig) defaultConfig).
  vm_compute. reflexivity.
Defined.

(** The siblings of the text [t] of [<a><b/>t<c>u</c></a>]. *)
Lemma dom_siblings_listed_witness :
  ∃ root st,
    parseXml 60 "<a><b/>t<c>u</c></a>" defaultConfig = Ok (root, st) ∧
    children <$> XmlParser.heap st !! 3%nat = Some [4; 5; 6]%nat ∧
    DOM.siblings 5 (XmlParser.heap st) = Ok ([4; 6]%nat, XmlParser.heap st).
Proof.
  eexists _, _. split; [vm_compute; reflexivity|]. split; [reflexivity|].
  match goal with
  | |- DOM.siblings _ ?h = _ =>
      assert (Hl : linked h);
      [|exact (proj1 (dom_siblings_listed h 3 _ 1 5 Hl eq_refl eq_refl))]
  end.
  eapply (@runParse_linked _ (lexerInstance XmlLexerC) 60
            (Lex.new "<a><b/>t<c>u</c></a>" defaultLexerConfig) defaultConfig).
  vm_compute. reflexivity.
Defined.

(** ** The DOM: the nodes below a node *)

Section dom_descendants.
  Context `{Builtins}.
  Variable h : Store.

(** [traverseAllRecursive] appends the nodes of the tree that pass the
    test, in the order of the walk. *)
Lemma traverseAllRecursive_spec t d : ∀ fuel id acc,
  treeOk h d id = true → (d < fuel)%nat →
  DOM.traverseAllRecursive fuel id t acc h
  = Ok (acc ++ filter (λ x, passes h t x) (treeNodes h d id), h).
Proof.
  induction d as [|d IH]; intros fuel id acc Hok Hd;
    (destruct fuel as [|fuel]; [lia|]); cbn [DOM.traverseAllRecursive];
    destruct (treeOk_lookup h _ _ Hok) as [n Hn];
    rewrite (bind_Ok _ _ _ _ _ (DOM_read_Some _ _ _ Hn)); cbv zeta;
    unfold treeNodes; rewrite (filter_passes_cons h t id n) by done.
  - cbn in Hok. rewrite Hn, orb_false_r in Hok.
    apply negb_true_iff in Hok. rewrite Hok. cbn. rewrite app_nil_r.
    by destruct (t n); rewrite ?app_nil_r.
  - destruct (isParent n) eqn:Hp.
    2:{ rewrite (descendants_leaf h _ id n) by done. rewrite filter_nil, app_nil_r.
        by destruct (t n); rewrite ?app_nil_r. }
    cbn [descendants]. rewrite (childrenOf_parent h id n) by done.
    assert (Hkids : ∀ c, c ∈ children n → treeOk h d c = true).
    { intros c Hc. destruct (treeOk_children h _ _ _ _ Hok Hn Hp Hc) as (d' & [= <-] & ?).
      done. }
    assert (E : (if t n then acc ++ [id] else acc) = acc ++ (if t n then [id] else []))
      by (destruct (t n); by rewrite ?app_nil_r).
    rewrite E, app_assoc. generalize (acc ++ (if t n then [id] else [])). clear E Hok Hn.
    induction (children n) as [|c cs IHc]; intros acc'.
    + cbn [flat_map]. by rewrite filter_nil, app_nil_r.
    + cbn [flat_map].
      rewrite (bind_Ok _ _ _ _ _ (IH fuel c acc' (Hkids c ltac:(left)) ltac:(lia))).
      rewrite IHc by (intros c' Hc'; apply Hkids; by right).
      unfold treeNodes. by rewrite filter_app, app_assoc.
Qed.

(** X29.  On a store that holds the tree below a node, [descendants()]
    returns the nodes below the node in document order -- each child
    followed by its own descendants, the children from first to last --
    and changes nothing; they are the nodes that the descendant axis of the
    XPath evaluator collects from the same node. *)
Theorem dom_descendants_walk (d fuel : nat) (id : NodeId) (n : RNode) :
  h !! id = Some n → treeOk h d id = true → (d < fuel)%nat →
  DOM.descendants fuel id h = Ok (descendants h d id, h) ∧
  findDescendants h fuel n (λ _, Ok true) [] = Ok (setOfList (descendants h d id)).
Proof.
  intros Hn Hok Hd.
  assert (Hall : Forall (λ c, is_Some (h !! c)) (descendants h d id)).
  { apply Forall_forall. intros x Hx.
    eapply treeOk_lookup, descendants_treeOk; done. }
  split.
  - unfold DOM.descendants. rewrite (bind_Ok _ _ _ _ _ (DOM_read_Some _ _ _ Hn)).
    destruct (isParent n) eqn:Hp; cbn [negb].
    + rewrite (bind_Ok _ _ _ _ _ (traverseAllRecursive_spec _ d fuel id [] Hok Hd)).
      unfold treeNodes. rewrite (filter_passes_cons h _ id n) by done. cbn.
      by rewrite filter_passes_true.
    + by rewrite (descendants_leaf h _ id n).
  - rewrite (findDescendants_spec h (λ _, Ok true) (λ _, true) d fuel id n []); try done.
    by rewrite filter_passes_true.
Qed.
End dom_descendants.

(** The nodes below the element [a] of [<a><b/>t<c>u</c></a>]. *)
Lemma dom_descendants_walk_witness :
  ∃ root st n,
    parseXml 60 "<a><b/>t<c>u</c></a>" defaultConfig = Ok (root, st) ∧
    XmlParser.heap st !! 3%nat = Some n ∧
    ∀ B : Builtins,
      DOM.descendants 3 3 (XmlParser.heap st) = Ok ([4; 5; 6; 7]%nat, XmlParser.heap st) ∧
      findDescendants (XmlParser.heap st) 3 n (λ _, Ok true) [] = Ok [4; 5; 6; 7]%nat.
Proof.
  eexists _, _, _. split; [vm_compute; reflexivity|]. split; [reflexivity|].
  intros B.
  match goal with
  | |- DOM.descendants _ _ ?h = _ ∧ _ =>
      exact (dom_descendants_walk h 2 3 3 _ eq_refl eq_refl ltac:(lia))
  end.
Defined.
